(** * Stage-2 structural parser of simdjson: a shallow embedding

    The development follows [src/generic/stage2/structural_parser.h].
    Machine integers are [Z] with their wrap-around written out, the C++
    arrays (input buffer, structural indexes, tape, string buffer, scope
    stack, return-address stack) are lists accessed by index, and an access
    outside an array, which is undefined behaviour in C++, makes the
    computation stop with [None].  The [goto] state machine of
    [parse_structurals] is a [step] function on labels, iterated by [run].
    The calls to the logger are left out: they read the parser and write
    nothing to it. *)

From Stdlib Require Import ZArith Lia List Bool.
From stdpp Require Import base option list.

Local Open Scope Z_scope.

(** ** Machine integers and arrays *)

Definition wrap32 (x : Z) : Z := x mod 2 ^ 32.
Definition wrap64 (x : Z) : Z := x mod 2 ^ 64.

(** [a[i]] as an rvalue; [None] outside the array. *)
Definition load {A : Type} (a : list A) (i : Z) : option A :=
  if decide (0 ≤ i) then a !! Z.to_nat i else None.

(** [a[i] = v]; [None] outside the array. *)
Definition store {A : Type} (a : list A) (i : Z) (v : A) : option (list A) :=
  if decide (0 ≤ i < Z.of_nat (length a)) then Some (<[Z.to_nat i := v]> a) else None.

(** [memcpy(a + i, bs, |bs|)]; [None] when the destination does not fit. *)
Definition store_bytes (a : list Z) (i : Z) (bs : list Z) : option (list Z) :=
  if decide (0 ≤ i ∧ i + Z.of_nat (length bs) ≤ Z.of_nat (length a))
  then Some (take (Z.to_nat i) a ++ bs ++ drop (Z.to_nat i + length bs) a)
  else None.

(** The four bytes of a [uint32_t], least significant first. *)
Definition le32_bytes (x : Z) : list Z :=
  [ Z.land x 255; Z.land (Z.shiftr x 8) 255;
    Z.land (Z.shiftr x 16) 255; Z.land (Z.shiftr x 24) 255 ].

Definition le32_value (bs : list Z) : option Z :=
  match bs with
  | [b0; b1; b2; b3] => Some (b0 + 256 * b1 + 65536 * b2 + 16777216 * b3)
  | _ => None
  end.

(** ** Enumerations *)

Inductive tape_type : Set :=
  | ROOT | START_ARRAY | START_OBJECT | END_ARRAY | END_OBJECT
  | STRING | INT64 | UINT64 | DOUBLE | TRUE_VALUE | FALSE_VALUE | NULL_VALUE.

Inductive error_code : Set :=
  | SUCCESS | UNINITIALIZED | EMPTY | STRING_ERROR | NUMBER_ERROR
  | T_ATOM_ERROR | F_ATOM_ERROR | N_ATOM_ERROR | DEPTH_ERROR | TAPE_ERROR.

Global Instance tape_type_eq_dec : EqDecision tape_type.
Proof. solve_decision. Defined.

Global Instance error_code_eq_dec : EqDecision error_code.
Proof. solve_decision. Defined.

(** The labels of [parse_structurals]. *)
Module L.
Inductive label : Set :=
  | object_begin | object_key_state | object_continue | scope_end
  | array_begin | main_array_switch | array_continue | finish | error.
End L.

Global Instance label_eq_dec : EqDecision L.label.
Proof. solve_decision. Defined.

(** [INIT_ADDRESSES()] without computed goto: [{ 0, 1, 2 }]. *)
Record unified_machine_addresses : Set := {
  addr_array_continue : Z;
  addr_finish : Z;
  addr_object_continue : Z
}.

Definition addresses : unified_machine_addresses :=
  {| addr_array_continue := 0; addr_finish := 1; addr_object_continue := 2 |}.

(** ** Parser state *)

Record scope_descriptor : Set := {
  tape_index : Z;   (* uint32_t *)
  count : Z         (* uint32_t *)
}.

Record document : Set := {
  tape : list Z;        (* uint64_t words *)
  string_buf : list Z   (* bytes *)
}.

Record dom_parser_implementation : Set := {
  buf : list Z;                       (* padded input bytes *)
  len : Z;
  structural_indexes : list Z;
  n_structural_indexes : Z;
  next_structural_index : Z;
  containing_scope : list scope_descriptor;
  ret_address : list Z;
  max_depth : Z;
  parser_error : error_code;          (* the field [error] *)
  doc : document
}.

(** [structural_parser] with its base [structural_iterator]; the pointers
    [current_structural], [tape.next_tape_loc] and [current_string_buf_loc]
    are kept as offsets from the start of their arrays. *)
Record structural_parser : Set := {
  parser : dom_parser_implementation;
  current_structural : Z;
  next_tape_loc : Z;
  current_string_buf_loc : Z;
  depth : Z                           (* uint32_t *)
}.

Definition set_tape (t : list Z) (d : document) : document :=
  {| tape := t; string_buf := string_buf d |}.

Definition set_string_buf (b : list Z) (d : document) : document :=
  {| tape := tape d; string_buf := b |}.

Definition set_doc (d : document) (p : dom_parser_implementation) : dom_parser_implementation :=
  {| buf := buf p; len := len p; structural_indexes := structural_indexes p;
     n_structural_indexes := n_structural_indexes p;
     next_structural_index := next_structural_index p;
     containing_scope := containing_scope p; ret_address := ret_address p;
     max_depth := max_depth p; parser_error := parser_error p; doc := d |}.

Definition set_containing_scope (c : list scope_descriptor) (p : dom_parser_implementation)
  : dom_parser_implementation :=
  {| buf := buf p; len := len p; structural_indexes := structural_indexes p;
     n_structural_indexes := n_structural_indexes p;
     next_structural_index := next_structural_index p;
     containing_scope := c; ret_address := ret_address p;
     max_depth := max_depth p; parser_error := parser_error p; doc := doc p |}.

Definition set_ret_address (r : list Z) (p : dom_parser_implementation)
  : dom_parser_implementation :=
  {| buf := buf p; len := len p; structural_indexes := structural_indexes p;
     n_structural_indexes := n_structural_indexes p;
     next_structural_index := next_structural_index p;
     containing_scope := containing_scope p; ret_address := r;
     max_depth := max_depth p; parser_error := parser_error p; doc := doc p |}.

Definition set_parser_error (e : error_code) (p : dom_parser_implementation)
  : dom_parser_implementation :=
  {| buf := buf p; len := len p; structural_indexes := structural_indexes p;
     n_structural_indexes := n_structural_indexes p;
     next_structural_index := next_structural_index p;
     containing_scope := containing_scope p; ret_address := ret_address p;
     max_depth := max_depth p; parser_error := e; doc := doc p |}.

Definition set_next_structural_index (n : Z) (p : dom_parser_implementation)
  : dom_parser_implementation :=
  {| buf := buf p; len := len p; structural_indexes := structural_indexes p;
     n_structural_indexes := n_structural_indexes p;
     next_structural_index := n;
     containing_scope := containing_scope p; ret_address := ret_address p;
     max_depth := max_depth p; parser_error := parser_error p; doc := doc p |}.

Definition set_parser (p : dom_parser_implementation) (sp : structural_parser) : structural_parser :=
  {| parser := p; current_structural := current_structural sp;
     next_tape_loc := next_tape_loc sp;
     current_string_buf_loc := current_string_buf_loc sp; depth := depth sp |}.

Definition set_current_structural (c : Z) (sp : structural_parser) : structural_parser :=
  {| parser := parser sp; current_structural := c;
     next_tape_loc := next_tape_loc sp;
     current_string_buf_loc := current_string_buf_loc sp; depth := depth sp |}.

Definition set_next_tape_loc (n : Z) (sp : structural_parser) : structural_parser :=
  {| parser := parser sp; current_structural := current_structural sp;
     next_tape_loc := n;
     current_string_buf_loc := current_string_buf_loc sp; depth := depth sp |}.

Definition set_current_string_buf_loc (n : Z) (sp : structural_parser) : structural_parser :=
  {| parser := parser sp; current_structural := current_structural sp;
     next_tape_loc := next_tape_loc sp;
     current_string_buf_loc := n; depth := depth sp |}.

Definition set_depth (d : Z) (sp : structural_parser) : structural_parser :=
  {| parser := parser sp; current_structural := current_structural sp;
     next_tape_loc := next_tape_loc sp;
     current_string_buf_loc := current_string_buf_loc sp; depth := d |}.

(** ** The monad of the parser's methods: state passing, [None] on an
    out-of-bounds access. *)

Definition M (A : Type) : Type := structural_parser → option (A * structural_parser).

Definition ret {A : Type} (a : A) : M A := λ sp, Some (a, sp).

Definition bind {A B : Type} (m : M A) (k : A → M B) : M B :=
  λ sp, match m sp with
        | Some (a, sp') => k a sp'
        | None => None
        end.

Definition get : M structural_parser := λ sp, Some (sp, sp).

Definition modify (f : structural_parser → structural_parser) : M unit :=
  λ sp, Some (tt, f sp).

Definition lift {A : Type} (o : option A) : M A :=
  λ sp, match o with Some a => Some (a, sp) | None => None end.

Notation "'let*' x ':=' m 'in' k" := (bind m (λ x, k))
  (at level 10, x name, m at level 100, k at level 200, only parsing).
Notation "'exec' m 'in' k" := (bind m (λ _, k))
  (at level 10, m at level 100, k at level 200, only parsing).

(** ** Collaborators that are not part of [structural_parser.h] *)

(** What [numberparsing::parse_number] hands to the tape writer. *)
Inductive number : Set :=
  | number_s64 (v : Z)
  | number_u64 (v : Z)
  | number_double (bits : Z).

(** The pieces the parser is compiled against but which live in other
    headers: the numeric value of each tape tag, the padding constant, the
    string decoder, the number parser, the atom validators and the
    allocator.  They are parameters of the whole development. *)
Class collaborators : Type := {
  (** [uint64_t(char(t))] for a tag [t] of [internal::tape_type] *)
  tape_type_code : tape_type → Z;
  SIMDJSON_PADDING : Z;
  (** [stringparsing::parse_string]: the decoded body of the string that
      starts at the given offset of the input, [None] for [nullptr] *)
  decode_string : list Z → Z → option (list Z);
  (** [numberparsing::parse_number]: the number at the given offset *)
  decode_number : list Z → Z → option number;
  (** [atomparsing::is_valid_*_atom(src)] *)
  is_valid_true_atom : list Z → Z → bool;
  is_valid_false_atom : list Z → Z → bool;
  is_valid_null_atom : list Z → Z → bool;
  (** [atomparsing::is_valid_*_atom(src, len)] *)
  is_valid_true_atom_len : list Z → Z → Z → bool;
  is_valid_false_atom_len : list Z → Z → Z → bool;
  is_valid_null_atom_len : list Z → Z → Z → bool;
  (** whether [malloc] of that many bytes returns a non-null pointer *)
  malloc_succeeds : Z → bool
}.

(** Character codes of the bytes the grammar looks at. *)
Module Ch.
Definition quote : Z := 34.      (* the double quote *)
Definition comma : Z := 44.      (* , *)
Definition minus : Z := 45.      (* - *)
Definition zero : Z := 48.       (* 0 *)
Definition colon : Z := 58.      (* : *)
Definition lbracket : Z := 91.   (* [ *)
Definition rbracket : Z := 93.   (* ] *)
Definition f : Z := 102.
Definition n : Z := 110.
Definition t : Z := 116.
Definition lbrace : Z := 123.    (* { *)
Definition rbrace : Z := 125.    (* } *)
Definition space : Z := 32.
End Ch.

(** [case '-': case '0': ... case '9':] *)
Definition is_minus_or_digit (c : Z) : bool :=
  (c =? Ch.minus) || (c =? 48) || (c =? 49) || (c =? 50) || (c =? 51) || (c =? 52)
  || (c =? 53) || (c =? 54) || (c =? 55) || (c =? 56) || (c =? 57).

Section stage2.
Context `{collaborators}.

(** ** tape_writer *)

(** Modelled from the spec: [tape_writer] (generic/stage2/tape_writer.h is
    not in src).  A tape word is [(tag << 56) | (payload56 &
    0x00FF_FFFF_FFFF_FFFF)]. *)
Definition tape_word (t : tape_type) (payload56 : Z) : Z :=
  Z.lor (Z.shiftl (tape_type_code t) 56) (Z.land payload56 (2 ^ 56 - 1)).

(** Modelled from the spec: [tape_writer::append(payload56, tag)] writes one
    word at the cursor and advances the cursor. *)
Definition tape_append (val : Z) (t : tape_type) : M unit :=
  let* sp := get in
  let* tp := lift (store (tape (doc (parser sp))) (next_tape_loc sp) (tape_word t val)) in
  modify (λ sp, set_next_tape_loc (next_tape_loc sp + 1)
                  (set_parser (set_doc (set_tape tp (doc (parser sp))) (parser sp)) sp)).

(** Modelled from the spec: [tape_writer::skip()] reserves one word: it does
    not write and advances the cursor. *)
Definition tape_skip : M unit :=
  modify (λ sp, set_next_tape_loc (next_tape_loc sp + 1) sp).

(** Modelled from the spec: [tape_writer::write(tape[slot], payload56, tag)],
    the back-patch, overwrites the word at [slot]. *)
Definition tape_write (slot : Z) (val : Z) (t : tape_type) : M unit :=
  let* sp := get in
  let* tp := lift (store (tape (doc (parser sp))) slot (tape_word t val)) in
  modify (set_parser (set_doc (set_tape tp (doc (parser sp))) (parser sp))).

(** Modelled from the spec: [append_s64], [append_u64] and [append_double]
    write a tagged word with zero payload followed by the raw 64-bit value
    as the next word. *)
Definition tape_append2 (t : tape_type) (raw : Z) : M unit :=
  exec tape_append 0 t in
  let* sp := get in
  let* tp := lift (store (tape (doc (parser sp))) (next_tape_loc sp) (wrap64 raw)) in
  modify (λ sp, set_next_tape_loc (next_tape_loc sp + 1)
                  (set_parser (set_doc (set_tape tp (doc (parser sp))) (parser sp)) sp)).

Definition tape_append_number (x : number) : M unit :=
  match x with
  | number_s64 v => tape_append2 INT64 v
  | number_u64 v => tape_append2 UINT64 v
  | number_double bits => tape_append2 DOUBLE bits
  end.

(** ** structural_iterator *)

(** Modelled from the spec: [structural_iterator]
    (generic/stage2/structural_iterator.h is not in src).  [current()] is
    the offset in [buf] of the current structural, i.e.
    [*current_structural]. *)
Definition current : M Z :=
  let* sp := get in
  lift (load (structural_indexes (parser sp)) (current_structural sp)).

(** Modelled from the spec: [current_byte()], the byte at the current
    structural offset. *)
Definition current_char : M Z :=
  let* idx := current in
  let* sp := get in
  lift (load (buf (parser sp)) idx).

(** Modelled from the spec: [peek()], the byte at the next structural index
    without advancing. *)
Definition peek_next_char : M Z :=
  let* sp := get in
  let* idx := lift (load (structural_indexes (parser sp)) (current_structural sp + 1)) in
  lift (load (buf (parser sp)) idx).

(** Modelled from the spec: [advance()] moves to the next structural index
    and returns the new current byte. *)
Definition advance_char : M Z :=
  exec modify (λ sp, set_current_structural (current_structural sp + 1) sp) in
  current_char.

(** Modelled from the spec: [remaining()], the bytes from the current
    position to the end of the buffer. *)
Definition remaining_len : M Z :=
  let* idx := current in
  let* sp := get in
  ret (wrap64 (len (parser sp) - idx)).

(** Modelled from the spec: [at_end(n)] is true if the cursor is at or past
    index [n]. *)
Definition at_end (n : Z) : M bool :=
  let* sp := get in
  ret (n <=? current_structural sp).

(** ** structural_parser *)

Definition next_tape_index (sp : structural_parser) : Z :=
  wrap32 (next_tape_loc sp).

Definition start_scope (continue_state : Z) : M bool :=
  let* sp := get in
  let* cs := lift (store (containing_scope (parser sp)) (depth sp)
                     {| tape_index := next_tape_index sp; count := 0 |}) in
  exec modify (λ sp, set_parser (set_containing_scope cs (parser sp)) sp) in
  exec tape_skip in
  let* sp := get in
  let* ra := lift (store (ret_address (parser sp)) (depth sp) continue_state) in
  exec modify (λ sp, set_parser (set_ret_address ra (parser sp)) sp) in
  exec modify (λ sp, set_depth (wrap32 (depth sp + 1)) sp) in
  let* sp := get in
  let exceeded_max_depth := max_depth (parser sp) <=? depth sp in
  ret exceeded_max_depth.

Definition start_document (continue_state : Z) : M bool := start_scope continue_state.
Definition start_object (continue_state : Z) : M bool := start_scope continue_state.
Definition start_array (continue_state : Z) : M bool := start_scope continue_state.

Definition end_scope (start end_ : tape_type) : M unit :=
  exec modify (λ sp, set_depth (wrap32 (depth sp - 1)) sp) in
  let* sp := get in
  let* sc := lift (load (containing_scope (parser sp)) (depth sp)) in
  exec tape_append (tape_index sc) end_ in
  let start_tape_index := tape_index sc in
  let count := count sc in
  let cntsat := if 16777215 <? count then 16777215 else count in
  let* sp := get in
  tape_write start_tape_index (Z.lor (next_tape_index sp) (Z.shiftl cntsat 32)) start.

Definition end_object : M unit := end_scope START_OBJECT END_OBJECT.
Definition end_array : M unit := end_scope START_ARRAY END_ARRAY.
Definition end_document : M unit := end_scope ROOT ROOT.

Definition increment_count : M unit :=
  let* sp := get in
  let i := wrap32 (depth sp - 1) in
  let* sc := lift (load (containing_scope (parser sp)) i) in
  let* cs := lift (store (containing_scope (parser sp)) i
                     {| tape_index := tape_index sc; count := wrap32 (count sc + 1) |}) in
  modify (λ sp, set_parser (set_containing_scope cs (parser sp)) sp).

Definition on_start_string : M Z :=
  let* sp := get in
  exec tape_append (current_string_buf_loc sp) STRING in
  ret (current_string_buf_loc sp + 4).

Definition on_end_string (dst : Z) : M unit :=
  let* sp := get in
  let str_length := wrap32 (dst - (current_string_buf_loc sp + 4)) in
  let* sb := lift (store_bytes (string_buf (doc (parser sp)))
                     (current_string_buf_loc sp) (le32_bytes str_length)) in
  let* sb := lift (store sb dst 0) in
  modify (λ sp, set_current_string_buf_loc (dst + 1)
                  (set_parser (set_doc (set_string_buf sb (doc (parser sp))) (parser sp)) sp)).

(** Modelled from the spec: [stringparsing::parse_string(src, dst)] (not in
    src) writes the decoded body into the string buffer from [dst] on and
    reports the end of the string, or an escape error ([None]). *)
Definition stringparsing_parse_string (src dst : Z) : M (option Z) :=
  let* sp := get in
  match decode_string (buf (parser sp)) src with
  | None => ret None
  | Some body =>
      let* sb := lift (store_bytes (string_buf (doc (parser sp))) dst body) in
      exec modify (λ sp, set_parser (set_doc (set_string_buf sb (doc (parser sp))) (parser sp)) sp) in
      ret (Some (dst + Z.of_nat (length body)))
  end.

Definition parse_string (key : bool) : M bool :=
  let* dst := on_start_string in
  let* src := current in
  let* dst := stringparsing_parse_string src dst in
  match dst with
  | None => ret true
  | Some dst => exec on_end_string dst in ret false
  end.

(** Modelled from the spec: [numberparsing::parse_number(src, tape)] (not in
    src) parses a number and appends its tape words; [false] on failure. *)
Definition numberparsing_parse_number (bytes : list Z) (src : Z) : M bool :=
  match decode_number bytes src with
  | None => ret false
  | Some x => exec tape_append_number x in ret true
  end.

(** [parse_number(const uint8_t *src)], the pointer being [bytes + src]. *)
Definition parse_number_at (bytes : list Z) (src : Z) : M bool :=
  let* succeeded := numberparsing_parse_number bytes src in
  ret (negb succeeded).

Definition parse_number : M bool :=
  let* src := current in
  let* sp := get in
  parse_number_at (buf (parser sp)) src.

Definition parse_root_number : M bool :=
  let* sp := get in
  if negb (malloc_succeeds (wrap64 (len (parser sp) + SIMDJSON_PADDING)))
  then ret true
  else
    (* memcpy(copy, buf, parser.len) *)
    let* _ := lift (if decide (0 ≤ len (parser sp) ≤ Z.of_nat (length (buf (parser sp))))
                    then Some tt else None) in
    let copy := take (Z.to_nat (len (parser sp))) (buf (parser sp))
                ++ replicate (Z.to_nat SIMDJSON_PADDING) Ch.space in
    let* idx := current in
    parse_number_at copy idx.

Definition parse_true_atom : M bool :=
  let* src := current in
  let* sp := get in
  if negb (is_valid_true_atom (buf (parser sp)) src) then ret true
  else exec tape_append 0 TRUE_VALUE in ret false.

Definition parse_root_true_atom : M bool :=
  let* src := current in
  let* rem := remaining_len in
  let* sp := get in
  if negb (is_valid_true_atom_len (buf (parser sp)) src rem) then ret true
  else exec tape_append 0 TRUE_VALUE in ret false.

Definition parse_false_atom : M bool :=
  let* src := current in
  let* sp := get in
  if negb (is_valid_false_atom (buf (parser sp)) src) then ret true
  else exec tape_append 0 FALSE_VALUE in ret false.

Definition parse_root_false_atom : M bool :=
  let* src := current in
  let* rem := remaining_len in
  let* sp := get in
  if negb (is_valid_false_atom_len (buf (parser sp)) src rem) then ret true
  else exec tape_append 0 FALSE_VALUE in ret false.

Definition parse_null_atom : M bool :=
  let* src := current in
  let* sp := get in
  if negb (is_valid_null_atom (buf (parser sp)) src) then ret true
  else exec tape_append 0 NULL_VALUE in ret false.

Definition parse_root_null_atom : M bool :=
  let* src := current in
  let* rem := remaining_len in
  let* sp := get in
  if negb (is_valid_null_atom_len (buf (parser sp)) src rem) then ret true
  else exec tape_append 0 NULL_VALUE in ret false.

(** [return parser.error = e] *)
Definition fail_with (e : error_code) : M error_code :=
  exec modify (λ sp, set_parser (set_parser_error e (parser sp)) sp) in
  ret e.

Definition finish : M error_code :=
  exec end_document in
  exec modify (λ sp, set_parser
                 (set_next_structural_index (wrap32 (current_structural sp + 1)) (parser sp)) sp) in
  let* sp := get in
  if negb (depth sp =? 0) then fail_with TAPE_ERROR
  else ret SUCCESS.

Definition error : M error_code :=
  let* sp := get in
  if max_depth (parser sp) <=? depth sp then fail_with DEPTH_ERROR
  else
    let* c := current_char in
    if c =? Ch.quote then fail_with STRING_ERROR
    else if is_minus_or_digit c then fail_with NUMBER_ERROR
    else if c =? Ch.t then fail_with T_ATOM_ERROR
    else if c =? Ch.n then fail_with N_ATOM_ERROR
    else if c =? Ch.f then fail_with F_ATOM_ERROR
    else fail_with TAPE_ERROR.

Definition init : M unit :=
  modify (λ sp, set_parser (set_parser_error UNINITIALIZED (parser sp)) sp).

Definition start (finish_state : Z) : M error_code :=
  let* sp := get in
  let* e := at_end (n_structural_indexes (parser sp)) in
  if e then fail_with EMPTY
  else
    exec init in
    let* failed := start_document finish_state in
    if failed then fail_with DEPTH_ERROR
    else ret SUCCESS.

(** ** The state machine of [parse_structurals] *)

(** Where control goes after a block of the function. *)
Inductive next : Set :=
  | goto (l : L.label)
  | return_ (e : error_code).

(** [if ( failed ) { goto error; } goto l;] *)
Definition or_error (failed : bool) (l : L.label) : next :=
  if failed then goto L.error else goto l.

(** The [switch] on the first structural byte ("Read first value"). *)
Definition read_first_value (STREAMING : bool) : M next :=
  let* c := current_char in
  if c =? Ch.lbrace then
    let* failed := start_object (addr_finish addresses) in
    ret (or_error failed L.object_begin)
  else if c =? Ch.lbracket then
    let* failed := start_array (addr_finish addresses) in
    if failed then ret (goto L.error)
    else if negb STREAMING then
      let* sp := get in
      let* idx := lift (load (structural_indexes (parser sp))
                          (wrap32 (n_structural_indexes (parser sp) - 1))) in
      let* last := lift (load (buf (parser sp)) idx) in
      if negb (last =? Ch.rbracket) then ret (goto L.error)
      else ret (goto L.array_begin)
    else ret (goto L.array_begin)
  else if c =? Ch.quote then
    let* failed := parse_string false in ret (or_error failed L.finish)
  else if c =? Ch.t then
    let* failed := parse_root_true_atom in ret (or_error failed L.finish)
  else if c =? Ch.f then
    let* failed := parse_root_false_atom in ret (or_error failed L.finish)
  else if c =? Ch.n then
    let* failed := parse_root_null_atom in ret (or_error failed L.finish)
  else if is_minus_or_digit c then
    let* failed := parse_root_number in ret (or_error failed L.finish)
  else ret (goto L.error).

Definition object_begin : M next :=
  let* c := advance_char in
  if c =? Ch.quote then
    exec increment_count in
    let* failed := parse_string true in
    ret (or_error failed L.object_key_state)
  else if c =? Ch.rbrace then
    exec end_object in
    ret (goto L.scope_end)
  else ret (goto L.error).

Definition object_key_state : M next :=
  let* c := advance_char in
  if negb (c =? Ch.colon) then ret (goto L.error)
  else
    let* c := advance_char in
    if c =? Ch.lbrace then
      let* failed := start_object (addr_object_continue addresses) in
      ret (or_error failed L.object_begin)
    else if c =? Ch.lbracket then
      let* failed := start_array (addr_object_continue addresses) in
      ret (or_error failed L.array_begin)
    else if c =? Ch.quote then
      let* failed := parse_string false in ret (or_error failed L.object_continue)
    else if c =? Ch.t then
      let* failed := parse_true_atom in ret (or_error failed L.object_continue)
    else if c =? Ch.f then
      let* failed := parse_false_atom in ret (or_error failed L.object_continue)
    else if c =? Ch.n then
      let* failed := parse_null_atom in ret (or_error failed L.object_continue)
    else if is_minus_or_digit c then
      let* failed := parse_number in ret (or_error failed L.object_continue)
    else ret (goto L.error).

Definition object_continue : M next :=
  let* c := advance_char in
  if c =? Ch.comma then
    exec increment_count in
    let* c := advance_char in
    if negb (c =? Ch.quote) then ret (goto L.error)
    else
      let* failed := parse_string true in
      ret (or_error failed L.object_key_state)
  else if c =? Ch.rbrace then
    exec end_object in
    ret (goto L.scope_end)
  else ret (goto L.error).

(** [CONTINUE( parser.parser.ret_address[parser.depth] )]: the [switch] of
    the macro has no default, so any other address falls out of it into
    the code that follows, which is [array_begin]. *)
Definition scope_end : M next :=
  let* sp := get in
  let* address := lift (load (ret_address (parser sp)) (depth sp)) in
  if address =? 0 then ret (goto L.array_continue)
  else if address =? 1 then ret (goto L.finish)
  else if address =? 2 then ret (goto L.object_continue)
  else ret (goto L.array_begin).

Definition array_begin : M next :=
  let* c := peek_next_char in
  if c =? Ch.rbracket then
    let* _ := advance_char in
    exec end_array in
    ret (goto L.scope_end)
  else
    exec increment_count in
    ret (goto L.main_array_switch).

Definition main_array_switch : M next :=
  let* c := advance_char in
  if c =? Ch.lbrace then
    let* failed := start_object (addr_array_continue addresses) in
    ret (or_error failed L.object_begin)
  else if c =? Ch.lbracket then
    let* failed := start_array (addr_array_continue addresses) in
    ret (or_error failed L.array_begin)
  else if c =? Ch.quote then
    let* failed := parse_string false in ret (or_error failed L.array_continue)
  else if c =? Ch.t then
    let* failed := parse_true_atom in ret (or_error failed L.array_continue)
  else if c =? Ch.f then
    let* failed := parse_false_atom in ret (or_error failed L.array_continue)
  else if c =? Ch.n then
    let* failed := parse_null_atom in ret (or_error failed L.array_continue)
  else if is_minus_or_digit c then
    let* failed := parse_number in ret (or_error failed L.array_continue)
  else ret (goto L.error).

Definition array_continue : M next :=
  let* c := advance_char in
  if c =? Ch.comma then
    exec increment_count in
    ret (goto L.main_array_switch)
  else if c =? Ch.rbracket then
    exec end_array in
    ret (goto L.scope_end)
  else ret (goto L.error).

(** One block of the function, from its label to the next jump. *)
Definition step (l : L.label) : M next :=
  match l with
  | L.object_begin => object_begin
  | L.object_key_state => object_key_state
  | L.object_continue => object_continue
  | L.scope_end => scope_end
  | L.array_begin => array_begin
  | L.main_array_switch => main_array_switch
  | L.array_continue => array_continue
  | L.finish => let* e := finish in ret (return_ e)
  | L.error => let* e := error in ret (return_ e)
  end.

(** How a call ends: with an error code and the final parser, by an access
    outside an array, or by exhausting the fuel of [run]. *)
Inductive run_result : Set :=
  | Returned (e : error_code) (sp : structural_parser)
  | Undefined
  | OutOfFuel.

Fixpoint run (fuel : nat) (l : L.label) (sp : structural_parser) : run_result :=
  match fuel with
  | O => OutOfFuel
  | S fuel =>
      match step l sp with
      | None => Undefined
      | Some (return_ e, sp') => Returned e sp'
      | Some (goto l', sp') => run fuel l' sp'
      end
  end.

(** Every block either moves the cursor over the structural indexes forward
    or jumps to a block that does, and reading past the indexes stops the
    machine: this much fuel is never exhausted ([run_fuel_enough]). *)
Definition fuel_for (sp : structural_parser) : nat :=
  3 * length (structural_indexes (parser sp)) + 4.

(** The constructor [structural_parser(_parser, start_structural_index)]:
    the tape and string-buffer cursors start at the beginning of the
    document's buffers, the depth at 0. *)
Definition new_structural_parser (_parser : dom_parser_implementation)
    (start_structural_index : Z) : structural_parser :=
  {| parser := _parser;
     current_structural := start_structural_index;
     next_tape_loc := 0;
     current_string_buf_loc := 0;
     depth := 0 |}.

(** The first two statements of [parse_structurals]: [dom_parser.doc = &doc]
    and the construction of the [structural_parser]. *)
Definition initial_parser (STREAMING : bool)
    (dom_parser : dom_parser_implementation) (doc : document) : structural_parser :=
  let dom_parser := set_doc doc dom_parser in
  new_structural_parser dom_parser
    (if STREAMING then next_structural_index dom_parser else 0).

Definition parse_structurals (STREAMING : bool)
    (dom_parser : dom_parser_implementation) (doc : document) : run_result :=
  let parser := initial_parser STREAMING dom_parser doc in
  match start (addr_finish addresses) parser with
  | None => Undefined
  | Some (SUCCESS, parser) =>
      match read_first_value STREAMING parser with
      | None => Undefined
      | Some (return_ e, parser) => Returned e parser
      | Some (goto l, parser) => run (fuel_for parser) l parser
      end
  | Some (result, parser) => Returned result parser
  end.

(** The blocks entered by [run], each with the parser state on entry. *)
Fixpoint trace (fuel : nat) (l : L.label) (sp : structural_parser)
  : list (L.label * structural_parser) :=
  match fuel with
  | O => []
  | S fuel =>
      (l, sp) :: match step l sp with
                 | Some (goto l', sp') => trace fuel l' sp'
                 | _ => []
                 end
  end.

(** The blocks entered during a call of [parse_structurals], after the
    first value has been read. *)
Definition parse_trace (STREAMING : bool)
    (dom_parser : dom_parser_implementation) (doc : document)
  : list (L.label * structural_parser) :=
  match start (addr_finish addresses) (initial_parser STREAMING dom_parser doc) with
  | Some (SUCCESS, sp) =>
      match read_first_value STREAMING sp with
      | Some (goto l, sp') => trace (fuel_for sp') l sp'
      | _ => []
      end
  | _ => []
  end.

(** The parser states a call goes through once [start] has pushed the root
    scope: after [start], and on entry to every block. *)
Definition parse_states (STREAMING : bool)
    (dom_parser : dom_parser_implementation) (doc : document)
  : list structural_parser :=
  match start (addr_finish addresses) (initial_parser STREAMING dom_parser doc) with
  | Some (EMPTY, _) | None => []
  | Some (_, sp) => sp :: map snd (parse_trace STREAMING dom_parser doc)
  end.

End stage2.

(** ** A concrete set of collaborators, to run the machine on documents *)

Module Sample.

(** The tags as the characters simdjson uses for them. *)
Definition code (t : tape_type) : Z :=
  match t with
  | ROOT => 114 | START_ARRAY => 91 | START_OBJECT => 123
  | END_ARRAY => 93 | END_OBJECT => 125 | STRING => 34
  | INT64 => 108 | UINT64 => 117 | DOUBLE => 100
  | TRUE_VALUE => 116 | FALSE_VALUE => 102 | NULL_VALUE => 110
  end.

(** A decoder for strings without escapes: the bytes between the quotes. *)
Fixpoint until_quote (bs : list Z) : option (list Z) :=
  match bs with
  | [] => None
  | b :: bs =>
      if b =? Ch.quote then Some []
      else if b =? 92 then None
      else match until_quote bs with
           | Some body => Some (b :: body)
           | None => None
           end
  end.

Definition string_body (bytes : list Z) (src : Z) : option (list Z) :=
  until_quote (drop (Z.to_nat src + 1) bytes).

(** A parser for decimal integers. *)
Fixpoint digits (bs : list Z) (acc : Z) (seen : bool) : option Z :=
  match bs with
  | b :: bs =>
      if (48 <=? b) && (b <=? 57) then digits bs (10 * acc + (b - 48)) true
      else if seen then Some acc else None
  | [] => if seen then Some acc else None
  end.

Definition integer (bytes : list Z) (src : Z) : option number :=
  match drop (Z.to_nat src) bytes with
  | b :: bs =>
      if b =? Ch.minus
      then match digits bs 0 false with
           | Some v => Some (number_s64 (- v))
           | None => None
           end
      else match digits (b :: bs) 0 false with
           | Some v => Some (number_s64 v)
           | None => None
           end
  | [] => None
  end.

Definition starts_with (atom : list Z) (bytes : list Z) (src : Z) : bool :=
  bool_decide (take (length atom) (drop (Z.to_nat src) bytes) = atom).

Definition atom_true : list Z := [116; 114; 117; 101].
Definition atom_false : list Z := [102; 97; 108; 115; 101].
Definition atom_null : list Z := [110; 117; 108; 108].

Definition starts_with_len (atom : list Z) (bytes : list Z) (src len : Z) : bool :=
  (Z.of_nat (length atom) <=? len) && starts_with atom bytes src.

Definition sample : collaborators :=
  {| tape_type_code := code;
     SIMDJSON_PADDING := 32;
     decode_string := string_body;
     decode_number := integer;
     is_valid_true_atom := starts_with atom_true;
     is_valid_false_atom := starts_with atom_false;
     is_valid_null_atom := starts_with atom_null;
     is_valid_true_atom_len := starts_with_len atom_true;
     is_valid_false_atom_len := starts_with_len atom_false;
     is_valid_null_atom_len := starts_with_len atom_null;
     malloc_succeeds := λ _, true |}.

(** A parser over [bytes] (followed by padding) whose structurals are at
    [indexes], with room for [cap] tape words and string bytes. *)
Definition dom_parser (bytes : list Z) (indexes : list Z) (depth_limit : Z)
  : dom_parser_implementation :=
  {| buf := bytes ++ replicate 32 0;
     len := Z.of_nat (length bytes);
     structural_indexes := indexes ++ [Z.of_nat (length bytes); 0];
     n_structural_indexes := Z.of_nat (length indexes);
     next_structural_index := 0;
     containing_scope := replicate (Z.to_nat depth_limit) {| tape_index := 0; count := 0 |};
     ret_address := replicate (Z.to_nat depth_limit) 0;
     max_depth := depth_limit;
     parser_error := UNINITIALIZED;
     doc := {| tape := []; string_buf := [] |} |}.

Definition fresh_document (cap : nat) : document :=
  {| tape := replicate cap 0; string_buf := replicate cap 0 |}.

Definition parse (STREAMING : bool) (bytes indexes : list Z) (depth_limit : Z) : run_result :=
  @parse_structurals sample STREAMING (dom_parser bytes indexes depth_limit)
    (fresh_document (length bytes + 8)).

(** The error code and the written part of the tape, as (tag, payload). *)
Definition summary (r : run_result) : option (error_code * list (Z * Z)) :=
  match r with
  | Returned e sp =>
      Some (e, map (λ w, (Z.shiftr w 56, Z.land w (2 ^ 56 - 1)))
                 (take (Z.to_nat (next_tape_loc sp)) (tape (doc (parser sp)))))
  | _ => None
  end.

End Sample.

(** ** Documents to run the machine on *)

Module Examples.

(** The document [{}] *)
Definition empty_object : dom_parser_implementation :=
  Sample.dom_parser [123; 125] [0; 1] 8.

(** The truncated document [[1] with room for two scopes only *)
Definition shallow_array : dom_parser_implementation :=
  Sample.dom_parser [91; 49] [0; 1] 2.

(** The truncated document [[1] *)
Definition open_array : dom_parser_implementation :=
  Sample.dom_parser [91; 49] [0; 1] 8.

(** The document ["ab"], a string at the root *)
Definition root_string : dom_parser_implementation :=
  Sample.dom_parser [34; 97; 98; 34] [0] 8.

(** The document [true?], an atom followed by garbage *)
Definition bad_atom : dom_parser_implementation :=
  Sample.dom_parser [116; 114; 117; 63] [0] 8.

(** The empty document *)
Definition nothing : dom_parser_implementation :=
  Sample.dom_parser [] [] 8.

Definition blank : document := Sample.fresh_document 16.

(** The parser as [parse_structurals] sets it up. *)
Definition at_start (dom_parser : dom_parser_implementation) : structural_parser :=
  initial_parser false dom_parser blank.

(** The parser once [start] and the first [switch] have run. *)
Definition after_first_value (dom_parser : dom_parser_implementation) : structural_parser :=
  match start (addr_finish addresses) (at_start dom_parser) with
  | Some (_, sp) =>
      match read_first_value (H := Sample.sample) false sp with
      | Some (_, sp') => sp'
      | None => sp
      end
  | None => at_start dom_parser
  end.

Definition parse (dom_parser : dom_parser_implementation) : run_result :=
  parse_structurals (H := Sample.sample) false dom_parser blank.

(** The document [{"a":[1,2]}] *)
Definition nested : dom_parser_implementation :=
  Sample.dom_parser [123; 34; 97; 34; 58; 91; 49; 44; 50; 93; 125]
    [0; 1; 4; 5; 6; 7; 8; 9; 10] 8.

(** The tape and its cursor after a call. *)
Definition final_tape (r : run_result) : list Z :=
  match r with
  | Returned _ sp => tape (doc (parser sp))
  | _ => []
  end.

Definition final_cursor (r : run_result) : Z :=
  match r with
  | Returned _ sp => next_tape_loc sp
  | _ => 0
  end.

End Examples.

(** ** Reading the tape and the string buffer; bookkeeping for the proofs *)

(** The tag and the payload of a tape word. *)
Definition tag_of (w : Z) : Z := Z.shiftr w 56.
Definition payload_of (w : Z) : Z := Z.land w (2 ^ 56 - 1).

(** The [n] bytes of [a] from offset [i] on. *)
Definition bytes_at (a : list Z) (i : Z) (n : nat) : list Z :=
  take n (drop (Z.to_nat i) a).

(** The read-only part of the parser, and the sizes of its arrays. *)
Definition same_layout (sp sp' : structural_parser) : Prop :=
  buf (parser sp') = buf (parser sp)
  ∧ len (parser sp') = len (parser sp)
  ∧ structural_indexes (parser sp') = structural_indexes (parser sp)
  ∧ n_structural_indexes (parser sp') = n_structural_indexes (parser sp)
  ∧ max_depth (parser sp') = max_depth (parser sp)
  ∧ length (containing_scope (parser sp')) = length (containing_scope (parser sp))
  ∧ length (ret_address (parser sp')) = length (ret_address (parser sp))
  ∧ length (tape (doc (parser sp'))) = length (tape (doc (parser sp)))
  ∧ length (string_buf (doc (parser sp'))) = length (string_buf (doc (parser sp))).

Definition weight (l : L.label) : nat :=
  match l with
  | L.scope_end => 2
  | L.array_begin => 1
  | _ => 0
  end.

(** Three times the number of structural indexes still ahead of the cursor,
    plus the weight of the block. *)
Definition measure (l : L.label) (sp : structural_parser) : nat :=
  3 * Z.to_nat (Z.of_nat (length (structural_indexes (parser sp)))
                - current_structural sp) + weight l.

(** ** The tape as a document in tape order *)

Section vocabulary.
Context `{collaborators}.

(** The low 32 bits of a payload and its bits 32 to 55. *)
Definition index_of (w : Z) : Z := Z.land w (2 ^ 32 - 1).
Definition count_of (w : Z) : Z := Z.land (Z.shiftr w 32) (2 ^ 24 - 1).

(** What is said of a scope: its opening and closing tags, the indexes of
    its opening and closing words, and the number of its children. *)
Definition scope_property : Type := tape_type → tape_type → Z → Z → Z → Prop.

Definition scalar_tag (t : tape_type) : Prop :=
  t = STRING ∨ t = TRUE_VALUE ∨ t = FALSE_VALUE ∨ t = NULL_VALUE.

Definition number_tag (t : tape_type) : Prop :=
  t = INT64 ∨ t = UINT64 ∨ t = DOUBLE.

(** The word at index [i] carries the tag [t]. *)
Definition has_tag (T : list Z) (i : Z) (t : tape_type) : Prop :=
  ∃ w, load T i = Some w ∧ tag_of w = tape_type_code t.

(** A traversal of the tape in document order.  [value_at P T i j]: one
    value occupies the words [i .. j-1], and every scope inside it
    satisfies [P].  A string, [true], [false] or [null] is one word, a
    number is a tag word and a raw word, an array or object is an opening
    word, its children and a closing word.  [elements_at P T i j n]: [n]
    values in a row occupy [i .. j-1]; [members_at P T i j n]: [n] pairs of a
    key (a [STRING] word) and a value do. *)
Inductive value_at (P : scope_property) (T : list Z) : Z → Z → Prop :=
  | value_scalar i t :
      scalar_tag t → has_tag T i t → value_at P T i (i + 1)
  | value_number i t :
      number_tag t → has_tag T i t → is_Some (load T (i + 1)) →
      value_at P T i (i + 2)
  | value_array i k n :
      has_tag T i START_ARRAY → elements_at P T (i + 1) k n →
      has_tag T k END_ARRAY → P START_ARRAY END_ARRAY i k n →
      value_at P T i (k + 1)
  | value_object i k n :
      has_tag T i START_OBJECT → members_at P T (i + 1) k n →
      has_tag T k END_OBJECT → P START_OBJECT END_OBJECT i k n →
      value_at P T i (k + 1)
with elements_at (P : scope_property) (T : list Z) : Z → Z → Z → Prop :=
  | elements_nil i : elements_at P T i i 0
  | elements_snoc i j k n :
      elements_at P T i j n → value_at P T j k → elements_at P T i k (n + 1)
with members_at (P : scope_property) (T : list Z) : Z → Z → Z → Prop :=
  | members_nil i : members_at P T i i 0
  | members_snoc i j k n :
      members_at P T i j n → has_tag T j STRING → value_at P T (j + 1) k →
      members_at P T i k (n + 1).

Scheme value_at_mut := Minimality for value_at Sort Prop
  with elements_at_mut := Minimality for elements_at Sort Prop
  with members_at_mut := Minimality for members_at Sort Prop.

Combined Scheme traversal_ind from value_at_mut, elements_at_mut, members_at_mut.

(** The whole tape up to the cursor [c]: the root scope around one value. *)
Definition tape_document (P : scope_property) (T : list Z) (c : Z) : Prop :=
  ∃ k, c = k + 1
       ∧ has_tag T 0 ROOT
       ∧ value_at P T 1 k
       ∧ has_tag T k ROOT
       ∧ P ROOT ROOT 0 k 1.

(** ** The parser between two blocks

    The part of the state that builds the tape: the tape and its cursor,
    the depth, the scope stack and the return addresses. *)
Record core : Type := {
  k_tape : list Z;
  k_loc : Z;
  k_depth : Z;
  k_scope : list scope_descriptor;
  k_ret : list Z
}.

Definition core_of (sp : structural_parser) : core :=
  {| k_tape := tape (doc (parser sp));
     k_loc := next_tape_loc sp;
     k_depth := depth sp;
     k_scope := containing_scope (parser sp);
     k_ret := ret_address (parser sp) |}.

(** [min(count, 0xFFFFFF)] *)
Definition saturated (n : Z) : Z := Z.min n 16777215.

(** The three kinds of scope, the continuation each gives to a scope opened
    inside it, and the block of that continuation. *)
Inductive kind : Set := of_root | of_array | of_object.

Definition address_of (kd : kind) : Z :=
  match kd with
  | of_array => addr_array_continue addresses
  | of_root => addr_finish addresses
  | of_object => addr_object_continue addresses
  end.

Definition continue_at (kd : kind) : L.label :=
  match kd with
  | of_array => L.array_continue
  | of_root => L.finish
  | of_object => L.object_continue
  end.

Definition start_tag (kd : kind) : tape_type :=
  match kd with
  | of_array => START_ARRAY
  | of_root => ROOT
  | of_object => START_OBJECT
  end.

Definition end_tag (kd : kind) : tape_type :=
  match kd with
  | of_array => END_ARRAY
  | of_root => ROOT
  | of_object => END_OBJECT
  end.

(** What the top scope is doing when a block is entered. *)
Inductive phase : Set :=
  | Fresh                 (* just opened, nothing read yet *)
  | Awaiting (kd : kind)  (* the next word starts a child value *)
  | Keying                (* an object about to read its next key *)
  | Holding (kd : kind)   (* its children so far are complete *)
  | Closed                (* a child scope has just been closed *)
  | Failed.

Definition phase_of (l : L.label) : phase :=
  match l with
  | L.object_begin | L.array_begin => Fresh
  | L.object_key_state => Awaiting of_object
  | L.main_array_switch => Awaiting of_array
  | L.object_continue => Holding of_object
  | L.array_continue => Holding of_array
  | L.finish => Holding of_root
  | L.scope_end => Closed
  | L.error => Failed
  end.

(** The opening word that [end_scope] writes for a scope closed at [k]. *)
Definition opener_word (start : tape_type) (k n : Z) : Z :=
  tape_word start (Z.lor (k + 1) (Z.shiftl (saturated n) 32)).

(** The words of a scope as [end_scope] writes them: the opening word holds
    the index after the closing word and the saturated count (the root scope
    counts nothing), the closing word holds the index of the opening word. *)
Definition written (T : list Z) : scope_property :=
  λ start end_ i k n,
    load T i = Some (opener_word start k (match start with ROOT => 0 | _ => n end))
    ∧ load T k = Some (tape_word end_ i).

(** The scope [sc] of kind [kd] has read its children up to a child value
    that starts at [child]. *)
Definition awaiting_at (kd : kind) (T : list Z) (sc : scope_descriptor) (child : Z) : Prop :=
  match kd with
  | of_root => tape_index sc = 0 ∧ count sc = 0 ∧ child = 1
  | of_array =>
      1 ≤ count sc
      ∧ elements_at (written T) T (tape_index sc + 1) child (count sc - 1)
  | of_object =>
      1 ≤ count sc
      ∧ members_at (written T) T (tape_index sc + 1) (child - 1) (count sc - 1)
      ∧ has_tag T (child - 1) STRING
  end.

(** The scope [sc] of kind [kd] has complete children up to [hi]. *)
Definition holding_at (kd : kind) (T : list Z) (sc : scope_descriptor) (hi : Z) : Prop :=
  match kd with
  | of_root => tape_index sc = 0 ∧ count sc = 0 ∧ value_at (written T) T 1 hi
  | of_array => elements_at (written T) T (tape_index sc + 1) hi (count sc)
  | of_object => members_at (written T) T (tape_index sc + 1) hi (count sc)
  end.

(** The cursor stays within reach of the tape, and indexes fit 32 bits. *)
Definition sized (C : core) : Prop :=
  0 ≤ k_loc C ≤ Z.of_nat (length (k_tape C)) + k_depth C
  ∧ Z.of_nat (length (k_tape C)) + Z.of_nat (length (k_scope C)) < 2 ^ 32.

(** The open scopes start at increasing tape indexes below the cursor. *)
Definition frames_sorted (C : core) : Prop :=
  (∀ m sc, 0 ≤ m < k_depth C → load (k_scope C) m = Some sc →
           0 ≤ tape_index sc < k_loc C)
  ∧ (∀ m m' sc sc', 0 ≤ m < m' → m' < k_depth C →
       load (k_scope C) m = Some sc → load (k_scope C) m' = Some sc' →
       tape_index sc < tape_index sc').

(** Every scope below [top] waits for the scope above it, which will
    resume it through the return address stored with that scope. *)
Definition parents_ok (C : core) (top : Z) : Prop :=
  ∀ m, 0 ≤ m < top →
    ∃ sc sc' kd,
      load (k_scope C) m = Some sc
      ∧ load (k_scope C) (m + 1) = Some sc'
      ∧ load (k_ret C) (m + 1) = Some (address_of kd)
      ∧ (kd = of_root ↔ m = 0)
      ∧ awaiting_at kd (k_tape C) sc (tape_index sc').

(** What holds of the state when a block in the phase [ph] is entered. *)
Definition inv (ph : phase) (C : core) : Prop :=
  match ph with
  | Failed => True
  | Fresh =>
      sized C ∧ 2 ≤ k_depth C ∧ frames_sorted C ∧ parents_ok C (k_depth C - 1)
      ∧ ∃ sc, load (k_scope C) (k_depth C - 1) = Some sc
              ∧ tape_index sc + 1 = k_loc C ∧ count sc = 0
  | Awaiting kd =>
      sized C ∧ 1 ≤ k_depth C ∧ (kd = of_root ↔ k_depth C = 1)
      ∧ frames_sorted C ∧ parents_ok C (k_depth C - 1)
      ∧ ∃ sc, load (k_scope C) (k_depth C - 1) = Some sc
              ∧ awaiting_at kd (k_tape C) sc (k_loc C)
  | Keying =>
      sized C ∧ 2 ≤ k_depth C ∧ frames_sorted C ∧ parents_ok C (k_depth C - 1)
      ∧ ∃ sc, load (k_scope C) (k_depth C - 1) = Some sc
              ∧ 1 ≤ count sc
              ∧ members_at (written (k_tape C)) (k_tape C)
                  (tape_index sc + 1) (k_loc C) (count sc - 1)
  | Holding kd =>
      sized C ∧ 1 ≤ k_depth C ∧ (kd = of_root ↔ k_depth C = 1)
      ∧ frames_sorted C ∧ parents_ok C (k_depth C - 1)
      ∧ ∃ sc, load (k_scope C) (k_depth C - 1) = Some sc
              ∧ holding_at kd (k_tape C) sc (k_loc C)
  | Closed =>
      sized C ∧ 1 ≤ k_depth C ∧ frames_sorted C ∧ parents_ok C (k_depth C)
      ∧ ∃ sc', load (k_scope C) (k_depth C) = Some sc'
               ∧ value_at (written (k_tape C)) (k_tape C) (tape_index sc') (k_loc C)
  end.

(** The tape [T'] has the words of [T] at every index below [hi]. *)
Definition agree_below (T T' : list Z) (hi : Z) : Prop :=
  ∀ x, x < hi → load T' x = load T x.

(** One word with the tag [t] is appended. *)
Definition pushes_word (t : tape_type) (C C' : core) : Prop :=
  ∃ w T',
    tag_of w = tape_type_code t
    ∧ store (k_tape C) (k_loc C) w = Some T'
    ∧ C' = {| k_tape := T'; k_loc := k_loc C + 1; k_depth := k_depth C;
              k_scope := k_scope C; k_ret := k_ret C |}.

(** A tag word with the tag [t] and a raw word are appended. *)
Definition pushes_number (t : tape_type) (C C' : core) : Prop :=
  ∃ w raw T1 T2,
    tag_of w = tape_type_code t
    ∧ store (k_tape C) (k_loc C) w = Some T1
    ∧ store T1 (k_loc C + 1) raw = Some T2
    ∧ C' = {| k_tape := T2; k_loc := k_loc C + 1 + 1; k_depth := k_depth C;
              k_scope := k_scope C; k_ret := k_ret C |}.

(** One complete scalar value is appended. *)
Definition pushes_value (C C' : core) : Prop :=
  (∃ t, scalar_tag t ∧ pushes_word t C C')
  ∨ (∃ t, number_tag t ∧ pushes_number t C C').

(** ** What is read back from the words of a scope *)

(** The closing word sits at the index stored in the opening word. *)
Definition closer_at_index (T : list Z) : scope_property :=
  λ start end_ i k n,
    ∃ w w', load T i = Some w
            ∧ tag_of w = tape_type_code start
            ∧ load T (index_of w) = Some w'
            ∧ tag_of w' = tape_type_code end_
            ∧ payload_of w' = i.

(** The closing word sits just before the index stored in the opening
    word. *)
Definition closer_before_index (T : list Z) : scope_property :=
  λ start end_ i k n,
    ∃ w w', load T i = Some w
            ∧ tag_of w = tape_type_code start
            ∧ index_of w = k + 1
            ∧ load T (index_of w - 1) = Some w'
            ∧ tag_of w' = tape_type_code end_
            ∧ payload_of w' = i.

(** Bits 32 to 55 of the opening word hold the number of children, or
    [0xFFFFFF] from 2^24 children on. *)
Definition count_stored (T : list Z) : scope_property :=
  λ start end_ i k n,
    ∃ w, load T i = Some w
         ∧ (n < 2 ^ 24 → count_of w = n)
         ∧ (2 ^ 24 ≤ n → count_of w = 16777215).

(** The same for arrays and objects, while the root scope stores 0. *)
Definition count_stored_below_root (T : list Z) : scope_property :=
  λ start end_ i k n,
    match start with
    | ROOT => ∃ w, load T i = Some w ∧ count_of w = 0
    | _ => count_stored T start end_ i k n
    end.

End vocabulary.

(** ** The string buffer over a call *)

(** The string buffer of [sp'] continues that of [sp]: the cursor has not
    moved back and the bytes below the old cursor are the same. *)
Definition string_buf_extends (sp sp' : structural_parser) : Prop :=
  current_string_buf_loc sp ≤ current_string_buf_loc sp'
  ∧ ∀ i, i < current_string_buf_loc sp →
         load (string_buf (doc (parser sp'))) i = load (string_buf (doc (parser sp))) i.

(** ** The structural bytes as a JSON text *)

(** The byte at the [a]-th structural index. *)
Definition structural_char (p : dom_parser_implementation) (a : Z) : option Z :=
  match load (structural_indexes p) a with
  | Some idx => load (buf p) idx
  | None => None
  end.

(** The first byte of a string, an atom or a number. *)
Definition scalar_start (c : Z) : Prop :=
  c = Ch.quote ∨ c = Ch.t ∨ c = Ch.f ∨ c = Ch.n ∨ is_minus_or_digit c = true.

(** The grammar that the structural bytes [s] of an accepted text follow.
    [value_in s a b]: the structurals [a .. b-1] are one value: a scalar
    (one structural), or an array or object with its brackets.
    [elements_in s a b]: [a .. b-1] are zero or more values, each followed
    by a comma.  [members_in s a b]: [a .. b-1] are zero or more members (a
    key, a colon and a value), each followed by a comma. *)
Inductive value_in (s : Z → option Z) : Z → Z → Prop :=
  | value_in_scalar a c :
      s a = Some c → scalar_start c → value_in s a (a + 1)
  | value_in_empty_array a :
      s a = Some Ch.lbracket → s (a + 1) = Some Ch.rbracket → value_in s a (a + 2)
  | value_in_array a b c :
      s a = Some Ch.lbracket → elements_in s (a + 1) b → value_in s b c →
      s c = Some Ch.rbracket → value_in s a (c + 1)
  | value_in_empty_object a :
      s a = Some Ch.lbrace → s (a + 1) = Some Ch.rbrace → value_in s a (a + 2)
  | value_in_object a b c :
      s a = Some Ch.lbrace → members_in s (a + 1) b →
      s b = Some Ch.quote → s (b + 1) = Some Ch.colon → value_in s (b + 2) c →
      s c = Some Ch.rbrace → value_in s a (c + 1)
with elements_in (s : Z → option Z) : Z → Z → Prop :=
  | elements_in_nil a : elements_in s a a
  | elements_in_snoc a b c :
      elements_in s a b → value_in s b c → s c = Some Ch.comma →
      elements_in s a (c + 1)
with members_in (s : Z → option Z) : Z → Z → Prop :=
  | members_in_nil a : members_in s a a
  | members_in_snoc a b c :
      members_in s a b → s b = Some Ch.quote → s (b + 1) = Some Ch.colon →
      value_in s (b + 2) c → s c = Some Ch.comma →
      members_in s a (c + 1).

Scheme value_in_mut := Minimality for value_in Sort Prop
  with elements_in_mut := Minimality for elements_in Sort Prop
  with members_in_mut := Minimality for members_in Sort Prop.

Combined Scheme text_mutind from value_in_mut, elements_in_mut, members_in_mut.

(** The part of the parser that decides where control goes: the structural
    bytes, the cursor over them, the depth and the return addresses. *)
Record control : Type := {
  c_chars : Z → option Z;
  c_cursor : Z;
  c_depth : Z;
  c_ret : list Z
}.

Definition control_of (sp : structural_parser) : control :=
  {| c_chars := structural_char (parser sp);
     c_cursor := current_structural sp;
     c_depth := depth sp;
     c_ret := ret_address (parser sp) |}.

(** [chain s RA first kd os p]: a scope of kind [kd] is waiting for a value
    that starts at the structural [p].  [os] lists the structurals of the
    open brackets around that value, innermost first (none for the root
    scope); what precedes [p] inside the innermost bracket is well formed,
    and each bracket is itself the value that the scope around it is waiting
    for, a scope whose continuation is the return address stored with the
    bracket. *)
Fixpoint chain (s : Z → option Z) (RA : list Z) (first : Z)
    (kd : kind) (os : list Z) (p : Z) {struct os} : Prop :=
  match os with
  | [] => kd = of_root ∧ p = first
  | o :: os' =>
      match kd with
      | of_root => False
      | of_array => s o = Some Ch.lbracket ∧ elements_in s (o + 1) p
      | of_object =>
          s o = Some Ch.lbrace ∧ members_in s (o + 1) (p - 2)
          ∧ s (p - 2) = Some Ch.quote ∧ s (p - 1) = Some Ch.colon
      end
      ∧ ∃ kd', load RA (Z.of_nat (length os') + 1) = Some (address_of kd')
               ∧ chain s RA first kd' os' o
  end.

(** The bracket at the structural [o], inside the brackets [os], is the
    value its parent is waiting for. *)
Definition enclosed (K : control) (first : Z) (os : list Z) (o : Z) : Prop :=
  ∃ kd, load (c_ret K) (Z.of_nat (length os) + 1) = Some (address_of kd)
        ∧ chain (c_chars K) (c_ret K) first kd os o.

(** What has been read of the text when a block is entered, the text
    starting at the structural [first]; [st] lists the structurals of the
    brackets that are open, innermost first. *)
Definition reading (first : Z) (l : L.label) (K : control) (st : list Z) : Prop :=
  let s := c_chars K in
  let c := c_cursor K in
  match l with
  | L.object_begin =>
      ∃ os, st = c :: os ∧ c_depth K = Z.of_nat (length os) + 2
            ∧ s c = Some Ch.lbrace ∧ enclosed K first os c
  | L.array_begin =>
      ∃ os, st = c :: os ∧ c_depth K = Z.of_nat (length os) + 2
            ∧ s c = Some Ch.lbracket ∧ enclosed K first os c
  | L.main_array_switch =>
      c_depth K = Z.of_nat (length st) + 1
      ∧ chain s (c_ret K) first of_array st (c + 1)
  | L.object_key_state =>
      ∃ o os, st = o :: os ∧ c_depth K = Z.of_nat (length os) + 2
              ∧ s o = Some Ch.lbrace ∧ enclosed K first os o
              ∧ members_in s (o + 1) c ∧ s c = Some Ch.quote
  | L.array_continue =>
      ∃ o os b, st = o :: os ∧ c_depth K = Z.of_nat (length os) + 2
                ∧ s o = Some Ch.lbracket ∧ enclosed K first os o
                ∧ elements_in s (o + 1) b ∧ value_in s b (c + 1)
  | L.object_continue =>
      ∃ o os b, st = o :: os ∧ c_depth K = Z.of_nat (length os) + 2
                ∧ s o = Some Ch.lbrace ∧ enclosed K first os o
                ∧ members_in s (o + 1) b
                ∧ s b = Some Ch.quote ∧ s (b + 1) = Some Ch.colon
                ∧ value_in s (b + 2) (c + 1)
  | L.scope_end =>
      ∃ o, c_depth K = Z.of_nat (length st) + 1
           ∧ enclosed K first st o ∧ value_in s o (c + 1)
  | L.finish => st = [] ∧ c_depth K = 1 ∧ value_in s first (c + 1)
  | L.error => True
  end.

(** A scope of kind [kd] is waiting for a value, and the cursor is on the
    first structural of that value. *)
Definition at_value (first : Z) (kd : kind) (K : control) (st : list Z) : Prop :=
  c_depth K = Z.of_nat (length st) + 1
  ∧ chain (c_chars K) (c_ret K) first kd st (c_cursor K).

(** ** The tape as the list of the text's tokens *)

(** The tag of the tape word that the parser writes for a structural byte:
    brackets, strings and atoms; numbers take one of three tags. *)
Definition tag_for (c : Z) : option tape_type :=
  if c =? Ch.lbrace then Some START_OBJECT
  else if c =? Ch.rbrace then Some END_OBJECT
  else if c =? Ch.lbracket then Some START_ARRAY
  else if c =? Ch.rbracket then Some END_ARRAY
  else if c =? Ch.quote then Some STRING
  else if c =? Ch.t then Some TRUE_VALUE
  else if c =? Ch.f then Some FALSE_VALUE
  else if c =? Ch.n then Some NULL_VALUE
  else None.

(** The number of tape words for a structural byte: two for a number, one
    for a bracket, a string or an atom, none for a comma or a colon. *)
Definition words_for (c : Z) : Z :=
  if is_minus_or_digit c then 2
  else match tag_for c with Some _ => 1 | None => 0 end.

Definition words_at (s : Z → option Z) (a : Z) : Z :=
  match s a with Some c => words_for c | None => 0 end.

(** The words of the [n] structurals from [first] on. *)
Fixpoint words_upto (s : Z → option Z) (first : Z) (n : nat) : Z :=
  match n with
  | O => 0
  | S n => words_upto s first n + words_at s (first + Z.of_nat n)
  end.

(** The tape index of the word for the structural [a]: after the [ROOT]
    word and the words of the structurals [first .. a-1]. *)
Definition tape_position (s : Z → option Z) (first a : Z) : Z :=
  1 + words_upto s first (Z.to_nat (a - first)).

(** Each open bracket of [st] has its slot on the tape recorded in the
    scope stack. *)
Fixpoint slots (s : Z → option Z) (first : Z)
    (CS : list scope_descriptor) (st : list Z) : Prop :=
  match st with
  | [] => True
  | o :: st' =>
      (∃ sc, load CS (Z.of_nat (length st') + 1) = Some sc
             ∧ tape_index sc = tape_position s first o)
      ∧ slots s first CS st'
  end.

Section token_vocabulary.
Context `{collaborators}.

(** The word at [i] is the one written for the structural byte [c]. *)
Definition token_at (T : list Z) (i : Z) (c : Z) : Prop :=
  (∀ t, tag_for c = Some t → has_tag T i t)
  ∧ (is_minus_or_digit c = true →
     ∃ t, number_tag t ∧ has_tag T i t ∧ is_Some (load T (i + 1))).

(** The structurals [first .. upto-1] have been read: the tape cursor is at
    the position after their words, every one of them that is not a
    bracket still open has its word on the tape, and the open brackets
    [st] have their slots reserved. *)
Definition tokens (first : Z) (st : list Z) (s : Z → option Z) (upto : Z)
    (C : core) : Prop :=
  0 ≤ first ≤ upto
  ∧ k_loc C = tape_position s first upto
  ∧ (∃ sc, load (k_scope C) 0 = Some sc ∧ tape_index sc = 0)
  ∧ Forall (λ o, first ≤ o < upto) st
  ∧ slots s first (k_scope C) st
  ∧ ∀ a c, first ≤ a < upto → s a = Some c → a ∉ st →
           token_at (k_tape C) (tape_position s first a) c.

(** The parser has read the structurals before the cursor, or up to and
    including the cursor. *)
Definition tokens_before (first : Z) (st : list Z) (sp : structural_parser) : Prop :=
  tokens first st (structural_char (parser sp)) (current_structural sp) (core_of sp).

Definition tokens_read (first : Z) (st : list Z) (sp : structural_parser) : Prop :=
  tokens first st (structural_char (parser sp)) (current_structural sp + 1) (core_of sp).

(** The text is short enough for tape indexes to fit 32 bits. *)
Definition short_text (sp : structural_parser) : Prop :=
  2 * Z.of_nat (length (structural_indexes (parser sp))) + 2 < 2 ^ 32.

(** What a block that jumps to [l'] has read, from the reading [st] on its
    entry. *)
Definition reads_on (first : Z) (st : list Z) (sp : structural_parser)
    (l' : L.label) (sp' : structural_parser) : Prop :=
  l' = L.error
  ∨ ∃ st', reading first l' (control_of sp') st'
           ∧ (short_text sp → tokens_read first st sp → tokens_read first st' sp').

(** The tape [T] up to the cursor [loc] lists, between two [ROOT] words,
    the tokens of the structurals [first .. n-1] in order: the word of each
    structural sits at its [tape_position]. *)
Definition token_list (first : Z) (s : Z → option Z) (n : Z)
    (T : list Z) (loc : Z) : Prop :=
  has_tag T 0 ROOT
  ∧ loc = tape_position s first n + 1
  ∧ has_tag T (tape_position s first n) ROOT
  ∧ ∀ a c, first ≤ a < n → s a = Some c → token_at T (tape_position s first a) c.

End token_vocabulary.

(** ** Texts that the parser accepts *)

(** How a structural byte changes the number of open brackets. *)
Definition bracket_change (c : Z) : Z :=
  if (c =? Ch.lbrace) || (c =? Ch.lbracket) then 1
  else if (c =? Ch.rbrace) || (c =? Ch.rbracket) then -1
  else 0.

(** The brackets left open by the [n] structurals from [first] on. *)
Fixpoint open_brackets (s : Z → option Z) (first : Z) (n : nat) : Z :=
  match n with
  | O => 0
  | S n =>
      open_brackets s first n
      + match s (first + Z.of_nat n) with Some c => bracket_change c | None => 0 end
  end.

(** The brackets open around the structural [a]. *)
Definition nesting (s : Z → option Z) (first a : Z) : Z :=
  open_brackets s first (Z.to_nat (a - first)).

(** At no point of the structurals [first .. n-1] are there [max_depth - 1]
    or more brackets open. *)
Definition within_depth (p : dom_parser_implementation) (first n : Z) : bool :=
  forallb (λ k, open_brackets (structural_char p) first k + 1 <? max_depth p)
    (seq 0 (S (Z.to_nat (n - first)))).

(** The structurals [first .. d] of [s] are the beginning of a well-formed
    text: some text that is one JSON value has the same structurals up to
    [d] and goes on after [d]. *)
Definition opens_well (s : Z → option Z) (first d : Z) : Prop :=
  ∃ s' n, value_in s' first n ∧ d < n ∧ ∀ a, first ≤ a ≤ d → s' a = s a.

Section accepted_vocabulary.
Context `{collaborators}.

(** The string at offset [idx] decodes, and its body with the four bytes of
    the length and the terminating zero takes at most [room] bytes. *)
Definition string_fits (p : dom_parser_implementation) (room idx : Z) : bool :=
  match decode_string (buf p) idx with
  | Some body => Z.of_nat (length body) + 5 <=? room
  | None => false
  end.

(** What [parse_root_number] needs to succeed on the number at offset
    [idx]: the copy can be allocated, the input holds [len] bytes, and the
    number parser accepts the padded copy. *)
Definition root_number_parses (p : dom_parser_implementation) (idx : Z) : bool :=
  malloc_succeeds (wrap64 (len p + SIMDJSON_PADDING))
  && bool_decide (0 ≤ len p ≤ Z.of_nat (length (buf p)))
  && bool_decide (is_Some (decode_number
       (take (Z.to_nat (len p)) (buf p) ++ replicate (Z.to_nat SIMDJSON_PADDING) Ch.space)
       idx)).

(** The structural [a] passes the test that the parser applies to it when
    it starts a scalar: a string decodes and fits, an atom is valid, a
    number parses; [root] tells whether it is the whole document, for which
    the atoms are validated with the remaining length and the number is
    parsed from a padded copy.  Other bytes are not tested. *)
Definition scalar_parses (p : dom_parser_implementation) (room : Z)
    (root : bool) (a : Z) : bool :=
  match load (structural_indexes p) a with
  | None => true
  | Some idx =>
      match load (buf p) idx with
      | None => true
      | Some c =>
          if c =? Ch.quote then string_fits p room idx
          else if c =? Ch.t then
            if root then is_valid_true_atom_len (buf p) idx (wrap64 (len p - idx))
            else is_valid_true_atom (buf p) idx
          else if c =? Ch.f then
            if root then is_valid_false_atom_len (buf p) idx (wrap64 (len p - idx))
            else is_valid_false_atom (buf p) idx
          else if c =? Ch.n then
            if root then is_valid_null_atom_len (buf p) idx (wrap64 (len p - idx))
            else is_valid_null_atom (buf p) idx
          else if is_minus_or_digit c then
            if root then root_number_parses p idx
            else bool_decide (is_Some (decode_number (buf p) idx))
          else true
      end
  end.

(** Every scalar among the structurals [first .. n-1] parses; only the
    structural [first] can be the whole document. *)
Definition scalars_parse (p : dom_parser_implementation) (room first n : Z) : bool :=
  forallb (λ k, scalar_parses p room (Nat.eqb k 0) (first + Z.of_nat k))
    (seq 0 (Z.to_nat (n - first))).

(** The machine goes from the entry of one block to the entry of another. *)
Inductive reaches : L.label → structural_parser → L.label → structural_parser → Prop :=
  | reaches_here l sp : reaches l sp l sp
  | reaches_step l sp l1 sp1 l' sp' :
      step l sp = Some (goto l1, sp1) → reaches l1 sp1 l' sp' →
      reaches l sp l' sp'.

(** The mutable part of the parser that the control flow depends on. *)
Definition fields (sp : structural_parser) (c d loc sloc : Z)
    (CS : list scope_descriptor) (RA : list Z) : Prop :=
  current_structural sp = c ∧ depth sp = d
  ∧ next_tape_loc sp = loc ∧ current_string_buf_loc sp = sloc
  ∧ containing_scope (parser sp) = CS ∧ ret_address (parser sp) = RA.

(** The block that reads a value of a scope of kind [kd], and the cursor on
    its entry when the value starts at the structural [a]: an array comes
    from the comma or the bracket before the value, an object from the key,
    with the colon still to read. *)
Definition entry_label (kd : kind) : L.label :=
  match kd with
  | of_object => L.object_key_state
  | _ => L.main_array_switch
  end.

Definition entry_ready (kd : kind) (sp : structural_parser) (a : Z) : Prop :=
  match kd with
  | of_array => current_structural sp + 1 = a
  | of_object =>
      current_structural sp + 2 = a
      ∧ structural_char (parser sp) (current_structural sp + 1) = Some Ch.colon
  | of_root => False
  end.

(** The parser [sp] of a call that started as [sp0] on the structural
    [first] is at depth [d], below the limit, having read the structurals
    before [bnd]: at most two tape words and [room] string bytes for each. *)
Definition poised (sp0 : structural_parser) (first room : Z)
    (sp : structural_parser) (d bnd : Z) : Prop :=
  same_layout sp0 sp ∧ depth sp = d ∧ 0 ≤ d < max_depth (parser sp0)
  ∧ 0 ≤ next_tape_loc sp ≤ 1 + 2 * (bnd - first)
  ∧ 0 ≤ current_string_buf_loc sp ≤ room * (bnd - first).

(** The scopes below depth [d] are as they were. *)
Definition keeps (d : Z) (sp sp' : structural_parser) : Prop :=
  ∀ i, i < d →
       load (containing_scope (parser sp')) i = load (containing_scope (parser sp)) i
       ∧ load (ret_address (parser sp')) i = load (ret_address (parser sp)) i.

(** The scope at depth [d] is open: it has its return address [r] and a
    slot on the tape. *)
Definition open_scope (sp : structural_parser) (d r : Z) : Prop :=
  load (ret_address (parser sp)) d = Some r
  ∧ ∃ sc, load (containing_scope (parser sp)) d = Some sc
          ∧ 0 ≤ tape_index sc < Z.of_nat (length (tape (doc (parser sp)))).


(** What the machine does on a well-formed part of a text [s], in a call
    that started as [sp0] on the structural [first] and whose input has the
    structurals of [s] up to [n].

    [value_runs]: on a value [a .. c-1] inside an array or an object, the
    machine goes from the block that reads the value to the continuation of
    the scope, leaving the scopes below as they were. *)
Definition value_runs (s : Z → option Z) (sp0 : structural_parser)
    (first n room a c : Z) : Prop :=
  first < a → c ≤ n →
  ∀ kd sp,
    entry_ready kd sp a →
    poised sp0 first room sp (nesting s first a + 1) a →
    ∃ sp', reaches (entry_label kd) sp (continue_at kd) sp'
           ∧ current_structural sp' = c - 1
           ∧ poised sp0 first room sp' (nesting s first a + 1) c
           ∧ keeps (nesting s first a + 1) sp sp'.

(** [body_runs]: once the bracket at [a] has been opened, in a scope of any
    kind, the machine reads the rest of the array or object [a .. c-1] and
    goes to the continuation of that scope. *)
Definition body_runs (s : Z → option Z) (sp0 : structural_parser)
    (first n room a c : Z) : Prop :=
  first ≤ a → c ≤ n →
  ∀ kd sp l,
    (s a = Some Ch.lbrace ∧ l = L.object_begin)
    ∨ (s a = Some Ch.lbracket ∧ l = L.array_begin) →
    current_structural sp = a →
    poised sp0 first room sp (nesting s first a + 2) (a + 1) →
    open_scope sp (nesting s first a + 1) (address_of kd) →
    ∃ sp', reaches l sp (continue_at kd) sp'
           ∧ current_structural sp' = c - 1
           ∧ poised sp0 first room sp' (nesting s first a + 1) c
           ∧ keeps (nesting s first a + 1) sp sp'.

(** [elements_run]: on the elements [a .. b-1] of an array, each with its
    comma, the machine comes back to [main_array_switch]. *)
Definition elements_run (s : Z → option Z) (sp0 : structural_parser)
    (first n room a b : Z) : Prop :=
  first < a → b ≤ n →
  ∀ sp r,
    current_structural sp = a - 1 →
    poised sp0 first room sp (nesting s first a + 1) a →
    open_scope sp (nesting s first a) r →
    ∃ sp', reaches L.main_array_switch sp L.main_array_switch sp'
           ∧ current_structural sp' = b - 1
           ∧ poised sp0 first room sp' (nesting s first a + 1) b
           ∧ keeps (nesting s first a) sp sp'
           ∧ open_scope sp' (nesting s first a) r.

(** [members_run]: on the members [a .. b-1] of an object, each with its
    comma, the key at [a] being read already and a key following at [b],
    the machine comes back to [object_key_state] with that key read. *)
Definition members_run (s : Z → option Z) (sp0 : structural_parser)
    (first n room a b : Z) : Prop :=
  first < a → b < n →
  ∀ sp r,
    current_structural sp = a →
    s b = Some Ch.quote →
    poised sp0 first room sp (nesting s first a + 1) (a + 1) →
    open_scope sp (nesting s first a) r →
    ∃ sp', reaches L.object_key_state sp L.object_key_state sp'
           ∧ current_structural sp' = b
           ∧ poised sp0 first room sp' (nesting s first a + 1) (b + 1)
           ∧ keeps (nesting s first a) sp sp'
           ∧ open_scope sp' (nesting s first a) r.

(** The machine has gone to the [error] block with the depth at the limit. *)
Definition sunk (sp0 : structural_parser) (l : L.label) (sp : structural_parser) : Prop :=
  ∃ sp', reaches l sp L.error sp'
         ∧ same_layout sp0 sp'
         ∧ max_depth (parser sp0) ≤ depth sp'.

(** The same parts of the text when they contain the structural [n], an
    opening bracket that brings the depth to the limit: the machine goes to
    the [error] block with the depth at the limit. *)
Definition value_sinks (s : Z → option Z) (sp0 : structural_parser)
    (first n room a c : Z) : Prop :=
  first < a → a ≤ n < c →
  ∀ kd sp,
    entry_ready kd sp a →
    poised sp0 first room sp (nesting s first a + 1) a →
    sunk sp0 (entry_label kd) sp.

Definition body_sinks (s : Z → option Z) (sp0 : structural_parser)
    (first n room a c : Z) : Prop :=
  first ≤ a → a < n < c →
  ∀ kd sp l,
    (s a = Some Ch.lbrace ∧ l = L.object_begin)
    ∨ (s a = Some Ch.lbracket ∧ l = L.array_begin) →
    current_structural sp = a →
    poised sp0 first room sp (nesting s first a + 2) (a + 1) →
    open_scope sp (nesting s first a + 1) (address_of kd) →
    sunk sp0 l sp.

Definition elements_sink (s : Z → option Z) (sp0 : structural_parser)
    (first n room a b : Z) : Prop :=
  first < a → a ≤ n < b →
  ∀ sp r,
    current_structural sp = a - 1 →
    poised sp0 first room sp (nesting s first a + 1) a →
    open_scope sp (nesting s first a) r →
    sunk sp0 L.main_array_switch sp.

Definition members_sink (s : Z → option Z) (sp0 : structural_parser)
    (first n room a b : Z) : Prop :=
  first < a → a < n < b →
  ∀ sp r,
    current_structural sp = a →
    poised sp0 first room sp (nesting s first a + 1) (a + 1) →
    open_scope sp (nesting s first a) r →
    sunk sp0 L.object_key_state sp.

End accepted_vocabulary.

(** ** The scalars on the tape *)

(** The string buffer [sb] holds at [o] the string [body] as the parser
    stores it: the length in four little-endian bytes, the bytes of the
    body, and a NUL. *)
Definition string_record (sb : list Z) (o : Z) (body : list Z) : Prop :=
  le32_value (bytes_at sb o 4) = Some (wrap32 (Z.of_nat (length body)))
  ∧ bytes_at sb (o + 4) (length body) = body
  ∧ load sb (o + 4 + Z.of_nat (length body)) = Some 0.

(** The tag and the raw 64 bits of a number. *)
Definition number_type (x : number) : tape_type :=
  match x with
  | number_s64 _ => INT64
  | number_u64 _ => UINT64
  | number_double _ => DOUBLE
  end.

Definition number_bits (x : number) : Z :=
  match x with
  | number_s64 v => v
  | number_u64 v => v
  | number_double bits => bits
  end.

Section scalar_vocabulary.
Context `{collaborators}.

(** The copy of the input, padded with spaces, that [parse_root_number]
    parses from. *)
Definition padded_copy (p : dom_parser_implementation) : list Z :=
  take (Z.to_nat (len p)) (buf p) ++ replicate (Z.to_nat SIMDJSON_PADDING) Ch.space.

(** The scalar that starts with the byte [ch] at offset [idx] of the input
    is stored with its word at the tape index [i]: for a string, the word
    is a [STRING] word whose payload is the offset of the record of the
    decoded string in the string buffer, a record that ends before [hi];
    for a number, the word has the tag of the parsed number and the next
    word holds its 64 bits.  A number that is the whole document ([root])
    is parsed from the padded copy. *)
Definition scalar_stored (p : dom_parser_implementation) (root : bool)
    (T sb : list Z) (hi i idx ch : Z) : Prop :=
  (ch = Ch.quote →
   ∃ body o, decode_string (buf p) idx = Some body
             ∧ load T i = Some (tape_word STRING o)
             ∧ 0 ≤ o ∧ o + 4 + Z.of_nat (length body) + 1 ≤ hi
             ∧ string_record sb o body)
  ∧ (is_minus_or_digit ch = true →
     ∃ x, decode_number (if root then padded_copy p else buf p) idx = Some x
          ∧ load T i = Some (tape_word (number_type x) 0)
          ∧ load T (i + 1) = Some (wrap64 (number_bits x))).

(** Every scalar among the structurals [first .. upto-1] is stored at its
    tape position, the strings below the cursor of the string buffer. *)
Definition scalars_stored (first : Z) (sp : structural_parser) (upto : Z) : Prop :=
  ∀ a idx ch,
    first ≤ a < upto →
    load (structural_indexes (parser sp)) a = Some idx →
    load (buf (parser sp)) idx = Some ch →
    scalar_stored (parser sp) (bool_decide (a = first))
      (tape (doc (parser sp))) (string_buf (doc (parser sp)))
      (current_string_buf_loc sp)
      (tape_position (structural_char (parser sp)) first a) idx ch.

End scalar_vocabulary.

(** ** More documents and states to run the machine on *)

Module Cases.

(** The sample collaborators with an allocator that always fails. *)
Definition without_memory : collaborators :=
  {| tape_type_code := Sample.code;
     SIMDJSON_PADDING := 32;
     decode_string := Sample.string_body;
     decode_number := Sample.integer;
     is_valid_true_atom := Sample.starts_with Sample.atom_true;
     is_valid_false_atom := Sample.starts_with Sample.atom_false;
     is_valid_null_atom := Sample.starts_with Sample.atom_null;
     is_valid_true_atom_len := Sample.starts_with_len Sample.atom_true;
     is_valid_false_atom_len := Sample.starts_with_len Sample.atom_false;
     is_valid_null_atom_len := Sample.starts_with_len Sample.atom_null;
     malloc_succeeds := λ _, false |}.

(** The document [7], a number at the root *)
Definition root_number : dom_parser_implementation :=
  Sample.dom_parser [55] [0] 8.

(** The two documents [[1] {}] of a stream *)
Definition two_documents : dom_parser_implementation :=
  Sample.dom_parser [91; 49; 93; 32; 123; 125] [0; 1; 2; 4; 5] 8.

(** A parser inside a root array that has counted 2^24 + 5 elements. *)
Definition crowded_array : structural_parser :=
  let sp := Examples.after_first_value Examples.open_array in
  set_parser
    (set_containing_scope
       (<[1%nat := {| tape_index := 1; count := 16777221 |}]>
          (containing_scope (parser sp)))
       (parser sp))
    sp.

(** The truncated document [[[1] with room for three scopes: the second
    bracket brings the depth to the limit. *)
Definition two_deep : dom_parser_implementation :=
  Sample.dom_parser [91; 91; 49] [0; 1; 2] 3.

(** The document [[[1]]], of which [[[1] is the beginning. *)
Definition two_deep_closed : dom_parser_implementation :=
  Sample.dom_parser [91; 91; 49; 93; 93] [0; 1; 2; 3; 4] 8.

End Cases.

(** * Properties *)

(** ** Arrays *)

Lemma load_Some_range {A : Type} (a : list A) (i : Z) (v : A) :
  load a i = Some v → 0 ≤ i < Z.of_nat (length a).
Proof.
  unfold load. case_decide; [|done]. intros Hl%lookup_lt_Some. lia.
Qed.

Lemma store_defined {A : Type} (a : list A) (i : Z) (v : A) :
  0 ≤ i < Z.of_nat (length a) → store a i v = Some (<[Z.to_nat i := v]> a).
Proof. intros Hi. unfold store. by case_decide. Qed.

Lemma store_Some {A : Type} (a a' : list A) (i : Z) (v : A) :
  store a i v = Some a' →
  0 ≤ i < Z.of_nat (length a) ∧ a' = <[Z.to_nat i := v]> a.
Proof. unfold store. case_decide; intros; by simplify_eq. Qed.

Lemma store_length {A : Type} (a a' : list A) (i : Z) (v : A) :
  store a i v = Some a' → length a' = length a.
Proof. intros [_ ->]%store_Some. apply length_insert. Qed.

Lemma load_store_eq {A : Type} (a a' : list A) (i : Z) (v : A) :
  store a i v = Some a' → load a' i = Some v.
Proof.
  intros [Hi ->]%store_Some. unfold load. case_decide; [|lia].
  apply list_lookup_insert_eq. lia.
Qed.

Lemma load_store_ne {A : Type} (a a' : list A) (i j : Z) (v : A) :
  store a i v = Some a' → i ≠ j → load a' j = load a j.
Proof.
  intros [Hi ->]%store_Some Hne. unfold load. case_decide; [|done].
  apply list_lookup_insert_ne. lia.
Qed.

Lemma store_bytes_length (a a' : list Z) (i : Z) (bs : list Z) :
  store_bytes a i bs = Some a' → length a' = length a.
Proof.
  unfold store_bytes. case_decide; [|done]. intros [= <-].
  rewrite !length_app, length_take, length_drop. lia.
Qed.

Lemma wrap32_small (x : Z) : 0 ≤ x < 2 ^ 32 → wrap32 x = x.
Proof. intros Hx. unfold wrap32. by apply Z.mod_small. Qed.

(** Symbolic execution of the monadic blocks: unfold the methods down to
    loads and stores, then split on every test. *)
Ltac unfold_methods :=
  unfold step, object_begin, object_key_state, object_continue, scope_end,
    array_begin, main_array_switch, array_continue, read_first_value,
    start, init, finish, error, fail_with, or_error,
    parse_string, parse_number, parse_root_number, parse_number_at,
    numberparsing_parse_number, stringparsing_parse_string,
    on_start_string, on_end_string,
    parse_true_atom, parse_false_atom, parse_null_atom,
    parse_root_true_atom, parse_root_false_atom, parse_root_null_atom,
    increment_count, end_object, end_array, end_document, end_scope,
    start_document, start_object, start_array, start_scope,
    tape_append_number, tape_append2, tape_append, tape_write, tape_skip,
    advance_char, peek_next_char, remaining_len, current_char, current, at_end,
    bind, ret, get, modify, lift in *.

Ltac run_methods := unfold_methods; repeat (case_match; simplify_eq/=).

Ltac forget_stores :=
  repeat match goal with
    | Hs : store _ _ _ = Some _ |- _ => apply store_length in Hs
    | Hs : store_bytes _ _ _ = Some _ |- _ => apply store_bytes_length in Hs
    end.

Ltac load_ranges :=
  repeat match goal with
    | Hl : load _ _ = Some _ |- _ => apply load_Some_range in Hl
    end.

Section properties.
Context `{collaborators}.

(** ** start_scope *)

Lemma start_scope_spec (continue_state : Z) (sp : structural_parser) :
  0 ≤ depth sp < Z.of_nat (length (containing_scope (parser sp))) →
  depth sp < Z.of_nat (length (ret_address (parser sp))) →
  ∃ sp',
    start_scope continue_state sp
      = Some (max_depth (parser sp) <=? wrap32 (depth sp + 1), sp')
    ∧ load (containing_scope (parser sp')) (depth sp)
      = Some {| tape_index := next_tape_index sp; count := 0 |}
    ∧ next_tape_loc sp' = next_tape_loc sp + 1
    ∧ tape (doc (parser sp')) = tape (doc (parser sp))
    ∧ load (ret_address (parser sp')) (depth sp) = Some continue_state
    ∧ depth sp' = wrap32 (depth sp + 1).
Proof.
  intros Hcs Hra. unfold_methods.
  rewrite store_defined by done. simpl.
  rewrite store_defined by lia. simpl.
  eexists. split; [reflexivity|]. simpl.
  split_and!; try done.
  - eapply load_store_eq, store_defined; done.
  - eapply load_store_eq, store_defined; lia.
Qed.

(** ** What no block changes *)

Lemma step_same_layout l sp nx sp' :
  step l sp = Some (nx, sp') → same_layout sp sp'.
Proof.
  intros Hs. destruct l; run_methods.
  all: (forget_stores; unfold same_layout; simpl; split_and!; congruence).
Qed.

Lemma read_first_value_same_layout STREAMING sp nx sp' :
  read_first_value STREAMING sp = Some (nx, sp') → same_layout sp sp'.
Proof.
  intros Hs. run_methods.
  all: forget_stores; unfold same_layout; simpl; split_and!; congruence.
Qed.

Lemma same_layout_trans sp1 sp2 sp3 :
  same_layout sp1 sp2 → same_layout sp2 sp3 → same_layout sp1 sp3.
Proof. unfold same_layout. intros H12 H23. destruct_and!. split_and!; congruence. Qed.

(** ** Termination *)

Lemma step_measure l sp l' sp' :
  step l sp = Some (goto l', sp') → (measure l' sp' < measure l sp)%nat.
Proof.
  intros Hs. destruct l; run_methods.
  all: load_ranges; unfold measure; simpl in *; lia.
Qed.

Lemma run_fuel_enough fuel l sp :
  (measure l sp < fuel)%nat → run fuel l sp ≠ OutOfFuel.
Proof.
  revert l sp. induction fuel as [|fuel IH]; intros l sp Hm; [lia|].
  simpl. destruct (step l sp) as [[[l'|e] sp']|] eqn:Hs; try done.
  apply IH. apply step_measure in Hs. lia.
Qed.

Lemma read_first_value_cursor STREAMING sp nx sp' :
  read_first_value STREAMING sp = Some (nx, sp') →
  0 ≤ current_structural sp'.
Proof.
  intros Hs. run_methods.
  all: load_ranges; simpl in *; lia.
Qed.

Theorem parse_structurals_terminates STREAMING dom_parser doc :
  parse_structurals STREAMING dom_parser doc ≠ OutOfFuel.
Proof.
  unfold parse_structurals.
  destruct (start _ _) as [[e sp]|]; [|done].
  destruct e; try done.
  destruct (read_first_value _ _) as [[[l|e] sp']|] eqn:Hr; try done.
  apply run_fuel_enough. apply read_first_value_cursor in Hr.
  unfold measure, fuel_for. destruct l; simpl; lia.
Qed.

(** ** The error field and [next_structural_index] *)

Lemma step_goto_frame l sp l' sp' :
  step l sp = Some (goto l', sp') →
  parser_error (parser sp') = parser_error (parser sp)
  ∧ next_structural_index (parser sp') = next_structural_index (parser sp)
  ∧ l ≠ L.finish ∧ l ≠ L.error.
Proof.
  intros Hs. destruct l; run_methods; done.
Qed.

Lemma read_first_value_frame STREAMING sp nx sp' :
  read_first_value STREAMING sp = Some (nx, sp') →
  parser_error (parser sp') = parser_error (parser sp)
  ∧ next_structural_index (parser sp') = next_structural_index (parser sp)
  ∧ ∃ l, nx = goto l.
Proof.
  intros Hs. run_methods; eauto.
Qed.

Lemma finish_spec sp e sp' :
  finish sp = Some (e, sp') →
  ∃ sp1, end_document sp = Some (tt, sp1)
    ∧ depth sp' = depth sp1
    ∧ current_structural sp' = current_structural sp
    ∧ next_structural_index (parser sp') = wrap32 (current_structural sp + 1)
    ∧ ((e = SUCCESS ∧ depth sp1 = 0
        ∧ parser_error (parser sp') = parser_error (parser sp))
       ∨ (e = TAPE_ERROR ∧ depth sp1 ≠ 0
          ∧ parser_error (parser sp') = TAPE_ERROR)).
Proof.
  intros Hs. unfold finish, fail_with, bind, ret, get, modify in Hs.
  destruct (end_document sp) as [[[] sp1]|] eqn:He; [|done].
  exists sp1. split; [done|].
  assert (current_structural sp1 = current_structural sp
          ∧ parser_error (parser sp1) = parser_error (parser sp)) as [Hc Hp].
  { clear Hs. run_methods; done. }
  simpl in Hs. destruct (depth sp1 =? 0) eqn:Hd; simplify_eq/=.
  - rewrite Hc. split_and!; try done. left. split_and!; try done. lia.
  - rewrite Hc. split_and!; try done. right. split_and!; try done. lia.
Qed.

Lemma error_frame sp e sp' :
  error sp = Some (e, sp') →
  e ≠ SUCCESS
  ∧ parser_error (parser sp') = e
  ∧ next_structural_index (parser sp') = next_structural_index (parser sp).
Proof.
  intros Hs. run_methods; done.
Qed.

Lemma start_frame finish_state sp e sp' :
  start finish_state sp = Some (e, sp') →
  next_structural_index (parser sp') = next_structural_index (parser sp)
  ∧ ((e = SUCCESS ∧ parser_error (parser sp') = UNINITIALIZED)
     ∨ (e = EMPTY ∧ parser_error (parser sp') = EMPTY)
     ∨ (e = DEPTH_ERROR ∧ parser_error (parser sp') = DEPTH_ERROR)).
Proof.
  intros Hs. run_methods; naive_solver.
Qed.

Lemma run_frame fuel l sp e sp' :
  run fuel l sp = Returned e sp' →
  (e = SUCCESS → parser_error (parser sp') = parser_error (parser sp) ∧ depth sp' = 0)
  ∧ (e ≠ SUCCESS → parser_error (parser sp') = e)
  ∧ (L.finish ∈ (trace fuel l sp).*1 →
     next_structural_index (parser sp') = wrap32 (current_structural sp' + 1))
  ∧ (L.finish ∉ (trace fuel l sp).*1 →
     next_structural_index (parser sp') = next_structural_index (parser sp)).
Proof.
  revert l sp. induction fuel as [|fuel IH]; intros l sp Hr; [done|].
  simpl in Hr. simpl. destruct (step l sp) as [[[l'|e'] sp1]|] eqn:Hs; [|simplify_eq|done].
  - destruct (step_goto_frame _ _ _ _ Hs) as (Hp & Hn & Hf & _).
    destruct (IH _ _ Hr) as (I1 & I2 & I3 & I4).
    split_and!.
    + intros He. rewrite <- Hp. by apply I1.
    + done.
    + intros [?|Hin]%elem_of_cons; [done|]. by apply I3.
    + intros [_ Hnin]%not_elem_of_cons. rewrite <- Hn. by apply I4.
  - destruct l; simpl in Hs; try (by run_methods).
    + unfold bind, ret in Hs.
      destruct (finish sp) as [[e1 sp2]|] eqn:Hf; simplify_eq.
      apply finish_spec in Hf as (sp1 & _ & Hd & Hc & Hn & Hcase).
      split_and!.
      * intros ->. destruct Hcase as [(_ & ? & ?)|(? & _)]; [|done]. split; congruence.
      * intros He. destruct Hcase as [(? & _)|(-> & _ & ?)]; done.
      * intros _. congruence.
      * intros [Hnin _]%not_elem_of_cons. done.
    + unfold bind, ret in Hs.
      destruct (error sp) as [[e1 sp2]|] eqn:Hf; simplify_eq.
      apply error_frame in Hf as (Hne & Hp & Hn).
      split_and!; try done.
      intros [?|Hin]%elem_of_cons; [done|]. by apply elem_of_nil in Hin.
Qed.
(** ** Depth *)

Lemma step_depth_bound l sp l' sp' :
  step l sp = Some (goto l', sp') →
  Z.of_nat (length (containing_scope (parser sp))) ≤ max_depth (parser sp) →
  depth sp < max_depth (parser sp) →
  l' = L.error ∨ depth sp' < max_depth (parser sp').
Proof.
  intros Hs Hcap Hd. destruct l; run_methods.
  all: try (by left).
  all: right; load_ranges; simpl in *; try lia.
Qed.

Lemma read_first_value_depth_bound STREAMING sp l' sp' :
  read_first_value STREAMING sp = Some (goto l', sp') →
  depth sp < max_depth (parser sp) →
  l' = L.error ∨ depth sp' < max_depth (parser sp').
Proof.
  intros Hs Hcap. run_methods.
  all: try (by left).
  all: right; load_ranges; simpl in *; try lia.
Qed.

Lemma error_at_max_depth sp :
  max_depth (parser sp) ≤ depth sp →
  error sp = Some (DEPTH_ERROR, set_parser (set_parser_error DEPTH_ERROR (parser sp)) sp).
Proof.
  intros Hd. unfold error, fail_with, bind, get, modify, ret.
  destruct (Z.leb_spec (max_depth (parser sp)) (depth sp)); [done|lia].
Qed.

Lemma start_cases finish_state sp e sp' :
  start finish_state sp = Some (e, sp') →
  same_layout sp sp'
  ∧ ((e = SUCCESS ∧ depth sp' < max_depth (parser sp'))
     ∨ e = EMPTY ∨ e = DEPTH_ERROR).
Proof.
  intros Hs. run_methods.
  all: forget_stores; unfold same_layout; simpl; split_and!; try congruence.
  all: try (by right; left); try (by right; right).
  left. split; [done|lia].
Qed.

(** ** Tape words *)

Lemma payload_of_tape_word t p : payload_of (tape_word t p) = p mod 2 ^ 56.
Proof.
  unfold payload_of, tape_word.
  change (2 ^ 56 - 1) with (Z.ones 56).
  rewrite Z.land_lor_distr_l, !Z.land_ones by lia.
  rewrite Z.shiftl_mul_pow2 by lia.
  rewrite Z.mod_mul by lia. rewrite Z.mod_mod by lia. apply Z.lor_0_l.
Qed.

Lemma tag_of_tape_word t p : tag_of (tape_word t p) = tape_type_code t.
Proof.
  unfold tag_of, tape_word.
  change (2 ^ 56 - 1) with (Z.ones 56).
  rewrite Z.shiftr_lor, Z.shiftr_shiftl_l by lia.
  rewrite Z.land_ones, Z.shiftr_div_pow2 by lia.
  rewrite Z.sub_diag, Z.shiftl_0_r.
  rewrite Z.div_small by (apply Z.mod_pos_bound; lia).
  apply Z.lor_0_r.
Qed.

Lemma le32_value_bytes x :
  0 ≤ x < 2 ^ 32 → le32_value (le32_bytes x) = Some x.
Proof.
  intros Hx. unfold le32_value, le32_bytes. f_equal.
  change 255 with (Z.ones 8).
  rewrite !Z.land_ones, !Z.shiftr_div_pow2 by lia.
  change (2 ^ 8) with 256. change (2 ^ 16) with 65536. change (2 ^ 24) with 16777216.
  change (2 ^ 32) with 4294967296 in Hx.
  Z.div_mod_to_equations. lia.
Qed.

(** ** Strings *)

Lemma lookup_bytes_at a i n (k : nat) :
  0 ≤ i → bytes_at a i n !! k = if decide (k < n)%nat then load a (i + Z.of_nat k) else None.
Proof.
  intros Hi. unfold bytes_at, load. case_decide.
  - rewrite lookup_take_lt, lookup_drop by done. case_decide; [|lia]. f_equal. lia.
  - apply lookup_take_ge. lia.
Qed.

Lemma store_bytes_defined a i bs :
  0 ≤ i → i + Z.of_nat (length bs) ≤ Z.of_nat (length a) →
  ∃ a', store_bytes a i bs = Some a'.
Proof. intros. unfold store_bytes. case_decide; [eauto|lia]. Qed.

Lemma load_store_bytes a a' i bs k :
  store_bytes a i bs = Some a' →
  load a' k = if decide (i ≤ k < i + Z.of_nat (length bs))
              then bs !! Z.to_nat (k - i) else load a k.
Proof.
  unfold store_bytes. case_decide as Hr; [|done]. intros [= <-].
  unfold load. case_decide as Hk.
  - case_decide as Hin.
    + rewrite lookup_app_r by (rewrite length_take; lia).
      rewrite length_take, lookup_app_l by lia. f_equal. lia.
    + destruct (decide (k < i)).
      * rewrite lookup_app_l by (rewrite length_take; lia).
        apply lookup_take_lt. lia.
      * rewrite lookup_app_r by (rewrite length_take; lia).
        rewrite lookup_app_r by (rewrite length_take; lia).
        rewrite lookup_drop, length_take. f_equal. lia.
  - case_decide; [lia|done].
Qed.

Lemma bytes_at_store_bytes_eq a a' i bs :
  store_bytes a i bs = Some a' → bytes_at a' i (length bs) = bs.
Proof.
  intros Hs. assert (0 ≤ i) by (unfold store_bytes in Hs; case_decide; [lia|done]).
  apply list_eq. intros k. rewrite lookup_bytes_at by done.
  case_decide as Hk.
  - rewrite (load_store_bytes _ _ _ _ _ Hs). case_decide; [|lia]. f_equal. lia.
  - symmetry. apply lookup_ge_None_2. lia.
Qed.

Lemma bytes_at_store_bytes_ne a a' i bs j n :
  store_bytes a i bs = Some a' → 0 ≤ j →
  j + Z.of_nat n ≤ i ∨ i + Z.of_nat (length bs) ≤ j →
  bytes_at a' j n = bytes_at a j n.
Proof.
  intros Hs Hj Hd. apply list_eq. intros k. rewrite !lookup_bytes_at by done.
  case_decide; [|done].
  rewrite (load_store_bytes _ _ _ _ _ Hs). case_decide; [lia|done].
Qed.

Lemma bytes_at_store_ne a a' i v j n :
  store a i v = Some a' → 0 ≤ j →
  j + Z.of_nat n ≤ i ∨ i < j →
  bytes_at a' j n = bytes_at a j n.
Proof.
  intros Hs Hj Hd. apply list_eq. intros k. rewrite !lookup_bytes_at by done.
  case_decide; [|done]. apply (load_store_ne _ _ _ _ _ Hs). lia.
Qed.

Lemma parse_string_spec (key : bool) (sp : structural_parser) (src : Z) (body : list Z) :
  let off := current_string_buf_loc sp in
  let n := Z.of_nat (length body) in
  load (structural_indexes (parser sp)) (current_structural sp) = Some src →
  decode_string (buf (parser sp)) src = Some body →
  0 ≤ next_tape_loc sp < Z.of_nat (length (tape (doc (parser sp)))) →
  0 ≤ off →
  off + 4 + n + 1 ≤ Z.of_nat (length (string_buf (doc (parser sp)))) →
  n < 2 ^ 32 →
  ∃ sp',
    parse_string key sp = Some (false, sp')
    ∧ load (tape (doc (parser sp'))) (next_tape_loc sp) = Some (tape_word STRING off)
    ∧ next_tape_loc sp' = next_tape_loc sp + 1
    ∧ le32_value (bytes_at (string_buf (doc (parser sp'))) off 4) = Some n
    ∧ bytes_at (string_buf (doc (parser sp'))) (off + 4) (length body) = body
    ∧ load (string_buf (doc (parser sp'))) (off + 4 + n) = Some 0
    ∧ current_string_buf_loc sp' = off + 4 + n + 1.
Proof.
  intros off n Hsrc Hdec Htape Hoff Hcap Hn.
  destruct (store_bytes_defined (string_buf (doc (parser sp))) (off + 4) body)
    as [sb1 Hsb1]; [lia..|].
  pose proof (store_bytes_length _ _ _ _ Hsb1) as Hl1.
  destruct (store_bytes_defined sb1 off (le32_bytes (wrap32 (off + 4 + n - (off + 4)))))
    as [sb2 Hsb2]; [simpl; lia..|].
  pose proof (store_bytes_length _ _ _ _ Hsb2) as Hl2.
  pose proof (store_defined sb2 (off + 4 + n) 0 ltac:(lia)) as Hsb3.
  unfold_methods. fold off.
  rewrite store_defined by done. simpl. rewrite Hsrc. simpl. rewrite Hdec. simpl.
  fold off. rewrite Hsb1. simpl. fold off. fold n. rewrite Hsb2, Hsb3. simpl.
  eexists. split; [reflexivity|]. simpl.
  assert (wrap32 (off + 4 + n - (off + 4)) = n) as Hw.
  { replace (off + 4 + n - (off + 4)) with n by lia. apply wrap32_small. lia. }
  rewrite Hw in Hsb2.
  split_and!; try done.
  - eapply load_store_eq, store_defined. done.
  - rewrite (bytes_at_store_ne _ _ _ _ _ _ Hsb3) by lia.
    change 4%nat with (length (le32_bytes n)).
    rewrite (bytes_at_store_bytes_eq _ _ _ _ Hsb2).
    apply le32_value_bytes. lia.
  - rewrite (bytes_at_store_ne _ _ _ _ _ _ Hsb3) by lia.
    rewrite (bytes_at_store_bytes_ne _ _ _ _ _ _ Hsb2) by (simpl; lia).
    apply (bytes_at_store_bytes_eq _ _ _ _ Hsb1).
  - eapply load_store_eq. done.
Qed.

(** C2. When the decoder succeeds on the string at the current structural,
    [parse_string] accepts it and appends one [STRING] word whose payload is
    the offset [off] of the string-buffer cursor; at [off] the string buffer
    then holds the length of the body as four little-endian bytes, followed
    by exactly the bytes of the body and by a NUL that the length does not
    count, and the cursor is just past that NUL.  The body is shorter than
    2^32 bytes, the offset fits the 56 bits of a payload, and the tape and
    the string buffer have room. *)
Theorem parse_string_layout (key : bool) (sp : structural_parser)
    (src : Z) (body : list Z) :
  let off := current_string_buf_loc sp in
  let n := Z.of_nat (length body) in
  load (structural_indexes (parser sp)) (current_structural sp) = Some src →
  decode_string (buf (parser sp)) src = Some body →
  0 ≤ next_tape_loc sp < Z.of_nat (length (tape (doc (parser sp)))) →
  0 ≤ off < 2 ^ 56 →
  off + 4 + n + 1 ≤ Z.of_nat (length (string_buf (doc (parser sp)))) →
  n < 2 ^ 32 →
  ∃ sp' w,
    parse_string key sp = Some (false, sp')
    ∧ load (tape (doc (parser sp'))) (next_tape_loc sp) = Some w
    ∧ tag_of w = tape_type_code STRING
    ∧ payload_of w = off
    ∧ le32_value (bytes_at (string_buf (doc (parser sp'))) off 4) = Some n
    ∧ bytes_at (string_buf (doc (parser sp'))) (off + 4) (length body) = body
    ∧ load (string_buf (doc (parser sp'))) (off + 4 + n) = Some 0
    ∧ current_string_buf_loc sp' = off + 4 + n + 1.
Proof.
  intros off n Hsrc Hdec Htape Hoff Hcap Hn.
  destruct (parse_string_spec key sp src body Hsrc Hdec Htape)
    as (sp' & Hp & Hw & _ & Hlen & Hbody & Hnul & Hloc); [lia|done|done|].
  exists sp', (tape_word STRING off). split_and!; try done.
  - apply tag_of_tape_word.
  - rewrite payload_of_tape_word. apply Z.mod_small. done.
Qed.

(** ** error *)

Lemma is_minus_or_digit_spec c :
  is_minus_or_digit c = true ↔ c = 45 ∨ 48 ≤ c ≤ 57.
Proof. unfold is_minus_or_digit, Ch.minus. rewrite !orb_true_iff, !Z.eqb_eq. lia. Qed.

(** C6. In the error state the code is [DEPTH_ERROR] when
    [depth >= max_depth], whatever the current byte; otherwise it is decided
    by the byte at the current structural index: [STRING_ERROR] for a double
    quote, [NUMBER_ERROR] for a digit or a minus sign, [T_ATOM_ERROR] for
    [t], [F_ATOM_ERROR] for [f], [N_ATOM_ERROR] for [n], and [TAPE_ERROR]
    for every other byte.  The machine returns that code. *)
Theorem error_classification (sp : structural_parser) :
  (max_depth (parser sp) ≤ depth sp →
   ∃ sp', error sp = Some (DEPTH_ERROR, sp')
          ∧ parser_error (parser sp') = DEPTH_ERROR)
  ∧ (depth sp < max_depth (parser sp) →
     ∀ idx c,
       load (structural_indexes (parser sp)) (current_structural sp) = Some idx →
       load (buf (parser sp)) idx = Some c →
       ∃ e sp',
         error sp = Some (e, sp')
         ∧ parser_error (parser sp') = e
         ∧ (c = 34 → e = STRING_ERROR)
         ∧ (c = 45 ∨ 48 ≤ c ≤ 57 → e = NUMBER_ERROR)
         ∧ (c = 116 → e = T_ATOM_ERROR)
         ∧ (c = 102 → e = F_ATOM_ERROR)
         ∧ (c = 110 → e = N_ATOM_ERROR)
         ∧ (c ≠ 34 → ¬ (c = 45 ∨ 48 ≤ c ≤ 57) → c ≠ 116 → c ≠ 102 → c ≠ 110 →
            e = TAPE_ERROR))
  ∧ (∀ fuel,
       run (S fuel) L.error sp
       = match error sp with
         | Some (e, sp') => Returned e sp'
         | None => Undefined
         end).
Proof.
  split_and!.
  - intros Hd. rewrite error_at_max_depth by done. eauto.
  - intros Hd idx c Hidx Hc.
    unfold error, current_char, current, fail_with, bind, get, modify, ret, lift.
    destruct (Z.leb_spec (max_depth (parser sp)) (depth sp)); [lia|].
    rewrite Hidx, Hc.
    pose proof (is_minus_or_digit_spec c) as Hmd.
    unfold Ch.quote, Ch.t, Ch.n, Ch.f.
    destruct (Z.eqb_spec c 34); [eexists _, _; split_and!; try done; lia|].
    destruct (is_minus_or_digit c).
    { assert (c = 45 ∨ 48 ≤ c ≤ 57) by (by apply Hmd).
      eexists _, _; split_and!; try done; lia. }
    assert (¬ (c = 45 ∨ 48 ≤ c ≤ 57)) by (intros ?%Hmd; done).
    destruct (Z.eqb_spec c 116); [eexists _, _; split_and!; try done; lia|].
    destruct (Z.eqb_spec c 110); [eexists _, _; split_and!; try done; lia|].
    destruct (Z.eqb_spec c 102); [eexists _, _; split_and!; try done; lia|].
    eexists _, _; split_and!; try done; lia.
  - intros fuel. simpl. unfold bind, ret.
    by destruct (error sp) as [[e sp']|].
Qed.

(** ** start *)

(** C8. When no structural index remains at the start position,
    [parse_structurals] returns [EMPTY].  Otherwise [start] pushes the root
    scope (tape index 0, count 0) with the [finish] continuation, and
    returns [SUCCESS], or [DEPTH_ERROR] when [max_depth <= 1], which
    [parse_structurals] then returns. *)
Theorem start_empty_or_root (STREAMING : bool)
    (dom_parser : dom_parser_implementation) (doc0 : document) :
  let sp0 := initial_parser STREAMING dom_parser doc0 in
  (n_structural_indexes dom_parser ≤ current_structural sp0 →
   parse_structurals STREAMING dom_parser doc0
   = Returned EMPTY (set_parser (set_parser_error EMPTY (parser sp0)) sp0))
  ∧ (current_structural sp0 < n_structural_indexes dom_parser →
     0 < Z.of_nat (length (containing_scope dom_parser)) →
     0 < Z.of_nat (length (ret_address dom_parser)) →
     ∃ sp1,
       start (addr_finish addresses) sp0
       = Some (if max_depth dom_parser <=? 1 then DEPTH_ERROR else SUCCESS, sp1)
       ∧ load (containing_scope (parser sp1)) 0 = Some {| tape_index := 0; count := 0 |}
       ∧ load (ret_address (parser sp1)) 0 = Some (addr_finish addresses)
       ∧ depth sp1 = 1
       ∧ next_tape_loc sp1 = 1
       ∧ tape (doc (parser sp1)) = tape doc0
       ∧ (max_depth dom_parser ≤ 1 →
          parse_structurals STREAMING dom_parser doc0 = Returned DEPTH_ERROR sp1
          ∧ parser_error (parser sp1) = DEPTH_ERROR)).
Proof.
  intros sp0. split.
  - intros Hend. unfold parse_structurals. fold sp0.
    unfold start, at_end, fail_with, bind, get, modify, ret.
    replace (n_structural_indexes (parser sp0)) with (n_structural_indexes dom_parser) by done.
    destruct (Z.leb_spec (n_structural_indexes dom_parser) (current_structural sp0)); [done|lia].
  - intros Hnot Hcs Hra.
    unfold parse_structurals. fold sp0.
    unfold start, init, start_document, start_scope, tape_skip, at_end, fail_with,
      bind, get, modify, ret, lift.
    replace (n_structural_indexes (parser sp0)) with (n_structural_indexes dom_parser) by done.
    destruct (Z.leb_spec (n_structural_indexes dom_parser) (current_structural sp0)); [lia|].
    simpl. rewrite !store_defined by (simpl; lia). simpl.
    unfold next_tape_index. simpl.
    change (wrap32 (0 + 1)) with 1. change (wrap32 0) with 0.
    destruct (Z.leb_spec (max_depth dom_parser) 1).
    + eexists. split; [reflexivity|]. simpl. split_and!; try done.
      * eapply load_store_eq, store_defined; lia.
      * eapply load_store_eq, store_defined; lia.
    + eexists. split; [reflexivity|]. simpl. split_and!; try done.
      * eapply load_store_eq, store_defined; lia.
      * eapply load_store_eq, store_defined; lia.
      * lia.
Qed.

(** ** The closing bracket of a top-level array *)

(** C7, amended.  Without streaming, when the first structural byte is an
    opening bracket, the byte at the last structural index is not a closing
    bracket and the depth limit leaves room for the root array
    ([max_depth > 2]), [parse_structurals] returns [TAPE_ERROR] with the
    cursor still on the first structural and nothing written to the tape or
    the string buffer.  With streaming the last structural byte is not
    looked at: the machine enters [array_begin]. *)
Theorem root_array_tail_check (dom_parser : dom_parser_implementation) (doc0 : document) :
  (∀ first last_idx last,
     0 < n_structural_indexes dom_parser →
     load (structural_indexes dom_parser) 0 = Some first →
     load (buf dom_parser) first = Some Ch.lbracket →
     load (structural_indexes dom_parser) (wrap32 (n_structural_indexes dom_parser - 1))
       = Some last_idx →
     load (buf dom_parser) last_idx = Some last →
     last ≠ Ch.rbracket →
     2 < max_depth dom_parser →
     2 ≤ Z.of_nat (length (containing_scope dom_parser)) →
     2 ≤ Z.of_nat (length (ret_address dom_parser)) →
     ∃ sp',
       parse_structurals false dom_parser doc0 = Returned TAPE_ERROR sp'
       ∧ current_structural sp' = 0
       ∧ tape (doc (parser sp')) = tape doc0
       ∧ string_buf (doc (parser sp')) = string_buf doc0)
  ∧ (∀ first,
       next_structural_index dom_parser < n_structural_indexes dom_parser →
       load (structural_indexes dom_parser) (next_structural_index dom_parser) = Some first →
       load (buf dom_parser) first = Some Ch.lbracket →
       2 < max_depth dom_parser →
       2 ≤ Z.of_nat (length (containing_scope dom_parser)) →
       2 ≤ Z.of_nat (length (ret_address dom_parser)) →
       ∃ sp2,
         parse_structurals true dom_parser doc0 = run (fuel_for sp2) L.array_begin sp2
         ∧ current_structural sp2 = next_structural_index dom_parser
         ∧ depth sp2 = 2
         ∧ tape (doc (parser sp2)) = tape doc0).
Proof.
  split.
  - intros first last_idx last Hn Hfirst Hc Hlast_idx Hlast Hne Hmax Hcs Hra.
    unfold parse_structurals, initial_parser, new_structural_parser.
    unfold start, init, start_document, start_scope, tape_skip, at_end, fail_with,
      bind, get, modify, ret, lift. simpl.
    destruct (Z.leb_spec (n_structural_indexes dom_parser) 0); [lia|].
    rewrite !store_defined by (simpl; lia). simpl.
    change (wrap32 (0 + 1)) with 1.
    destruct (Z.leb_spec (max_depth dom_parser) 1); [lia|].
    unfold read_first_value, current_char, current, start_array, start_scope, tape_skip,
      bind, get, modify, ret, lift. simpl.
    rewrite Hfirst. simpl. rewrite Hc. simpl.
    rewrite !store_defined by (simpl; rewrite length_insert; lia). simpl.
    change (wrap32 (1 + 1)) with 2.
    destruct (Z.leb_spec (max_depth dom_parser) 2); [lia|].
    simpl. rewrite Hlast_idx. simpl. rewrite Hlast.
    destruct (Z.eqb_spec last Ch.rbracket); [done|]. simpl.
    unfold fuel_for. rewrite Nat.add_comm. simpl.
    unfold error, current_char, current, fail_with, bind, get, modify, ret, lift. simpl.
    destruct (Z.leb_spec (max_depth dom_parser) 2); [lia|].
    simpl.
    rewrite Hfirst. simpl. rewrite Hc. simpl.
    eexists. split; [reflexivity|]. done.
  - intros first Hn Hfirst Hc Hmax Hcs Hra.
    unfold parse_structurals, initial_parser, new_structural_parser.
    unfold start, init, start_document, start_scope, tape_skip, at_end, fail_with,
      bind, get, modify, ret, lift. simpl.
    destruct (Z.leb_spec (n_structural_indexes dom_parser) (next_structural_index dom_parser));
      [lia|].
    rewrite !store_defined by (simpl; lia). simpl.
    change (wrap32 (0 + 1)) with 1.
    destruct (Z.leb_spec (max_depth dom_parser) 1); [lia|].
    unfold read_first_value, current_char, current, start_array, start_scope, tape_skip,
      bind, get, modify, ret, lift. simpl.
    rewrite Hfirst. simpl. rewrite Hc. simpl.
    rewrite !store_defined by (simpl; rewrite length_insert; lia). simpl.
    change (wrap32 (1 + 1)) with 2.
    destruct (Z.leb_spec (max_depth dom_parser) 2); [lia|].
    eexists. split; [reflexivity|]. done.
Qed.

(** ** finish *)

Lemma run_success_finish fuel l sp sp' :
  run fuel l sp = Returned SUCCESS sp' → L.finish ∈ (trace fuel l sp).*1.
Proof.
  revert l sp. induction fuel as [|fuel IH]; intros l sp Hr; [done|].
  simpl in *. destruct (step l sp) as [[[l'|e'] sp1]|] eqn:Hs; [|simplify_eq|done].
  - apply elem_of_cons. right. by apply IH.
  - destruct l; simpl in Hs; try (by run_methods).
    apply elem_of_cons. by left.
Qed.

Lemma parse_structurals_inv STREAMING dom_parser doc e sp' :
  parse_structurals STREAMING dom_parser doc = Returned e sp' →
  (∃ sp1 l sp2,
     start (addr_finish addresses) (initial_parser STREAMING dom_parser doc)
       = Some (SUCCESS, sp1)
     ∧ read_first_value STREAMING sp1 = Some (goto l, sp2)
     ∧ run (fuel_for sp2) l sp2 = Returned e sp'
     ∧ parse_trace STREAMING dom_parser doc = trace (fuel_for sp2) l sp2)
  ∨ (start (addr_finish addresses) (initial_parser STREAMING dom_parser doc)
       = Some (e, sp')
     ∧ (e = EMPTY ∨ e = DEPTH_ERROR)
     ∧ parse_trace STREAMING dom_parser doc = []).
Proof.
  intros Hp. unfold parse_structurals, parse_trace in *.
  destruct (start _ _) as [[e0 sp1]|] eqn:Hst; [|done].
  pose proof (start_cases _ _ _ _ Hst) as [_ Hcase].
  destruct Hcase as [[-> _]|[->| ->]].
  - destruct (read_first_value STREAMING sp1) as [[nx sp2]|] eqn:Hr; [|done].
    pose proof (read_first_value_frame _ _ _ _ Hr) as (_ & _ & l & ->).
    left. by exists sp1, l, sp2.
  - right. simplify_eq. eauto.
  - right. simplify_eq. eauto.
Qed.

(** C4. [parse_structurals] returns [SUCCESS] only through [finish] and
    only with [depth = 0] after [end_document]; and at [finish], once
    [end_document] has closed the root scope, the machine returns
    [TAPE_ERROR] (and stores it) when the depth is not 0, [SUCCESS] when it
    is. *)
Theorem finish_checks_depth :
  (∀ STREAMING dom_parser doc sp',
     parse_structurals STREAMING dom_parser doc = Returned SUCCESS sp' →
     depth sp' = 0 ∧ L.finish ∈ (parse_trace STREAMING dom_parser doc).*1)
  ∧ (∀ fuel sp sp1,
       end_document sp = Some (tt, sp1) →
       (depth sp1 ≠ 0 →
        ∃ sp', run (S fuel) L.finish sp = Returned TAPE_ERROR sp'
               ∧ parser_error (parser sp') = TAPE_ERROR
               ∧ depth sp' = depth sp1)
       ∧ (depth sp1 = 0 →
          ∃ sp', run (S fuel) L.finish sp = Returned SUCCESS sp'
                 ∧ depth sp' = 0)).
Proof.
  split.
  - intros STREAMING dom_parser doc sp' Hp.
    apply parse_structurals_inv in Hp as [(sp1 & l & sp2 & _ & _ & Hrun & ->)|(_ & [?|?] & _)];
      [|done..].
    split.
    + pose proof (run_frame _ _ _ _ _ Hrun) as (Hs & _). by destruct (Hs eq_refl).
    + by eapply run_success_finish.
  - intros fuel sp sp1 Hend. simpl.
    unfold finish, fail_with, bind, ret, get, modify. rewrite Hend. simpl.
    split; intros Hd.
    + destruct (Z.eqb_spec (depth sp1) 0); [done|]. simpl. eauto.
    + destruct (Z.eqb_spec (depth sp1) 0); [|done]. simpl. eauto.
Qed.

(** ** next_structural_index *)

(** C9. [finish] sets [next_structural_index] to one past the current
    structural index whether it returns [SUCCESS] or [TAPE_ERROR]; a call of
    [parse_structurals] that goes through [finish] ends with that value, and
    a call that never reaches [finish] leaves [next_structural_index]
    unchanged. *)
Theorem next_structural_index_assigned_by_finish :
  (∀ sp e sp',
     finish sp = Some (e, sp') →
     (e = SUCCESS ∨ e = TAPE_ERROR)
     ∧ next_structural_index (parser sp') = wrap32 (current_structural sp + 1))
  ∧ (∀ STREAMING dom_parser doc e sp',
       parse_structurals STREAMING dom_parser doc = Returned e sp' →
       (L.finish ∈ (parse_trace STREAMING dom_parser doc).*1 →
        next_structural_index (parser sp') = wrap32 (current_structural sp' + 1))
       ∧ (L.finish ∉ (parse_trace STREAMING dom_parser doc).*1 →
          next_structural_index (parser sp') = next_structural_index dom_parser)).
Proof.
  split.
  - intros sp e sp' (sp1 & _ & _ & _ & Hn & Hcase)%finish_spec.
    split; [|done]. destruct Hcase as [(? & _)|(? & _)]; eauto.
  - intros STREAMING dom_parser doc e sp' Hp.
    apply parse_structurals_inv in Hp
        as [(sp1 & l & sp2 & Hst & Hr & Hrun & ->)|(Hst & _ & ->)].
    + apply start_frame in Hst as [Hn1 _].
      apply read_first_value_frame in Hr as (_ & Hn2 & _).
      pose proof (run_frame _ _ _ _ _ Hrun) as (_ & _ & Hin & Hnin).
      split; [done|]. intros Hf. rewrite (Hnin Hf), Hn2, Hn1. done.
    + apply start_frame in Hst as [Hn1 _].
      split; [by intros ?%elem_of_nil|]. intros _. by rewrite Hn1.
Qed.

(** ** The stored error *)

(** C10. [finish] returns [SUCCESS] without assigning the error field, and
    after a call of [parse_structurals] the error field is [UNINITIALIZED]
    when the call returned [SUCCESS], and the returned code otherwise. *)
Theorem parser_error_after_parse :
  (∀ sp sp', finish sp = Some (SUCCESS, sp') →
             parser_error (parser sp') = parser_error (parser sp))
  ∧ (∀ STREAMING dom_parser doc e sp',
       parse_structurals STREAMING dom_parser doc = Returned e sp' →
       (e = SUCCESS → parser_error (parser sp') = UNINITIALIZED)
       ∧ (e ≠ SUCCESS → parser_error (parser sp') = e)).
Proof.
  split.
  - intros sp sp' (sp1 & _ & _ & _ & _ & Hcase)%finish_spec.
    by destruct Hcase as [(_ & _ & ?)|(? & _)].
  - intros STREAMING dom_parser doc e sp' Hp.
    apply parse_structurals_inv in Hp
        as [(sp1 & l & sp2 & Hst & Hr & Hrun & _)|(Hst & He & _)].
    + apply start_frame in Hst as [_ Hcase].
      apply read_first_value_frame in Hr as (He2 & _ & _).
      pose proof (run_frame _ _ _ _ _ Hrun) as (Hs & Hf & _).
      split; [|done]. intros ->.
      destruct (Hs eq_refl) as [-> _]. rewrite He2.
      by destruct Hcase as [(_ & ?)|[(? & _)|(? & _)]].
    + apply start_frame in Hst as [_ Hcase].
      split; [by intros ->; destruct He|]. intros _.
      destruct Hcase as [(-> & _)|[(-> & ?)|(-> & ?)]]; [by destruct He|done..].
Qed.

(** ** Tape words: index and count fields *)

Lemma lor_shiftl_low j n :
  0 ≤ j < 2 ^ 32 → 0 ≤ n → Z.land (Z.lor j (Z.shiftl n 32)) (Z.ones 32) = j.
Proof.
  intros Hj Hn. rewrite Z.land_lor_distr_l, !Z.land_ones by lia.
  rewrite Z.shiftl_mul_pow2, Z.mod_mul by lia.
  rewrite Z.lor_0_r. apply Z.mod_small. lia.
Qed.

Lemma lor_shiftl_high j n :
  0 ≤ j < 2 ^ 32 → 0 ≤ n → Z.shiftr (Z.lor j (Z.shiftl n 32)) 32 = n.
Proof.
  intros Hj Hn. rewrite Z.shiftr_lor, Z.shiftr_shiftl_l by lia.
  rewrite Z.sub_diag, Z.shiftl_0_r.
  rewrite Z.shiftr_div_pow2 by lia.
  rewrite Z.div_small by lia. apply Z.lor_0_l.
Qed.

Lemma land_shiftl_disjoint j n :
  0 ≤ j < 2 ^ 32 → Z.land j (Z.shiftl n 32) = 0.
Proof.
  intros Hj. apply Z.bits_inj'. intros k Hk. rewrite Z.land_spec, Z.bits_0.
  destruct (decide (k < 32)).
  - rewrite Z.shiftl_spec_low by lia. apply andb_false_r.
  - destruct (decide (j = 0)) as [->|]; [by rewrite Z.bits_0|].
    rewrite (Z.bits_above_log2 j k); [done|lia|].
    assert (Z.log2 j < 32) by (apply Z.log2_lt_pow2; lia). lia.
Qed.

Lemma lor_shiftl_range j n :
  0 ≤ j < 2 ^ 32 → 0 ≤ n < 2 ^ 24 → 0 ≤ Z.lor j (Z.shiftl n 32) < 2 ^ 56.
Proof.
  intros Hj Hn.
  rewrite <- Z.lxor_lor, <- Z.add_nocarry_lxor by (by apply land_shiftl_disjoint).
  rewrite Z.shiftl_mul_pow2 by lia. lia.
Qed.

Lemma index_of_tape_word t j n :
  0 ≤ j < 2 ^ 32 → 0 ≤ n < 2 ^ 24 →
  index_of (tape_word t (Z.lor j (Z.shiftl n 32))) = j.
Proof.
  intros Hj Hn. unfold index_of.
  change (2 ^ 32 - 1) with (Z.ones 32).
  replace (Z.ones 32) with (Z.land (Z.ones 56) (Z.ones 32)) by reflexivity.
  rewrite Z.land_assoc.
  change (Z.ones 56) with (2 ^ 56 - 1).
  fold (payload_of (tape_word t (Z.lor j (Z.shiftl n 32)))).
  rewrite payload_of_tape_word.
  rewrite Z.mod_small by (apply lor_shiftl_range; lia).
  apply lor_shiftl_low; lia.
Qed.

Lemma count_of_tape_word t j n :
  0 ≤ j < 2 ^ 32 → 0 ≤ n < 2 ^ 24 →
  count_of (tape_word t (Z.lor j (Z.shiftl n 32))) = n.
Proof.
  intros Hj Hn. unfold count_of, tape_word.
  rewrite Z.shiftr_lor, Z.shiftr_shiftl_l by lia.
  change (2 ^ 56 - 1) with (Z.ones 56).
  rewrite Z.land_ones by lia.
  rewrite Z.mod_small by (apply lor_shiftl_range; lia).
  rewrite lor_shiftl_high by lia.
  change (2 ^ 24 - 1) with (Z.ones 24).
  rewrite Z.land_lor_distr_l, !Z.land_ones by lia.
  change (56 - 32) with 24.
  rewrite Z.shiftl_mul_pow2, Z.mod_mul by lia.
  rewrite Z.lor_0_l. apply Z.mod_small. lia.
Qed.

Lemma traversal_bounds P T :
  (∀ i j, value_at P T i j → 0 ≤ i < j)
  ∧ (∀ i j n, elements_at P T i j n → i ≤ j ∧ 0 ≤ n ≤ j - i)
  ∧ (∀ i j n, members_at P T i j n → i ≤ j ∧ 0 ≤ n ∧ 2 * n ≤ j - i).
Proof.
  apply traversal_ind.
  - intros i t _ (w & Hw%load_Some_range & _). lia.
  - intros i t _ (w & Hw%load_Some_range & _) _. lia.
  - intros i k n (w & Hw%load_Some_range & _) _ IH _ _. lia.
  - intros i k n (w & Hw%load_Some_range & _) _ IH _ _. lia.
  - intros i. lia.
  - intros i j k n _ IH1 _ IH2. lia.
  - intros i. lia.
  - intros i j k n _ IH1 _ _ IH2. lia.
Qed.

(** A traversal only looks at the words it covers. *)
Lemma traversal_frame (P Q : scope_property) (T T' : list Z) (lo hi : Z) :
  (∀ x, lo ≤ x < hi → load T' x = load T x) →
  (∀ s e i k n, lo ≤ i → i < k → k < hi → 0 ≤ n → P s e i k n → Q s e i k n) →
  (∀ i j, value_at P T i j → lo ≤ i → j ≤ hi → value_at Q T' i j)
  ∧ (∀ i j n, elements_at P T i j n → lo ≤ i → j ≤ hi → elements_at Q T' i j n)
  ∧ (∀ i j n, members_at P T i j n → lo ≤ i → j ≤ hi → members_at Q T' i j n).
Proof.
  intros Hsame HPQ.
  assert (∀ i t, lo ≤ i < hi → has_tag T i t → has_tag T' i t) as Htag.
  { intros i t Hi (w & Hw & Ht). exists w. by rewrite Hsame. }
  apply traversal_ind.
  - intros i t Ht Hi Hlo Hhi. eapply value_scalar; [done|]. apply Htag; [lia|done].
  - intros i t Ht Hi Hraw Hlo Hhi. eapply value_number; [done| |].
    + apply Htag; [lia|done].
    + rewrite Hsame by lia. done.
  - intros i k n Hi He IH Hk HP Hlo Hhi.
    destruct (proj1 (proj2 (traversal_bounds P T)) _ _ _ He).
    eapply value_array.
    + apply Htag; [lia|done].
    + apply IH; lia.
    + apply Htag; [lia|done].
    + apply HPQ; [lia..|done].
  - intros i k n Hi He IH Hk HP Hlo Hhi.
    destruct (proj2 (proj2 (traversal_bounds P T)) _ _ _ He).
    eapply value_object.
    + apply Htag; [lia|done].
    + apply IH; lia.
    + apply Htag; [lia|done].
    + apply HPQ; [lia..|done].
  - intros i _ _. constructor.
  - intros i j k n He IH1 Hv IH2 Hlo Hhi.
    destruct (proj1 (proj2 (traversal_bounds P T)) _ _ _ He).
    destruct (proj1 (traversal_bounds P T) _ _ Hv).
    eapply elements_snoc; [apply IH1|apply IH2]; lia.
  - intros i _ _. constructor.
  - intros i j k n He IH1 Hj Hv IH2 Hlo Hhi.
    destruct (proj2 (proj2 (traversal_bounds P T)) _ _ _ He).
    destruct (proj1 (traversal_bounds P T) _ _ Hv).
    eapply members_snoc; [apply IH1; lia| |apply IH2; lia].
    apply Htag; [lia|done].
Qed.

Lemma agree_below_store T T' c w :
  store T c w = Some T' → agree_below T T' c.
Proof. intros Hs x Hx. apply (load_store_ne _ _ _ _ _ Hs). lia. Qed.

Lemma agree_below_le T T' hi hi' :
  agree_below T T' hi → hi' ≤ hi → agree_below T T' hi'.
Proof. intros Ha Hle x Hx. apply Ha. lia. Qed.

Lemma agree_below_trans T1 T2 T3 hi :
  agree_below T1 T2 hi → agree_below T2 T3 hi → agree_below T1 T3 hi.
Proof. intros H12 H23 x Hx. rewrite H23, H12; done. Qed.

Lemma has_tag_agree T T' hi i t :
  agree_below T T' hi → i < hi → has_tag T i t → has_tag T' i t.
Proof. intros Ha Hi (w & Hw & Ht). exists w. by rewrite Ha. Qed.

Lemma written_agree T T' hi s e i k n :
  agree_below T T' hi → i ≤ k → k < hi → written T s e i k n → written T' s e i k n.
Proof. intros Ha Hik Hk [Hi Hc]. split; rewrite Ha; done || lia. Qed.

Lemma traversal_agree T T' hi :
  agree_below T T' hi →
  (∀ i j, value_at (written T) T i j → j ≤ hi → value_at (written T') T' i j)
  ∧ (∀ i j n, elements_at (written T) T i j n → j ≤ hi →
              elements_at (written T') T' i j n)
  ∧ (∀ i j n, members_at (written T) T i j n → j ≤ hi →
              members_at (written T') T' i j n).
Proof.
  intros Ha.
  assert (∀ lo,
    (∀ i j, value_at (written T) T i j → lo ≤ i → j ≤ hi → value_at (written T') T' i j)
    ∧ (∀ i j n, elements_at (written T) T i j n → lo ≤ i → j ≤ hi →
                elements_at (written T') T' i j n)
    ∧ (∀ i j n, members_at (written T) T i j n → lo ≤ i → j ≤ hi →
                members_at (written T') T' i j n)) as Hlo.
  { intros lo. apply traversal_frame.
    - intros x Hx. apply Ha. lia.
    - intros s e a b n Ha' Hab Hb Hn [Hi Hc]. split; rewrite Ha; done || lia. }
  split_and!.
  - intros i j Hv. by apply (proj1 (Hlo i)).
  - intros i j n Hv. by apply (proj1 (proj2 (Hlo i))).
  - intros i j n Hv. by apply (proj2 (proj2 (Hlo i))).
Qed.

Lemma value_at_agree T T' i j :
  agree_below T T' j → value_at (written T) T i j → value_at (written T') T' i j.
Proof. intros Ha Hv. by apply (proj1 (traversal_agree T T' j Ha)). Qed.

Lemma elements_at_agree T T' i j n :
  agree_below T T' j → elements_at (written T) T i j n → elements_at (written T') T' i j n.
Proof. intros Ha Hv. by apply (proj1 (proj2 (traversal_agree T T' j Ha))). Qed.

Lemma members_at_agree T T' i j n :
  agree_below T T' j → members_at (written T) T i j n → members_at (written T') T' i j n.
Proof. intros Ha Hv. by apply (proj2 (proj2 (traversal_agree T T' j Ha))). Qed.

Lemma awaiting_at_agree kd T T' sc child :
  agree_below T T' child → awaiting_at kd T sc child → awaiting_at kd T' sc child.
Proof.
  intros Ha. destruct kd; simpl.
  - done.
  - intros [Hc He]. split; [done|]. by eapply elements_at_agree.
  - intros (Hc & Hm & Hk). split_and!; [done| |].
    + eapply members_at_agree; [|done]. eapply agree_below_le; [done|lia].
    + eapply has_tag_agree; [done|lia|done].
Qed.

Lemma awaiting_at_index kd T sc child :
  awaiting_at kd T sc child → tape_index sc < child.
Proof.
  destruct kd; simpl.
  - lia.
  - intros [_ He]. destruct (proj1 (proj2 (traversal_bounds _ _)) _ _ _ He). lia.
  - intros (_ & Hm & _). destruct (proj2 (proj2 (traversal_bounds _ _)) _ _ _ Hm). lia.
Qed.

Lemma awaiting_value kd T sc child hi :
  awaiting_at kd T sc child → value_at (written T) T child hi → holding_at kd T sc hi.
Proof.
  destruct kd; simpl.
  - intros (? & ? & ->) Hv. done.
  - intros [Hc He] Hv.
    replace (count sc) with (count sc - 1 + 1) by lia. by eapply elements_snoc.
  - intros (Hc & Hm & Hk) Hv.
    replace (count sc) with (count sc - 1 + 1) by lia.
    eapply members_snoc; [done..|]. by replace (child - 1 + 1) with child by lia.
Qed.

Lemma traversal_agree_on T T' lo hi :
  (∀ x, lo ≤ x < hi → load T' x = load T x) →
  (∀ i j, value_at (written T) T i j → lo ≤ i → j ≤ hi → value_at (written T') T' i j)
  ∧ (∀ i j n, elements_at (written T) T i j n → lo ≤ i → j ≤ hi →
              elements_at (written T') T' i j n)
  ∧ (∀ i j n, members_at (written T) T i j n → lo ≤ i → j ≤ hi →
              members_at (written T') T' i j n).
Proof.
  intros Ha. apply traversal_frame; [done|].
  intros s e a b n Ha' Hab Hb Hn [Hi Hc]. split; rewrite Ha; done || lia.
Qed.

Lemma holding_at_agree_on kd T T' sc hi :
  (∀ x, tape_index sc + 1 ≤ x < hi → load T' x = load T x) →
  holding_at kd T sc hi → holding_at kd T' sc hi.
Proof.
  intros Ha.
  pose proof (traversal_agree_on T T' (tape_index sc + 1) hi Ha) as (Hv & He & Hm).
  destruct kd; simpl.
  - intros (Hi & Hc & Hval). split_and!; [done..|]. apply Hv; [done|lia..].
  - intros Hel. apply He; [done|lia..].
  - intros Hmem. apply Hm; [done|lia..].
Qed.

(** *** How the phases follow one another *)

Lemma parents_ok_transfer C C' top :
  parents_ok C top →
  (∀ m, 0 ≤ m < top → load (k_scope C') m = load (k_scope C) m) →
  (∀ m sc, 1 ≤ m ≤ top → load (k_scope C) m = Some sc →
     ∃ sc', load (k_scope C') m = Some sc' ∧ tape_index sc' = tape_index sc) →
  (∀ m, 1 ≤ m ≤ top → load (k_ret C') m = load (k_ret C) m) →
  (∀ m sc, 1 ≤ m ≤ top → load (k_scope C) m = Some sc →
     agree_below (k_tape C) (k_tape C') (tape_index sc)) →
  parents_ok C' top.
Proof.
  intros Hp Hsame Hchild Hret Hagree m Hm.
  destruct (Hp m Hm) as (sc & sc1 & kd & Hsc & Hsc1 & Hra & Hkd & Haw).
  destruct (Hchild (m + 1) sc1) as (sc1' & Hsc1' & Hidx); [lia|done|].
  exists sc, sc1', kd. split_and!; try done.
  - by rewrite Hsame.
  - rewrite Hret by lia. done.
  - rewrite Hidx. eapply awaiting_at_agree; [|done]. apply (Hagree (m + 1)); [lia|done].
Qed.

Lemma parents_ok_le C top top' :
  parents_ok C top → top' ≤ top → parents_ok C top'.
Proof. intros Hp Hle m Hm. apply Hp. lia. Qed.

(** A value has been appended: the scope that was waiting for it now holds
    it. *)
Lemma inv_value kd C T' c' :
  inv (Awaiting kd) C →
  agree_below (k_tape C) T' (k_loc C) →
  length T' = length (k_tape C) →
  value_at (written T') T' (k_loc C) c' →
  c' ≤ Z.of_nat (length T') →
  inv (Holding kd)
    {| k_tape := T'; k_loc := c'; k_depth := k_depth C;
       k_scope := k_scope C; k_ret := k_ret C |}.
Proof.
  intros (Hsz & Hd & Hkd & Hsorted & Hp & sc & Hsc & Haw) Hagree Hlen Hv Hc'.
  destruct (proj1 (traversal_bounds _ _) _ _ Hv) as [Hc0 Hcc'].
  destruct Hsz as [Hloc Hcap]. destruct Hsorted as [Hs1 Hs2].
  simpl. refine (conj _ (conj Hd (conj Hkd (conj _ (conj _ _))))).
  - split; simpl; lia.
  - split; simpl.
    + intros m scm Hm Hscm. specialize (Hs1 m scm Hm Hscm). lia.
    + done.
  - eapply parents_ok_transfer; [done|done| |done|]; simpl.
    + intros m scm Hm Hscm. eauto.
    + intros m scm Hm Hscm. eapply agree_below_le; [done|].
      specialize (Hs1 m scm ltac:(lia) Hscm). lia.
  - exists sc. split; [done|]. simpl.
    eapply awaiting_value; [|done]. by eapply awaiting_at_agree.
Qed.

(** A scope has been opened where a value was awaited. *)
Lemma inv_open_scope kd C CS' RA' :
  inv (Awaiting kd) C →
  store (k_scope C) (k_depth C) {| tape_index := wrap32 (k_loc C); count := 0 |} = Some CS' →
  store (k_ret C) (k_depth C) (address_of kd) = Some RA' →
  inv Fresh
    {| k_tape := k_tape C; k_loc := k_loc C + 1; k_depth := wrap32 (k_depth C + 1);
       k_scope := CS'; k_ret := RA' |}.
Proof.
  intros (Hsz & Hd & Hkd & Hsorted & Hp & sc & Hsc & Haw) Hcs Hra.
  destruct Hsz as [Hloc Hcap]. destruct Hsorted as [Hs1 Hs2].
  pose proof (store_Some _ _ _ _ Hcs) as [Hrange _].
  pose proof (store_length _ _ _ _ Hcs) as Hlen.
  rewrite (wrap32_small (k_depth C + 1)) by lia.
  rewrite (wrap32_small (k_loc C)) in Hcs by lia.
  set (new := {| tape_index := k_loc C; count := 0 |}) in *.
  assert (load CS' (k_depth C) = Some new) as Hnew by (by eapply load_store_eq).
  assert (∀ m, m ≠ k_depth C → load CS' m = load (k_scope C) m) as Hold.
  { intros m Hm. eapply load_store_ne; [done|lia]. }
  simpl. replace (k_depth C + 1 - 1) with (k_depth C) by lia.
  refine (conj _ (conj _ (conj _ (conj _ _)))).
  - split; simpl; lia.
  - lia.
  - split; simpl.
    + intros m scm Hm Hscm. destruct (decide (m = k_depth C)) as [->|Hne].
      * rewrite Hnew in Hscm. simplify_eq. simpl. lia.
      * rewrite Hold in Hscm by done. specialize (Hs1 m scm ltac:(lia) Hscm). lia.
    + intros m m' scm scm' Hm Hm' Hscm Hscm'.
      rewrite Hold in Hscm by lia.
      destruct (decide (m' = k_depth C)) as [->|Hne].
      * rewrite Hnew in Hscm'. simplify_eq. simpl.
        specialize (Hs1 m scm ltac:(lia) Hscm). lia.
      * rewrite Hold in Hscm' by done. eapply (Hs2 m m'); [lia|lia|done..].
  - intros m Hm. simpl.
    destruct (decide (m = k_depth C - 1)) as [->|Hne].
    + exists sc, new, kd. replace (k_depth C - 1 + 1) with (k_depth C) by lia.
      split_and!; try done.
      * rewrite Hold by lia. done.
      * by eapply load_store_eq.
      * rewrite Hkd. lia.
    + destruct (Hp m ltac:(lia)) as (scm & scm' & kdm & ? & ? & ? & ? & ?).
      exists scm, scm', kdm. split_and!; try done.
      * rewrite Hold by lia. done.
      * rewrite Hold by lia. done.
      * erewrite load_store_ne; [done..|lia].
  - exists new. by split_and!.
Qed.

(** A scope that has just been opened holds no children. *)
Lemma inv_fresh_holding kd C :
  inv Fresh C → kd ≠ of_root → inv (Holding kd) C.
Proof.
  intros (Hsz & Hd & Hsorted & Hp & sc & Hsc & Hidx & Hcount) Hkd.
  refine (conj Hsz (conj _ (conj _ (conj Hsorted (conj Hp _))))).
  - lia.
  - split; [done|lia].
  - exists sc. split; [done|].
    destruct kd; [done| |]; simpl; rewrite Hcount, Hidx; constructor.
Qed.

(** [increment_count] on the top scope. *)
Lemma increment_frame C sc n' CS' :
  sized C → 2 ≤ k_depth C → frames_sorted C → parents_ok C (k_depth C - 1) →
  load (k_scope C) (k_depth C - 1) = Some sc →
  store (k_scope C) (k_depth C - 1) {| tape_index := tape_index sc; count := n' |}
    = Some CS' →
  let C' := {| k_tape := k_tape C; k_loc := k_loc C; k_depth := k_depth C;
               k_scope := CS'; k_ret := k_ret C |} in
  sized C' ∧ frames_sorted C' ∧ parents_ok C' (k_depth C - 1)
  ∧ load CS' (k_depth C - 1) = Some {| tape_index := tape_index sc; count := n' |}.
Proof.
  intros [Hloc Hcap] Hd [Hs1 Hs2] Hp Hsc Hcs C'.
  pose proof (store_length _ _ _ _ Hcs) as Hlen.
  assert (load CS' (k_depth C - 1)
          = Some {| tape_index := tape_index sc; count := n' |}) as Hnew
    by (by eapply load_store_eq).
  assert (∀ m, m ≠ k_depth C - 1 → load CS' m = load (k_scope C) m) as Hold.
  { intros m Hm. eapply load_store_ne; [done|lia]. }
  assert (∀ m scm, load CS' m = Some scm →
            ∃ scm0, load (k_scope C) m = Some scm0 ∧ tape_index scm = tape_index scm0)
    as Hidx.
  { intros m scm Hscm. destruct (decide (m = k_depth C - 1)) as [->|Hne].
    - rewrite Hnew in Hscm. simplify_eq. eauto.
    - rewrite Hold in Hscm by done. eauto. }
  refine (conj _ (conj (conj _ _) (conj _ Hnew))).
  - subst C'. split; simpl; lia.
  - subst C'. simpl. intros m scm Hm Hscm.
    destruct (Hidx _ _ Hscm) as (scm0 & Hscm0 & ->). by eapply Hs1.
  - subst C'. simpl. intros m m' scm scm' Hm Hm' Hscm Hscm'.
    destruct (Hidx _ _ Hscm) as (scm0 & Hscm0 & ->).
    destruct (Hidx _ _ Hscm') as (scm0' & Hscm0' & ->). by eapply (Hs2 m m').
  - eapply parents_ok_transfer; [done| | |done|]; subst C'; simpl.
    + intros m Hm. apply Hold. lia.
    + intros m scm Hm Hscm. destruct (decide (m = k_depth C - 1)) as [->|Hne].
      * rewrite Hnew. simplify_eq. eauto.
      * rewrite Hold by done. eauto.
    + intros m scm Hm Hscm x Hx. done.
Qed.

Lemma inv_increment_array C sc CS' :
  inv (Holding of_array) C →
  load (k_scope C) (wrap32 (k_depth C - 1)) = Some sc →
  store (k_scope C) (wrap32 (k_depth C - 1))
    {| tape_index := tape_index sc; count := wrap32 (count sc + 1) |} = Some CS' →
  inv (Awaiting of_array)
    {| k_tape := k_tape C; k_loc := k_loc C; k_depth := k_depth C;
       k_scope := CS'; k_ret := k_ret C |}.
Proof.
  intros (Hsz & Hd & Hkd & Hsorted & Hp & sc0 & Hsc0 & Hhold) Hsc Hcs.
  assert (2 ≤ k_depth C) as Hd2.
  { destruct (decide (k_depth C = 1)) as [Heq|]; [|lia]. by apply Hkd in Heq. }
  pose proof (load_Some_range _ _ _ Hsc0) as Hr.
  rewrite (wrap32_small (k_depth C - 1)) in Hsc, Hcs by (destruct Hsz; lia).
  simplify_eq. simpl in Hhold.
  destruct (proj1 (proj2 (traversal_bounds _ _)) _ _ _ Hhold) as [Hle Hn].
  pose proof (proj1 Hsorted (k_depth C - 1) _ ltac:(lia) Hsc0) as Hti.
  rewrite (wrap32_small (count sc0 + 1)) in Hcs by (destruct Hsz; lia).
  destruct (increment_frame C sc0 _ CS' Hsz Hd2 Hsorted Hp Hsc0 Hcs) as (Hsz' & Hs' & Hp' & Hnew).
  refine (conj Hsz' (conj Hd (conj Hkd (conj Hs' (conj Hp' _))))).
  eexists. split; [exact Hnew|]. simpl. split; [lia|].
  by replace (count sc0 + 1 - 1) with (count sc0) by lia.
Qed.

Lemma inv_increment_object C sc CS' :
  inv (Holding of_object) C →
  load (k_scope C) (wrap32 (k_depth C - 1)) = Some sc →
  store (k_scope C) (wrap32 (k_depth C - 1))
    {| tape_index := tape_index sc; count := wrap32 (count sc + 1) |} = Some CS' →
  inv Keying
    {| k_tape := k_tape C; k_loc := k_loc C; k_depth := k_depth C;
       k_scope := CS'; k_ret := k_ret C |}.
Proof.
  intros (Hsz & Hd & Hkd & Hsorted & Hp & sc0 & Hsc0 & Hhold) Hsc Hcs.
  assert (2 ≤ k_depth C) as Hd2.
  { destruct (decide (k_depth C = 1)) as [Heq|]; [|lia]. by apply Hkd in Heq. }
  pose proof (load_Some_range _ _ _ Hsc0) as Hr.
  rewrite (wrap32_small (k_depth C - 1)) in Hsc, Hcs by (destruct Hsz; lia).
  simplify_eq. simpl in Hhold.
  destruct (proj2 (proj2 (traversal_bounds _ _)) _ _ _ Hhold) as (Hle & Hn & Hn2).
  pose proof (proj1 Hsorted (k_depth C - 1) _ ltac:(lia) Hsc0) as Hti.
  rewrite (wrap32_small (count sc0 + 1)) in Hcs by (destruct Hsz; lia).
  destruct (increment_frame C sc0 _ CS' Hsz Hd2 Hsorted Hp Hsc0 Hcs) as (Hsz' & Hs' & Hp' & Hnew).
  refine (conj Hsz' (conj Hd2 (conj Hs' (conj Hp' _)))).
  eexists. split; [exact Hnew|]. simpl. split; [lia|].
  by replace (count sc0 + 1 - 1) with (count sc0) by lia.
Qed.

(** Words appended at the cursor leave the open scopes as they are. *)
Lemma push_frame C T' c' :
  sized C → 1 ≤ k_depth C → frames_sorted C → parents_ok C (k_depth C - 1) →
  agree_below (k_tape C) T' (k_loc C) →
  length T' = length (k_tape C) →
  k_loc C < c' ≤ Z.of_nat (length T') →
  let C' := {| k_tape := T'; k_loc := c'; k_depth := k_depth C;
               k_scope := k_scope C; k_ret := k_ret C |} in
  sized C' ∧ frames_sorted C' ∧ parents_ok C' (k_depth C - 1).
Proof.
  intros [Hloc Hcap] Hd [Hs1 Hs2] Hp Hagree Hlen Hc' C'.
  refine (conj _ (conj (conj _ _) _)); subst C'.
  - split; simpl; lia.
  - simpl. intros m scm Hm Hscm. specialize (Hs1 m scm Hm Hscm). lia.
  - done.
  - eapply parents_ok_transfer; [done|done| |done|]; simpl.
    + intros m scm Hm Hscm. eauto.
    + intros m scm Hm Hscm. eapply agree_below_le; [done|].
      specialize (Hs1 m scm ltac:(lia) Hscm). lia.
Qed.

(** The key of a member has been appended. *)
Lemma inv_key C w T' :
  inv Keying C →
  store (k_tape C) (k_loc C) w = Some T' →
  tag_of w = tape_type_code STRING →
  inv (Awaiting of_object)
    {| k_tape := T'; k_loc := k_loc C + 1; k_depth := k_depth C;
       k_scope := k_scope C; k_ret := k_ret C |}.
Proof.
  intros (Hsz & Hd & Hsorted & Hp & sc & Hsc & Hcount & Hmem) Hst Htag.
  pose proof (store_Some _ _ _ _ Hst) as [Hrange _].
  pose proof (store_length _ _ _ _ Hst) as Hlen.
  pose proof (agree_below_store _ _ _ _ Hst) as Hagree.
  destruct (push_frame C T' (k_loc C + 1) Hsz ltac:(lia) Hsorted Hp Hagree Hlen ltac:(lia))
    as (Hsz' & Hs' & Hp').
  refine (conj Hsz' (conj _ (conj _ (conj Hs' (conj Hp' _))))); simpl.
  - lia.
  - split; [done|lia].
  - exists sc. split; [done|]. simpl.
    replace (k_loc C + 1 - 1) with (k_loc C) by lia.
    split_and!; [done| |].
    + by eapply members_at_agree.
    + exists w. split; [|done]. by eapply load_store_eq.
Qed.

Lemma saturated_spec n :
  (if 16777215 <? n then 16777215 else n) = saturated n.
Proof. unfold saturated. destruct (Z.ltb_spec 16777215 n); lia. Qed.

(** The two words that [end_scope] writes. *)
Lemma close_words kd T sc c T1 T2 :
  holding_at kd T sc c →
  0 ≤ tape_index sc < c →
  Z.of_nat (length T) < 2 ^ 32 →
  store T c (tape_word (end_tag kd) (tape_index sc)) = Some T1 →
  store T1 (tape_index sc)
    (tape_word (start_tag kd)
       (Z.lor (wrap32 (c + 1))
          (Z.shiftl (if 16777215 <? count sc then 16777215 else count sc) 32)))
    = Some T2 →
  agree_below T T2 (tape_index sc)
  ∧ length T2 = length T
  ∧ holding_at kd T2 sc c
  ∧ has_tag T2 (tape_index sc) (start_tag kd)
  ∧ has_tag T2 c (end_tag kd)
  ∧ load T2 (tape_index sc) = Some (opener_word (start_tag kd) c (count sc))
  ∧ load T2 c = Some (tape_word (end_tag kd) (tape_index sc)).
Proof.
  intros Hhold Hti Hcap Hst1 Hst2.
  pose proof (store_Some _ _ _ _ Hst1) as [Hr1 _].
  pose proof (store_length _ _ _ _ Hst1) as Hl1.
  pose proof (store_length _ _ _ _ Hst2) as Hl2.
  rewrite wrap32_small, saturated_spec in Hst2 by lia.
  fold (opener_word (start_tag kd) c (count sc)) in Hst2.
  assert (load T2 (tape_index sc) = Some (opener_word (start_tag kd) c (count sc))) as Ho
    by (by eapply load_store_eq).
  assert (load T2 c = Some (tape_word (end_tag kd) (tape_index sc))) as Hc.
  { rewrite (load_store_ne _ _ _ _ _ Hst2) by lia. by eapply load_store_eq. }
  split_and!; try done.
  - intros x Hx. rewrite (load_store_ne _ _ _ _ _ Hst2) by lia.
    apply (load_store_ne _ _ _ _ _ Hst1). lia.
  - congruence.
  - eapply holding_at_agree_on; [|done]. intros x Hx.
    rewrite (load_store_ne _ _ _ _ _ Hst2) by lia.
    apply (load_store_ne _ _ _ _ _ Hst1). lia.
  - eexists. split; [done|]. apply tag_of_tape_word.
  - eexists. split; [done|]. apply tag_of_tape_word.
Qed.

(** An array or an object has been closed. *)
Lemma inv_close kd C sc T1 T2 :
  inv (Holding kd) C → kd ≠ of_root →
  load (k_scope C) (wrap32 (k_depth C - 1)) = Some sc →
  store (k_tape C) (k_loc C) (tape_word (end_tag kd) (tape_index sc)) = Some T1 →
  store T1 (tape_index sc)
    (tape_word (start_tag kd)
       (Z.lor (wrap32 (k_loc C + 1))
          (Z.shiftl (if 16777215 <? count sc then 16777215 else count sc) 32)))
    = Some T2 →
  inv Closed
    {| k_tape := T2; k_loc := k_loc C + 1; k_depth := wrap32 (k_depth C - 1);
       k_scope := k_scope C; k_ret := k_ret C |}.
Proof.
  intros (Hsz & Hd & Hkd & Hsorted & Hp & sc0 & Hsc0 & Hhold) Hne Hsc Hst1 Hst2.
  assert (2 ≤ k_depth C) as Hd2.
  { destruct (decide (k_depth C = 1)) as [Heq|]; [|lia]. by apply Hkd in Heq. }
  pose proof (load_Some_range _ _ _ Hsc0) as Hr.
  destruct Hsz as [Hloc Hcap]. destruct Hsorted as [Hs1 Hs2].
  rewrite (wrap32_small (k_depth C - 1)) in * by lia.
  simplify_eq.
  pose proof (Hs1 (k_depth C - 1) _ ltac:(lia) Hsc0) as Hti.
  pose proof (store_Some _ _ _ _ Hst1) as [Hr1 _].
  destruct (close_words kd _ _ _ _ _ Hhold Hti ltac:(lia) Hst1 Hst2)
    as (Hagree & Hlen & Hhold2 & Hstart & Hend & Hopen & Hclose).
  simpl. refine (conj (conj _ _) (conj _ (conj (conj _ _) (conj _ _)))); simpl.
  - lia.
  - lia.
  - lia.
  - intros m scm Hm Hscm. specialize (Hs1 m scm ltac:(lia) Hscm). lia.
  - intros m m' scm scm' Hm Hm' Hscm Hscm'. eapply (Hs2 m m'); [lia|lia|done..].
  - eapply parents_ok_transfer; [done|done| |done|]; simpl.
    + intros m scm Hm Hscm. eauto.
    + intros m scm Hm Hscm. eapply agree_below_le; [done|].
      destruct (decide (m = k_depth C - 1)) as [->|].
      * simplify_eq. lia.
      * pose proof (Hs2 m (k_depth C - 1) scm sc0 ltac:(lia) ltac:(lia) Hscm Hsc0). lia.
  - exists sc0. split; [done|].
    destruct kd; [done| |]; simpl in *.
    + eapply value_array; [done..|]. by split.
    + eapply value_object; [done..|]. by split.
Qed.

(** The root scope has been closed: the tape is a document. *)
Lemma inv_finish C sc T1 T2 :
  inv (Holding of_root) C →
  load (k_scope C) (wrap32 (k_depth C - 1)) = Some sc →
  store (k_tape C) (k_loc C) (tape_word ROOT (tape_index sc)) = Some T1 →
  store T1 (tape_index sc)
    (tape_word ROOT
       (Z.lor (wrap32 (k_loc C + 1))
          (Z.shiftl (if 16777215 <? count sc then 16777215 else count sc) 32)))
    = Some T2 →
  wrap32 (k_depth C - 1) = 0 ∧ tape_document (written T2) T2 (k_loc C + 1).
Proof.
  intros (Hsz & Hd & Hkd & Hsorted & Hp & sc0 & Hsc0 & Hhold) Hsc Hst1 Hst2.
  assert (k_depth C = 1) as Hd1 by (by apply Hkd).
  rewrite Hd1 in *. change (wrap32 (1 - 1)) with 0 in *. change (1 - 1) with 0 in *.
  simplify_eq. split; [done|].
  destruct Hsz as [Hloc Hcap]. destruct Hsorted as [Hs1 Hs2].
  pose proof (Hs1 0 _ ltac:(lia) Hsc0) as Hti.
  destruct (close_words of_root _ _ _ _ _ Hhold Hti ltac:(lia) Hst1 Hst2)
    as (Hagree & Hlen & Hhold2 & Hstart & Hend & Hopen & Hclose).
  simpl in *. destruct Hhold2 as (Hi & Hc & Hv). rewrite Hi, Hc in *.
  exists (k_loc C). split_and!; try done.
Qed.

(** [CONTINUE]: the scope below the one just closed goes on. *)
Lemma inv_resume C address :
  inv Closed C →
  load (k_ret C) (k_depth C) = Some address →
  ∃ kd, address = address_of kd ∧ inv (Holding kd) C.
Proof.
  intros (Hsz & Hd & Hsorted & Hp & sc' & Hsc' & Hv) Haddr.
  destruct (Hp (k_depth C - 1) ltac:(lia)) as (sc & sc1 & kd & Hsc & Hsc1 & Hra & Hkd & Haw).
  replace (k_depth C - 1 + 1) with (k_depth C) in * by lia.
  simplify_eq. exists kd. split; [done|].
  refine (conj Hsz (conj Hd (conj _ (conj Hsorted (conj _ _))))).
  - rewrite Hkd. lia.
  - eapply parents_ok_le; [done|lia].
  - exists sc. split; [done|]. by eapply awaiting_value.
Qed.

(** *** What each method does to the tape-building part *)

Lemma bind_Some {A B : Type} (m : M A) (k : A → M B) sp r sp'' :
  bind m k sp = Some (r, sp'') →
  ∃ a sp', m sp = Some (a, sp') ∧ k a sp' = Some (r, sp'').
Proof.
  unfold bind. destruct (m sp) as [[a sp']|]; [|done]. eauto.
Qed.

Lemma ret_Some {A : Type} (a : A) sp r sp' :
  ret a sp = Some (r, sp') → r = a ∧ sp' = sp.
Proof. unfold ret. intros [= <- <-]. done. Qed.

Lemma advance_char_core sp c sp' :
  advance_char sp = Some (c, sp') → core_of sp' = core_of sp.
Proof. intros Hs. by run_methods. Qed.

Lemma peek_next_char_core sp c sp' :
  peek_next_char sp = Some (c, sp') → sp' = sp.
Proof. intros Hs. by run_methods. Qed.

Lemma current_char_core sp c sp' :
  current_char sp = Some (c, sp') → sp' = sp.
Proof. intros Hs. by run_methods. Qed.

Lemma increment_count_core sp u sp' :
  increment_count sp = Some (u, sp') →
  ∃ sc CS',
    load (k_scope (core_of sp)) (wrap32 (k_depth (core_of sp) - 1)) = Some sc
    ∧ store (k_scope (core_of sp)) (wrap32 (k_depth (core_of sp) - 1))
        {| tape_index := tape_index sc; count := wrap32 (count sc + 1) |} = Some CS'
    ∧ core_of sp'
      = {| k_tape := k_tape (core_of sp); k_loc := k_loc (core_of sp);
           k_depth := k_depth (core_of sp); k_scope := CS';
           k_ret := k_ret (core_of sp) |}.
Proof. intros Hs. run_methods. eauto. Qed.

Lemma parse_string_core key sp sp' :
  parse_string key sp = Some (false, sp') →
  pushes_word STRING (core_of sp) (core_of sp').
Proof.
  intros Hs. run_methods. eexists _, _. split_and!; [|done|done].
  apply tag_of_tape_word.
Qed.

Lemma parse_true_atom_core sp sp' :
  parse_true_atom sp = Some (false, sp') →
  pushes_word TRUE_VALUE (core_of sp) (core_of sp').
Proof.
  intros Hs. run_methods. eexists _, _. split_and!; [|done|done].
  apply tag_of_tape_word.
Qed.

Lemma parse_false_atom_core sp sp' :
  parse_false_atom sp = Some (false, sp') →
  pushes_word FALSE_VALUE (core_of sp) (core_of sp').
Proof.
  intros Hs. run_methods. eexists _, _. split_and!; [|done|done].
  apply tag_of_tape_word.
Qed.

Lemma parse_null_atom_core sp sp' :
  parse_null_atom sp = Some (false, sp') →
  pushes_word NULL_VALUE (core_of sp) (core_of sp').
Proof.
  intros Hs. run_methods. eexists _, _. split_and!; [|done|done].
  apply tag_of_tape_word.
Qed.

Lemma parse_root_true_atom_core sp sp' :
  parse_root_true_atom sp = Some (false, sp') →
  pushes_word TRUE_VALUE (core_of sp) (core_of sp').
Proof.
  intros Hs. run_methods. eexists _, _. split_and!; [|done|done].
  apply tag_of_tape_word.
Qed.

Lemma parse_root_false_atom_core sp sp' :
  parse_root_false_atom sp = Some (false, sp') →
  pushes_word FALSE_VALUE (core_of sp) (core_of sp').
Proof.
  intros Hs. run_methods. eexists _, _. split_and!; [|done|done].
  apply tag_of_tape_word.
Qed.

Lemma parse_root_null_atom_core sp sp' :
  parse_root_null_atom sp = Some (false, sp') →
  pushes_word NULL_VALUE (core_of sp) (core_of sp').
Proof.
  intros Hs. run_methods. eexists _, _. split_and!; [|done|done].
  apply tag_of_tape_word.
Qed.

Lemma parse_number_at_core bytes src sp sp' :
  parse_number_at bytes src sp = Some (false, sp') →
  ∃ t, number_tag t ∧ pushes_number t (core_of sp) (core_of sp').
Proof.
  intros Hs. unfold parse_number_at, numberparsing_parse_number in Hs.
  destruct (decode_number bytes src) as [[v|v|bits]|] eqn:Hd.
  - exists INT64. split; [by left|].
    run_methods. eexists _, _, _, _. split_and!; [|done|done|done].
    apply tag_of_tape_word.
  - exists UINT64. split; [by right; left|].
    run_methods. eexists _, _, _, _. split_and!; [|done|done|done].
    apply tag_of_tape_word.
  - exists DOUBLE. split; [by right; right|].
    run_methods. eexists _, _, _, _. split_and!; [|done|done|done].
    apply tag_of_tape_word.
  - by run_methods.
Qed.

Lemma parse_number_core sp sp' :
  parse_number sp = Some (false, sp') →
  ∃ t, number_tag t ∧ pushes_number t (core_of sp) (core_of sp').
Proof.
  intros Hs. unfold parse_number in Hs.
  apply bind_Some in Hs as (src & sp1 & Hc & Hs).
  apply bind_Some in Hs as (sp2 & sp3 & Hg & Hs).
  assert (sp1 = sp ∧ sp3 = sp) as [-> ->] by (by run_methods).
  by eapply parse_number_at_core.
Qed.

Lemma parse_root_number_core sp sp' :
  parse_root_number sp = Some (false, sp') →
  ∃ t, number_tag t ∧ pushes_number t (core_of sp) (core_of sp').
Proof.
  intros Hs. unfold parse_root_number in Hs.
  apply bind_Some in Hs as (sp1 & sp2 & Hg & Hs).
  assert (sp1 = sp ∧ sp2 = sp) as [-> ->] by (by run_methods).
  destruct (negb _); [by run_methods|].
  apply bind_Some in Hs as (u & sp1 & Hm & Hs).
  apply bind_Some in Hs as (idx & sp2 & Hc & Hs).
  assert (sp1 = sp ∧ sp2 = sp) as [-> ->] by (by run_methods).
  by eapply parse_number_at_core.
Qed.

Lemma start_scope_core continue_state sp sp' :
  start_scope continue_state sp = Some (false, sp') →
  ∃ CS' RA',
    store (k_scope (core_of sp)) (k_depth (core_of sp))
      {| tape_index := wrap32 (k_loc (core_of sp)); count := 0 |} = Some CS'
    ∧ store (k_ret (core_of sp)) (k_depth (core_of sp)) continue_state = Some RA'
    ∧ core_of sp'
      = {| k_tape := k_tape (core_of sp); k_loc := k_loc (core_of sp) + 1;
           k_depth := wrap32 (k_depth (core_of sp) + 1);
           k_scope := CS'; k_ret := RA' |}.
Proof. intros Hs. run_methods. eauto. Qed.

Lemma end_scope_core start end_ sp u sp' :
  end_scope start end_ sp = Some (u, sp') →
  ∃ sc T1 T2,
    load (k_scope (core_of sp)) (wrap32 (k_depth (core_of sp) - 1)) = Some sc
    ∧ store (k_tape (core_of sp)) (k_loc (core_of sp))
        (tape_word end_ (tape_index sc)) = Some T1
    ∧ store T1 (tape_index sc)
        (tape_word start
           (Z.lor (wrap32 (k_loc (core_of sp) + 1))
              (Z.shiftl (if 16777215 <? count sc then 16777215 else count sc) 32)))
        = Some T2
    ∧ core_of sp'
      = {| k_tape := T2; k_loc := k_loc (core_of sp) + 1;
           k_depth := wrap32 (k_depth (core_of sp) - 1);
           k_scope := k_scope (core_of sp); k_ret := k_ret (core_of sp) |}.
Proof.
  intros Hs. run_methods.
  all: eexists _, _, _; split_and!; [done|done| |done].
  all: match goal with Hlt : (_ <? _) = _ |- _ => rewrite Hlt end; done.
Qed.

Lemma inv_pushes_value kd C C' :
  inv (Awaiting kd) C → pushes_value C C' → inv (Holding kd) C'.
Proof.
  intros Hinv [(t & Ht & w & T' & Htag & Hst & ->)|(t & Ht & w & raw & T1 & T2 & Htag & Hst1 & Hst2 & ->)].
  - pose proof (store_Some _ _ _ _ Hst) as [Hr _].
    pose proof (store_length _ _ _ _ Hst) as Hlen.
    apply inv_value; try done.
    + by eapply agree_below_store.
    + eapply value_scalar; [done|]. exists w. split; [|done]. by eapply load_store_eq.
    + lia.
  - pose proof (store_Some _ _ _ _ Hst1) as [Hr1 _].
    pose proof (store_Some _ _ _ _ Hst2) as [Hr2 _].
    pose proof (store_length _ _ _ _ Hst1) as Hlen1.
    pose proof (store_length _ _ _ _ Hst2) as Hlen2.
    replace (k_loc C + 1 + 1) with (k_loc C + 2) by lia.
    apply inv_value; try done.
    + intros x Hx. rewrite (load_store_ne _ _ _ _ _ Hst2) by lia.
      apply (load_store_ne _ _ _ _ _ Hst1). lia.
    + congruence.
    + eapply value_number; [done| |].
      * exists w. split; [|done].
        rewrite (load_store_ne _ _ _ _ _ Hst2) by lia. by eapply load_store_eq.
      * exists raw. by eapply load_store_eq.
    + lia.
Qed.

Lemma inv_pushes_key C C' :
  inv Keying C → pushes_word STRING C C' → inv (Awaiting of_object) C'.
Proof.
  intros Hinv (w & T' & Htag & Hst & ->). by eapply inv_key.
Qed.

Lemma inv_starts kd continue_state sp sp' :
  inv (Awaiting kd) (core_of sp) →
  continue_state = address_of kd →
  start_scope continue_state sp = Some (false, sp') →
  inv Fresh (core_of sp').
Proof.
  intros Hinv -> (CS' & RA' & Hcs & Hra & ->)%start_scope_core.
  by eapply inv_open_scope.
Qed.

Lemma inv_ends kd sp u sp' :
  inv (Holding kd) (core_of sp) → kd ≠ of_root →
  end_scope (start_tag kd) (end_tag kd) sp = Some (u, sp') →
  inv Closed (core_of sp').
Proof.
  intros Hinv Hkd (sc & T1 & T2 & Hsc & Hst1 & Hst2 & ->)%end_scope_core.
  by eapply inv_close.
Qed.

Lemma inv_increments_array sp u sp' :
  inv (Holding of_array) (core_of sp) →
  increment_count sp = Some (u, sp') →
  inv (Awaiting of_array) (core_of sp').
Proof.
  intros Hinv (sc & CS' & Hsc & Hcs & ->)%increment_count_core.
  by eapply inv_increment_array.
Qed.

Lemma inv_increments_object sp u sp' :
  inv (Holding of_object) (core_of sp) →
  increment_count sp = Some (u, sp') →
  inv Keying (core_of sp').
Proof.
  intros Hinv (sc & CS' & Hsc & Hcs & ->)%increment_count_core.
  by eapply inv_increment_object.
Qed.

(** *** The blocks *)

Ltac next_bind Hs :=
  let a := fresh "a" in
  let sp := fresh "sp" in
  let Ha := fresh "Hop" in
  apply bind_Some in Hs as (a & sp & Ha & Hs).

Ltac finish_block Hs :=
  apply ret_Some in Hs as [Hs ->];
  unfold or_error in Hs;
  repeat match type of Hs with
    | context [if ?b then _ else _] => destruct b
    end;
  simplify_eq; try exact I.

Lemma object_begin_inv sp l' sp' :
  inv Fresh (core_of sp) →
  object_begin sp = Some (goto l', sp') →
  inv (phase_of l') (core_of sp').
Proof.
  intros Hinv Hs. unfold object_begin in Hs.
  next_bind Hs. apply advance_char_core in Hop. rewrite <- Hop in Hinv.
  destruct (a =? Ch.quote).
  { next_bind Hs. next_bind Hs. destruct a1; finish_block Hs.
    eapply inv_pushes_key; [|by eapply parse_string_core].
    eapply inv_increments_object; [|done].
    by apply inv_fresh_holding. }
  destruct (a =? Ch.rbrace).
  { next_bind Hs. finish_block Hs.
    eapply (inv_ends of_object); [|done..].
    by apply inv_fresh_holding. }
  finish_block Hs.
Qed.

Lemma object_continue_inv sp l' sp' :
  inv (Holding of_object) (core_of sp) →
  object_continue sp = Some (goto l', sp') →
  inv (phase_of l') (core_of sp').
Proof.
  intros Hinv Hs. unfold object_continue in Hs.
  next_bind Hs. apply advance_char_core in Hop. rewrite <- Hop in Hinv.
  destruct (a =? Ch.comma).
  { next_bind Hs. next_bind Hs. apply advance_char_core in Hop1.
    pose proof (inv_increments_object _ _ _ Hinv Hop0) as Hkey.
    rewrite <- Hop1 in Hkey.
    destruct (negb _); [finish_block Hs|].
    next_bind Hs. destruct a2; finish_block Hs.
    eapply inv_pushes_key; [done|by eapply parse_string_core]. }
  destruct (a =? Ch.rbrace).
  { next_bind Hs. finish_block Hs. by eapply (inv_ends of_object). }
  finish_block Hs.
Qed.

Lemma array_begin_inv sp l' sp' :
  inv Fresh (core_of sp) →
  array_begin sp = Some (goto l', sp') →
  inv (phase_of l') (core_of sp').
Proof.
  intros Hinv Hs. unfold array_begin in Hs.
  next_bind Hs. apply peek_next_char_core in Hop as ->.
  destruct (a =? Ch.rbracket).
  { next_bind Hs. apply advance_char_core in Hop. rewrite <- Hop in Hinv.
    next_bind Hs. finish_block Hs.
    eapply (inv_ends of_array); [|done..].
    by apply inv_fresh_holding. }
  next_bind Hs. finish_block Hs.
  eapply inv_increments_array; [|done]. by apply inv_fresh_holding.
Qed.

Lemma array_continue_inv sp l' sp' :
  inv (Holding of_array) (core_of sp) →
  array_continue sp = Some (goto l', sp') →
  inv (phase_of l') (core_of sp').
Proof.
  intros Hinv Hs. unfold array_continue in Hs.
  next_bind Hs. apply advance_char_core in Hop. rewrite <- Hop in Hinv.
  destruct (a =? Ch.comma).
  { next_bind Hs. finish_block Hs. by eapply inv_increments_array. }
  destruct (a =? Ch.rbracket).
  { next_bind Hs. finish_block Hs. by eapply (inv_ends of_array). }
  finish_block Hs.
Qed.

Lemma scope_end_inv sp l' sp' :
  inv Closed (core_of sp) →
  scope_end sp = Some (goto l', sp') →
  inv (phase_of l') (core_of sp').
Proof.
  intros Hinv Hs. unfold scope_end in Hs.
  next_bind Hs. next_bind Hs.
  assert (sp0 = sp ∧ sp1 = sp ∧ load (k_ret (core_of sp)) (k_depth (core_of sp)) = Some a0)
    as (-> & -> & Haddr) by (by run_methods).
  destruct (inv_resume _ _ Hinv Haddr) as (kd & -> & Hkd).
  destruct kd; simpl in Hs; by finish_block Hs.
Qed.

(** The branch of a value [switch] for a scalar: [Hop] is the call. *)
Ltac scalar_branch Hs Hinv :=
  next_bind Hs;
  match goal with
  | Hop : _ = Some (?failed, _) |- _ =>
      destruct failed; finish_block Hs;
      eapply inv_pushes_value; [exact Hinv|];
      first
        [ left; exists STRING; split; [by left|by eapply parse_string_core]
        | left; exists TRUE_VALUE; split;
          [by right; left|first [by eapply parse_true_atom_core
                                |by eapply parse_root_true_atom_core]]
        | left; exists FALSE_VALUE; split;
          [by right; right; left|first [by eapply parse_false_atom_core
                                       |by eapply parse_root_false_atom_core]]
        | left; exists NULL_VALUE; split;
          [by right; right; right|first [by eapply parse_null_atom_core
                                        |by eapply parse_root_null_atom_core]]
        | right; first [by eapply parse_number_core|by eapply parse_root_number_core] ]
  end.

Ltac scope_branch Hs Hinv :=
  next_bind Hs;
  match goal with
  | Hop : _ = Some (?failed, _) |- _ =>
      destruct failed; finish_block Hs;
      eapply inv_starts; [exact Hinv|reflexivity|exact Hop]
  end.

Lemma object_key_state_inv sp l' sp' :
  inv (Awaiting of_object) (core_of sp) →
  object_key_state sp = Some (goto l', sp') →
  inv (phase_of l') (core_of sp').
Proof.
  intros Hinv Hs. unfold object_key_state in Hs.
  next_bind Hs. apply advance_char_core in Hop. rewrite <- Hop in Hinv.
  destruct (negb _); [finish_block Hs|].
  next_bind Hs. apply advance_char_core in Hop0. rewrite <- Hop0 in Hinv.
  destruct (a0 =? Ch.lbrace); [scope_branch Hs Hinv|].
  destruct (a0 =? Ch.lbracket); [scope_branch Hs Hinv|].
  destruct (a0 =? Ch.quote); [scalar_branch Hs Hinv|].
  destruct (a0 =? Ch.t); [scalar_branch Hs Hinv|].
  destruct (a0 =? Ch.f); [scalar_branch Hs Hinv|].
  destruct (a0 =? Ch.n); [scalar_branch Hs Hinv|].
  destruct (is_minus_or_digit a0); [scalar_branch Hs Hinv|].
  finish_block Hs.
Qed.

Lemma main_array_switch_inv sp l' sp' :
  inv (Awaiting of_array) (core_of sp) →
  main_array_switch sp = Some (goto l', sp') →
  inv (phase_of l') (core_of sp').
Proof.
  intros Hinv Hs. unfold main_array_switch in Hs.
  next_bind Hs. apply advance_char_core in Hop. rewrite <- Hop in Hinv.
  destruct (a =? Ch.lbrace); [scope_branch Hs Hinv|].
  destruct (a =? Ch.lbracket); [scope_branch Hs Hinv|].
  destruct (a =? Ch.quote); [scalar_branch Hs Hinv|].
  destruct (a =? Ch.t); [scalar_branch Hs Hinv|].
  destruct (a =? Ch.f); [scalar_branch Hs Hinv|].
  destruct (a =? Ch.n); [scalar_branch Hs Hinv|].
  destruct (is_minus_or_digit a); [scalar_branch Hs Hinv|].
  finish_block Hs.
Qed.

Lemma read_first_value_inv STREAMING sp l' sp' :
  inv (Awaiting of_root) (core_of sp) →
  read_first_value STREAMING sp = Some (goto l', sp') →
  inv (phase_of l') (core_of sp').
Proof.
  intros Hinv Hs. unfold read_first_value in Hs.
  next_bind Hs. apply current_char_core in Hop as ->.
  destruct (a =? Ch.lbrace); [scope_branch Hs Hinv|].
  destruct (a =? Ch.lbracket).
  { next_bind Hs. destruct a0; [finish_block Hs|].
    pose proof (inv_starts of_root _ _ _ Hinv eq_refl Hop) as Hfresh.
    destruct (negb STREAMING); [|finish_block Hs; exact Hfresh].
    next_bind Hs. next_bind Hs. next_bind Hs.
    assert (sp1 = sp0 ∧ sp2 = sp0 ∧ sp3 = sp0) as (-> & -> & ->) by (by run_methods).
    destruct (negb _); finish_block Hs; exact Hfresh. }
  destruct (a =? Ch.quote); [scalar_branch Hs Hinv|].
  destruct (a =? Ch.t); [scalar_branch Hs Hinv|].
  destruct (a =? Ch.f); [scalar_branch Hs Hinv|].
  destruct (a =? Ch.n); [scalar_branch Hs Hinv|].
  destruct (is_minus_or_digit a); [scalar_branch Hs Hinv|].
  finish_block Hs.
Qed.

Lemma step_inv l sp l' sp' :
  inv (phase_of l) (core_of sp) →
  step l sp = Some (goto l', sp') →
  inv (phase_of l') (core_of sp').
Proof.
  destruct l; simpl.
  - apply object_begin_inv.
  - apply object_key_state_inv.
  - apply object_continue_inv.
  - apply scope_end_inv.
  - apply array_begin_inv.
  - apply main_array_switch_inv.
  - apply array_continue_inv.
  - intros _ Hs. by run_methods.
  - intros _ Hs. by run_methods.
Qed.

(** *** The whole call *)

Lemma finish_core sp e sp' :
  finish sp = Some (e, sp') →
  ∃ sp1, end_document sp = Some (tt, sp1) ∧ core_of sp' = core_of sp1.
Proof.
  intros Hs. unfold finish in Hs.
  next_bind Hs. destruct a. exists sp0. split; [done|].
  clear Hop. by run_methods.
Qed.

Lemma start_inv finish_state sp sp' :
  start finish_state sp = Some (SUCCESS, sp') →
  next_tape_loc sp = 0 → depth sp = 0 →
  Z.of_nat (length (tape (doc (parser sp))))
    + Z.of_nat (length (containing_scope (parser sp))) < 2 ^ 32 →
  inv (Awaiting of_root) (core_of sp').
Proof.
  intros Hs Hloc Hdepth Hcap. unfold start in Hs.
  apply bind_Some in Hs as (sp0 & sp1 & Hget & Hs).
  apply bind_Some in Hs as (e & sp2 & Hend & Hs).
  destruct e; [by run_methods|].
  apply bind_Some in Hs as (u & sp3 & Hinit & Hs).
  apply bind_Some in Hs as (failed & sp4 & Hdoc & Hs).
  destruct failed; [by run_methods|]. apply ret_Some in Hs as [_ ->].
  assert (core_of sp3 = core_of sp) as Hcore by (clear Hdoc; unfold_methods; by simplify_eq/=).
  apply start_scope_core in Hdoc as (CS' & RA' & Hcs & Hra & ->).
  rewrite Hcore in *. clear Hcore.
  unfold core_of in Hcs, Hra |- *. simpl in *.
  rewrite Hloc, Hdepth in *. change (wrap32 (0 + 1)) with 1. change (wrap32 0) with 0 in *.
  pose proof (store_length _ _ _ _ Hcs) as Hlen.
  assert (∀ m sc, 0 ≤ m < 1 → load CS' m = Some sc → sc = {| tape_index := 0; count := 0 |})
    as Hroot.
  { intros m sc Hm Hsc. assert (m = 0) as -> by lia.
    rewrite (load_store_eq _ _ _ _ Hcs) in Hsc. by simplify_eq. }
  refine (conj (conj _ _) (conj _ (conj _ (conj (conj _ _) (conj _ _))))); simpl.
  - lia.
  - lia.
  - lia.
  - done.
  - intros m sc Hm Hsc. rewrite (Hroot m sc Hm Hsc). simpl. lia.
  - intros m m' sc sc' Hm Hm' Hsc Hsc'. lia.
  - intros m Hm. lia.
  - eexists. split; [by eapply load_store_eq|]. done.
Qed.

Lemma run_document fuel l sp sp' :
  inv (phase_of l) (core_of sp) →
  run fuel l sp = Returned SUCCESS sp' →
  tape_document (written (tape (doc (parser sp')))) (tape (doc (parser sp')))
    (next_tape_loc sp').
Proof.
  revert l sp. induction fuel as [|fuel IH]; intros l sp Hinv Hr; [done|].
  simpl in Hr. destruct (step l sp) as [[[l'|e'] sp1]|] eqn:Hs; [| |done].
  - eapply IH; [|done]. by eapply step_inv.
  - injection Hr as -> ->.
    destruct l; simpl in Hs; try (by run_methods).
    apply bind_Some in Hs as (e & sp2 & Hf & Hs). apply ret_Some in Hs as [[= <-] <-].
    apply finish_core in Hf as (sp1 & He & Hcore).
    apply end_scope_core in He as (sc & T1 & T2 & Hsc & Hst1 & Hst2 & Hc1).
    destruct (inv_finish _ _ _ _ Hinv Hsc Hst1 Hst2) as [_ Hdoc].
    rewrite Hc1 in Hcore.
    replace (tape (doc (parser sp'))) with (k_tape (core_of sp')) by done.
    replace (next_tape_loc sp') with (k_loc (core_of sp')) by done.
    by rewrite Hcore.
Qed.

(** After an accepted parse the tape, up to the cursor, is one document
    whose scopes are as [end_scope] wrote them. *)
Lemma accepted_tape_is_document STREAMING dom_parser doc0 sp' :
  parse_structurals STREAMING dom_parser doc0 = Returned SUCCESS sp' →
  Z.of_nat (length (tape doc0))
    + Z.of_nat (length (containing_scope dom_parser)) < 2 ^ 32 →
  tape_document (written (tape (doc (parser sp')))) (tape (doc (parser sp')))
    (next_tape_loc sp').
Proof.
  intros Hp Hcap.
  apply parse_structurals_inv in Hp as [(sp1 & l & sp2 & Hst & Hr & Hrun & _)|(_ & [?|?] & _)];
    [|done..].
  eapply run_document; [|done].
  eapply read_first_value_inv; [|done].
  eapply start_inv; [done..|]. done.
Qed.

Lemma document_impl (P Q : scope_property) T c :
  (∀ s e i k n, 0 ≤ i → i < k → k < c → 0 ≤ n → P s e i k n → Q s e i k n) →
  tape_document P T c → tape_document Q T c.
Proof.
  intros HPQ (k & -> & Hroot & Hv & Hend & HP).
  destruct (proj1 (traversal_bounds _ _) _ _ Hv).
  exists k. split_and!; try done.
  - assert (∀ s e i j n, 1 ≤ i → i < j → j < k → 0 ≤ n → P s e i j n → Q s e i j n)
      as HPQ' by (intros; apply HPQ; done || lia).
    apply (proj1 (traversal_frame P Q T T 1 k ltac:(done) HPQ')); [done|lia..].
  - apply HPQ; [lia..|done].
Qed.

Lemma saturated_range n : 0 ≤ n → 0 ≤ saturated n < 2 ^ 24.
Proof. unfold saturated. lia. Qed.

Lemma written_closer_before_index T s e i k n :
  Z.of_nat (length T) < 2 ^ 32 → 0 ≤ i → 0 ≤ n →
  written T s e i k n → closer_before_index T s e i k n.
Proof.
  intros Hcap Hi Hn [Hopen Hclose].
  pose proof (load_Some_range _ _ _ Hclose) as Hk.
  pose proof (load_Some_range _ _ _ Hopen) as Hi'.
  assert (index_of (opener_word s k match s with ROOT => 0 | _ => n end) = k + 1) as Hidx.
  { apply index_of_tape_word; [lia|]. apply saturated_range. destruct s; lia. }
  eexists _, _. split_and!; [done| | | | |].
  - apply tag_of_tape_word.
  - done.
  - rewrite Hidx. by replace (k + 1 - 1) with k by lia.
  - apply tag_of_tape_word.
  - rewrite payload_of_tape_word. apply Z.mod_small. lia.
Qed.

Lemma written_count_stored T s e i k n :
  Z.of_nat (length T) < 2 ^ 32 → 0 ≤ n →
  written T s e i k n → count_stored_below_root T s e i k n.
Proof.
  intros Hcap Hn [Hopen Hclose].
  pose proof (load_Some_range _ _ _ Hclose) as Hk.
  assert (∀ n', 0 ≤ n' → count_of (opener_word s k n') = saturated n') as Hcount.
  { intros n' Hn'. apply count_of_tape_word; [lia|]. by apply saturated_range. }
  unfold count_stored_below_root, count_stored.
  destruct s; eexists; (split; [done|]); rewrite Hcount by done; unfold saturated; lia.
Qed.

Lemma run_same_layout fuel l sp e sp' :
  run fuel l sp = Returned e sp' → same_layout sp sp'.
Proof.
  revert l sp. induction fuel as [|fuel IH]; intros l sp Hr; [done|].
  simpl in Hr. destruct (step l sp) as [[[l'|e'] sp1]|] eqn:Hs; [| |done].
  - eapply same_layout_trans; [by eapply step_same_layout|by eapply IH].
  - injection Hr as -> ->. by eapply step_same_layout.
Qed.

Lemma parse_structurals_tape_length STREAMING dom_parser doc0 e sp' :
  parse_structurals STREAMING dom_parser doc0 = Returned e sp' →
  length (tape (doc (parser sp'))) = length (tape doc0).
Proof.
  intros Hp.
  apply parse_structurals_inv in Hp as [(sp1 & l & sp2 & Hst & Hr & Hrun & _)|(Hst & _ & _)].
  - apply start_cases in Hst as [Hl1 _].
    apply read_first_value_same_layout in Hr.
    apply run_same_layout in Hrun.
    unfold same_layout in *. destruct_and!. simpl in *. congruence.
  - apply start_cases in Hst as [Hl1 _].
    unfold same_layout in *. destruct_and!. simpl in *. congruence.
Qed.

(** C1, amended.  After an accepted parse (the tape and the scope stack
    together holding fewer than 2^32 entries) the tape up to the cursor is
    one document, and for every scope met when it is traversed in document
    order, the root scope included: the word at the scope's first index [i]
    carries the opening tag and, in the low 32 bits [j] of its payload, the
    index after the scope's last word; the word at [j - 1] carries the
    matching closing tag, and its payload is [i]. *)
Theorem scope_words_paired STREAMING dom_parser doc0 sp' :
  parse_structurals STREAMING dom_parser doc0 = Returned SUCCESS sp' →
  Z.of_nat (length (tape doc0))
    + Z.of_nat (length (containing_scope dom_parser)) < 2 ^ 32 →
  tape_document (closer_before_index (tape (doc (parser sp'))))
    (tape (doc (parser sp'))) (next_tape_loc sp').
Proof.
  intros Hp Hcap.
  pose proof (parse_structurals_tape_length _ _ _ _ _ Hp) as Hlen.
  eapply document_impl; [|by eapply accepted_tape_is_document].
  intros s e i k n Hi Hik Hk Hn. apply written_closer_before_index; lia.
Qed.

(** C3, amended.  After an accepted parse (same size bound), for every
    array and every object met when the tape is traversed in document
    order, bits 32 to 55 of the opening word hold the number of elements,
    or of key/value pairs, when that number is below 2^24, and [0xFFFFFF]
    otherwise; the opening word of the root scope holds 0 there. *)
Theorem scope_counts_saturate STREAMING dom_parser doc0 sp' :
  parse_structurals STREAMING dom_parser doc0 = Returned SUCCESS sp' →
  Z.of_nat (length (tape doc0))
    + Z.of_nat (length (containing_scope dom_parser)) < 2 ^ 32 →
  tape_document (count_stored_below_root (tape (doc (parser sp'))))
    (tape (doc (parser sp'))) (next_tape_loc sp').
Proof.
  intros Hp Hcap.
  pose proof (parse_structurals_tape_length _ _ _ _ _ Hp) as Hlen.
  eapply document_impl; [|by eapply accepted_tape_is_document].
  intros s e i k n Hi Hik Hk Hn. apply written_count_stored; lia.
Qed.

End properties.

(** * Further properties *)

Section further_properties.
Context `{collaborators}.

(** ** Tape words per structural *)

Lemma step_tape_cursor l sp nx sp' :
  step l sp = Some (nx, sp') →
  match nx with
  | goto _ =>
      next_tape_loc sp' - 2 * current_structural sp'
      ≤ next_tape_loc sp - 2 * current_structural sp
      ∧ (current_structural sp < Z.of_nat (length (structural_indexes (parser sp))) →
         current_structural sp' < Z.of_nat (length (structural_indexes (parser sp'))))
  | return_ _ =>
      next_tape_loc sp' ≤ next_tape_loc sp + 1
      ∧ current_structural sp' = current_structural sp
  end.
Proof.
  intros Hs. destruct l; run_methods.
  all: load_ranges; simpl in *; lia.
Qed.

Lemma read_first_value_tape_cursor STREAMING sp nx sp' :
  read_first_value STREAMING sp = Some (nx, sp') →
  next_tape_loc sp' ≤ next_tape_loc sp + 2
  ∧ current_structural sp' = current_structural sp
  ∧ 0 ≤ current_structural sp < Z.of_nat (length (structural_indexes (parser sp))).
Proof.
  intros Hs. run_methods.
  all: load_ranges; simpl in *; lia.
Qed.

Lemma start_tape_cursor finish_state sp e sp' :
  start finish_state sp = Some (e, sp') →
  current_structural sp' = current_structural sp
  ∧ (e = EMPTY → next_tape_loc sp' = next_tape_loc sp)
  ∧ next_tape_loc sp' ≤ next_tape_loc sp + 1.
Proof.
  intros Hs. run_methods.
  all: split_and!; simpl; try done; lia.
Qed.

Lemma run_tape_cursor fuel l sp e sp' :
  run fuel l sp = Returned e sp' →
  current_structural sp < Z.of_nat (length (structural_indexes (parser sp))) →
  next_tape_loc sp' - 2 * current_structural sp'
  ≤ next_tape_loc sp - 2 * current_structural sp + 1
  ∧ current_structural sp' < Z.of_nat (length (structural_indexes (parser sp'))).
Proof.
  revert l sp. induction fuel as [|fuel IH]; intros l sp Hr Hc; [done|].
  simpl in Hr. destruct (step l sp) as [[[l'|e'] sp1]|] eqn:Hs; [| |done].
  - apply step_tape_cursor in Hs as [Hloc Hlt].
    destruct (IH _ _ Hr (Hlt Hc)). lia.
  - injection Hr as -> ->.
    pose proof (step_same_layout _ _ _ _ Hs) as Hlay.
    apply step_tape_cursor in Hs as [Hloc Hcur].
    unfold same_layout in Hlay. destruct_and!. split; [lia|congruence].
Qed.

(** X1. The tape never holds more than two words for each structural index
    the parser has looked at, plus the two [ROOT] words: on return the tape
    cursor is at most [2 * n + 2], where [n] counts the structural indexes
    from the starting one to the current one; in particular it is at most
    twice the length of the index array plus two. *)
Theorem tape_words_per_structural STREAMING dom_parser doc0 e sp' :
  parse_structurals STREAMING dom_parser doc0 = Returned e sp' →
  let first := current_structural (initial_parser STREAMING dom_parser doc0) in
  next_tape_loc sp' ≤ 2 * (current_structural sp' - first + 1) + 2
  ∧ next_tape_loc sp' ≤ 2 * Z.of_nat (length (structural_indexes dom_parser)) + 2.
Proof.
  intros Hp first.
  apply parse_structurals_inv in Hp as [(sp1 & l & sp2 & Hst & Hr & Hrun & _)|(Hst & He & _)].
  - pose proof (proj1 (start_cases _ _ _ _ Hst)) as Hl1.
    pose proof (read_first_value_same_layout _ _ _ _ Hr) as Hl2.
    pose proof (run_same_layout _ _ _ _ _ Hrun) as Hl3.
    apply start_tape_cursor in Hst as (Hc1 & _ & Ht1).
    apply read_first_value_tape_cursor in Hr as (Ht2 & Hc2 & Hin).
    apply run_tape_cursor in Hrun as [Ht3 Hc3].
    + unfold same_layout in *. destruct_and!.
      assert (Z.of_nat (length (structural_indexes (parser sp')))
              = Z.of_nat (length (structural_indexes dom_parser))) as Hlen.
      { simpl in *. congruence. }
      change (next_tape_loc (initial_parser STREAMING dom_parser doc0)) with 0 in Ht1.
      fold first in Hc1. lia.
    + rewrite (proj1 (proj2 (proj2 Hl2))). lia.
  - pose proof (proj1 (start_cases _ _ _ _ Hst)) as Hl1.
    apply start_tape_cursor in Hst as (Hc1 & He1 & Ht1).
    change (next_tape_loc (initial_parser STREAMING dom_parser doc0)) with 0 in *.
    fold first in Hc1. lia.
Qed.

(** ** DEPTH_ERROR *)

Lemma finish_depth sp e sp' :
  finish sp = Some (e, sp') →
  Z.of_nat (length (containing_scope (parser sp))) ≤ max_depth (parser sp) →
  e ≠ DEPTH_ERROR ∧ depth sp' < max_depth (parser sp').
Proof.
  intros Hs Hcap. run_methods.
  all: load_ranges; simpl in *; split; try done; lia.
Qed.

Lemma error_depth sp e sp' :
  error sp = Some (e, sp') →
  (e = DEPTH_ERROR ↔ max_depth (parser sp') ≤ depth sp').
Proof.
  intros Hs. run_methods.
  all: repeat match goal with
         | Hle : (_ <=? _) = true |- _ => apply Z.leb_le in Hle
         | Hle : (_ <=? _) = false |- _ => apply Z.leb_gt in Hle
         end.
  all: simpl; split; (done || lia).
Qed.

Lemma run_depth_error_iff fuel l sp e sp' :
  run fuel l sp = Returned e sp' →
  Z.of_nat (length (containing_scope (parser sp))) ≤ max_depth (parser sp) →
  l = L.error ∨ depth sp < max_depth (parser sp) →
  (e = DEPTH_ERROR ↔ max_depth (parser sp') ≤ depth sp').
Proof.
  revert l sp. induction fuel as [|fuel IH]; intros l sp Hr Hcap Hl; [done|].
  simpl in Hr. destruct (step l sp) as [[[l'|e'] sp1]|] eqn:Hs; [| |done].
  - pose proof (step_same_layout _ _ _ _ Hs) as Hlay.
    assert (depth sp < max_depth (parser sp)) as Hlt.
    { destruct Hl as [->|Hl]; [|done]. by apply step_goto_frame in Hs as (_ & _ & _ & ?). }
    pose proof (step_depth_bound _ _ _ _ Hs Hcap Hlt) as Hb.
    unfold same_layout in Hlay. destruct_and!.
    eapply IH; [done|lia|done].
  - injection Hr as -> ->.
    destruct l; simpl in Hs; try (by run_methods).
    + apply bind_Some in Hs as (e1 & sp2 & Hf & Hs). apply ret_Some in Hs as [[= <-] <-].
      destruct (finish_depth _ _ _ Hf Hcap) as [Hne Hlt]. split; [done|lia].
    + apply bind_Some in Hs as (e1 & sp2 & Hf & Hs). apply ret_Some in Hs as [[= <-] <-].
      by eapply error_depth.
Qed.

(** X2. [DEPTH_ERROR] is returned exactly when the depth limit has been
    reached: of the calls that return an error other than [EMPTY] (the scope
    stack having at most [max_depth] entries), those that return
    [DEPTH_ERROR] end with [depth >= max_depth], and all others end with
    [depth < max_depth]. *)
Theorem depth_error_exactly_at_limit STREAMING dom_parser doc0 e sp' :
  parse_structurals STREAMING dom_parser doc0 = Returned e sp' →
  Z.of_nat (length (containing_scope dom_parser)) ≤ max_depth dom_parser →
  e ≠ SUCCESS → e ≠ EMPTY →
  (e = DEPTH_ERROR ↔ max_depth dom_parser ≤ depth sp').
Proof.
  intros Hp Hcap Hne1 Hne2.
  pose proof Hp as Hp'.
  apply parse_structurals_inv in Hp as [(sp1 & l & sp2 & Hst & Hr & Hrun & _)|(Hst & He & _)].
  - pose proof (start_cases _ _ _ _ Hst) as [Hl1 [[_ Hlt]|[?|?]]]; [|done..].
    pose proof (read_first_value_same_layout _ _ _ _ Hr) as Hl2.
    pose proof (run_same_layout _ _ _ _ _ Hrun) as Hl3.
    pose proof (read_first_value_depth_bound _ _ _ _ Hr Hlt) as Hb.
    unfold same_layout in *. destruct_and!. simpl in *.
    replace (max_depth dom_parser) with (max_depth (parser sp')) by congruence.
    eapply run_depth_error_iff; [done|lia|done].
  - destruct He as [->| ->]; [done|]. split; [intros _|done].
    clear Hp'. run_methods.
    all: repeat match goal with
           | Hle : (_ <=? _) = true |- _ => apply Z.leb_le in Hle
           end.
    all: simpl in *; lia.
Qed.

(** ** The string buffer *)

Lemma string_buf_extends_refl sp : string_buf_extends sp sp.
Proof. by split. Qed.

Lemma string_buf_extends_trans sp1 sp2 sp3 :
  string_buf_extends sp1 sp2 → string_buf_extends sp2 sp3 → string_buf_extends sp1 sp3.
Proof.
  intros [Hc1 Hb1] [Hc2 Hb2]. split; [lia|].
  intros i Hi. rewrite Hb2 by lia. by apply Hb1.
Qed.

Ltac below_cursor :=
  intros;
  repeat first
    [ erewrite load_store_ne by (eassumption || lia)
    | erewrite load_store_bytes by eassumption; case_decide; [lia|] ];
  reflexivity.

Lemma step_string_buf l sp nx sp' :
  step l sp = Some (nx, sp') → string_buf_extends sp sp'.
Proof.
  intros Hs. destruct l; run_methods.
  all: split; simpl; [lia|below_cursor].
Qed.

Lemma read_first_value_string_buf STREAMING sp nx sp' :
  read_first_value STREAMING sp = Some (nx, sp') → string_buf_extends sp sp'.
Proof.
  intros Hs. run_methods.
  all: split; simpl; [lia|below_cursor].
Qed.

Lemma run_string_buf fuel l sp e sp' :
  run fuel l sp = Returned e sp' →
  ∀ x, x ∈ trace fuel l sp → string_buf_extends x.2 sp'.
Proof.
  revert l sp. induction fuel as [|fuel IH]; intros l sp Hr x Hx; [done|].
  simpl in Hr, Hx. destruct (step l sp) as [[[l'|e'] sp1]|] eqn:Hs; [| |done].
  - apply elem_of_cons in Hx as [->|Hx]; [|by eapply IH].
    eapply string_buf_extends_trans; [by eapply step_string_buf|].
    destruct fuel as [|fuel]; [done|].
    eapply (IH _ _ Hr (l', sp1)). simpl. apply elem_of_cons. by left.
  - injection Hr as -> ->.
    apply elem_of_cons in Hx as [->|Hx]; [|by apply elem_of_nil in Hx].
    by eapply step_string_buf.
Qed.

(** X3. The string buffer is only ever appended to.  Whatever a call has
    written below the string cursor by the time a block is entered is still
    there when the call returns, and the cursor never moves back: no string
    is overwritten by a later one. *)
Theorem string_buf_append_only STREAMING dom_parser doc0 e sp' :
  parse_structurals STREAMING dom_parser doc0 = Returned e sp' →
  ∀ sp, sp ∈ parse_states STREAMING dom_parser doc0 → string_buf_extends sp sp'.
Proof.
  intros Hp sp Hsp. unfold parse_states in Hsp.
  apply parse_structurals_inv in Hp as [(sp1 & l & sp2 & Hst & Hr & Hrun & Htr)|(Hst & He & Htr)].
  - rewrite Hst, Htr in Hsp.
    assert (string_buf_extends sp2 sp') as H2.
    { destruct (fuel_for sp2) as [|fuel] eqn:Hf; [done|].
      apply (run_string_buf _ _ _ _ _ Hrun (l, sp2)). simpl. apply elem_of_cons. by left. }
    apply elem_of_cons in Hsp as [->|Hsp].
    + eapply string_buf_extends_trans; [by eapply read_first_value_string_buf|done].
    + apply list_elem_of_fmap in Hsp as (x & -> & Hx). by eapply run_string_buf.
  - rewrite Hst, Htr in Hsp. destruct He as [->| ->]; [by apply elem_of_nil in Hsp|].
    apply elem_of_cons in Hsp as [->|Hsp]; [|by apply elem_of_nil in Hsp].
    apply string_buf_extends_refl.
Qed.

(** ** finish *)

Lemma trace_inv fuel l sp :
  inv (phase_of l) (core_of sp) →
  ∀ x, x ∈ trace fuel l sp → inv (phase_of x.1) (core_of x.2).
Proof.
  revert l sp. induction fuel as [|fuel IH]; intros l sp Hinv x Hx.
  { by apply elem_of_nil in Hx. }
  simpl in Hx. apply elem_of_cons in Hx as [->|Hx]; [done|].
  destruct (step l sp) as [[[l'|e'] sp1]|] eqn:Hs; try (by apply elem_of_nil in Hx).
  eapply IH; [|done]. by eapply step_inv.
Qed.

Lemma inv_root_depth C : inv (Holding of_root) C → k_depth C = 1.
Proof. intros (_ & _ & Hd & _). by apply Hd. Qed.

Lemma finish_at_depth_one sp e sp' :
  finish sp = Some (e, sp') → depth sp = 1 → e = SUCCESS.
Proof.
  intros Hs Hd. apply finish_spec in Hs as (sp1 & He & _ & _ & _ & Hcase).
  destruct Hcase as [(-> & _)|(_ & Hne & _)]; [done|].
  unfold end_document in He.
  destruct (end_scope_core _ _ _ _ _ He) as (sc & T1 & T2 & Hsc & Hst1 & Hst2 & Hc).
  apply (f_equal k_depth) in Hc. simpl in Hc. rewrite Hd in Hc.
  change (wrap32 (1 - 1)) with 0 in Hc. done.
Qed.

Lemma run_finish_accepts fuel l sp e sp' :
  inv (phase_of l) (core_of sp) →
  run fuel l sp = Returned e sp' →
  L.finish ∈ (trace fuel l sp).*1 → e = SUCCESS.
Proof.
  revert l sp. induction fuel as [|fuel IH]; intros l sp Hinv Hr Hin; [done|].
  simpl in Hr, Hin. destruct (step l sp) as [[[l'|e'] sp1]|] eqn:Hs; [| |done].
  - apply elem_of_cons in Hin as [Hl|Hin].
    + simpl in Hl. subst l. by apply step_goto_frame in Hs as (_ & _ & ? & _).
    + eapply IH; [|done..]. by eapply step_inv.
  - injection Hr as -> ->.
    apply elem_of_cons in Hin as [Hl|Hin]; [|by apply elem_of_nil in Hin].
    simpl in Hl. subst l. simpl in Hs.
    apply bind_Some in Hs as (e1 & sp2 & Hf & Hs). apply ret_Some in Hs as [[= <-] <-].
    eapply finish_at_depth_one; [done|]. by apply inv_root_depth in Hinv.
Qed.

(** X4. The block [finish] is only ever entered with the root scope as the
    one open scope ([depth = 1]), so that its test [depth != 0] after
    [end_document] never fires: a call that reaches [finish] returns
    [SUCCESS], and [TAPE_ERROR] is only ever reported by [error()].  (The
    tape and the scope stack together hold fewer than 2^32 entries.) *)
Theorem finish_only_accepts STREAMING dom_parser doc0 e sp' :
  parse_structurals STREAMING dom_parser doc0 = Returned e sp' →
  Z.of_nat (length (tape doc0))
    + Z.of_nat (length (containing_scope dom_parser)) < 2 ^ 32 →
  (∀ sp, (L.finish, sp) ∈ parse_trace STREAMING dom_parser doc0 → depth sp = 1)
  ∧ (L.finish ∈ (parse_trace STREAMING dom_parser doc0).*1 → e = SUCCESS).
Proof.
  intros Hp Hcap.
  apply parse_structurals_inv in Hp as [(sp1 & l & sp2 & Hst & Hr & Hrun & ->)|(Hst & He & ->)].
  - assert (inv (phase_of l) (core_of sp2)) as Hinv.
    { eapply read_first_value_inv; [|done]. eapply start_inv; [done..|]. done. }
    split.
    + intros sp Hsp. apply (trace_inv _ _ _ Hinv) in Hsp. by apply inv_root_depth in Hsp.
    + by eapply run_finish_accepts.
  - split; [by intros sp ?%elem_of_nil|by intros ?%elem_of_nil].
Qed.

(** ** end_scope *)

(** X5. [end_scope] on its own, for any open scope: with the innermost
    scope's descriptor [sc] (its reserved slot below the cursor, the cursor
    inside the tape and below 2^32 - 1), it appends the closing word, whose
    tag is [end] and whose payload is the scope's first index; it overwrites
    the reserved slot with a word whose tag is [start], whose low 32 bits
    are the index after the closing word and whose bits 32 to 55 are the
    scope's count, clamped to [0xFFFFFF]; it touches no other word of the
    tape, moves the cursor by one and decrements the depth. *)
Theorem end_scope_words (start end_ : tape_type) (sp : structural_parser)
    (sc : scope_descriptor) :
  1 ≤ depth sp < 2 ^ 32 →
  load (containing_scope (parser sp)) (depth sp - 1) = Some sc →
  0 ≤ tape_index sc < next_tape_loc sp →
  next_tape_loc sp < Z.of_nat (length (tape (doc (parser sp)))) →
  next_tape_loc sp + 1 < 2 ^ 32 →
  0 ≤ count sc →
  ∃ sp' w w',
    end_scope start end_ sp = Some (tt, sp')
    ∧ depth sp' = depth sp - 1
    ∧ next_tape_loc sp' = next_tape_loc sp + 1
    ∧ load (tape (doc (parser sp'))) (tape_index sc) = Some w
    ∧ tag_of w = tape_type_code start
    ∧ index_of w = next_tape_loc sp + 1
    ∧ count_of w = Z.min (count sc) 16777215
    ∧ load (tape (doc (parser sp'))) (next_tape_loc sp) = Some w'
    ∧ tag_of w' = tape_type_code end_
    ∧ payload_of w' = tape_index sc
    ∧ ∀ i, i ≠ tape_index sc → i ≠ next_tape_loc sp →
           load (tape (doc (parser sp'))) i = load (tape (doc (parser sp))) i.
Proof.
  intros Hd Hsc Hti Hloc Hcap Hn.
  set (T := tape (doc (parser sp))) in *.
  set (c := next_tape_loc sp) in *.
  pose proof (store_defined T c (tape_word end_ (tape_index sc)) ltac:(lia)) as Hst1.
  set (T1 := <[Z.to_nat c := tape_word end_ (tape_index sc)]> T) in *.
  pose proof (store_length _ _ _ _ Hst1) as Hl1.
  set (w := tape_word start (Z.lor (c + 1) (Z.shiftl (saturated (count sc)) 32))).
  pose proof (store_defined T1 (tape_index sc) w ltac:(lia)) as Hst2.
  set (T2 := <[Z.to_nat (tape_index sc) := w]> T1) in *.
  exists (set_parser (set_doc (set_tape T2 (doc (parser sp))) (parser sp))
            (set_next_tape_loc (c + 1) (set_depth (depth sp - 1) sp))),
    w, (tape_word end_ (tape_index sc)).
  assert (0 ≤ saturated (count sc) < 2 ^ 24) by (by apply saturated_range).
  split_and!; simpl; try done.
  - unfold end_scope, tape_append, tape_write, next_tape_index, bind, get, modify, lift, ret.
    simpl. rewrite (wrap32_small (depth sp - 1)) by lia. rewrite Hsc. simpl.
    fold T c. rewrite Hst1. simpl. fold c. rewrite (wrap32_small (c + 1)) by lia.
    rewrite saturated_spec. fold w. rewrite Hst2. reflexivity.
  - by eapply load_store_eq.
  - apply tag_of_tape_word.
  - apply index_of_tape_word; lia.
  - unfold w. rewrite count_of_tape_word by lia. done.
  - rewrite (load_store_ne _ _ _ _ _ Hst2) by lia. by eapply load_store_eq.
  - apply tag_of_tape_word.
  - rewrite payload_of_tape_word. apply Z.mod_small. lia.
  - intros i Hi1 Hi2. rewrite (load_store_ne _ _ _ _ _ Hst2) by lia.
    apply (load_store_ne _ _ _ _ _ Hst1). lia.
Qed.

(** ** A root number without memory *)

(** X6. When the document is a number at the root and [malloc] fails in
    [parse_root_number], the call reports [NUMBER_ERROR] (there is no code
    for the failed allocation), with only the root scope's slot reserved on
    the tape. *)
Theorem root_number_without_memory STREAMING dom_parser doc0 idx c :
  let sp0 := initial_parser STREAMING dom_parser doc0 in
  current_structural sp0 < n_structural_indexes dom_parser →
  load (structural_indexes dom_parser) (current_structural sp0) = Some idx →
  load (buf dom_parser) idx = Some c →
  c = 45 ∨ 48 ≤ c ≤ 57 →
  malloc_succeeds (wrap64 (len dom_parser + SIMDJSON_PADDING)) = false →
  1 < max_depth dom_parser →
  0 < Z.of_nat (length (containing_scope dom_parser)) →
  0 < Z.of_nat (length (ret_address dom_parser)) →
  ∃ sp', parse_structurals STREAMING dom_parser doc0 = Returned NUMBER_ERROR sp'
         ∧ parser_error (parser sp') = NUMBER_ERROR
         ∧ next_tape_loc sp' = 1
         ∧ tape (doc (parser sp')) = tape doc0.
Proof.
  intros sp0 Hnot Hidx Hc Hdigit Hmalloc Hmax Hcs Hra.
  apply is_minus_or_digit_spec in Hdigit as Hd.
  assert (c ≠ Ch.lbrace ∧ c ≠ Ch.lbracket ∧ c ≠ Ch.quote ∧ c ≠ Ch.t ∧ c ≠ Ch.f ∧ c ≠ Ch.n)
    as (H1 & H2 & H3 & H4 & H5 & H6)
    by (unfold Ch.lbrace, Ch.lbracket, Ch.quote, Ch.t, Ch.f, Ch.n; lia).
  subst sp0. unfold initial_parser, new_structural_parser in *. simpl in Hnot, Hidx.
  unfold parse_structurals, initial_parser, new_structural_parser.
  unfold start, init, start_document, start_scope, tape_skip, at_end, fail_with,
    bind, get, modify, ret, lift. simpl.
  destruct (Z.leb_spec (n_structural_indexes dom_parser)
              (if STREAMING then next_structural_index dom_parser else 0)); [lia|].
  rewrite !store_defined by (simpl; lia). simpl.
  change (wrap32 (0 + 1)) with 1.
  destruct (Z.leb_spec (max_depth dom_parser) 1); [lia|].
  unfold read_first_value, current_char, current, parse_root_number, or_error,
    bind, get, modify, ret, lift. simpl.
  rewrite Hidx. simpl. rewrite Hc. simpl.
  destruct (Z.eqb_spec c Ch.lbrace); [done|].
  destruct (Z.eqb_spec c Ch.lbracket); [done|].
  destruct (Z.eqb_spec c Ch.quote); [done|].
  destruct (Z.eqb_spec c Ch.t); [done|].
  destruct (Z.eqb_spec c Ch.f); [done|].
  destruct (Z.eqb_spec c Ch.n); [done|].
  rewrite Hd. simpl. rewrite Hmalloc. simpl.
  unfold fuel_for. rewrite Nat.add_comm. simpl.
  unfold error, current_char, current, fail_with, bind, get, modify, ret, lift. simpl.
  destruct (Z.leb_spec (max_depth dom_parser) 1); [lia|].
  simpl. rewrite Hidx. simpl. rewrite Hc. simpl.
  destruct (Z.eqb_spec c Ch.quote); [done|].
  rewrite Hd. simpl.
  eexists. split; [reflexivity|]. done.
Qed.

(** ** Halting, and what a call leaves alone *)

Lemma parse_structurals_same_layout STREAMING dom_parser doc0 e sp' :
  parse_structurals STREAMING dom_parser doc0 = Returned e sp' →
  same_layout (initial_parser STREAMING dom_parser doc0) sp'.
Proof.
  intros Hp.
  apply parse_structurals_inv in Hp as [(sp1 & l & sp2 & Hst & Hr & Hrun & _)|(Hst & _ & _)].
  - eapply same_layout_trans; [by eapply start_cases|].
    eapply same_layout_trans; [by eapply read_first_value_same_layout|].
    by eapply run_same_layout.
  - by eapply start_cases.
Qed.

(** X7. The state machine halts: a call of [parse_structurals] returns an
    error code or stops at an access outside an array, within the
    [3 * n + 4] blocks that [fuel_for] allows for [n] structural indexes.
    Every block moves the cursor over the structural indexes forward or
    jumps to one that does. *)
Theorem parse_structurals_halts STREAMING dom_parser doc0 :
  parse_structurals STREAMING dom_parser doc0 = Undefined
  ∨ ∃ e sp', parse_structurals STREAMING dom_parser doc0 = Returned e sp'.
Proof.
  destruct (parse_structurals STREAMING dom_parser doc0) as [e sp'| |] eqn:Hp.
  - right. eauto.
  - by left.
  - by apply parse_structurals_terminates in Hp.
Qed.

(** X8. A call never writes to its input and never resizes an array: on
    return the input bytes, their length, the structural indexes, their
    number and the depth limit are what they were, and the scope stack, the
    return addresses, the tape and the string buffer have kept their
    lengths. *)
Theorem parse_leaves_input_untouched STREAMING dom_parser doc0 e sp' :
  parse_structurals STREAMING dom_parser doc0 = Returned e sp' →
  buf (parser sp') = buf dom_parser
  ∧ len (parser sp') = len dom_parser
  ∧ structural_indexes (parser sp') = structural_indexes dom_parser
  ∧ n_structural_indexes (parser sp') = n_structural_indexes dom_parser
  ∧ max_depth (parser sp') = max_depth dom_parser
  ∧ length (containing_scope (parser sp')) = length (containing_scope dom_parser)
  ∧ length (ret_address (parser sp')) = length (ret_address dom_parser)
  ∧ length (tape (doc (parser sp'))) = length (tape doc0)
  ∧ length (string_buf (doc (parser sp'))) = length (string_buf doc0).
Proof. intros Hp. exact (parse_structurals_same_layout _ _ _ _ _ Hp). Qed.

End further_properties.

(** * The accepted text and its tokens *)

Section accepted_text.
Context `{collaborators}.

Lemma chain_store s RA RA' first d v os :
  store RA d v = Some RA' →
  ∀ kd p, Z.of_nat (length os) < d →
          chain s RA first kd os p → chain s RA' first kd os p.
Proof.
  intros Hst. induction os as [|o os IH]; intros kd p Hd; [done|].
  simpl in *. intros [Htop (kd' & Hl & Hc)]. split; [done|].
  exists kd'. split.
  - rewrite (load_store_ne _ _ _ _ _ Hst) by lia. done.
  - apply IH; [lia|done].
Qed.

Lemma address_of_inv kd a :
  address_of kd = a →
  (a = 0 ∧ kd = of_array) ∨ (a = 1 ∧ kd = of_root) ∨ (a = 2 ∧ kd = of_object).
Proof. intros <-. destruct kd; simpl; auto. Qed.

(** *** What each method does to the control part *)

Lemma advance_char_control sp ch sp' :
  advance_char sp = Some (ch, sp') →
  c_chars (control_of sp) (c_cursor (control_of sp) + 1) = Some ch
  ∧ control_of sp'
    = {| c_chars := c_chars (control_of sp);
         c_cursor := c_cursor (control_of sp) + 1;
         c_depth := c_depth (control_of sp);
         c_ret := c_ret (control_of sp) |}.
Proof.
  intros Hs. run_methods. split; [|done].
  unfold structural_char. simpl.
  repeat match goal with Hl : load _ _ = Some _ |- _ => rewrite Hl end. done.
Qed.

Lemma peek_next_char_control sp ch sp' :
  peek_next_char sp = Some (ch, sp') →
  c_chars (control_of sp) (c_cursor (control_of sp) + 1) = Some ch ∧ sp' = sp.
Proof.
  intros Hs. run_methods. split; [|done].
  unfold structural_char. simpl.
  repeat match goal with Hl : load _ _ = Some _ |- _ => rewrite Hl end. done.
Qed.

Lemma current_char_control sp ch sp' :
  current_char sp = Some (ch, sp') →
  c_chars (control_of sp) (c_cursor (control_of sp)) = Some ch ∧ sp' = sp.
Proof.
  intros Hs. run_methods. split; [|done].
  unfold structural_char. simpl.
  repeat match goal with Hl : load _ _ = Some _ |- _ => rewrite Hl end. done.
Qed.

Lemma increment_count_control sp u sp' :
  increment_count sp = Some (u, sp') → control_of sp' = control_of sp.
Proof. intros Hs. by run_methods. Qed.

Lemma parse_string_control key sp b sp' :
  parse_string key sp = Some (b, sp') → control_of sp' = control_of sp.
Proof. intros Hs. by run_methods. Qed.

Lemma parse_true_atom_control sp b sp' :
  parse_true_atom sp = Some (b, sp') → control_of sp' = control_of sp.
Proof. intros Hs. by run_methods. Qed.

Lemma parse_false_atom_control sp b sp' :
  parse_false_atom sp = Some (b, sp') → control_of sp' = control_of sp.
Proof. intros Hs. by run_methods. Qed.

Lemma parse_null_atom_control sp b sp' :
  parse_null_atom sp = Some (b, sp') → control_of sp' = control_of sp.
Proof. intros Hs. by run_methods. Qed.

Lemma parse_root_true_atom_control sp b sp' :
  parse_root_true_atom sp = Some (b, sp') → control_of sp' = control_of sp.
Proof. intros Hs. by run_methods. Qed.

Lemma parse_root_false_atom_control sp b sp' :
  parse_root_false_atom sp = Some (b, sp') → control_of sp' = control_of sp.
Proof. intros Hs. by run_methods. Qed.

Lemma parse_root_null_atom_control sp b sp' :
  parse_root_null_atom sp = Some (b, sp') → control_of sp' = control_of sp.
Proof. intros Hs. by run_methods. Qed.

Lemma parse_number_control sp b sp' :
  parse_number sp = Some (b, sp') → control_of sp' = control_of sp.
Proof. intros Hs. by run_methods. Qed.

Lemma parse_root_number_control sp b sp' :
  parse_root_number sp = Some (b, sp') → control_of sp' = control_of sp.
Proof. intros Hs. by run_methods. Qed.

Lemma start_scope_control continue_state sp sp' :
  start_scope continue_state sp = Some (false, sp') →
  ∃ RA',
    store (c_ret (control_of sp)) (c_depth (control_of sp)) continue_state = Some RA'
    ∧ control_of sp'
      = {| c_chars := c_chars (control_of sp);
           c_cursor := c_cursor (control_of sp);
           c_depth := wrap32 (c_depth (control_of sp) + 1);
           c_ret := RA' |}.
Proof. intros Hs. run_methods. eauto. Qed.

Lemma end_scope_control start end_ sp u sp' :
  end_scope start end_ sp = Some (u, sp') →
  control_of sp'
  = {| c_chars := c_chars (control_of sp);
       c_cursor := c_cursor (control_of sp);
       c_depth := wrap32 (c_depth (control_of sp) - 1);
       c_ret := c_ret (control_of sp) |}.
Proof. intros Hs. by run_methods. Qed.

(** *** How the readings follow one another *)

Lemma enclosed_bound K first os o :
  enclosed K first os o →
  Z.of_nat (length os) + 1 < Z.of_nat (length (c_ret K)).
Proof. intros (kd & Hl & _). apply load_Some_range in Hl. lia. Qed.

Lemma enclosed_moved K K' first os o :
  c_chars K' = c_chars K → c_ret K' = c_ret K →
  enclosed K first os o → enclosed K' first os o.
Proof. unfold enclosed. intros -> ->. done. Qed.

(** A bracket is opened where the scope of kind [kd] was waiting for a
    value. *)
Lemma enclosed_open K first kd os RA' :
  chain (c_chars K) (c_ret K) first kd os (c_cursor K) →
  c_depth K = Z.of_nat (length os) + 1 →
  Z.of_nat (length (c_ret K)) < 2 ^ 32 →
  store (c_ret K) (c_depth K) (address_of kd) = Some RA' →
  wrap32 (c_depth K + 1) = Z.of_nat (length os) + 2
  ∧ enclosed {| c_chars := c_chars K; c_cursor := c_cursor K;
                c_depth := wrap32 (c_depth K + 1); c_ret := RA' |}
      first os (c_cursor K).
Proof.
  intros Hchain Hd Hcap Hst.
  pose proof (store_Some _ _ _ _ Hst) as [Hr _].
  split; [rewrite wrap32_small; lia|].
  exists kd. simpl. split.
  - rewrite <- Hd. by eapply load_store_eq.
  - eapply chain_store; [done|lia|done].
Qed.

(** A bracket is closed: the depth goes back to that of its parent. *)
Lemma enclosed_close K first os o :
  enclosed K first os o →
  c_depth K = Z.of_nat (length os) + 2 →
  Z.of_nat (length (c_ret K)) < 2 ^ 32 →
  wrap32 (c_depth K - 1) = Z.of_nat (length os) + 1.
Proof.
  intros Henc Hd Hcap. apply enclosed_bound in Henc.
  rewrite wrap32_small; lia.
Qed.

Lemma chain_array_inv s RA first os p :
  chain s RA first of_array os p →
  ∃ o os', os = o :: os' ∧ s o = Some Ch.lbracket ∧ elements_in s (o + 1) p
           ∧ ∃ kd', load RA (Z.of_nat (length os') + 1) = Some (address_of kd')
                    ∧ chain s RA first kd' os' o.
Proof.
  destruct os as [|o os']; simpl; [by intros [? _]|].
  intros [[? ?] ?]. eauto 10.
Qed.

Lemma chain_object_inv s RA first os p :
  chain s RA first of_object os p →
  ∃ o os', os = o :: os' ∧ s o = Some Ch.lbrace ∧ members_in s (o + 1) (p - 2)
           ∧ s (p - 2) = Some Ch.quote ∧ s (p - 1) = Some Ch.colon
           ∧ ∃ kd', load RA (Z.of_nat (length os') + 1) = Some (address_of kd')
                    ∧ chain s RA first kd' os' o.
Proof.
  destruct os as [|o os']; simpl; [by intros [? _]|].
  intros [(? & ? & ? & ?) ?]. eauto 10.
Qed.

Lemma chain_root_inv s RA first os p :
  chain s RA first of_root os p → os = [] ∧ p = first.
Proof. destruct os as [|o os']; simpl; [by intros [_ ?]|by intros [[] _]]. Qed.

Lemma length_cons_Z {A : Type} (x : A) (l : list A) :
  Z.of_nat (length (x :: l)) = Z.of_nat (length l) + 1.
Proof. simpl. lia. Qed.

(** ** The tokens on the tape *)

Lemma words_for_range c : 0 ≤ words_for c ≤ 2.
Proof.
  unfold words_for. destruct (is_minus_or_digit c); [lia|].
  destruct (tag_for c); lia.
Qed.

Lemma words_at_range s a : 0 ≤ words_at s a ≤ 2.
Proof. unfold words_at. destruct (s a); [apply words_for_range|lia]. Qed.

Lemma tape_position_first s first : tape_position s first first = 1.
Proof. unfold tape_position. by rewrite Z.sub_diag. Qed.

Lemma tape_position_succ s first a :
  first ≤ a → tape_position s first (a + 1) = tape_position s first a + words_at s a.
Proof.
  intros Ha. unfold tape_position.
  replace (Z.to_nat (a + 1 - first)) with (S (Z.to_nat (a - first))) by lia.
  simpl. replace (first + Z.of_nat (Z.to_nat (a - first))) with a by lia. lia.
Qed.

Lemma tape_position_le s first a b :
  first ≤ a ≤ b →
  tape_position s first a ≤ tape_position s first b
  ≤ tape_position s first a + 2 * (b - a).
Proof.
  intros [Ha Hab].
  assert (∀ n : nat,
            tape_position s first a ≤ tape_position s first (a + Z.of_nat n)
            ≤ tape_position s first a + 2 * Z.of_nat n) as Hn.
  { induction n as [|n IH].
    - rewrite Z.add_0_r. lia.
    - replace (a + Z.of_nat (S n)) with (a + Z.of_nat n + 1) by lia.
      rewrite tape_position_succ by lia.
      pose proof (words_at_range s (a + Z.of_nat n)). lia. }
  specialize (Hn (Z.to_nat (b - a))).
  replace (a + Z.of_nat (Z.to_nat (b - a))) with b in Hn by lia. lia.
Qed.

Lemma tape_position_next s first a b :
  first ≤ a < b →
  tape_position s first a + words_at s a ≤ tape_position s first b.
Proof.
  intros Hab. rewrite <- tape_position_succ by lia.
  apply tape_position_le. lia.
Qed.

Lemma digit_tag_for c : is_minus_or_digit c = true → tag_for c = None.
Proof.
  intros Hd%is_minus_or_digit_spec.
  unfold tag_for, Ch.lbrace, Ch.rbrace, Ch.lbracket, Ch.rbracket, Ch.quote, Ch.t, Ch.f, Ch.n.
  destruct (Z.eqb_spec c 123); [lia|]. destruct (Z.eqb_spec c 125); [lia|].
  destruct (Z.eqb_spec c 91); [lia|]. destruct (Z.eqb_spec c 93); [lia|].
  destruct (Z.eqb_spec c 34); [lia|]. destruct (Z.eqb_spec c 116); [lia|].
  destruct (Z.eqb_spec c 102); [lia|]. destruct (Z.eqb_spec c 110); [lia|]. done.
Qed.

Lemma words_for_tag c t : tag_for c = Some t → words_for c = 1.
Proof.
  intros Ht. unfold words_for.
  destruct (is_minus_or_digit c) eqn:Hd; [by rewrite digit_tag_for in Ht|].
  by rewrite Ht.
Qed.

Lemma words_for_digit c : is_minus_or_digit c = true → words_for c = 2.
Proof. intros Hd. unfold words_for. by rewrite Hd. Qed.

Lemma words_at_char s a c : s a = Some c → words_at s a = words_for c.
Proof. intros Hc. unfold words_at. by rewrite Hc. Qed.

Lemma token_at_agree T T' i c :
  (∀ x, i ≤ x < i + words_for c → load T' x = load T x) →
  token_at T i c → token_at T' i c.
Proof.
  intros Hag [Htag Hnum]. split.
  - intros t Ht. destruct (Htag t Ht) as (w & Hw & Htg).
    exists w. split; [|done].
    rewrite Hag; [done|]. rewrite (words_for_tag _ _ Ht). lia.
  - intros Hd. destruct (Hnum Hd) as (t & Hnt & (w & Hw & Htg) & [raw Hraw]).
    rewrite (words_for_digit _ Hd) in Hag.
    exists t. split; [done|]. split.
    + exists w. split; [|done]. rewrite Hag; [done|lia].
    + exists raw. rewrite Hag; [done|lia].
Qed.

Lemma slots_store_above s first CS CS' st i v :
  store CS i v = Some CS' → Z.of_nat (length st) < i →
  slots s first CS st → slots s first CS' st.
Proof.
  intros Hst. induction st as [|o st IH]; [done|].
  simpl. intros Hi [(sc & Hl & Ht) Hs]. split.
  - exists sc. split; [|done]. rewrite (load_store_ne _ _ _ _ _ Hst) by lia. done.
  - apply IH; [lia|done].
Qed.

Lemma slots_store_same s first CS CS' st i sc sc' :
  load CS i = Some sc → store CS i sc' = Some CS' →
  tape_index sc' = tape_index sc →
  slots s first CS st → slots s first CS' st.
Proof.
  intros Hl Hst Hti. induction st as [|o st IH]; [done|].
  simpl. intros [(sc0 & Hl0 & Ht0) Hs]. split; [|by apply IH].
  destruct (decide (i = Z.of_nat (length st) + 1)) as [->|Hne].
  - exists sc'. split; [by eapply load_store_eq|]. congruence.
  - exists sc0. split; [|done]. by rewrite (load_store_ne _ _ _ _ _ Hst).
Qed.

(** A comma or a colon is read: nothing is written. *)
Lemma tokens_skip first st s upto C ch :
  tokens first st s upto C →
  s upto = Some ch → tag_for ch = None → is_minus_or_digit ch = false →
  tokens first st s (upto + 1) C.
Proof.
  intros (Hf & Hloc & Hroot & Hst & Hsl & Htok) Hch Htag Hd.
  assert (words_at s upto = 0) as Hw.
  { unfold words_at, words_for. by rewrite Hch, Hd, Htag. }
  refine (conj _ (conj _ (conj Hroot (conj _ (conj Hsl _))))).
  - lia.
  - rewrite tape_position_succ by lia. lia.
  - eapply Forall_impl; [done|]. simpl. intros; lia.
  - intros a c Ha Hc Hnin. destruct (decide (a = upto)) as [->|].
    + rewrite Hch in Hc. injection Hc as <-.
      split; [intros t Ht|intros Hd']; congruence.
    + apply Htok; [lia|done..].
Qed.

(** A string or an atom is read: one word is appended. *)
Lemma tokens_word first st s upto C C' ch t :
  tokens first st s upto C →
  s upto = Some ch → tag_for ch = Some t →
  pushes_word t C C' →
  tokens first st s (upto + 1) C'.
Proof.
  intros (Hf & Hloc & Hroot & Hst & Hsl & Htok) Hch Htag (w & T' & Hw & Hstore & ->).
  assert (words_at s upto = 1) as Hwa.
  { rewrite (words_at_char _ _ _ Hch). by eapply words_for_tag. }
  refine (conj _ (conj _ (conj Hroot (conj _ (conj Hsl _))))); simpl.
  - lia.
  - rewrite tape_position_succ by lia. lia.
  - eapply Forall_impl; [done|]. simpl. intros; lia.
  - intros a c Ha Hc Hnin. destruct (decide (a = upto)) as [->|].
    + rewrite Hch in Hc. injection Hc as <-. split.
      * intros t' Ht'. rewrite Htag in Ht'. injection Ht' as <-.
        exists w. split; [|done]. rewrite <- Hloc. by eapply load_store_eq.
      * intros Hd. by rewrite digit_tag_for in Htag.
    + eapply token_at_agree; [|apply Htok; [lia|done..]].
      intros x Hx. apply (load_store_ne _ _ _ _ _ Hstore).
      pose proof (tape_position_next s first a upto ltac:(lia)) as Hnext.
      rewrite (words_at_char _ _ _ Hc) in Hnext. lia.
Qed.

(** A number is read: a tag word and a raw word are appended. *)
Lemma tokens_number first st s upto C C' ch t :
  tokens first st s upto C →
  s upto = Some ch → is_minus_or_digit ch = true → number_tag t →
  pushes_number t C C' →
  tokens first st s (upto + 1) C'.
Proof.
  intros (Hf & Hloc & Hroot & Hst & Hsl & Htok) Hch Hd Hnt
    (w & raw & T1 & T2 & Hw & Hst1 & Hst2 & ->).
  assert (words_at s upto = 2) as Hwa.
  { rewrite (words_at_char _ _ _ Hch). by apply words_for_digit. }
  refine (conj _ (conj _ (conj Hroot (conj _ (conj Hsl _))))); simpl.
  - lia.
  - rewrite tape_position_succ by lia. lia.
  - eapply Forall_impl; [done|]. simpl. intros; lia.
  - intros a c Ha Hc Hnin. destruct (decide (a = upto)) as [->|].
    + rewrite Hch in Hc. injection Hc as <-. split.
      * intros t' Ht'. by rewrite digit_tag_for in Ht'.
      * intros _. exists t. split; [done|]. rewrite <- Hloc. split.
        -- exists w. split; [|done].
           rewrite (load_store_ne _ _ _ _ _ Hst2) by lia. by eapply load_store_eq.
        -- exists raw. by eapply load_store_eq.
    + eapply token_at_agree; [|apply Htok; [lia|done..]].
      intros x Hx.
      pose proof (tape_position_next s first a upto ltac:(lia)) as Hnext.
      rewrite (words_at_char _ _ _ Hc) in Hnext.
      rewrite (load_store_ne _ _ _ _ _ Hst2) by lia.
      apply (load_store_ne _ _ _ _ _ Hst1). lia.
Qed.

(** An opening bracket is read: its slot is reserved. *)
Lemma tokens_open first st s upto C ch t CS' RA' :
  tokens first st s upto C →
  s upto = Some ch → tag_for ch = Some t →
  k_depth C = Z.of_nat (length st) + 1 →
  tape_position s first upto < 2 ^ 32 →
  store (k_scope C) (k_depth C) {| tape_index := wrap32 (k_loc C); count := 0 |}
    = Some CS' →
  tokens first (upto :: st) s (upto + 1)
    {| k_tape := k_tape C; k_loc := k_loc C + 1;
       k_depth := wrap32 (k_depth C + 1); k_scope := CS'; k_ret := RA' |}.
Proof.
  intros (Hf & Hloc & (sc0 & Hsc0 & Hti0) & Hst & Hsl & Htok) Hch Htag Hd Hcap Hstore.
  assert (words_at s upto = 1) as Hwa.
  { rewrite (words_at_char _ _ _ Hch). by eapply words_for_tag. }
  pose proof (tape_position_le s first first upto ltac:(lia)) as Hpos.
  rewrite tape_position_first in Hpos.
  refine (conj _ (conj _ (conj _ (conj _ (conj _ _))))); simpl.
  - lia.
  - rewrite tape_position_succ by lia. lia.
  - exists sc0. split; [|done]. rewrite (load_store_ne _ _ _ _ _ Hstore) by lia. done.
  - apply Forall_cons. split; [lia|].
    eapply Forall_impl; [done|]. simpl. intros; lia.
  - split.
    + eexists. split; [rewrite <- Hd; by eapply load_store_eq|].
      simpl. rewrite Hloc. apply wrap32_small. lia.
    + eapply slots_store_above; [done|lia|done].
  - intros a c Ha Hc [Hne Hnin]%not_elem_of_cons.
    apply Htok; [lia|done..].
Qed.

(** A closing bracket is read: its word is appended and the slot of the
    bracket it closes is filled. *)
Lemma tokens_close first o st s upto C ch oc start end_ sc T1 T2 payload depth' :
  tokens first (o :: st) s upto C →
  s o = Some oc → tag_for oc = Some start →
  s upto = Some ch → tag_for ch = Some end_ →
  load (k_scope C) (Z.of_nat (length st) + 1) = Some sc →
  store (k_tape C) (k_loc C) (tape_word end_ (tape_index sc)) = Some T1 →
  store T1 (tape_index sc) (tape_word start payload) = Some T2 →
  tokens first st s (upto + 1)
    {| k_tape := T2; k_loc := k_loc C + 1; k_depth := depth';
       k_scope := k_scope C; k_ret := k_ret C |}.
Proof.
  intros (Hf & Hloc & Hroot & Hst & [(sc' & Hsc' & Hti) Hsl] & Htok)
    Ho Hotag Hch Htag Hsc Hst1 Hst2.
  rewrite Hsc in Hsc'. injection Hsc' as <-.
  apply Forall_cons in Hst as [Hob Hst].
  assert (words_at s upto = 1) as Hwa.
  { rewrite (words_at_char _ _ _ Hch). by eapply words_for_tag. }
  assert (words_at s o = 1) as Hwo.
  { rewrite (words_at_char _ _ _ Ho). by eapply words_for_tag. }
  pose proof (tape_position_next s first o upto ltac:(lia)) as Holt.
  refine (conj _ (conj _ (conj Hroot (conj _ (conj Hsl _))))); simpl.
  - lia.
  - rewrite tape_position_succ by lia. lia.
  - eapply Forall_impl; [done|]. simpl. intros; lia.
  - intros a c Ha Hc Hnin. destruct (decide (a = upto)) as [->|Hau].
    { rewrite Hch in Hc. injection Hc as <-. split.
      - intros t' Ht'. rewrite Htag in Ht'. injection Ht' as <-.
        eexists. split; [|apply tag_of_tape_word].
        rewrite (load_store_ne _ _ _ _ _ Hst2) by lia.
        rewrite <- Hloc. by eapply load_store_eq.
      - intros Hd. by rewrite digit_tag_for in Htag. }
    destruct (decide (a = o)) as [->|Hao].
    { rewrite Ho in Hc. injection Hc as <-. split.
      - intros t' Ht'. rewrite Hotag in Ht'. injection Ht' as <-.
        eexists. split; [|apply tag_of_tape_word].
        rewrite <- Hti. by eapply load_store_eq.
      - intros Hd. by rewrite digit_tag_for in Hotag. }
    eapply token_at_agree; [|apply Htok; [lia|done|]].
    + intros x Hx.
      pose proof (tape_position_next s first a upto ltac:(lia)) as Hnext.
      rewrite (words_at_char _ _ _ Hc) in Hnext.
      assert (x ≠ tape_index sc) as Hxo.
      { rewrite Hti. destruct (decide (a < o)).
        - pose proof (tape_position_next s first a o ltac:(lia)) as Hao'.
          rewrite (words_at_char _ _ _ Hc) in Hao'. lia.
        - pose proof (tape_position_next s first o a ltac:(lia)). lia. }
      rewrite (load_store_ne _ _ _ _ _ Hst2) by lia.
      apply (load_store_ne _ _ _ _ _ Hst1). lia.
    + by intros [?|?]%elem_of_cons.
Qed.

(** A child is counted in the innermost scope. *)
Lemma tokens_count first st s upto C i sc n CS' :
  tokens first st s upto C →
  load (k_scope C) i = Some sc →
  store (k_scope C) i {| tape_index := tape_index sc; count := n |} = Some CS' →
  tokens first st s upto
    {| k_tape := k_tape C; k_loc := k_loc C; k_depth := k_depth C;
       k_scope := CS'; k_ret := k_ret C |}.
Proof.
  intros (Hf & Hloc & (sc0 & Hsc0 & Hti0) & Hst & Hsl & Htok) Hsc Hstore.
  refine (conj Hf (conj Hloc (conj _ (conj Hst (conj _ Htok))))); simpl.
  - destruct (decide (i = 0)) as [->|].
    + eexists. split; [by eapply load_store_eq|]. simpl. congruence.
    + exists sc0. split; [|done]. by rewrite (load_store_ne _ _ _ _ _ Hstore).
  - by eapply slots_store_same.
Qed.

(** The root scope is closed. *)
Lemma tokens_finish first s upto C sc T1 T2 payload :
  tokens first [] s upto C →
  load (k_scope C) 0 = Some sc →
  store (k_tape C) (k_loc C) (tape_word ROOT (tape_index sc)) = Some T1 →
  store T1 (tape_index sc) (tape_word ROOT payload) = Some T2 →
  has_tag T2 0 ROOT
  ∧ has_tag T2 (tape_position s first upto) ROOT
  ∧ ∀ a c, first ≤ a < upto → s a = Some c →
           token_at T2 (tape_position s first a) c.
Proof.
  intros (Hf & Hloc & (sc0 & Hsc0 & Hti0) & Hst & Hsl & Htok) Hsc Hst1 Hst2.
  rewrite Hsc in Hsc0. injection Hsc0 as <-. rewrite Hti0 in *.
  pose proof (tape_position_le s first first upto ltac:(lia)) as Hpos.
  rewrite tape_position_first in Hpos.
  split_and!.
  - eexists. split; [by eapply load_store_eq|apply tag_of_tape_word].
  - eexists. split; [|apply tag_of_tape_word].
    rewrite (load_store_ne _ _ _ _ _ Hst2) by lia.
    rewrite <- Hloc. by eapply load_store_eq.
  - intros a c Ha Hc.
    eapply token_at_agree; [|apply Htok; [lia|done|apply not_elem_of_nil]].
    intros x Hx.
    pose proof (tape_position_next s first a upto ltac:(lia)) as Hnext.
    rewrite (words_at_char _ _ _ Hc) in Hnext.
    pose proof (tape_position_le s first first a ltac:(lia)) as Hpa.
    rewrite tape_position_first in Hpa.
    rewrite (load_store_ne _ _ _ _ _ Hst2) by lia.
    apply (load_store_ne _ _ _ _ _ Hst1). lia.
Qed.

(** *** What each method does to the tokens *)

Lemma structural_char_range p a :
  is_Some (structural_char p a) → 0 ≤ a < Z.of_nat (length (structural_indexes p)).
Proof.
  unfold structural_char. intros [c Hc].
  destruct (load (structural_indexes p) a) eqn:Hl; [|done].
  by apply load_Some_range in Hl.
Qed.

Lemma advance_tokens first st sp ch sp1 :
  advance_char sp = Some (ch, sp1) →
  tokens_read first st sp → tokens_before first st sp1.
Proof.
  intros Hadv Ht. pose proof (advance_char_core _ _ _ Hadv) as Hc.
  apply advance_char_control in Hadv as [_ HK].
  change (tokens first st (c_chars (control_of sp1)) (c_cursor (control_of sp1))
            (core_of sp1)).
  rewrite HK, Hc. exact Ht.
Qed.

Lemma count_tokens_before first st sp u sp' :
  increment_count sp = Some (u, sp') →
  tokens_before first st sp → tokens_before first st sp'.
Proof.
  intros Hinc Ht. pose proof (increment_count_control _ _ _ Hinc) as HK.
  apply increment_count_core in Hinc as (sc & CS' & Hsc & Hcs & HC).
  change (tokens first st (c_chars (control_of sp')) (c_cursor (control_of sp'))
            (core_of sp')).
  rewrite HK, HC. by eapply tokens_count.
Qed.

Lemma count_tokens_read first st sp u sp' :
  increment_count sp = Some (u, sp') →
  tokens_read first st sp → tokens_read first st sp'.
Proof.
  intros Hinc Ht. pose proof (increment_count_control _ _ _ Hinc) as HK.
  apply increment_count_core in Hinc as (sc & CS' & Hsc & Hcs & HC).
  change (tokens first st (c_chars (control_of sp')) (c_cursor (control_of sp') + 1)
            (core_of sp')).
  rewrite HK, HC. by eapply tokens_count.
Qed.

Lemma skip_tokens first st sp ch :
  tokens_before first st sp →
  c_chars (control_of sp) (c_cursor (control_of sp)) = Some ch →
  tag_for ch = None → is_minus_or_digit ch = false →
  tokens_read first st sp.
Proof. intros Ht Hch Htag Hd. by eapply tokens_skip. Qed.

Lemma word_tokens first st sp sp' ch t :
  tokens_before first st sp →
  c_chars (control_of sp) (c_cursor (control_of sp)) = Some ch →
  tag_for ch = Some t →
  control_of sp' = control_of sp →
  pushes_word t (core_of sp) (core_of sp') →
  tokens_read first st sp'.
Proof.
  intros Ht Hch Htag HK Hpush.
  change (tokens first st (c_chars (control_of sp')) (c_cursor (control_of sp') + 1)
            (core_of sp')).
  rewrite HK. by eapply tokens_word.
Qed.

Lemma number_tokens first st sp sp' ch :
  tokens_before first st sp →
  c_chars (control_of sp) (c_cursor (control_of sp)) = Some ch →
  is_minus_or_digit ch = true →
  control_of sp' = control_of sp →
  (∃ t, number_tag t ∧ pushes_number t (core_of sp) (core_of sp')) →
  tokens_read first st sp'.
Proof.
  intros Ht Hch Hd HK (t & Hnt & Hpush).
  change (tokens first st (c_chars (control_of sp')) (c_cursor (control_of sp') + 1)
            (core_of sp')).
  rewrite HK. by eapply tokens_number.
Qed.

Lemma open_tokens first st sp sp' ch t continue_state :
  tokens_before first st sp → short_text sp →
  c_chars (control_of sp) (c_cursor (control_of sp)) = Some ch →
  tag_for ch = Some t →
  c_depth (control_of sp) = Z.of_nat (length st) + 1 →
  start_scope continue_state sp = Some (false, sp') →
  tokens_read first (c_cursor (control_of sp) :: st) sp'.
Proof.
  intros Ht Hshort Hch Htag Hd Hs.
  pose proof (start_scope_control _ _ _ Hs) as (RA' & _ & HK).
  apply start_scope_core in Hs as (CS' & RA'' & Hcs & Hra & HC).
  change (tokens first (c_cursor (control_of sp) :: st) (c_chars (control_of sp'))
            (c_cursor (control_of sp') + 1) (core_of sp')).
  rewrite HK, HC. cbn [c_chars c_cursor].
  eapply tokens_open; [exact Ht|exact Hch|exact Htag|exact Hd| |exact Hcs].
  destruct Ht as (Hf & _).
  pose proof (structural_char_range _ _ (mk_is_Some _ _ Hch)) as Hr.
  pose proof (tape_position_le (c_chars (control_of sp)) first first
                (c_cursor (control_of sp)) ltac:(simpl; lia)) as Hpos.
  rewrite tape_position_first in Hpos.
  unfold short_text in Hshort. simpl in *. lia.
Qed.

Lemma close_tokens first o st sp sp' ch oc start end_ u :
  tokens_before first (o :: st) sp →
  c_chars (control_of sp) o = Some oc → tag_for oc = Some start →
  c_chars (control_of sp) (c_cursor (control_of sp)) = Some ch →
  tag_for ch = Some end_ →
  wrap32 (c_depth (control_of sp) - 1) = Z.of_nat (length st) + 1 →
  end_scope start end_ sp = Some (u, sp') →
  tokens_read first st sp'.
Proof.
  intros Ht Ho Hotag Hch Htag Hd Hs.
  pose proof (end_scope_control _ _ _ _ _ Hs) as HK.
  apply end_scope_core in Hs as (sc & T1 & T2 & Hsc & Hst1 & Hst2 & HC).
  change (k_depth (core_of sp)) with (c_depth (control_of sp)) in Hsc.
  rewrite Hd in Hsc.
  change (tokens first st (c_chars (control_of sp')) (c_cursor (control_of sp') + 1)
            (core_of sp')).
  rewrite HK, HC. cbn [c_chars c_cursor].
  eapply tokens_close; [exact Ht|exact Ho|exact Hotag|exact Hch|exact Htag
                       |exact Hsc|exact Hst1|exact Hst2].
Qed.

(** *** The blocks *)

(** The end of a block: [Hs] is [ret (or_error failed l) sp = Some _]. *)
Ltac block_end Hs :=
  apply ret_Some in Hs as [Hs ->];
  unfold or_error in Hs;
  repeat match type of Hs with
    | context [if ?b then _ else _] => destruct b
    end;
  injection Hs as Hs; subst; try (by left); right.

Lemma object_begin_reads first sp l' sp' st :
  Z.of_nat (length (c_ret (control_of sp))) < 2 ^ 32 →
  reading first L.object_begin (control_of sp) st →
  object_begin sp = Some (goto l', sp') →
  reads_on first st sp l' sp'.
Proof.
  intros Hcap (os & -> & Hd & Hc & Henc) Hs. unfold object_begin in Hs.
  apply bind_Some in Hs as (ch & sp1 & Hadv & Hs).
  pose proof (advance_tokens first (c_cursor (control_of sp) :: os) _ _ _ Hadv) as Htok1.
  apply advance_char_control in Hadv as [Hch HK1].
  assert (c_chars (control_of sp1) (c_cursor (control_of sp1)) = Some ch) as Hch1
    by (by rewrite HK1).
  destruct (Z.eqb_spec ch Ch.quote) as [->|_].
  { apply bind_Some in Hs as (u & sp2 & Hinc & Hs).
    apply bind_Some in Hs as (failed & sp3 & Hstr & Hs).
    destruct failed; block_end Hs.
    pose proof (count_tokens_before first (c_cursor (control_of sp) :: os) _ _ _ Hinc)
      as Htok2.
    apply increment_count_control in Hinc as HK2.
    pose proof (parse_string_control _ _ _ _ Hstr) as HK3.
    exists (c_cursor (control_of sp) :: os). split.
    - rewrite HK3, HK2, HK1. set (K := control_of sp) in *. clearbody K. simpl.
      exists (c_cursor K), os. split_and!; try done. apply members_in_nil.
    - intros Hshort Ht.
      eapply (word_tokens _ _ sp2 _ Ch.quote STRING);
        [by auto|by rewrite HK2|reflexivity|exact HK3|by eapply parse_string_core]. }
  destruct (Z.eqb_spec ch Ch.rbrace) as [->|_].
  { apply bind_Some in Hs as (u & sp2 & Hend & Hs). block_end Hs.
    pose proof (end_scope_control _ _ _ _ _ Hend) as HK2.
    exists os. split.
    - rewrite HK2, HK1. set (K := control_of sp) in *. clearbody K. simpl.
      exists (c_cursor K). split_and!.
      + by eapply enclosed_close.
      + done.
      + replace (c_cursor K + 1 + 1) with (c_cursor K + 2) by lia.
        by apply value_in_empty_object.
    - intros Hshort Ht.
      eapply (close_tokens _ _ _ sp1 _ Ch.rbrace Ch.lbrace START_OBJECT END_OBJECT);
        [by auto|by rewrite HK1|reflexivity|exact Hch1|reflexivity| |exact Hend].
      rewrite HK1. cbn [c_depth]. by eapply enclosed_close. }
  block_end Hs.
Qed.

Lemma object_continue_reads first sp l' sp' st :
  Z.of_nat (length (c_ret (control_of sp))) < 2 ^ 32 →
  reading first L.object_continue (control_of sp) st →
  object_continue sp = Some (goto l', sp') →
  reads_on first st sp l' sp'.
Proof.
  intros Hcap (o & os & b & -> & Hd & Ho & Henc & Hmem & Hkey & Hcolon & Hval) Hs.
  unfold object_continue in Hs.
  apply bind_Some in Hs as (ch & sp1 & Hadv & Hs).
  pose proof (advance_tokens first (o :: os) _ _ _ Hadv) as Htok1.
  apply advance_char_control in Hadv as [Hch HK1].
  assert (c_chars (control_of sp1) (c_cursor (control_of sp1)) = Some ch) as Hch1
    by (by rewrite HK1).
  destruct (Z.eqb_spec ch Ch.comma) as [->|_].
  { apply bind_Some in Hs as (u & sp2 & Hinc & Hs).
    apply bind_Some in Hs as (ch2 & sp3 & Hadv2 & Hs).
    pose proof (count_tokens_read first (o :: os) _ _ _ Hinc) as Htok2.
    apply increment_count_control in Hinc as HK2.
    pose proof (advance_tokens first (o :: os) _ _ _ Hadv2) as Htok3.
    apply advance_char_control in Hadv2 as [Hch2 HK3].
    assert (c_chars (control_of sp3) (c_cursor (control_of sp3)) = Some ch2) as Hch3
      by (by rewrite HK3).
    rewrite HK2, HK1 in Hch2, HK3. cbn [c_chars c_cursor c_depth c_ret] in Hch2, HK3.
    destruct (Z.eqb_spec ch2 Ch.quote) as [->|_]; [|block_end Hs]. simpl in Hs.
    apply bind_Some in Hs as (failed & sp4 & Hstr & Hs).
    destruct failed; block_end Hs.
    pose proof (parse_string_control _ _ _ _ Hstr) as HK4.
    exists (o :: os). split.
    - rewrite HK4, HK3. set (K := control_of sp) in *. clearbody K. simpl.
      exists o, os. split_and!; try done.
      by eapply members_in_snoc.
    - intros Hshort Ht.
      eapply (word_tokens _ _ sp3 _ Ch.quote STRING);
        [|exact Hch3|reflexivity|exact HK4|by eapply parse_string_core].
      apply Htok3, Htok2. eapply skip_tokens; [by apply Htok1|exact Hch1|done..]. }
  destruct (Z.eqb_spec ch Ch.rbrace) as [->|_].
  { apply bind_Some in Hs as (u & sp2 & Hend & Hs). block_end Hs.
    pose proof (end_scope_control _ _ _ _ _ Hend) as HK2.
    exists os. split.
    - rewrite HK2, HK1. set (K := control_of sp) in *. clearbody K. simpl.
      exists o. split_and!.
      + by eapply enclosed_close.
      + done.
      + by eapply value_in_object.
    - intros Hshort Ht.
      eapply (close_tokens _ _ _ sp1 _ Ch.rbrace Ch.lbrace START_OBJECT END_OBJECT);
        [by auto|by rewrite HK1|reflexivity|exact Hch1|reflexivity| |exact Hend].
      rewrite HK1. cbn [c_depth]. by eapply enclosed_close. }
  block_end Hs.
Qed.

Lemma array_begin_reads first sp l' sp' st :
  Z.of_nat (length (c_ret (control_of sp))) < 2 ^ 32 →
  reading first L.array_begin (control_of sp) st →
  array_begin sp = Some (goto l', sp') →
  reads_on first st sp l' sp'.
Proof.
  intros Hcap (os & -> & Hd & Hc & Henc) Hs. unfold array_begin in Hs.
  apply bind_Some in Hs as (ch & sp1 & Hpeek & Hs).
  apply peek_next_char_control in Hpeek as [Hch ->].
  destruct (Z.eqb_spec ch Ch.rbracket) as [->|_].
  { apply bind_Some in Hs as (ch1 & sp1 & Hadv & Hs).
    apply bind_Some in Hs as (u & sp2 & Hend & Hs). block_end Hs.
    pose proof (advance_tokens first (c_cursor (control_of sp) :: os) _ _ _ Hadv) as Htok1.
    apply advance_char_control in Hadv as [Hch1 HK1].
    rewrite Hch in Hch1. injection Hch1 as <-.
    pose proof (end_scope_control _ _ _ _ _ Hend) as HK2.
    exists os. split.
    - rewrite HK2, HK1. set (K := control_of sp) in *. clearbody K. simpl.
      exists (c_cursor K). split_and!.
      + by eapply enclosed_close.
      + done.
      + replace (c_cursor K + 1 + 1) with (c_cursor K + 2) by lia.
        by apply value_in_empty_array.
    - intros Hshort Ht.
      eapply (close_tokens _ _ _ sp1 _ Ch.rbracket Ch.lbracket START_ARRAY END_ARRAY);
        [by auto|by rewrite HK1|reflexivity|by rewrite HK1|reflexivity| |exact Hend].
      rewrite HK1. cbn [c_depth]. by eapply enclosed_close. }
  apply bind_Some in Hs as (u & sp1 & Hinc & Hs). block_end Hs.
  pose proof (count_tokens_read first (c_cursor (control_of sp) :: os) _ _ _ Hinc) as Htok1.
  apply increment_count_control in Hinc as HK1.
  exists (c_cursor (control_of sp) :: os). split.
  - rewrite HK1. set (K := control_of sp) in *. clearbody K. simpl.
    split; [lia|].
    split; [split; [done|apply elements_in_nil]|]. exact Henc.
  - intros Hshort Ht. by apply Htok1.
Qed.

Lemma array_continue_reads first sp l' sp' st :
  Z.of_nat (length (c_ret (control_of sp))) < 2 ^ 32 →
  reading first L.array_continue (control_of sp) st →
  array_continue sp = Some (goto l', sp') →
  reads_on first st sp l' sp'.
Proof.
  intros Hcap (o & os & b & -> & Hd & Ho & Henc & Hel & Hval) Hs.
  unfold array_continue in Hs.
  apply bind_Some in Hs as (ch & sp1 & Hadv & Hs).
  pose proof (advance_tokens first (o :: os) _ _ _ Hadv) as Htok1.
  apply advance_char_control in Hadv as [Hch HK1].
  assert (c_chars (control_of sp1) (c_cursor (control_of sp1)) = Some ch) as Hch1
    by (by rewrite HK1).
  destruct (Z.eqb_spec ch Ch.comma) as [->|_].
  { apply bind_Some in Hs as (u & sp2 & Hinc & Hs). block_end Hs.
    pose proof (count_tokens_read first (o :: os) _ _ _ Hinc) as Htok2.
    apply increment_count_control in Hinc as HK2.
    exists (o :: os). split.
    - rewrite HK2, HK1. set (K := control_of sp) in *. clearbody K. simpl.
      split; [lia|].
      split; [split; [done|by eapply elements_in_snoc]|]. exact Henc.
    - intros Hshort Ht. apply Htok2.
      eapply skip_tokens; [by apply Htok1|exact Hch1|done..]. }
  destruct (Z.eqb_spec ch Ch.rbracket) as [->|_].
  { apply bind_Some in Hs as (u & sp2 & Hend & Hs). block_end Hs.
    pose proof (end_scope_control _ _ _ _ _ Hend) as HK2.
    exists os. split.
    - rewrite HK2, HK1. set (K := control_of sp) in *. clearbody K. simpl.
      exists o. split_and!.
      + by eapply enclosed_close.
      + done.
      + by eapply value_in_array.
    - intros Hshort Ht.
      eapply (close_tokens _ _ _ sp1 _ Ch.rbracket Ch.lbracket START_ARRAY END_ARRAY);
        [by auto|by rewrite HK1|reflexivity|exact Hch1|reflexivity| |exact Hend].
      rewrite HK1. cbn [c_depth]. by eapply enclosed_close. }
  block_end Hs.
Qed.

Lemma scope_end_reads first sp l' sp' st :
  reading first L.scope_end (control_of sp) st →
  scope_end sp = Some (goto l', sp') →
  reads_on first st sp l' sp'.
Proof.
  intros Hinv Hs. unfold scope_end in Hs.
  apply bind_Some in Hs as (sp0 & sp1 & Hget & Hs).
  apply bind_Some in Hs as (address & sp2 & Hload & Hs).
  assert (sp0 = sp ∧ sp1 = sp ∧ sp2 = sp
          ∧ load (c_ret (control_of sp)) (c_depth (control_of sp)) = Some address)
    as (-> & -> & -> & Haddr).
  { clear Hs Hinv. run_methods. done. }
  destruct Hinv as (o & Hd & (kd & Hret & Hchain) & Hval).
  rewrite Hd, Hret in Haddr. injection Haddr as <-.
  destruct kd; simpl in Hs; block_end Hs; exists st; (split; [|done]);
    set (K := control_of sp) in *; clearbody K; simpl.
  - apply chain_root_inv in Hchain as [-> ->]. done.
  - apply chain_array_inv in Hchain as (o' & os' & -> & Ho' & Hel & Hparent).
    exists o', os', o. rewrite length_cons_Z in Hd. split_and!; try done. lia.
  - apply chain_object_inv in Hchain
      as (o' & os' & -> & Ho' & Hmem & Hkey & Hcolon & Hparent).
    exists o', os', (o - 2). rewrite length_cons_Z in Hd.
    replace (o - 2 + 1) with (o - 1) by lia.
    replace (o - 2 + 2) with o by lia.
    split_and!; try done. lia.
Qed.

Lemma advance_char_short sp ch sp' :
  advance_char sp = Some (ch, sp') → short_text sp → short_text sp'.
Proof. intros Hs. unfold short_text. by run_methods. Qed.

(** The value is a scalar. *)
Lemma scalar_reading first kd K st ch :
  at_value first kd K st →
  c_chars K (c_cursor K) = Some ch → scalar_start ch →
  reading first (continue_at kd) K st.
Proof.
  intros (Hd & Hchain) Hch Hsc.
  pose proof (value_in_scalar _ _ _ Hch Hsc) as Hval.
  destruct kd; simpl.
  - apply chain_root_inv in Hchain as [-> Hfirst]. rewrite <- Hfirst. done.
  - apply chain_array_inv in Hchain as (o & os' & -> & Ho & Hel & Hparent).
    exists o, os', (c_cursor K). rewrite length_cons_Z in Hd.
    split_and!; try done. lia.
  - apply chain_object_inv in Hchain
      as (o & os' & -> & Ho & Hmem & Hkey & Hcolon & Hparent).
    exists o, os', (c_cursor K - 2). rewrite length_cons_Z in Hd.
    replace (c_cursor K - 2 + 1) with (c_cursor K - 1) by lia.
    replace (c_cursor K - 2 + 2) with (c_cursor K) by lia.
    split_and!; try done. lia.
Qed.

(** The value is an array or an object: its bracket is opened. *)
Lemma bracket_reading first kd sp sp' st :
  Z.of_nat (length (c_ret (control_of sp))) < 2 ^ 32 →
  at_value first kd (control_of sp) st →
  start_scope (address_of kd) sp = Some (false, sp') →
  (c_chars (control_of sp) (c_cursor (control_of sp)) = Some Ch.lbrace →
   reading first L.object_begin (control_of sp') (c_cursor (control_of sp) :: st))
  ∧ (c_chars (control_of sp) (c_cursor (control_of sp)) = Some Ch.lbracket →
     reading first L.array_begin (control_of sp') (c_cursor (control_of sp) :: st)).
Proof.
  intros Hcap (Hd & Hchain) (RA' & Hst & ->)%start_scope_control.
  set (K := control_of sp) in *. clearbody K.
  destruct (enclosed_open _ _ _ _ _ Hchain Hd Hcap Hst) as [Hd' Henc].
  split; intros Hch; exists st; simpl; done.
Qed.

Ltac scalar_control Hop :=
  first [ apply parse_string_control in Hop
        | apply parse_true_atom_control in Hop
        | apply parse_false_atom_control in Hop
        | apply parse_null_atom_control in Hop
        | apply parse_root_true_atom_control in Hop
        | apply parse_root_false_atom_control in Hop
        | apply parse_root_null_atom_control in Hop
        | apply parse_number_control in Hop
        | apply parse_root_number_control in Hop ].

(** The branches of a value [switch]: the cursor is on the first structural
    of the value in the state [spv], where [Hat] and [Hch] hold; [Htok] and
    [Hsh] lead from the entry of the block to [spv]. *)
Ltac scalar_branch Hs Hat Hch Htok st :=
  let failed := fresh "failed" in
  let sp := fresh "sp" in
  let Hop := fresh "Hop" in
  let HK := fresh "HK" in
  let Hshort := fresh "Hshort" in
  let Ht := fresh "Ht" in
  apply bind_Some in Hs as (failed & sp & Hop & Hs);
  destruct failed; block_end Hs;
  pose proof Hop as HK; scalar_control HK;
  exists st; split;
  [ rewrite HK; eapply (scalar_reading _ _ _ _ _ Hat Hch);
    unfold scalar_start; auto 6
  | intros Hshort Ht; apply Htok in Ht;
    first
      [ eapply word_tokens; [exact Ht|exact Hch|reflexivity|exact HK|];
        first [ by eapply parse_string_core
              | by eapply parse_true_atom_core
              | by eapply parse_false_atom_core
              | by eapply parse_null_atom_core
              | by eapply parse_root_true_atom_core
              | by eapply parse_root_false_atom_core
              | by eapply parse_root_null_atom_core ]
      | eapply number_tokens; [exact Ht|exact Hch|assumption|exact HK|];
        first [ by eapply parse_number_core
              | by eapply parse_root_number_core ] ] ].

Ltac bracket_branch Hs Hcap Hat Hch Htok Hsh spv st :=
  let failed := fresh "failed" in
  let sp := fresh "sp" in
  let Hop := fresh "Hop" in
  let Hshort := fresh "Hshort" in
  let Ht := fresh "Ht" in
  apply bind_Some in Hs as (failed & sp & Hop & Hs);
  destruct failed; block_end Hs;
  exists (c_cursor (control_of spv) :: st); split;
  [ first [ exact (proj1 (bracket_reading _ _ _ _ _ Hcap Hat Hop) Hch)
          | exact (proj2 (bracket_reading _ _ _ _ _ Hcap Hat Hop) Hch) ]
  | intros Hshort Ht;
    eapply open_tokens;
    [exact (Htok Ht)|exact (Hsh Hshort)|exact Hch|reflexivity|exact (proj1 Hat)|exact Hop] ].

Lemma main_array_switch_reads first sp l' sp' st :
  Z.of_nat (length (c_ret (control_of sp))) < 2 ^ 32 →
  reading first L.main_array_switch (control_of sp) st →
  main_array_switch sp = Some (goto l', sp') →
  reads_on first st sp l' sp'.
Proof.
  intros Hcap (Hd & Hchain) Hs. unfold main_array_switch in Hs.
  apply bind_Some in Hs as (ch & sp1 & Hadv & Hs).
  pose proof (advance_tokens first st _ _ _ Hadv) as Htok.
  pose proof (advance_char_short _ _ _ Hadv) as Hsh.
  apply advance_char_control in Hadv as [Hch HK1].
  assert (at_value first of_array (control_of sp1) st) as Hat.
  { rewrite HK1. by split. }
  assert (c_chars (control_of sp1) (c_cursor (control_of sp1)) = Some ch) as Hch1.
  { by rewrite HK1. }
  assert (Z.of_nat (length (c_ret (control_of sp1))) < 2 ^ 32) as Hcap1.
  { by rewrite HK1. }
  clear Hd Hchain Hch HK1 Hcap.
  destruct (Z.eqb_spec ch Ch.lbrace) as [->|_];
    [bracket_branch Hs Hcap1 Hat Hch1 Htok Hsh sp1 st|].
  destruct (Z.eqb_spec ch Ch.lbracket) as [->|_];
    [bracket_branch Hs Hcap1 Hat Hch1 Htok Hsh sp1 st|].
  destruct (Z.eqb_spec ch Ch.quote) as [->|_]; [scalar_branch Hs Hat Hch1 Htok st|].
  destruct (Z.eqb_spec ch Ch.t) as [->|_]; [scalar_branch Hs Hat Hch1 Htok st|].
  destruct (Z.eqb_spec ch Ch.f) as [->|_]; [scalar_branch Hs Hat Hch1 Htok st|].
  destruct (Z.eqb_spec ch Ch.n) as [->|_]; [scalar_branch Hs Hat Hch1 Htok st|].
  destruct (is_minus_or_digit ch) eqn:Hdigit; [scalar_branch Hs Hat Hch1 Htok st|].
  block_end Hs.
Qed.

Lemma object_key_state_reads first sp l' sp' st :
  Z.of_nat (length (c_ret (control_of sp))) < 2 ^ 32 →
  reading first L.object_key_state (control_of sp) st →
  object_key_state sp = Some (goto l', sp') →
  reads_on first st sp l' sp'.
Proof.
  intros Hcap (o & os & -> & Hd & Ho & Henc & Hmem & Hkey) Hs.
  unfold object_key_state in Hs.
  apply bind_Some in Hs as (ch0 & sp0 & Hadv0 & Hs).
  pose proof (advance_tokens first (o :: os) _ _ _ Hadv0) as Htok0.
  pose proof (advance_char_short _ _ _ Hadv0) as Hsh0.
  apply advance_char_control in Hadv0 as [Hch0 HK0].
  assert (c_chars (control_of sp0) (c_cursor (control_of sp0)) = Some ch0) as Hch0'
    by (by rewrite HK0).
  destruct (Z.eqb_spec ch0 Ch.colon) as [->|_]; [|block_end Hs]. simpl in Hs.
  apply bind_Some in Hs as (ch & sp1 & Hadv & Hs).
  pose proof (advance_tokens first (o :: os) _ _ _ Hadv) as Htok1.
  pose proof (advance_char_short _ _ _ Hadv) as Hsh1.
  apply advance_char_control in Hadv as [Hch HK1].
  assert (c_chars (control_of sp1) (c_cursor (control_of sp1)) = Some ch) as Hch1.
  { by rewrite HK1. }
  rewrite HK0 in Hch, HK1. cbn [c_chars c_cursor c_depth c_ret] in Hch, HK1.
  assert (at_value first of_object (control_of sp1) (o :: os)) as Hat.
  { rewrite HK1. split; cbn [c_chars c_cursor c_depth c_ret]; [rewrite length_cons_Z; lia|].
    set (K := control_of sp) in *. clearbody K. simpl.
    replace (c_cursor K + 1 + 1 - 2) with (c_cursor K) by lia.
    replace (c_cursor K + 1 + 1 - 1) with (c_cursor K + 1) by lia.
    split; [done|]. exact Henc. }
  assert (Z.of_nat (length (c_ret (control_of sp1))) < 2 ^ 32) as Hcap1.
  { by rewrite HK1. }
  assert (tokens_read first (o :: os) sp → tokens_before first (o :: os) sp1) as Htok.
  { intros Ht. apply Htok1. eapply skip_tokens; [by apply Htok0|exact Hch0'|done..]. }
  assert (short_text sp → short_text sp1) as Hsh by auto.
  clear Hd Ho Henc Hmem Hkey Hch0 HK0 Hch HK1 Hcap Htok0 Htok1 Hsh0 Hsh1 Hch0'.
  destruct (Z.eqb_spec ch Ch.lbrace) as [->|_];
    [bracket_branch Hs Hcap1 Hat Hch1 Htok Hsh sp1 (o :: os)|].
  destruct (Z.eqb_spec ch Ch.lbracket) as [->|_];
    [bracket_branch Hs Hcap1 Hat Hch1 Htok Hsh sp1 (o :: os)|].
  destruct (Z.eqb_spec ch Ch.quote) as [->|_]; [scalar_branch Hs Hat Hch1 Htok (o :: os)|].
  destruct (Z.eqb_spec ch Ch.t) as [->|_]; [scalar_branch Hs Hat Hch1 Htok (o :: os)|].
  destruct (Z.eqb_spec ch Ch.f) as [->|_]; [scalar_branch Hs Hat Hch1 Htok (o :: os)|].
  destruct (Z.eqb_spec ch Ch.n) as [->|_]; [scalar_branch Hs Hat Hch1 Htok (o :: os)|].
  destruct (is_minus_or_digit ch) eqn:Hdigit; [scalar_branch Hs Hat Hch1 Htok (o :: os)|].
  block_end Hs.
Qed.

Lemma read_first_value_reads STREAMING first sp l' sp' :
  Z.of_nat (length (c_ret (control_of sp))) < 2 ^ 32 →
  c_depth (control_of sp) = 1 → c_cursor (control_of sp) = first →
  read_first_value STREAMING sp = Some (goto l', sp') →
  l' = L.error
  ∨ ∃ st', reading first l' (control_of sp') st'
           ∧ (short_text sp → tokens_before first [] sp → tokens_read first st' sp').
Proof.
  intros Hcap Hd Hfirst Hs. unfold read_first_value in Hs.
  apply bind_Some in Hs as (ch & sp1 & Hcur & Hs).
  apply current_char_control in Hcur as [Hch1 ->].
  assert (at_value first of_root (control_of sp) []) as Hat.
  { split; [done|]. simpl. done. }
  assert (tokens_before first [] sp → tokens_before first [] sp) as Htok by done.
  assert (short_text sp → short_text sp) as Hsh by done.
  destruct (Z.eqb_spec ch Ch.lbrace) as [->|_];
    [bracket_branch Hs Hcap Hat Hch1 Htok Hsh sp (@nil Z)|].
  destruct (Z.eqb_spec ch Ch.lbracket) as [->|_].
  { apply bind_Some in Hs as (failed & sp1 & Hop & Hs).
    destruct failed; [block_end Hs|].
    pose proof (proj2 (bracket_reading _ _ _ _ _ Hcap Hat Hop) Hch1) as Hfresh.
    assert (short_text sp → tokens_before first [] sp →
            tokens_read first [c_cursor (control_of sp)] sp1) as Hopen.
    { intros Hshort Ht.
      eapply open_tokens; [exact Ht|exact Hshort|exact Hch1|reflexivity|exact (proj1 Hat)
                          |exact Hop]. }
    destruct (negb STREAMING).
    - apply bind_Some in Hs as (sp2 & sp3 & Hget & Hs).
      apply bind_Some in Hs as (idx & sp4 & Hidx & Hs).
      apply bind_Some in Hs as (last & sp5 & Hlast & Hs).
      assert (sp3 = sp1 ∧ sp4 = sp1 ∧ sp5 = sp1) as (-> & -> & ->).
      { clear Hs Hfresh Hop Hat Hopen. run_methods. done. }
      destruct (negb _); block_end Hs. eauto.
    - block_end Hs. eauto. }
  destruct (Z.eqb_spec ch Ch.quote) as [->|_]; [scalar_branch Hs Hat Hch1 Htok (@nil Z)|].
  destruct (Z.eqb_spec ch Ch.t) as [->|_]; [scalar_branch Hs Hat Hch1 Htok (@nil Z)|].
  destruct (Z.eqb_spec ch Ch.f) as [->|_]; [scalar_branch Hs Hat Hch1 Htok (@nil Z)|].
  destruct (Z.eqb_spec ch Ch.n) as [->|_]; [scalar_branch Hs Hat Hch1 Htok (@nil Z)|].
  destruct (is_minus_or_digit ch) eqn:Hdigit; [scalar_branch Hs Hat Hch1 Htok (@nil Z)|].
  block_end Hs.
Qed.

Lemma step_reads first l sp l' sp' st :
  Z.of_nat (length (c_ret (control_of sp))) < 2 ^ 32 →
  reading first l (control_of sp) st →
  step l sp = Some (goto l', sp') →
  reads_on first st sp l' sp'.
Proof.
  intros Hcap. destruct l; simpl.
  - by apply object_begin_reads.
  - by apply object_key_state_reads.
  - by apply object_continue_reads.
  - apply scope_end_reads.
  - by apply array_begin_reads.
  - by apply main_array_switch_reads.
  - by apply array_continue_reads.
  - intros _ Hs. apply bind_Some in Hs as (e & sp1 & _ & Hs). by apply ret_Some in Hs as [? _].
  - intros _ Hs. apply bind_Some in Hs as (e & sp1 & _ & Hs). by apply ret_Some in Hs as [? _].
Qed.

(** *** The whole call *)

Lemma structural_char_same_layout sp sp' :
  same_layout sp sp' → structural_char (parser sp') = structural_char (parser sp).
Proof.
  intros (Hbuf & _ & Hsi & _). unfold structural_char. by rewrite Hbuf, Hsi.
Qed.

Lemma short_text_same_layout sp sp' :
  same_layout sp sp' → short_text sp → short_text sp'.
Proof. intros (_ & _ & Hsi & _). unfold short_text. by rewrite Hsi. Qed.

Lemma value_in_last s a b : value_in s a b → is_Some (s (b - 1)).
Proof.
  destruct 1.
  - replace (a + 1 - 1) with a by lia. eauto.
  - replace (a + 2 - 1) with (a + 1) by lia. eauto.
  - replace (c + 1 - 1) with c by lia. eauto.
  - replace (a + 2 - 1) with (a + 1) by lia. eauto.
  - replace (c + 1 - 1) with c by lia. eauto.
Qed.

Lemma step_return l sp e sp' :
  step l sp = Some (return_ e, sp') → l = L.finish ∨ l = L.error.
Proof. intros Hs. destruct l; run_methods; auto. Qed.

Lemma run_error_fails fuel sp e sp' :
  run fuel L.error sp = Returned e sp' → e ≠ SUCCESS.
Proof.
  destruct fuel as [|fuel]; [done|]. simpl. unfold bind, ret.
  destruct (error sp) as [[e1 sp1]|] eqn:He; [|done].
  intros [= <- <-]. by apply error_frame in He as [? _].
Qed.

Lemma finish_tokens first sp sp' :
  c_depth (control_of sp) = 1 →
  finish sp = Some (SUCCESS, sp') →
  tokens_read first [] sp →
  token_list first (structural_char (parser sp)) (current_structural sp' + 1)
    (tape (doc (parser sp'))) (next_tape_loc sp').
Proof.
  intros Hd Hf Ht.
  pose proof (finish_spec _ _ _ Hf) as (sp0 & _ & _ & Hc & _).
  apply finish_core in Hf as (sp1 & He & Hcore).
  unfold end_document in He.
  destruct (end_scope_core _ _ _ _ _ He) as (sc & T1 & T2 & Hsc & Hst1 & Hst2 & HC).
  change (k_depth (core_of sp)) with (c_depth (control_of sp)) in Hsc.
  rewrite Hd in Hsc. change (wrap32 (1 - 1)) with 0 in Hsc.
  destruct (tokens_finish _ _ _ _ _ _ _ _ Ht Hsc Hst1 Hst2) as (H0 & Hend & Hall).
  destruct Ht as (_ & Hloc & _).
  rewrite HC in Hcore.
  replace (tape (doc (parser sp'))) with (k_tape (core_of sp')) by done.
  replace (next_tape_loc sp') with (k_loc (core_of sp')) by done.
  rewrite Hcore, Hc. cbn [k_tape k_loc].
  refine (conj H0 (conj _ (conj Hend Hall))). by rewrite Hloc.
Qed.

Lemma run_reads first fuel l sp sp' st :
  Z.of_nat (length (ret_address (parser sp))) < 2 ^ 32 →
  reading first l (control_of sp) st →
  run fuel l sp = Returned SUCCESS sp' →
  value_in (structural_char (parser sp)) first (current_structural sp' + 1)
  ∧ (short_text sp → tokens_read first st sp →
     token_list first (structural_char (parser sp)) (current_structural sp' + 1)
       (tape (doc (parser sp'))) (next_tape_loc sp')).
Proof.
  revert l sp st. induction fuel as [|fuel IH]; intros l sp st Hcap Hinv Hr; [done|].
  simpl in Hr. destruct (step l sp) as [[[l'|e'] sp1]|] eqn:Hs; [| |done].
  - pose proof (step_same_layout _ _ _ _ Hs) as Hlay.
    destruct (step_reads _ _ _ _ _ _ Hcap Hinv Hs) as [->|(st' & Hinv' & Htok)].
    { by apply run_error_fails in Hr. }
    rewrite <- (structural_char_same_layout _ _ Hlay).
    destruct (IH l' sp1 st') as [Hval Hlist]; [|done|done|].
    { destruct Hlay as (_ & _ & _ & _ & _ & _ & Hra & _). by rewrite Hra. }
    split; [done|]. intros Hshort Ht.
    apply Hlist; [by eapply short_text_same_layout|by apply Htok].
  - injection Hr as -> ->.
    destruct (step_return _ _ _ _ Hs) as [-> | ->]; simpl in Hs;
      apply bind_Some in Hs as (e & sp2 & Hf & Hs); apply ret_Some in Hs as [[= <-] <-].
    + destruct Hinv as (-> & Hd & Hval). split.
      * apply finish_spec in Hf as (sp1 & _ & _ & Hc & _). by rewrite Hc.
      * intros _ Ht. by eapply finish_tokens.
    + by apply error_frame in Hf as [? _].
Qed.

Lemma start_control finish_state sp sp' :
  start finish_state sp = Some (SUCCESS, sp') →
  depth sp = 0 →
  depth sp' = 1 ∧ current_structural sp' = current_structural sp.
Proof.
  intros Hs Hd. run_methods. simpl. by rewrite Hd.
Qed.

Lemma start_tokens finish_state sp sp' :
  start finish_state sp = Some (SUCCESS, sp') →
  next_tape_loc sp = 0 → depth sp = 0 → 0 ≤ current_structural sp →
  tokens_before (current_structural sp) [] sp'.
Proof.
  intros Hs Hloc Hdepth Hcur. unfold start in Hs.
  apply bind_Some in Hs as (sp0 & sp1 & Hget & Hs).
  apply bind_Some in Hs as (e & sp2 & Hend & Hs).
  destruct e; [by run_methods|].
  apply bind_Some in Hs as (u & sp3 & Hinit & Hs).
  apply bind_Some in Hs as (failed & sp4 & Hdoc & Hs).
  destruct failed; [by run_methods|]. apply ret_Some in Hs as [_ ->].
  assert (core_of sp3 = core_of sp ∧ control_of sp3 = control_of sp) as [HC3 HK3].
  { clear Hdoc. unfold_methods. by simplify_eq/=. }
  unfold start_document in Hdoc.
  pose proof (start_scope_control _ _ _ Hdoc) as (RA' & _ & HK).
  apply start_scope_core in Hdoc as (CS' & RA'' & Hcs & Hra & HC).
  rewrite HC3 in Hcs, HC. rewrite HK3 in HK.
  change (tokens (current_structural sp) [] (c_chars (control_of sp4))
            (c_cursor (control_of sp4)) (core_of sp4)).
  rewrite HK, HC. cbn [c_chars c_cursor].
  simpl in Hcs. rewrite Hloc, Hdepth in Hcs.
  refine (conj _ (conj _ (conj _ (conj _ (conj _ _))))); simpl.
  - lia.
  - rewrite tape_position_first, Hloc. done.
  - eexists. split; [by eapply load_store_eq|]. done.
  - constructor.
  - done.
  - intros a c Ha. lia.
Qed.

(** After an accepted parse the structurals from the first one to the
    current one are one JSON value, and the tape lists their tokens. *)
Lemma accepted_reads STREAMING dom_parser doc0 sp' :
  parse_structurals STREAMING dom_parser doc0 = Returned SUCCESS sp' →
  Z.of_nat (length (ret_address dom_parser)) < 2 ^ 32 →
  let first := if STREAMING then next_structural_index dom_parser else 0 in
  value_in (structural_char dom_parser) first (current_structural sp' + 1)
  ∧ (2 * Z.of_nat (length (structural_indexes dom_parser)) + 2 < 2 ^ 32 →
     token_list first (structural_char dom_parser) (current_structural sp' + 1)
       (tape (doc (parser sp'))) (next_tape_loc sp')).
Proof.
  intros Hp Hcap first.
  apply parse_structurals_inv in Hp as [(sp1 & l & sp2 & Hst & Hr & Hrun & _)|(_ & [?|?] & _)];
    [|done..].
  pose proof (proj1 (start_cases _ _ _ _ Hst)) as Hl1.
  pose proof (read_first_value_same_layout _ _ _ _ Hr) as Hl2.
  pose proof (start_control _ _ _ Hst eq_refl) as [Hd Hc].
  change (current_structural (initial_parser STREAMING dom_parser doc0)) with first in Hc.
  pose proof (read_first_value_tape_cursor _ _ _ _ Hr) as (_ & _ & Hfirst).
  rewrite Hc in Hfirst.
  pose proof (start_tokens _ _ _ Hst eq_refl eq_refl) as Htok0.
  change (current_structural (initial_parser STREAMING dom_parser doc0)) with first in Htok0.
  assert (Z.of_nat (length (ret_address (parser sp1))) < 2 ^ 32) as Hcap1.
  { destruct Hl1 as (_ & _ & _ & _ & _ & _ & Hra & _). by rewrite Hra. }
  assert (Z.of_nat (length (ret_address (parser sp2))) < 2 ^ 32) as Hcap2.
  { destruct Hl2 as (_ & _ & _ & _ & _ & _ & Hra & _). by rewrite Hra. }
  destruct (read_first_value_reads _ _ _ _ _ Hcap1 Hd Hc Hr) as [->|(st & Hinv & Htok1)].
  { by apply run_error_fails in Hrun. }
  destruct (run_reads _ _ _ _ _ _ Hcap2 Hinv Hrun) as [Hval Hlist].
  rewrite (structural_char_same_layout _ _ Hl2) in Hval, Hlist.
  rewrite (structural_char_same_layout _ _ Hl1) in Hval, Hlist.
  split; [exact Hval|]. intros Hshort.
  assert (short_text sp1) as Hshort1.
  { eapply short_text_same_layout; [exact Hl1|]. exact Hshort. }
  apply Hlist.
  - by eapply short_text_same_layout.
  - apply Htok1; [done|]. apply Htok0. lia.
Qed.

Lemma accepted_next_structural_index STREAMING dom_parser doc0 sp' :
  parse_structurals STREAMING dom_parser doc0 = Returned SUCCESS sp' →
  next_structural_index (parser sp') = wrap32 (current_structural sp' + 1).
Proof.
  intros Hp.
  apply parse_structurals_inv in Hp as [(sp1 & l & sp2 & Hst & Hr & Hrun & _)|(_ & [?|?] & _)];
    [|done..].
  pose proof (run_frame _ _ _ _ _ Hrun) as (_ & _ & Hin & _).
  apply Hin. by eapply run_success_finish.
Qed.

Lemma accepted_cursor STREAMING dom_parser doc0 sp' :
  parse_structurals STREAMING dom_parser doc0 = Returned SUCCESS sp' →
  Z.of_nat (length (ret_address dom_parser)) < 2 ^ 32 →
  Z.of_nat (length (structural_indexes dom_parser)) < 2 ^ 32 →
  next_structural_index (parser sp') = current_structural sp' + 1.
Proof.
  intros Hp Hra Hsi.
  pose proof (proj1 (accepted_reads _ _ _ _ Hp Hra)) as Hval.
  pose proof (accepted_next_structural_index _ _ _ _ Hp) as Hn.
  pose proof (structural_char_range _ _ (value_in_last _ _ _ Hval)) as Hc.
  rewrite wrap32_small in Hn by lia. done.
Qed.

Lemma accepted_text_extent STREAMING dom_parser doc0 sp' :
  parse_structurals STREAMING dom_parser doc0 = Returned SUCCESS sp' →
  Z.of_nat (length (ret_address dom_parser)) < 2 ^ 32 →
  Z.of_nat (length (structural_indexes dom_parser)) < 2 ^ 32 →
  next_structural_index (parser sp') = current_structural sp' + 1
  ∧ value_in (structural_char dom_parser)
      (if STREAMING then next_structural_index dom_parser else 0)
      (next_structural_index (parser sp')).
Proof.
  intros Hp Hra Hsi.
  pose proof (accepted_cursor _ _ _ _ Hp Hra Hsi) as Hn.
  split; [done|]. rewrite Hn. exact (proj1 (accepted_reads _ _ _ _ Hp Hra)).
Qed.

(** X9. An accepted text is one JSON value.  After [SUCCESS] (the array of
    return addresses and the array of structural indexes each shorter than
    2^32), the structural bytes from the first one read up to, not
    including, [next_structural_index] are one value of the JSON grammar:
    brackets pair up, array elements are separated by commas, object members
    are a string, a colon and a value, separated by commas; and
    [next_structural_index] is the index after the last structural read. *)
Theorem accepted_text_is_one_value STREAMING dom_parser doc0 sp' :
  parse_structurals STREAMING dom_parser doc0 = Returned SUCCESS sp' →
  Z.of_nat (length (ret_address dom_parser)) < 2 ^ 32 →
  Z.of_nat (length (structural_indexes dom_parser)) < 2 ^ 32 →
  next_structural_index (parser sp') = current_structural sp' + 1
  ∧ value_in (structural_char dom_parser)
      (if STREAMING then next_structural_index dom_parser else 0)
      (next_structural_index (parser sp')).
Proof. apply accepted_text_extent. Qed.

(** X10. Streaming calls parse consecutive values.  When a streaming call
    succeeds and a second streaming call on the same parser succeeds too,
    the first has read one JSON value starting at the structural where the
    parser stood, and the second one JSON value starting where the first
    stopped. *)
Theorem streaming_calls_parse_consecutive_values dom_parser doc1 doc2 sp1 sp2 :
  parse_structurals true dom_parser doc1 = Returned SUCCESS sp1 →
  parse_structurals true (parser sp1) doc2 = Returned SUCCESS sp2 →
  Z.of_nat (length (ret_address dom_parser)) < 2 ^ 32 →
  Z.of_nat (length (structural_indexes dom_parser)) < 2 ^ 32 →
  value_in (structural_char dom_parser)
    (next_structural_index dom_parser) (next_structural_index (parser sp1))
  ∧ value_in (structural_char dom_parser)
      (next_structural_index (parser sp1)) (next_structural_index (parser sp2)).
Proof.
  intros Hp1 Hp2 Hra Hsi.
  pose proof (parse_structurals_same_layout _ _ _ _ _ Hp1) as Hlay.
  pose proof (structural_char_same_layout _ _ Hlay) as Hs.
  destruct Hlay as (_ & _ & Hsi1 & _ & _ & _ & Hra1 & _). simpl in Hsi1, Hra1, Hs.
  split.
  - by apply (accepted_text_extent true dom_parser doc1 sp1).
  - replace (structural_char dom_parser) with (structural_char (parser sp1)).
    apply (accepted_text_extent true (parser sp1) doc2 sp2); [done|..].
    + by rewrite Hra1.
    + by rewrite Hsi1.
Qed.

(** X11. The tape lists the tokens of the text in order.  After [SUCCESS]
    (fewer than 2^32 return addresses, fewer than 2^31 - 1 structural
    indexes) the tape starts with a [ROOT] word, and every structural from
    the first one read up to [next_structural_index] has its word at the
    tape index that counts the words of the structurals before it (one for
    a bracket, a string or an atom, two for a number, none for a comma or a
    colon): [START_OBJECT] or [START_ARRAY] for an opening bracket,
    [END_OBJECT] or [END_ARRAY] for a closing one, [STRING] for a double
    quote, [TRUE_VALUE], [FALSE_VALUE] or [NULL_VALUE] for [t], [f] or [n],
    and for a digit or a minus sign a word with a number tag followed by the
    raw value.  The closing [ROOT] word comes after the last of them, and
    the tape cursor is just after it. *)
Theorem tape_lists_the_tokens STREAMING dom_parser doc0 sp' :
  parse_structurals STREAMING dom_parser doc0 = Returned SUCCESS sp' →
  Z.of_nat (length (ret_address dom_parser)) < 2 ^ 32 →
  2 * Z.of_nat (length (structural_indexes dom_parser)) + 2 < 2 ^ 32 →
  token_list (if STREAMING then next_structural_index dom_parser else 0)
    (structural_char dom_parser) (next_structural_index (parser sp'))
    (tape (doc (parser sp'))) (next_tape_loc sp').
Proof.
  intros Hp Hra Hsi.
  rewrite (accepted_cursor _ _ _ _ Hp Hra) by lia.
  by apply (proj2 (accepted_reads _ _ _ _ Hp Hra)).
Qed.

End accepted_text.

(** * Well-formed texts are accepted *)

Section accepting.
Context `{collaborators}.

(** *** The blocks, run forward *)

Ltac defined_stores :=
  match goal with
  | Hs : store ?a ?i ?v = None |- _ =>
      rewrite store_defined in Hs; [discriminate|]
  | Hs : store_bytes ?a ?i ?bs = None |- _ =>
      destruct (store_bytes_defined a i bs) as [? ?]; [| |congruence]
  end.

Ltac eqb_hyps :=
  repeat match goal with
    | Hq : (_ =? _) = true |- _ => apply Z.eqb_eq in Hq
    | Hq : (_ =? _) = false |- _ => apply Z.eqb_neq in Hq
    | Hq : (_ <=? _) = true |- _ => apply Z.leb_le in Hq
    | Hq : (_ <=? _) = false |- _ => apply Z.leb_gt in Hq
    | Hq : negb _ = true |- _ => apply negb_true_iff in Hq
    | Hq : negb _ = false |- _ => apply negb_false_iff in Hq
    end.

Ltac ranges := forget_stores; load_ranges; simpl in *; lia.

Ltac impossible := exfalso; eqb_hyps; unfold Ch.lbrace, Ch.rbrace, Ch.lbracket,
  Ch.rbracket, Ch.quote, Ch.comma, Ch.colon, Ch.t, Ch.f, Ch.n in *;
  first [congruence | lia].

Lemma array_begin_more sp ch sc :
  structural_char (parser sp) (current_structural sp + 1) = Some ch →
  ch ≠ Ch.rbracket →
  load (containing_scope (parser sp)) (wrap32 (depth sp - 1)) = Some sc →
  ∃ sp' CS',
    step L.array_begin sp = Some (goto L.main_array_switch, sp')
    ∧ store (containing_scope (parser sp)) (wrap32 (depth sp - 1))
        {| tape_index := tape_index sc; count := wrap32 (count sc + 1) |} = Some CS'
    ∧ same_layout sp sp'
    ∧ fields sp' (current_structural sp) (depth sp) (next_tape_loc sp)
        (current_string_buf_loc sp) CS' (ret_address (parser sp)).
Proof.
  intros Hch Hne Hsc. unfold structural_char in Hch.
  destruct (step L.array_begin sp) as [[nx sp']|] eqn:Hs.
  - pose proof (step_same_layout _ _ _ _ Hs) as Hl.
    run_methods.
    all: try (eexists _, _; split_and!; [reflexivity|eassumption|assumption|done]).
    all: impossible.
  - exfalso. run_methods. all: first [by impossible|defined_stores; ranges].
Qed.

Lemma array_continue_comma sp sc :
  structural_char (parser sp) (current_structural sp + 1) = Some Ch.comma →
  load (containing_scope (parser sp)) (wrap32 (depth sp - 1)) = Some sc →
  ∃ sp' CS',
    step L.array_continue sp = Some (goto L.main_array_switch, sp')
    ∧ store (containing_scope (parser sp)) (wrap32 (depth sp - 1))
        {| tape_index := tape_index sc; count := wrap32 (count sc + 1) |} = Some CS'
    ∧ same_layout sp sp'
    ∧ fields sp' (current_structural sp + 1) (depth sp) (next_tape_loc sp)
        (current_string_buf_loc sp) CS' (ret_address (parser sp)).
Proof.
  intros Hch Hsc. unfold structural_char in Hch.
  destruct (step L.array_continue sp) as [[nx sp']|] eqn:Hs.
  - pose proof (step_same_layout _ _ _ _ Hs) as Hl.
    run_methods.
    all: try (eexists _, _; split_and!; [reflexivity|eassumption|assumption|done]).
  - exfalso. run_methods. all: first [by impossible|defined_stores; ranges].
Qed.

(** A closing bracket, in any of the four blocks that can read one. *)
Lemma close_scope l sp ch sc :
  (l = L.array_begin ∧ ch = Ch.rbracket) ∨ (l = L.array_continue ∧ ch = Ch.rbracket)
  ∨ (l = L.object_begin ∧ ch = Ch.rbrace) ∨ (l = L.object_continue ∧ ch = Ch.rbrace) →
  structural_char (parser sp) (current_structural sp + 1) = Some ch →
  load (containing_scope (parser sp)) (wrap32 (depth sp - 1)) = Some sc →
  0 ≤ next_tape_loc sp < Z.of_nat (length (tape (doc (parser sp)))) →
  0 ≤ tape_index sc < Z.of_nat (length (tape (doc (parser sp)))) →
  ∃ sp',
    step l sp = Some (goto L.scope_end, sp')
    ∧ same_layout sp sp'
    ∧ fields sp' (current_structural sp + 1) (wrap32 (depth sp - 1))
        (next_tape_loc sp + 1) (current_string_buf_loc sp)
        (containing_scope (parser sp)) (ret_address (parser sp)).
Proof.
  intros Hl Hch Hsc Hloc Hti. unfold structural_char in Hch.
  destruct (step l sp) as [[nx sp']|] eqn:Hs.
  - pose proof (step_same_layout _ _ _ _ Hs) as Hlay.
    destruct Hl as [[-> ->]|[[-> ->]|[[-> ->]|[-> ->]]]].
    all: run_methods.
    all: try (eexists; split_and!; [reflexivity|assumption|done]).
  - exfalso. destruct Hl as [[-> ->]|[[-> ->]|[[-> ->]|[-> ->]]]].
    all: run_methods.
    all: first [by impossible|defined_stores; ranges].
Qed.
Lemma object_begin_key sp idx sc body :
  load (structural_indexes (parser sp)) (current_structural sp + 1) = Some idx →
  load (buf (parser sp)) idx = Some Ch.quote →
  load (containing_scope (parser sp)) (wrap32 (depth sp - 1)) = Some sc →
  decode_string (buf (parser sp)) idx = Some body →
  0 ≤ next_tape_loc sp < Z.of_nat (length (tape (doc (parser sp)))) →
  0 ≤ current_string_buf_loc sp →
  current_string_buf_loc sp + Z.of_nat (length body) + 5
    ≤ Z.of_nat (length (string_buf (doc (parser sp)))) →
  ∃ sp' CS',
    step L.object_begin sp = Some (goto L.object_key_state, sp')
    ∧ store (containing_scope (parser sp)) (wrap32 (depth sp - 1))
        {| tape_index := tape_index sc; count := wrap32 (count sc + 1) |} = Some CS'
    ∧ same_layout sp sp'
    ∧ fields sp' (current_structural sp + 1) (depth sp) (next_tape_loc sp + 1)
        (current_string_buf_loc sp + 4 + Z.of_nat (length body) + 1)
        CS' (ret_address (parser sp)).
Proof.
  intros Hidx Hch Hsc Hdec Hloc Hsl Hroom.
  destruct (step L.object_begin sp) as [[nx sp']|] eqn:Hs.
  - pose proof (step_same_layout _ _ _ _ Hs) as Hl.
    run_methods.
    all: try (eexists _, _; split_and!; [reflexivity|eassumption|assumption|done]).
  - exfalso. run_methods. all: first [by impossible|defined_stores; ranges].
Qed.

Lemma object_continue_key sp idx sc body :
  structural_char (parser sp) (current_structural sp + 1) = Some Ch.comma →
  load (structural_indexes (parser sp)) (current_structural sp + 1 + 1) = Some idx →
  load (buf (parser sp)) idx = Some Ch.quote →
  load (containing_scope (parser sp)) (wrap32 (depth sp - 1)) = Some sc →
  decode_string (buf (parser sp)) idx = Some body →
  0 ≤ next_tape_loc sp < Z.of_nat (length (tape (doc (parser sp)))) →
  0 ≤ current_string_buf_loc sp →
  current_string_buf_loc sp + Z.of_nat (length body) + 5
    ≤ Z.of_nat (length (string_buf (doc (parser sp)))) →
  ∃ sp' CS',
    step L.object_continue sp = Some (goto L.object_key_state, sp')
    ∧ store (containing_scope (parser sp)) (wrap32 (depth sp - 1))
        {| tape_index := tape_index sc; count := wrap32 (count sc + 1) |} = Some CS'
    ∧ same_layout sp sp'
    ∧ fields sp' (current_structural sp + 1 + 1) (depth sp) (next_tape_loc sp + 1)
        (current_string_buf_loc sp + 4 + Z.of_nat (length body) + 1)
        CS' (ret_address (parser sp)).
Proof.
  intros Hcomma Hidx Hch Hsc Hdec Hloc Hsl Hroom. unfold structural_char in Hcomma.
  destruct (step L.object_continue sp) as [[nx sp']|] eqn:Hs.
  - pose proof (step_same_layout _ _ _ _ Hs) as Hl.
    run_methods.
    all: try (eexists _, _; split_and!; [reflexivity|eassumption|assumption|done]).
  - exfalso. run_methods. all: first [by impossible|defined_stores; ranges].
Qed.

Lemma scope_end_to kd sp :
  load (ret_address (parser sp)) (depth sp) = Some (address_of kd) →
  step L.scope_end sp = Some (goto (continue_at kd), sp).
Proof. intros Hra. destruct kd; by run_methods. Qed.

(** *** The start of a value inside an array or an object *)

Ltac enter kd sp a Hready Hcolon :=
  destruct kd; simpl in Hready; [done|subst a|destruct Hready as [<- Hcolon]];
  [|unfold structural_char in Hcolon;
    replace (current_structural sp + 2) with (current_structural sp + 1 + 1) in * by lia].

Lemma enter_open kd sp a idx ch l :
  (ch = Ch.lbrace ∧ l = L.object_begin) ∨ (ch = Ch.lbracket ∧ l = L.array_begin) →
  entry_ready kd sp a →
  load (structural_indexes (parser sp)) a = Some idx →
  load (buf (parser sp)) idx = Some ch →
  0 ≤ depth sp < Z.of_nat (length (containing_scope (parser sp))) →
  depth sp < Z.of_nat (length (ret_address (parser sp))) →
  wrap32 (depth sp + 1) < max_depth (parser sp) →
  ∃ sp' CS' RA',
    step (entry_label kd) sp = Some (goto l, sp')
    ∧ store (containing_scope (parser sp)) (depth sp)
        {| tape_index := wrap32 (next_tape_loc sp); count := 0 |} = Some CS'
    ∧ store (ret_address (parser sp)) (depth sp) (address_of kd) = Some RA'
    ∧ same_layout sp sp'
    ∧ fields sp' a (wrap32 (depth sp + 1)) (next_tape_loc sp + 1)
        (current_string_buf_loc sp) CS' RA'.
Proof.
  intros Hl Hready Hidx Hch Hcs Hra Hmax.
  destruct (step (entry_label kd) sp) as [[nx sp']|] eqn:Hs.
  - pose proof (step_same_layout _ _ _ _ Hs) as Hlay.
    destruct Hl as [[-> ->]|[-> ->]]; enter kd sp a Hready Hcolon.
    all: run_methods.
    all: try (eexists _, _, _; split_and!;
              [reflexivity|eassumption|eassumption|assumption|done]).
    all: impossible.
  - exfalso. destruct Hl as [[-> ->]|[-> ->]]; enter kd sp a Hready Hcolon.
    all: run_methods.
    all: first [by impossible|defined_stores; ranges].
Qed.

Lemma enter_string kd sp a idx body :
  entry_ready kd sp a →
  load (structural_indexes (parser sp)) a = Some idx →
  load (buf (parser sp)) idx = Some Ch.quote →
  decode_string (buf (parser sp)) idx = Some body →
  0 ≤ next_tape_loc sp < Z.of_nat (length (tape (doc (parser sp)))) →
  0 ≤ current_string_buf_loc sp →
  current_string_buf_loc sp + Z.of_nat (length body) + 5
    ≤ Z.of_nat (length (string_buf (doc (parser sp)))) →
  ∃ sp',
    step (entry_label kd) sp = Some (goto (continue_at kd), sp')
    ∧ same_layout sp sp'
    ∧ fields sp' a (depth sp) (next_tape_loc sp + 1)
        (current_string_buf_loc sp + 4 + Z.of_nat (length body) + 1)
        (containing_scope (parser sp)) (ret_address (parser sp)).
Proof.
  intros Hready Hidx Hch Hdec Hloc Hsl Hroom.
  destruct (step (entry_label kd) sp) as [[nx sp']|] eqn:Hs.
  - pose proof (step_same_layout _ _ _ _ Hs) as Hlay.
    enter kd sp a Hready Hcolon.
    all: run_methods.
    all: try (eexists; split_and!; [reflexivity|assumption|done]).
  - exfalso. enter kd sp a Hready Hcolon.
    all: run_methods.
    all: first [by impossible|defined_stores; ranges].
Qed.

Lemma enter_atom kd sp a idx ch :
  (ch = Ch.t ∧ is_valid_true_atom (buf (parser sp)) idx = true)
  ∨ (ch = Ch.f ∧ is_valid_false_atom (buf (parser sp)) idx = true)
  ∨ (ch = Ch.n ∧ is_valid_null_atom (buf (parser sp)) idx = true) →
  entry_ready kd sp a →
  load (structural_indexes (parser sp)) a = Some idx →
  load (buf (parser sp)) idx = Some ch →
  0 ≤ next_tape_loc sp < Z.of_nat (length (tape (doc (parser sp)))) →
  ∃ sp',
    step (entry_label kd) sp = Some (goto (continue_at kd), sp')
    ∧ same_layout sp sp'
    ∧ fields sp' a (depth sp) (next_tape_loc sp + 1) (current_string_buf_loc sp)
        (containing_scope (parser sp)) (ret_address (parser sp)).
Proof.
  intros Hv Hready Hidx Hch Hloc.
  destruct (step (entry_label kd) sp) as [[nx sp']|] eqn:Hs.
  - pose proof (step_same_layout _ _ _ _ Hs) as Hlay.
    destruct Hv as [[-> Hv]|[[-> Hv]|[-> Hv]]]; enter kd sp a Hready Hcolon.
    all: run_methods.
    all: try (eexists; split_and!; [reflexivity|assumption|done]).
    all: impossible.
  - exfalso.
    destruct Hv as [[-> Hv]|[[-> Hv]|[-> Hv]]]; enter kd sp a Hready Hcolon.
    all: run_methods.
    all: first [by impossible|defined_stores; ranges].
Qed.

Lemma enter_number kd sp a idx ch x :
  is_minus_or_digit ch = true →
  decode_number (buf (parser sp)) idx = Some x →
  entry_ready kd sp a →
  load (structural_indexes (parser sp)) a = Some idx →
  load (buf (parser sp)) idx = Some ch →
  0 ≤ next_tape_loc sp →
  next_tape_loc sp + 1 < Z.of_nat (length (tape (doc (parser sp)))) →
  ∃ sp',
    step (entry_label kd) sp = Some (goto (continue_at kd), sp')
    ∧ same_layout sp sp'
    ∧ fields sp' a (depth sp) (next_tape_loc sp + 1 + 1) (current_string_buf_loc sp)
        (containing_scope (parser sp)) (ret_address (parser sp)).
Proof.
  intros Hd Hdec Hready Hidx Hch Hloc Hloc'.
  pose proof (proj1 (is_minus_or_digit_spec _) Hd) as Hd'.
  destruct (step (entry_label kd) sp) as [[nx sp']|] eqn:Hs.
  - pose proof (step_same_layout _ _ _ _ Hs) as Hlay.
    enter kd sp a Hready Hcolon.
    all: run_methods.
    all: try (eexists; split_and!; [reflexivity|assumption|done]).
    all: impossible.
  - exfalso. enter kd sp a Hready Hcolon.
    all: run_methods.
    all: first [by impossible|defined_stores; ranges].
Qed.

(** *** The first value, the end and the start *)

Lemma root_open STREAMING sp idx ch l :
  (ch = Ch.lbrace ∧ l = L.object_begin)
  ∨ (ch = Ch.lbracket ∧ l = L.array_begin
     ∧ (STREAMING = false →
        structural_char (parser sp) (wrap32 (n_structural_indexes (parser sp) - 1))
        = Some Ch.rbracket)) →
  load (structural_indexes (parser sp)) (current_structural sp) = Some idx →
  load (buf (parser sp)) idx = Some ch →
  0 ≤ depth sp < Z.of_nat (length (containing_scope (parser sp))) →
  depth sp < Z.of_nat (length (ret_address (parser sp))) →
  wrap32 (depth sp + 1) < max_depth (parser sp) →
  ∃ sp' CS' RA',
    read_first_value STREAMING sp = Some (goto l, sp')
    ∧ store (containing_scope (parser sp)) (depth sp)
        {| tape_index := wrap32 (next_tape_loc sp); count := 0 |} = Some CS'
    ∧ store (ret_address (parser sp)) (depth sp) (address_of of_root) = Some RA'
    ∧ same_layout sp sp'
    ∧ fields sp' (current_structural sp) (wrap32 (depth sp + 1)) (next_tape_loc sp + 1)
        (current_string_buf_loc sp) CS' RA'.
Proof.
  intros Hl Hidx Hch Hcs Hra Hmax.
  destruct (read_first_value STREAMING sp) as [[nx sp']|] eqn:Hs.
  - pose proof (read_first_value_same_layout _ _ _ _ Hs) as Hlay.
    destruct Hl as [[-> ->]|(-> & -> & Hlast)].
    all: try (destruct STREAMING; [clear Hlast|specialize (Hlast eq_refl);
              unfold structural_char in Hlast]).
    all: run_methods.
    all: try (eexists _, _, _; split_and!;
              [reflexivity|eassumption|eassumption|assumption|done]).
    all: impossible.
  - exfalso. destruct Hl as [[-> ->]|(-> & -> & Hlast)].
    all: try (destruct STREAMING; [clear Hlast|specialize (Hlast eq_refl);
              unfold structural_char in Hlast]).
    all: run_methods.
    all: first [by impossible|defined_stores; ranges].
Qed.

Lemma root_string STREAMING sp idx body :
  load (structural_indexes (parser sp)) (current_structural sp) = Some idx →
  load (buf (parser sp)) idx = Some Ch.quote →
  decode_string (buf (parser sp)) idx = Some body →
  0 ≤ next_tape_loc sp < Z.of_nat (length (tape (doc (parser sp)))) →
  0 ≤ current_string_buf_loc sp →
  current_string_buf_loc sp + Z.of_nat (length body) + 5
    ≤ Z.of_nat (length (string_buf (doc (parser sp)))) →
  ∃ sp',
    read_first_value STREAMING sp = Some (goto L.finish, sp')
    ∧ same_layout sp sp'
    ∧ fields sp' (current_structural sp) (depth sp) (next_tape_loc sp + 1)
        (current_string_buf_loc sp + 4 + Z.of_nat (length body) + 1)
        (containing_scope (parser sp)) (ret_address (parser sp)).
Proof.
  intros Hidx Hch Hdec Hloc Hsl Hroom.
  destruct (read_first_value STREAMING sp) as [[nx sp']|] eqn:Hs.
  - pose proof (read_first_value_same_layout _ _ _ _ Hs) as Hlay.
    run_methods.
    all: try (eexists; split_and!; [reflexivity|assumption|done]).
  - exfalso. run_methods.
    all: first [by impossible|defined_stores; ranges].
Qed.

Lemma root_atom STREAMING sp idx ch :
  (ch = Ch.t ∧ is_valid_true_atom_len (buf (parser sp)) idx
                 (wrap64 (len (parser sp) - idx)) = true)
  ∨ (ch = Ch.f ∧ is_valid_false_atom_len (buf (parser sp)) idx
                   (wrap64 (len (parser sp) - idx)) = true)
  ∨ (ch = Ch.n ∧ is_valid_null_atom_len (buf (parser sp)) idx
                   (wrap64 (len (parser sp) - idx)) = true) →
  load (structural_indexes (parser sp)) (current_structural sp) = Some idx →
  load (buf (parser sp)) idx = Some ch →
  0 ≤ next_tape_loc sp < Z.of_nat (length (tape (doc (parser sp)))) →
  ∃ sp',
    read_first_value STREAMING sp = Some (goto L.finish, sp')
    ∧ same_layout sp sp'
    ∧ fields sp' (current_structural sp) (depth sp) (next_tape_loc sp + 1)
        (current_string_buf_loc sp)
        (containing_scope (parser sp)) (ret_address (parser sp)).
Proof.
  intros Hv Hidx Hch Hloc.
  destruct (read_first_value STREAMING sp) as [[nx sp']|] eqn:Hs.
  - pose proof (read_first_value_same_layout _ _ _ _ Hs) as Hlay.
    destruct Hv as [[-> Hv]|[[-> Hv]|[-> Hv]]].
    all: run_methods.
    all: try (eexists; split_and!; [reflexivity|assumption|done]).
    all: impossible.
  - exfalso. destruct Hv as [[-> Hv]|[[-> Hv]|[-> Hv]]].
    all: run_methods.
    all: first [by impossible|defined_stores; ranges].
Qed.

Lemma root_number STREAMING sp idx ch x :
  is_minus_or_digit ch = true →
  malloc_succeeds (wrap64 (len (parser sp) + SIMDJSON_PADDING)) = true →
  0 ≤ len (parser sp) ≤ Z.of_nat (length (buf (parser sp))) →
  decode_number
    (take (Z.to_nat (len (parser sp))) (buf (parser sp))
     ++ replicate (Z.to_nat SIMDJSON_PADDING) Ch.space) idx = Some x →
  load (structural_indexes (parser sp)) (current_structural sp) = Some idx →
  load (buf (parser sp)) idx = Some ch →
  0 ≤ next_tape_loc sp →
  next_tape_loc sp + 1 < Z.of_nat (length (tape (doc (parser sp)))) →
  ∃ sp',
    read_first_value STREAMING sp = Some (goto L.finish, sp')
    ∧ same_layout sp sp'
    ∧ fields sp' (current_structural sp) (depth sp) (next_tape_loc sp + 1 + 1)
        (current_string_buf_loc sp)
        (containing_scope (parser sp)) (ret_address (parser sp)).
Proof.
  intros Hd Hm Hlen Hdec Hidx Hch Hloc Hloc'.
  pose proof (proj1 (is_minus_or_digit_spec _) Hd) as Hd'.
  destruct (read_first_value STREAMING sp) as [[nx sp']|] eqn:Hs.
  - pose proof (read_first_value_same_layout _ _ _ _ Hs) as Hlay.
    run_methods.
    all: try (eexists; split_and!; [reflexivity|assumption|done]).
    all: impossible.
  - exfalso. run_methods.
    all: first [by impossible|defined_stores; ranges].
Qed.

Lemma finish_accepts sp sc :
  wrap32 (depth sp - 1) = 0 →
  load (containing_scope (parser sp)) (wrap32 (depth sp - 1)) = Some sc →
  0 ≤ next_tape_loc sp < Z.of_nat (length (tape (doc (parser sp)))) →
  0 ≤ tape_index sc < Z.of_nat (length (tape (doc (parser sp)))) →
  ∃ sp',
    step L.finish sp = Some (return_ SUCCESS, sp')
    ∧ next_structural_index (parser sp') = wrap32 (current_structural sp + 1).
Proof.
  intros Hd Hsc Hloc Hti.
  destruct (step L.finish sp) as [[nx sp']|] eqn:Hs.
  - run_methods.
    all: try (eexists; split_and!; [reflexivity|done]).
    all: impossible.
  - exfalso. run_methods.
    all: first [by impossible|defined_stores; ranges].
Qed.

Lemma start_succeeds sp :
  current_structural sp < n_structural_indexes (parser sp) →
  0 ≤ depth sp < Z.of_nat (length (containing_scope (parser sp))) →
  depth sp < Z.of_nat (length (ret_address (parser sp))) →
  wrap32 (depth sp + 1) < max_depth (parser sp) →
  ∃ sp' CS' RA',
    start (addr_finish addresses) sp = Some (SUCCESS, sp')
    ∧ store (containing_scope (parser sp)) (depth sp)
        {| tape_index := wrap32 (next_tape_loc sp); count := 0 |} = Some CS'
    ∧ store (ret_address (parser sp)) (depth sp) (address_of of_root) = Some RA'
    ∧ same_layout sp sp'
    ∧ fields sp' (current_structural sp) (wrap32 (depth sp + 1)) (next_tape_loc sp + 1)
        (current_string_buf_loc sp) CS' RA'.
Proof.
  intros Hc Hcs Hra Hmax.
  destruct (start (addr_finish addresses) sp) as [[e sp']|] eqn:Hs.
  - run_methods.
    all: try (eexists _, _, _; split_and!;
              [reflexivity|eassumption|eassumption| |done];
              forget_stores; unfold same_layout; simpl; split_and!; congruence).
    all: impossible.
  - exfalso. run_methods.
    all: first [by impossible|defined_stores; ranges].
Qed.

(** *** A bracket that brings the depth to the limit *)

Lemma enter_deep kd sp a idx ch :
  ch = Ch.lbrace ∨ ch = Ch.lbracket →
  entry_ready kd sp a →
  load (structural_indexes (parser sp)) a = Some idx →
  load (buf (parser sp)) idx = Some ch →
  0 ≤ depth sp < Z.of_nat (length (containing_scope (parser sp))) →
  depth sp < Z.of_nat (length (ret_address (parser sp))) →
  max_depth (parser sp) ≤ wrap32 (depth sp + 1) →
  ∃ sp',
    step (entry_label kd) sp = Some (goto L.error, sp')
    ∧ same_layout sp sp'
    ∧ depth sp' = wrap32 (depth sp + 1).
Proof.
  intros Hl Hready Hidx Hch Hcs Hra Hmax.
  destruct (step (entry_label kd) sp) as [[nx sp']|] eqn:Hs.
  - pose proof (step_same_layout _ _ _ _ Hs) as Hlay.
    destruct Hl as [-> | ->]; enter kd sp a Hready Hcolon.
    all: run_methods.
    all: try (eexists; split_and!; [reflexivity|assumption|done]).
    all: impossible.
  - exfalso. destruct Hl as [-> | ->]; enter kd sp a Hready Hcolon.
    all: run_methods.
    all: first [by impossible|defined_stores; ranges].
Qed.

Lemma root_deep STREAMING sp idx ch :
  ch = Ch.lbrace ∨ ch = Ch.lbracket →
  load (structural_indexes (parser sp)) (current_structural sp) = Some idx →
  load (buf (parser sp)) idx = Some ch →
  0 ≤ depth sp < Z.of_nat (length (containing_scope (parser sp))) →
  depth sp < Z.of_nat (length (ret_address (parser sp))) →
  max_depth (parser sp) ≤ wrap32 (depth sp + 1) →
  ∃ sp',
    read_first_value STREAMING sp = Some (goto L.error, sp')
    ∧ same_layout sp sp'
    ∧ depth sp' = wrap32 (depth sp + 1).
Proof.
  intros Hl Hidx Hch Hcs Hra Hmax.
  destruct (read_first_value STREAMING sp) as [[nx sp']|] eqn:Hs.
  - pose proof (read_first_value_same_layout _ _ _ _ Hs) as Hlay.
    destruct Hl as [-> | ->].
    all: run_methods.
    all: try (eexists; split_and!; [reflexivity|assumption|done]).
    all: impossible.
  - exfalso. destruct Hl as [-> | ->].
    all: run_methods.
    all: first [by impossible|defined_stores; ranges].
Qed.

Lemma start_deep sp :
  current_structural sp < n_structural_indexes (parser sp) →
  0 ≤ depth sp < Z.of_nat (length (containing_scope (parser sp))) →
  depth sp < Z.of_nat (length (ret_address (parser sp))) →
  max_depth (parser sp) ≤ wrap32 (depth sp + 1) →
  ∃ sp',
    start (addr_finish addresses) sp = Some (DEPTH_ERROR, sp')
    ∧ parser_error (parser sp') = DEPTH_ERROR.
Proof.
  intros Hc Hcs Hra Hmax.
  destruct (start (addr_finish addresses) sp) as [[e sp']|] eqn:Hs.
  - run_methods.
    all: try (eexists; split; [reflexivity|done]).
    all: impossible.
  - exfalso. run_methods.
    all: first [by impossible|defined_stores; ranges].
Qed.

End accepting.

(** *** The brackets of a well-formed text *)

Lemma nesting_first s first : nesting s first first = 0.
Proof. unfold nesting. by rewrite Z.sub_diag. Qed.

Lemma nesting_step s first a ch :
  first ≤ a → s a = Some ch →
  nesting s first (a + 1) = nesting s first a + bracket_change ch.
Proof.
  intros Ha Hch. unfold nesting.
  replace (Z.to_nat (a + 1 - first)) with (S (Z.to_nat (a - first))) by lia.
  simpl. replace (first + Z.of_nat (Z.to_nat (a - first))) with a by lia.
  by rewrite Hch.
Qed.

Lemma scalar_start_change ch : scalar_start ch → bracket_change ch = 0.
Proof.
  unfold scalar_start. rewrite is_minus_or_digit_spec.
  unfold bracket_change, Ch.quote, Ch.t, Ch.f, Ch.n, Ch.lbrace, Ch.lbracket,
    Ch.rbrace, Ch.rbracket.
  intros Hc.
  destruct (Z.eqb_spec ch 123), (Z.eqb_spec ch 91), (Z.eqb_spec ch 125),
    (Z.eqb_spec ch 93); simpl; lia.
Qed.

Lemma text_spans s :
  (∀ a c, value_in s a c → a < c)
  ∧ (∀ a b, elements_in s a b → a ≤ b)
  ∧ (∀ a b, members_in s a b → a ≤ b).
Proof. apply text_mutind; intros; lia. Qed.

Lemma text_balanced s first :
  (∀ a c, value_in s a c → first ≤ a → nesting s first c = nesting s first a)
  ∧ (∀ a b, elements_in s a b → first ≤ a → nesting s first b = nesting s first a)
  ∧ (∀ a b, members_in s a b → first ≤ a → nesting s first b = nesting s first a).
Proof.
  pose proof (text_spans s) as (Hv & He & Hm).
  apply text_mutind.
  - intros a ch Hch Hsc Ha.
    rewrite (nesting_step _ _ _ _ Ha Hch), scalar_start_change by done. lia.
  - intros a Ho Hc Ha.
    replace (a + 2) with (a + 1 + 1) by lia.
    rewrite (nesting_step s first (a + 1) _ ltac:(lia) Hc), (nesting_step _ _ _ _ Ha Ho).
    unfold bracket_change; simpl; lia.
  - intros a b c Ho Hel IHe Hval IHv Hc Ha.
    apply He in Hel. apply Hv in Hval.
    rewrite (nesting_step s first c _ ltac:(lia) Hc), IHv, IHe by lia.
    rewrite (nesting_step _ _ _ _ Ha Ho). unfold bracket_change; simpl; lia.
  - intros a Ho Hc Ha.
    replace (a + 2) with (a + 1 + 1) by lia.
    rewrite (nesting_step s first (a + 1) _ ltac:(lia) Hc), (nesting_step _ _ _ _ Ha Ho).
    unfold bracket_change; simpl; lia.
  - intros a b c Ho Hmem IHm Hq Hcol Hval IHv Hc Ha.
    apply Hm in Hmem. apply Hv in Hval.
    rewrite (nesting_step s first c _ ltac:(lia) Hc), IHv by lia.
    replace (b + 2) with (b + 1 + 1) by lia.
    rewrite (nesting_step s first (b + 1) _ ltac:(lia) Hcol),
      (nesting_step s first b _ ltac:(lia) Hq), IHm by lia.
    rewrite (nesting_step _ _ _ _ Ha Ho). unfold bracket_change; simpl; lia.
  - done.
  - intros a b c Hel IHe Hval IHv Hc Ha.
    apply He in Hel. apply Hv in Hval.
    rewrite (nesting_step s first c _ ltac:(lia) Hc), IHv, IHe by lia. unfold bracket_change; simpl; lia.
  - done.
  - intros a b c Hmem IHm Hq Hcol Hval IHv Hc Ha.
    apply Hm in Hmem. apply Hv in Hval.
    rewrite (nesting_step s first c _ ltac:(lia) Hc), IHv by lia.
    replace (b + 2) with (b + 1 + 1) by lia.
    rewrite (nesting_step s first (b + 1) _ ltac:(lia) Hcol),
      (nesting_step s first b _ ltac:(lia) Hq), IHm by lia.
    unfold bracket_change; simpl; lia.
Qed.

(** A value does not start with a closing bracket. *)
Lemma value_in_first s a c :
  value_in s a c → ∃ ch, s a = Some ch ∧ ch ≠ Ch.rbracket.
Proof.
  destruct 1 as [a ch Hch Hsc| | | |]; try (eexists; split; [eassumption|done]).
  exists ch. split; [done|]. intros ->.
  apply scalar_start_change in Hsc. by vm_compute in Hsc.
Qed.

Lemma elements_in_first s a b :
  elements_in s a b →
  ∀ c, value_in s b c → ∃ ch, s a = Some ch ∧ ch ≠ Ch.rbracket.
Proof.
  induction 1 as [|a b' c' Hel IH Hval Hc]; intros c0 Hv.
  - by eapply value_in_first.
  - by eapply IH.
Qed.

Lemma members_in_first s a b :
  members_in s a b → s b = Some Ch.quote → s a = Some Ch.quote.
Proof. induction 1; auto. Qed.
(** *** Runs of the machine *)

Section runs.
Context `{collaborators}.

Lemma reaches_one l sp l' sp' :
  step l sp = Some (goto l', sp') → reaches l sp l' sp'.
Proof. intros Hs. eapply reaches_step; [done|]. apply reaches_here. Qed.

Lemma reaches_trans l1 sp1 l2 sp2 l3 sp3 :
  reaches l1 sp1 l2 sp2 → reaches l2 sp2 l3 sp3 → reaches l1 sp1 l3 sp3.
Proof.
  induction 1 as [|l sp l1 sp1 l' sp' Hs Hr IH]; [done|].
  intros Hr'. eapply reaches_step; [done|]. by apply IH.
Qed.

Lemma reaches_returns l sp l1 sp1 e sp' :
  reaches l sp l1 sp1 → step l1 sp1 = Some (return_ e, sp') →
  ∃ fuel, run fuel l sp = Returned e sp'.
Proof.
  induction 1 as [l sp|l sp l1 sp1 l' sp2 Hs Hr IH]; intros Hret.
  - exists 1%nat. simpl. by rewrite Hret.
  - destruct (IH Hret) as [fuel Hrun]. exists (S fuel). simpl. by rewrite Hs.
Qed.

Lemma run_more fuel fuel' l sp e sp' :
  run fuel l sp = Returned e sp' → run fuel' l sp ≠ OutOfFuel →
  run fuel' l sp = Returned e sp'.
Proof.
  revert fuel' l sp. induction fuel as [|fuel IH]; intros fuel' l sp Hr Hne; [done|].
  destruct fuel' as [|fuel']; [done|]. simpl in *.
  destruct (step l sp) as [[[l1|e1] sp1]|]; try done. by eapply IH.
Qed.

Lemma keeps_refl d sp : keeps d sp sp.
Proof. by intros i Hi. Qed.

Lemma keeps_trans d sp1 sp2 sp3 :
  keeps d sp1 sp2 → keeps d sp2 sp3 → keeps d sp1 sp3.
Proof.
  intros H12 H23 i Hi. destruct (H12 i Hi) as [E1 E2], (H23 i Hi) as [E3 E4].
  split; congruence.
Qed.

Lemma keeps_le d d' sp sp' : d' ≤ d → keeps d sp sp' → keeps d' sp sp'.
Proof. intros Hd Hk i Hi. apply Hk. lia. Qed.

Lemma keeps_same d sp sp' :
  containing_scope (parser sp') = containing_scope (parser sp) →
  ret_address (parser sp') = ret_address (parser sp) →
  keeps d sp sp'.
Proof. intros Hcs Hra i Hi. by rewrite Hcs, Hra. Qed.

Lemma keeps_count d sp sp' i v :
  store (containing_scope (parser sp)) i v = Some (containing_scope (parser sp')) →
  ret_address (parser sp') = ret_address (parser sp) →
  d ≤ i → keeps d sp sp'.
Proof.
  intros Hcs Hra Hd j Hj. rewrite Hra. split; [|done].
  apply (load_store_ne _ _ _ _ _ Hcs). lia.
Qed.

Lemma keeps_open d sp sp' v r :
  store (containing_scope (parser sp)) d v = Some (containing_scope (parser sp')) →
  store (ret_address (parser sp)) d r = Some (ret_address (parser sp')) →
  keeps d sp sp'.
Proof.
  intros Hcs Hra j Hj. split.
  - apply (load_store_ne _ _ _ _ _ Hcs). lia.
  - apply (load_store_ne _ _ _ _ _ Hra). lia.
Qed.

Lemma open_scope_keeps d r sp sp' :
  keeps (d + 1) sp sp' → same_layout sp sp' →
  open_scope sp d r → open_scope sp' d r.
Proof.
  intros Hk Hlay (Hra & sc & Hsc & Hti).
  destruct (Hk d ltac:(lia)) as [Hcs' Hra'].
  destruct Hlay as (_ & _ & _ & _ & _ & _ & _ & Htl & _).
  split; [congruence|]. exists sc. split; [congruence|]. by rewrite Htl.
Qed.

Lemma open_scope_count d r sp sp' sc n :
  load (containing_scope (parser sp)) d = Some sc →
  store (containing_scope (parser sp)) d {| tape_index := tape_index sc; count := n |}
    = Some (containing_scope (parser sp')) →
  ret_address (parser sp') = ret_address (parser sp) →
  same_layout sp sp' →
  open_scope sp d r → open_scope sp' d r.
Proof.
  intros Hsc Hst Hra Hlay (Hr & sc' & Hsc' & Hti).
  destruct Hlay as (_ & _ & _ & _ & _ & _ & _ & Htl & _).
  split; [congruence|]. eexists. split; [by eapply load_store_eq|].
  simpl. rewrite Htl. congruence.
Qed.

(** *** What the test of a scalar gives *)

Lemma digit_not_other ch :
  is_minus_or_digit ch = true →
  (ch =? Ch.quote) = false ∧ (ch =? Ch.t) = false
  ∧ (ch =? Ch.f) = false ∧ (ch =? Ch.n) = false.
Proof.
  rewrite is_minus_or_digit_spec. unfold Ch.quote, Ch.t, Ch.f, Ch.n.
  intros Hd. split_and!; apply Z.eqb_neq; lia.
Qed.

Lemma parses_string p room root a idx :
  scalar_parses p room root a = true →
  load (structural_indexes p) a = Some idx →
  load (buf p) idx = Some Ch.quote →
  ∃ body, decode_string (buf p) idx = Some body
          ∧ Z.of_nat (length body) + 5 ≤ room.
Proof.
  unfold scalar_parses, string_fits. intros Hok Hidx Hch.
  rewrite Hidx, Hch in Hok. simpl in Hok.
  destruct (decode_string (buf p) idx) as [body|]; [|done].
  exists body. split; [done|]. by apply Z.leb_le.
Qed.

Lemma parses_atom p room a idx ch :
  scalar_parses p room false a = true →
  load (structural_indexes p) a = Some idx →
  load (buf p) idx = Some ch →
  ch = Ch.t ∨ ch = Ch.f ∨ ch = Ch.n →
  (ch = Ch.t ∧ is_valid_true_atom (buf p) idx = true)
  ∨ (ch = Ch.f ∧ is_valid_false_atom (buf p) idx = true)
  ∨ (ch = Ch.n ∧ is_valid_null_atom (buf p) idx = true).
Proof.
  unfold scalar_parses. intros Hok Hidx Hch Hc. rewrite Hidx, Hch in Hok.
  destruct Hc as [->|[->| ->]]; simpl in Hok; auto.
Qed.

Lemma parses_number p room a idx ch :
  scalar_parses p room false a = true →
  load (structural_indexes p) a = Some idx →
  load (buf p) idx = Some ch →
  is_minus_or_digit ch = true →
  ∃ x, decode_number (buf p) idx = Some x.
Proof.
  unfold scalar_parses. intros Hok Hidx Hch Hd. rewrite Hidx, Hch in Hok.
  destruct (digit_not_other _ Hd) as (E1 & E2 & E3 & E4).
  rewrite E1, E2, E3, E4, Hd in Hok.
  apply bool_decide_eq_true in Hok as [x Hx]. eauto.
Qed.

Lemma parses_root_atom p room a idx ch :
  scalar_parses p room true a = true →
  load (structural_indexes p) a = Some idx →
  load (buf p) idx = Some ch →
  ch = Ch.t ∨ ch = Ch.f ∨ ch = Ch.n →
  (ch = Ch.t ∧ is_valid_true_atom_len (buf p) idx (wrap64 (len p - idx)) = true)
  ∨ (ch = Ch.f ∧ is_valid_false_atom_len (buf p) idx (wrap64 (len p - idx)) = true)
  ∨ (ch = Ch.n ∧ is_valid_null_atom_len (buf p) idx (wrap64 (len p - idx)) = true).
Proof.
  unfold scalar_parses. intros Hok Hidx Hch Hc. rewrite Hidx, Hch in Hok.
  destruct Hc as [->|[->| ->]]; simpl in Hok; auto.
Qed.

Lemma parses_root_number p room a idx ch :
  scalar_parses p room true a = true →
  load (structural_indexes p) a = Some idx →
  load (buf p) idx = Some ch →
  is_minus_or_digit ch = true →
  malloc_succeeds (wrap64 (len p + SIMDJSON_PADDING)) = true
  ∧ 0 ≤ len p ≤ Z.of_nat (length (buf p))
  ∧ ∃ x, decode_number
           (take (Z.to_nat (len p)) (buf p)
            ++ replicate (Z.to_nat SIMDJSON_PADDING) Ch.space) idx = Some x.
Proof.
  unfold scalar_parses, root_number_parses. intros Hok Hidx Hch Hd.
  rewrite Hidx, Hch in Hok.
  destruct (digit_not_other _ Hd) as (E1 & E2 & E3 & E4).
  rewrite E1, E2, E3, E4, Hd in Hok.
  apply andb_true_iff in Hok as [Hok Hdec].
  apply andb_true_iff in Hok as [Hm Hlen].
  apply bool_decide_eq_true in Hlen. apply bool_decide_eq_true in Hdec as [x Hx].
  eauto.
Qed.

End runs.

(** *** The machine on a well-formed text *)

Section accepted_runs.
Context `{collaborators}.
Variables (s : Z → option Z) (sp0 : structural_parser) (first n room : Z).

Hypothesis Hagree :
  ∀ a, first ≤ a ≤ n → s a = structural_char (parser sp0) a.
Hypothesis Hdepth :
  ∀ a, first ≤ a ≤ n → nesting s first a + 1 < max_depth (parser sp0).
Hypothesis Hcs :
  max_depth (parser sp0) ≤ Z.of_nat (length (containing_scope (parser sp0))).
Hypothesis Hra :
  max_depth (parser sp0) ≤ Z.of_nat (length (ret_address (parser sp0))).
Hypothesis Hmax : max_depth (parser sp0) ≤ 2 ^ 32.
Hypothesis Htape :
  2 * (n - first) + 2 ≤ Z.of_nat (length (tape (doc (parser sp0)))).
Hypothesis Hroom : 0 ≤ room.
Hypothesis Hsbuf :
  room * (n - first) ≤ Z.of_nat (length (string_buf (doc (parser sp0)))).
Hypothesis Hscalars :
  ∀ a, first < a < n → scalar_parses (parser sp0) room false a = true.

Ltac unpack Hp :=
  destruct Hp as (Hlay & Hdep & Hdr & Hloc & Hsl);
  pose proof Hlay as (Hbuf & Hlen & Hsi & Hnsi & Hmd & Hcsl & Hral & Htl & Hsbl).

Lemma text_at sp a ch :
  same_layout sp0 sp → first ≤ a ≤ n → s a = Some ch →
  ∃ idx, load (structural_indexes (parser sp)) a = Some idx
         ∧ load (buf (parser sp)) idx = Some ch.
Proof.
  intros (Hbuf & _ & Hsi & _) Ha Hch. rewrite (Hagree a Ha) in Hch.
  unfold structural_char in Hch.
  rewrite Hbuf, Hsi.
  destruct (load (structural_indexes (parser sp0)) a) as [idx|]; [|done]. eauto.
Qed.

Lemma text_same sp a :
  same_layout sp0 sp → first ≤ a ≤ n → structural_char (parser sp) a = s a.
Proof.
  intros Hlay Ha. by rewrite (structural_char_same_layout _ _ Hlay), Hagree.
Qed.

Lemma room_at a :
  a < n → room * (a - first) + room
          ≤ Z.of_nat (length (string_buf (doc (parser sp0)))).
Proof. intros Ha. nia. Qed.

Lemma wrap32_depth d : 0 ≤ d < max_depth (parser sp0) → wrap32 d = d.
Proof. intros Hd. apply wrap32_small. lia. Qed.

(** One block that reads a scalar. *)
Lemma after_scalar kd sp sp' a d loc' sloc' :
  poised sp0 first room sp d a → a < n →
  step (entry_label kd) sp = Some (goto (continue_at kd), sp') →
  same_layout sp sp' →
  fields sp' a (depth sp) loc' sloc'
    (containing_scope (parser sp)) (ret_address (parser sp)) →
  next_tape_loc sp ≤ loc' ≤ next_tape_loc sp + 2 →
  current_string_buf_loc sp ≤ sloc' ≤ current_string_buf_loc sp + room →
  ∃ sp', reaches (entry_label kd) sp (continue_at kd) sp'
         ∧ current_structural sp' = a + 1 - 1
         ∧ poised sp0 first room sp' d (a + 1)
         ∧ keeps d sp sp'.
Proof.
  intros Hp Ha Hs Hlay' (Hc & Hd & Hl & Hsl' & Hcs' & Hra') Hloc' Hsloc'.
  unpack Hp. exists sp'. split_and!.
  - by apply reaches_one.
  - lia.
  - split_and!; first [lia|nia|by eapply same_layout_trans].
  - by apply keeps_same.
Qed.

Lemma scalar_runs a ch :
  s a = Some ch → scalar_start ch → value_runs s sp0 first n room a (a + 1).
Proof.
  intros Hch Hsc Ha Hn kd sp Hready Hp.
  pose proof Hp as Hp'. unpack Hp'.
  destruct (text_at sp a ch Hlay ltac:(lia) Hch) as (idx & Hidx & Hbyte).
  pose proof (Hscalars a ltac:(lia)) as Hok.
  pose proof (room_at a ltac:(lia)) as Hra'.
  assert (ch = Ch.quote ∨ (ch = Ch.t ∨ ch = Ch.f ∨ ch = Ch.n)
          ∨ is_minus_or_digit ch = true) as [->|[Hc|Hd]]
    by (unfold scalar_start in Hsc; tauto).
  - destruct (parses_string _ _ _ _ idx Hok) as (body & Hbody & Hfit);
      [by rewrite <- Hsi|by rewrite <- Hbuf|]. rewrite <- Hbuf in Hbody.
    destruct (enter_string kd sp a idx body Hready Hidx Hbyte Hbody)
      as (sp' & Hs & Hlay' & Hf); [lia|lia|lia|].
    eapply after_scalar; eauto; lia.
  - pose proof (parses_atom _ _ _ idx ch Hok) as Hv.
    rewrite <- Hsi, <- Hbuf in Hv. specialize (Hv Hidx Hbyte Hc).
    destruct (enter_atom kd sp a idx ch Hv Hready Hidx Hbyte)
      as (sp' & Hs & Hlay' & Hf); [lia|].
    eapply after_scalar; eauto; lia.
  - pose proof (parses_number _ _ _ idx ch Hok) as Hx.
    rewrite <- Hsi, <- Hbuf in Hx. destruct (Hx Hidx Hbyte Hd) as [x Hdec].
    destruct (enter_number kd sp a idx ch x Hd Hdec Hready Hidx Hbyte)
      as (sp' & Hs & Hlay' & Hf); [lia|lia|].
    eapply after_scalar; eauto; lia.
Qed.

Lemma poised_later sp d bnd bnd' :
  bnd ≤ bnd' → poised sp0 first room sp d bnd → poised sp0 first room sp d bnd'.
Proof.
  intros Hb (Hlay & Hdep & Hdr & Hloc & Hsl). split_and!; first [done|lia|nia].
Qed.

(** A closing bracket and the return to the scope around it. *)
Lemma closing_runs l ch sp kd c d :
  (l = L.array_begin ∧ ch = Ch.rbracket) ∨ (l = L.array_continue ∧ ch = Ch.rbracket)
  ∨ (l = L.object_begin ∧ ch = Ch.rbrace) ∨ (l = L.object_continue ∧ ch = Ch.rbrace) →
  s c = Some ch → current_structural sp = c - 1 → c < n →
  poised sp0 first room sp (d + 1) c →
  open_scope sp d (address_of kd) →
  ∃ sp', reaches l sp (continue_at kd) sp'
         ∧ current_structural sp' = c
         ∧ poised sp0 first room sp' d (c + 1)
         ∧ keeps d sp sp'.
Proof.
  intros Hl Hch Hcur Hc Hp (Hr & sc & Hsc & Hti). unpack Hp.
  pose proof (load_Some_range _ _ _ Hr) as Hd0.
  assert (wrap32 (depth sp - 1) = d) as Hw.
  { rewrite Hdep. replace (d + 1 - 1) with d by lia. apply wrap32_depth. lia. }
  destruct (close_scope l sp ch sc Hl) as (sp1 & Hs1 & Hlay1 & Hf1).
  { rewrite (text_same _ _ Hlay) by lia. by replace (current_structural sp + 1) with c by lia. }
  { by rewrite Hw. }
  { lia. }
  { done. }
  destruct Hf1 as (Hc1 & Hd1 & Hl1 & Hsl1 & Hcs1 & Hra1). rewrite Hw in Hd1.
  exists sp1. split_and!.
  - eapply reaches_step; [exact Hs1|]. apply reaches_one.
    apply scope_end_to. by rewrite Hra1, Hd1.
  - lia.
  - split_and!; first [lia|nia|by eapply same_layout_trans].
  - by apply keeps_same.
Qed.

Lemma empty_body_runs a :
  (s a = Some Ch.lbracket ∧ s (a + 1) = Some Ch.rbracket)
  ∨ (s a = Some Ch.lbrace ∧ s (a + 1) = Some Ch.rbrace) →
  body_runs s sp0 first n room a (a + 2).
Proof.
  intros Hch Ha Hn kd sp l Hl Hcur Hp Hopen.
  replace (nesting s first a + 2) with (nesting s first a + 1 + 1) in Hp by lia.
  replace (a + 2 - 1) with (a + 1) by lia. replace (a + 2) with (a + 1 + 1) by lia.
  destruct Hch as [[Ho Hc]|[Ho Hc]].
  - eapply (closing_runs l Ch.rbracket); eauto; [|lia..].
    destruct Hl as [[Ho' _]|[_ ->]]; [rewrite Ho in Ho'; by vm_compute in Ho'|auto].
  - eapply (closing_runs l Ch.rbrace); eauto; [|lia..].
    destruct Hl as [[_ ->]|[Ho' _]]; [auto 10|rewrite Ho in Ho'; by vm_compute in Ho'].
Qed.

(** A bracket inside an array or an object: the scope is opened and its
    body read. *)
Lemma nested_of_body a c :
  s a = Some Ch.lbrace ∨ s a = Some Ch.lbracket → a < c →
  body_runs s sp0 first n room a c → value_runs s sp0 first n room a c.
Proof.
  intros Hch Hac Hbody Ha Hn kd sp Hready Hp. pose proof Hp as Hp'. unpack Hp'.
  assert (∃ ch l, s a = Some ch
                  ∧ ((ch = Ch.lbrace ∧ l = L.object_begin)
                     ∨ (ch = Ch.lbracket ∧ l = L.array_begin)))
    as (ch & l & Hsa & Hl) by (destruct Hch; eauto 10).
  assert (bracket_change ch = 1) as Hbc by (by destruct Hl as [[-> _]|[-> _]]).
  pose proof (nesting_step s first a ch ltac:(lia) Hsa) as Hnest.
  pose proof (Hdepth (a + 1) ltac:(lia)) as Hdeep.
  destruct (text_at sp a ch Hlay ltac:(lia) Hsa) as (idx & Hidx & Hbyte).
  destruct (enter_open kd sp a idx ch l Hl Hready Hidx Hbyte)
    as (sp1 & CS1 & RA1 & Hs1 & Hst1 & Hsr1 & Hlay1 & Hf1).
  { lia. }
  { lia. }
  { rewrite Hdep, Hmd, wrap32_depth; lia. }
  destruct Hf1 as (Hc1 & Hd1 & Hl1 & Hsl1 & Hcs1 & Hra1).
  rewrite Hdep, wrap32_depth in Hd1 by lia. rewrite Hdep in Hst1, Hsr1. subst CS1 RA1.
  pose proof (same_layout_trans _ _ _ Hlay Hlay1) as Hlay01.
  destruct (Hbody ltac:(lia) Hn kd sp1 l) as (sp' & Hr & Hc' & Hp' & Hk').
  - destruct Hl as [[-> ->]|[-> ->]]; auto.
  - done.
  - split_and!; first [done|lia|nia].
  - split; [by eapply load_store_eq|].
    eexists. split; [by eapply load_store_eq|]. simpl.
    destruct Hlay1 as (_ & _ & _ & _ & _ & _ & _ & Htl1 & _). rewrite Htl1.
    unfold wrap32.
    pose proof (Z.mod_pos_bound (next_tape_loc sp) (2 ^ 32) ltac:(lia)).
    pose proof (Z.mod_le (next_tape_loc sp) (2 ^ 32) ltac:(lia) ltac:(lia)). lia.
  - exists sp'. split_and!; try done.
    + eapply reaches_step; [exact Hs1|done].
    + eapply keeps_trans; [|exact Hk']. by eapply keeps_open.
Qed.

Lemma open_scope_kept d r sp sp' d1 d2 b1 b2 :
  poised sp0 first room sp d1 b1 → poised sp0 first room sp' d2 b2 →
  keeps (d + 1) sp sp' → open_scope sp d r → open_scope sp' d r.
Proof.
  intros (Hlay & _) (Hlay' & _) Hk (Hra' & sc & Hsc & Hti).
  destruct (Hk d ltac:(lia)) as [Hcs1 Hra1].
  destruct Hlay as (_ & _ & _ & _ & _ & _ & _ & Htl & _).
  destruct Hlay' as (_ & _ & _ & _ & _ & _ & _ & Htl' & _).
  split; [congruence|]. exists sc. split; [congruence|]. rewrite Htl'. lia.
Qed.

Lemma nesting_key b :
  first ≤ b → s b = Some Ch.quote → s (b + 1) = Some Ch.colon →
  nesting s first (b + 2) = nesting s first b.
Proof.
  intros Hb Hq Hcol. replace (b + 2) with (b + 1 + 1) by lia.
  rewrite (nesting_step s first (b + 1) _ ltac:(lia) Hcol),
    (nesting_step s first b _ Hb Hq).
  unfold bracket_change. simpl. lia.
Qed.

(** One more element and its comma. *)
Lemma elements_snoc_runs a b c :
  elements_in s a b → value_in s b c → s c = Some Ch.comma →
  elements_run s sp0 first n room a b → value_runs s sp0 first n room b c →
  elements_run s sp0 first n room a (c + 1).
Proof.
  intros Hel Hval Hcomma IHe IHv Ha Hn sp r Hcur Hp Hopen.
  pose proof (text_spans s) as (Hsv & Hse & _).
  apply Hse in Hel as Hab. apply Hsv in Hval as Hbc.
  pose proof (proj1 (proj2 (text_balanced s first)) _ _ Hel ltac:(lia)) as Hnb.
  destruct (IHe Ha ltac:(lia) sp r Hcur Hp Hopen)
    as (sp1 & Hr1 & Hc1 & Hp1 & Hk1 & Hopen1).
  destruct (IHv ltac:(lia) ltac:(lia) of_array sp1)
    as (sp2 & Hr2 & Hc2 & Hp2 & Hk2).
  { simpl. lia. }
  { by rewrite Hnb. }
  rewrite Hnb in Hp2, Hk2.
  pose proof (open_scope_kept _ _ _ _ _ _ _ _ Hp1 Hp2 Hk2 Hopen1) as Hopen2.
  pose proof Hp2 as Hp2'. unpack Hp2'.
  destruct Hopen2 as (Hr & sc & Hsc & Hti).
  pose proof (load_Some_range _ _ _ Hr) as Hd0.
  assert (wrap32 (depth sp2 - 1) = nesting s first a) as Hw.
  { rewrite Hdep. replace (nesting s first a + 1 - 1) with (nesting s first a) by lia.
    apply wrap32_depth. lia. }
  destruct (array_continue_comma sp2 sc)
    as (sp3 & CS3 & Hs3 & Hst3 & Hlay3 & Hf3).
  { rewrite (text_same _ _ Hlay) by lia. by replace (current_structural sp2 + 1) with c by lia. }
  { by rewrite Hw. }
  destruct Hf3 as (Hc3 & Hd3 & Hl3 & Hsl3 & Hcs3 & Hra3). rewrite Hw in Hst3. subst CS3.
  exists sp3. split_and!.
  - eapply reaches_trans; [exact Hr1|]. eapply reaches_trans; [exact Hr2|].
    by apply reaches_one.
  - lia.
  - split_and!; first [lia|nia|by eapply same_layout_trans].
  - eapply keeps_trans; [exact Hk1|]. eapply keeps_trans.
    + eapply keeps_le; [|exact Hk2]. lia.
    + eapply keeps_count; [exact Hst3|done|lia].
  - eapply open_scope_count; [exact Hsc|exact Hst3|done|done|]. split; eauto.
Qed.

(** One more member and its comma, up to the key that follows. *)
Lemma members_snoc_runs a b c :
  members_in s a b → s b = Some Ch.quote → s (b + 1) = Some Ch.colon →
  value_in s (b + 2) c → s c = Some Ch.comma →
  members_run s sp0 first n room a b → value_runs s sp0 first n room (b + 2) c →
  members_run s sp0 first n room a (c + 1).
Proof.
  intros Hmem Hq Hcol Hval Hcomma IHm IHv Ha Hn sp r Hcur Hq' Hp Hopen.
  pose proof (text_spans s) as (Hsv & _ & Hsm).
  apply Hsm in Hmem as Hab. apply Hsv in Hval as Hbc.
  pose proof (proj2 (proj2 (text_balanced s first)) _ _ Hmem ltac:(lia)) as Hnb.
  pose proof (nesting_key b ltac:(lia) Hq Hcol) as Hnk.
  destruct (IHm Ha ltac:(lia) sp r Hcur Hq Hp Hopen)
    as (sp1 & Hr1 & Hc1 & Hp1 & Hk1 & Hopen1).
  destruct (IHv ltac:(lia) ltac:(lia) of_object sp1)
    as (sp2 & Hr2 & Hc2 & Hp2 & Hk2).
  { simpl. split; [lia|]. rewrite (text_same _ _ (proj1 Hp1)) by lia.
    by replace (current_structural sp1 + 1) with (b + 1) by lia. }
  { rewrite Hnk, Hnb. eapply poised_later; [|exact Hp1]. lia. }
  rewrite Hnk, Hnb in Hp2, Hk2.
  pose proof (open_scope_kept _ _ _ _ _ _ _ _ Hp1 Hp2 Hk2 Hopen1) as Hopen2.
  pose proof Hp2 as Hp2'. unpack Hp2'.
  destruct Hopen2 as (Hr & sc & Hsc & Hti).
  pose proof (load_Some_range _ _ _ Hr) as Hd0.
  assert (wrap32 (depth sp2 - 1) = nesting s first a) as Hw.
  { rewrite Hdep. replace (nesting s first a + 1 - 1) with (nesting s first a) by lia.
    apply wrap32_depth. lia. }
  destruct (text_at sp2 (c + 1) _ Hlay ltac:(lia) Hq') as (idx & Hidx & Hbyte).
  pose proof (Hscalars (c + 1) ltac:(lia)) as Hok.
  destruct (parses_string _ _ _ _ idx Hok) as (body & Hbody & Hfit);
    [by rewrite <- Hsi|by rewrite <- Hbuf|]. rewrite <- Hbuf in Hbody.
  pose proof (room_at c ltac:(lia)) as Hrc.
  destruct (object_continue_key sp2 idx sc body)
    as (sp3 & CS3 & Hs3 & Hst3 & Hlay3 & Hf3).
  { rewrite (text_same _ _ Hlay) by lia. by replace (current_structural sp2 + 1) with c by lia. }
  { by replace (current_structural sp2 + 1 + 1) with (c + 1) by lia. }
  { done. }
  { by rewrite Hw. }
  { done. }
  { lia. }
  { lia. }
  { lia. }
  destruct Hf3 as (Hc3 & Hd3 & Hl3 & Hsl3 & Hcs3 & Hra3). rewrite Hw in Hst3. subst CS3.
  exists sp3. split_and!.
  - eapply reaches_trans; [exact Hr1|]. eapply reaches_trans; [exact Hr2|].
    by apply reaches_one.
  - lia.
  - split_and!; first [lia|nia|by eapply same_layout_trans].
  - eapply keeps_trans; [exact Hk1|]. eapply keeps_trans.
    + eapply keeps_le; [|exact Hk2]. lia.
    + eapply keeps_count; [exact Hst3|done|lia].
  - eapply open_scope_count; [exact Hsc|exact Hst3|done|done|]. split; eauto.
Qed.

(** An array with elements, once its bracket is open. *)
Lemma array_body_runs a b c :
  s a = Some Ch.lbracket → elements_in s (a + 1) b → value_in s b c →
  s c = Some Ch.rbracket →
  elements_run s sp0 first n room (a + 1) b → value_runs s sp0 first n room b c →
  body_runs s sp0 first n room a (c + 1).
Proof.
  intros Ho Hel Hval Hclose IHe IHv Ha Hn kd sp l Hl Hcur Hp Hopen.
  assert (l = L.array_begin) as ->.
  { destruct Hl as [[Ho' _]|[_ ->]]; [rewrite Ho in Ho'; by vm_compute in Ho'|done]. }
  pose proof (text_spans s) as (Hsv & Hse & _).
  apply Hse in Hel as Hab. apply Hsv in Hval as Hbc.
  pose proof (proj1 (proj2 (text_balanced s first)) _ _ Hel ltac:(lia)) as Hnb.
  pose proof (nesting_step s first a _ Ha Ho) as Hna.
  change (bracket_change Ch.lbracket) with 1 in Hna.
  destruct (elements_in_first _ _ _ Hel _ Hval) as (ch0 & Hch0 & Hne).
  pose proof Hp as Hp'. unpack Hp'.
  pose proof Hopen as (Hr & sc & Hsc & Hti).
  pose proof (load_Some_range _ _ _ Hr) as Hd0.
  assert (wrap32 (depth sp - 1) = nesting s first a + 1) as Hw.
  { rewrite Hdep.
    replace (nesting s first a + 2 - 1) with (nesting s first a + 1) by lia.
    apply wrap32_depth. lia. }
  destruct (array_begin_more sp ch0 sc)
    as (sp1 & CS1 & Hs1 & Hst1 & Hlay1 & Hf1).
  { rewrite (text_same _ _ Hlay) by lia. by replace (current_structural sp + 1) with (a + 1) by lia. }
  { done. }
  { by rewrite Hw. }
  destruct Hf1 as (Hc1 & Hd1 & Hl1 & Hsl1 & Hcs1 & Hra1). rewrite Hw in Hst1. subst CS1.
  assert (poised sp0 first room sp1 (nesting s first a + 2) (a + 1)) as Hp1.
  { split_and!; first [lia|nia|by eapply same_layout_trans]. }
  assert (open_scope sp1 (nesting s first a + 1) (address_of kd)) as Hopen1.
  { eapply open_scope_count; [exact Hsc|exact Hst1|done|done|done]. }
  destruct (IHe ltac:(lia) ltac:(lia) sp1 (address_of kd))
    as (sp2 & Hr2 & Hc2 & Hp2 & Hk2 & Hopen2).
  { lia. }
  { rewrite Hna. by replace (nesting s first a + 1 + 1) with (nesting s first a + 2) by lia. }
  { by rewrite Hna. }
  destruct (IHv ltac:(lia) ltac:(lia) of_array sp2)
    as (sp3 & Hr3 & Hc3 & Hp3 & Hk3).
  { simpl. lia. }
  { by rewrite Hnb. }
  rewrite Hnb in Hp3, Hk3. rewrite Hna in Hp2, Hk2, Hopen2, Hp3, Hk3.
  pose proof (open_scope_kept _ _ _ _ _ _ _ _ Hp2 Hp3 Hk3 Hopen2) as Hopen3.
  destruct (closing_runs L.array_continue Ch.rbracket sp3 kd c (nesting s first a + 1))
    as (sp4 & Hr4 & Hc4 & Hp4 & Hk4); auto; [lia|].
  exists sp4. split_and!.
  - eapply reaches_step; [exact Hs1|]. eapply reaches_trans; [exact Hr2|].
    eapply reaches_trans; [exact Hr3|]. exact Hr4.
  - lia.
  - done.
  - eapply keeps_trans; [eapply keeps_count; [exact Hst1|done|lia]|].
    eapply keeps_trans; [exact Hk2|].
    eapply keeps_trans; [|exact Hk4]. eapply keeps_le; [|exact Hk3]. lia.
Qed.

(** An object with members, once its bracket is open. *)
Lemma object_body_runs a b c :
  s a = Some Ch.lbrace → members_in s (a + 1) b →
  s b = Some Ch.quote → s (b + 1) = Some Ch.colon → value_in s (b + 2) c →
  s c = Some Ch.rbrace →
  members_run s sp0 first n room (a + 1) b → value_runs s sp0 first n room (b + 2) c →
  body_runs s sp0 first n room a (c + 1).
Proof.
  intros Ho Hmem Hq Hcol Hval Hclose IHm IHv Ha Hn kd sp l Hl Hcur Hp Hopen.
  assert (l = L.object_begin) as ->.
  { destruct Hl as [[_ ->]|[Ho' _]]; [done|rewrite Ho in Ho'; by vm_compute in Ho']. }
  pose proof (text_spans s) as (Hsv & _ & Hsm).
  apply Hsm in Hmem as Hab. apply Hsv in Hval as Hbc.
  pose proof (proj2 (proj2 (text_balanced s first)) _ _ Hmem ltac:(lia)) as Hnb.
  pose proof (nesting_key b ltac:(lia) Hq Hcol) as Hnk.
  pose proof (nesting_step s first a _ Ha Ho) as Hna.
  change (bracket_change Ch.lbrace) with 1 in Hna.
  pose proof (members_in_first _ _ _ Hmem Hq) as Hq1.
  pose proof Hp as Hp'. unpack Hp'.
  pose proof Hopen as (Hr & sc & Hsc & Hti).
  pose proof (load_Some_range _ _ _ Hr) as Hd0.
  assert (wrap32 (depth sp - 1) = nesting s first a + 1) as Hw.
  { rewrite Hdep.
    replace (nesting s first a + 2 - 1) with (nesting s first a + 1) by lia.
    apply wrap32_depth. lia. }
  destruct (text_at sp (a + 1) _ Hlay ltac:(lia) Hq1) as (idx & Hidx & Hbyte).
  pose proof (Hscalars (a + 1) ltac:(lia)) as Hok.
  destruct (parses_string _ _ _ _ idx Hok) as (body & Hbody & Hfit);
    [by rewrite <- Hsi|by rewrite <- Hbuf|]. rewrite <- Hbuf in Hbody.
  pose proof (room_at (a + 1) ltac:(lia)) as Hrc.
  destruct (object_begin_key sp idx sc body)
    as (sp1 & CS1 & Hs1 & Hst1 & Hlay1 & Hf1).
  { by replace (current_structural sp + 1) with (a + 1) by lia. }
  { done. }
  { by rewrite Hw. }
  { done. }
  { lia. }
  { lia. }
  { lia. }
  destruct Hf1 as (Hc1 & Hd1 & Hl1 & Hsl1 & Hcs1 & Hra1). rewrite Hw in Hst1. subst CS1.
  assert (poised sp0 first room sp1 (nesting s first a + 2) (a + 1 + 1)) as Hp1.
  { split_and!; first [lia|nia|by eapply same_layout_trans]. }
  assert (open_scope sp1 (nesting s first a + 1) (address_of kd)) as Hopen1.
  { eapply open_scope_count; [exact Hsc|exact Hst1|done|done|done]. }
  destruct (IHm ltac:(lia) ltac:(lia) sp1 (address_of kd))
    as (sp2 & Hr2 & Hc2 & Hp2 & Hk2 & Hopen2).
  { lia. }
  { done. }
  { rewrite Hna. by replace (nesting s first a + 1 + 1) with (nesting s first a + 2) by lia. }
  { by rewrite Hna. }
  destruct (IHv ltac:(lia) ltac:(lia) of_object sp2)
    as (sp3 & Hr3 & Hc3 & Hp3 & Hk3).
  { simpl. split; [lia|]. rewrite (text_same _ _ (proj1 Hp2)) by lia.
    by replace (current_structural sp2 + 1) with (b + 1) by lia. }
  { rewrite Hnk, Hnb. eapply poised_later; [|exact Hp2]. lia. }
  rewrite Hnk, Hnb in Hp3, Hk3. rewrite Hna in Hp2, Hk2, Hopen2, Hp3, Hk3.
  pose proof (open_scope_kept _ _ _ _ _ _ _ _ Hp2 Hp3 Hk3 Hopen2) as Hopen3.
  destruct (closing_runs L.object_continue Ch.rbrace sp3 kd c (nesting s first a + 1))
    as (sp4 & Hr4 & Hc4 & Hp4 & Hk4); auto 10; [lia|].
  exists sp4. split_and!.
  - eapply reaches_step; [exact Hs1|]. eapply reaches_trans; [exact Hr2|].
    eapply reaches_trans; [exact Hr3|]. exact Hr4.
  - lia.
  - done.
  - eapply keeps_trans; [eapply keeps_count; [exact Hst1|done|lia]|].
    eapply keeps_trans; [exact Hk2|].
    eapply keeps_trans; [|exact Hk4]. eapply keeps_le; [|exact Hk3]. lia.
Qed.

(** The machine follows the grammar. *)
Lemma text_runs :
  (∀ a c, value_in s a c →
          value_runs s sp0 first n room a c ∧ body_runs s sp0 first n room a c)
  ∧ (∀ a b, elements_in s a b → elements_run s sp0 first n room a b)
  ∧ (∀ a b, members_in s a b → members_run s sp0 first n room a b).
Proof.
  apply text_mutind.
  - intros a ch Hch Hsc. split; [by eapply scalar_runs|].
    intros _ _ kd sp l Hl. exfalso.
    apply scalar_start_change in Hsc.
    destruct Hl as [[Ho _]|[Ho _]]; rewrite Hch in Ho; injection Ho as ->;
      by vm_compute in Hsc.
  - intros a Ho Hc.
    assert (body_runs s sp0 first n room a (a + 2)) as Hb
      by (apply empty_body_runs; auto).
    split; [apply nested_of_body; auto; lia|done].
  - intros a b c Ho Hel IHe Hval [IHv _] Hc.
    assert (body_runs s sp0 first n room a (c + 1)) as Hb
      by (by eapply array_body_runs).
    pose proof (text_spans s) as (Hsv & Hse & _).
    apply Hse in Hel. apply Hsv in Hval.
    split; [apply nested_of_body; auto; lia|done].
  - intros a Ho Hc.
    assert (body_runs s sp0 first n room a (a + 2)) as Hb
      by (apply empty_body_runs; auto).
    split; [apply nested_of_body; auto; lia|done].
  - intros a b c Ho Hmem IHm Hq Hcol Hval [IHv _] Hc.
    assert (body_runs s sp0 first n room a (c + 1)) as Hb
      by (by eapply object_body_runs).
    pose proof (text_spans s) as (Hsv & _ & Hsm).
    apply Hsm in Hmem. apply Hsv in Hval.
    split; [apply nested_of_body; auto; lia|done].
  - intros a _ _ sp r Hcur Hp Hopen. exists sp.
    split_and!; first [done|apply reaches_here|apply keeps_refl|lia].
  - intros a b c Hel IHe Hval [IHv _] Hc. by eapply elements_snoc_runs.
  - intros a _ _ sp r Hcur _ Hp Hopen. exists sp.
    split_and!; first [done|apply reaches_here|apply keeps_refl|lia].
  - intros a b c Hmem IHm Hq Hcol Hval [IHv _] Hc. by eapply members_snoc_runs.
Qed.

(** *** The machine on a text that is too deep *)

(** The structural [n] is an opening bracket that brings the depth to the
    limit. *)
Hypothesis Hbracket : s n = Some Ch.lbrace ∨ s n = Some Ch.lbracket.
Hypothesis Hlimit : max_depth (parser sp0) ≤ nesting s first n + 2.
Hypothesis Hmax32 : max_depth (parser sp0) < 2 ^ 32.

Lemma sunk_reaches l sp l1 sp1 :
  reaches l sp l1 sp1 → sunk sp0 l1 sp1 → sunk sp0 l sp.
Proof.
  intros Hr (sp' & Hr' & Hlay & Hd). exists sp'. split; [|done].
  by eapply reaches_trans.
Qed.

Lemma not_open ch :
  s n = Some ch → bracket_change ch ≠ 1 → False.
Proof.
  intros Hch Hbc. destruct Hbracket as [Ho|Ho]; rewrite Ho in Hch;
    injection Hch as <-; by vm_compute in Hbc.
Qed.

(** The bracket at [n], read inside an array or an object. *)
Lemma enter_sinks kd sp :
  first < n → entry_ready kd sp n →
  poised sp0 first room sp (nesting s first n + 1) n →
  sunk sp0 (entry_label kd) sp.
Proof.
  intros Hn Hready Hp. unpack Hp.
  assert (∃ ch, s n = Some ch ∧ (ch = Ch.lbrace ∨ ch = Ch.lbracket))
    as (ch & Hsn & Hch) by (destruct Hbracket; eauto).
  destruct (text_at sp n ch Hlay ltac:(lia) Hsn) as (idx & Hidx & Hbyte).
  destruct (enter_deep kd sp n idx ch Hch Hready Hidx Hbyte)
    as (sp' & Hs & Hlay' & Hd').
  { lia. }
  { lia. }
  { rewrite Hdep, Hmd, wrap32_small; lia. }
  rewrite Hdep, wrap32_small in Hd' by lia.
  exists sp'. split_and!.
  - by apply reaches_one.
  - by eapply same_layout_trans.
  - lia.
Qed.

(** A bracket before [n] is opened. *)
Lemma opening kd sp a :
  s a = Some Ch.lbrace ∨ s a = Some Ch.lbracket →
  first < a → a + 1 ≤ n →
  entry_ready kd sp a →
  poised sp0 first room sp (nesting s first a + 1) a →
  ∃ l sp1,
    ((s a = Some Ch.lbrace ∧ l = L.object_begin)
     ∨ (s a = Some Ch.lbracket ∧ l = L.array_begin))
    ∧ step (entry_label kd) sp = Some (goto l, sp1)
    ∧ current_structural sp1 = a
    ∧ poised sp0 first room sp1 (nesting s first a + 2) (a + 1)
    ∧ open_scope sp1 (nesting s first a + 1) (address_of kd).
Proof.
  intros Hch Ha Hn kd' Hp. pose proof Hp as Hp'. unpack Hp'.
  assert (∃ ch l, s a = Some ch
                  ∧ ((ch = Ch.lbrace ∧ l = L.object_begin)
                     ∨ (ch = Ch.lbracket ∧ l = L.array_begin)))
    as (ch & l & Hsa & Hl) by (destruct Hch; eauto 10).
  assert (bracket_change ch = 1) as Hbc by (by destruct Hl as [[-> _]|[-> _]]).
  pose proof (nesting_step s first a ch ltac:(lia) Hsa) as Hnest.
  pose proof (Hdepth (a + 1) ltac:(lia)) as Hdeep.
  destruct (text_at sp a ch Hlay ltac:(lia) Hsa) as (idx & Hidx & Hbyte).
  destruct (enter_open kd sp a idx ch l Hl kd' Hidx Hbyte)
    as (sp1 & CS1 & RA1 & Hs1 & Hst1 & Hsr1 & Hlay1 & Hf1).
  { lia. }
  { lia. }
  { rewrite Hdep, Hmd, wrap32_depth; lia. }
  destruct Hf1 as (Hc1 & Hd1 & Hl1 & Hsl1 & Hcs1 & Hra1).
  rewrite Hdep, wrap32_depth in Hd1 by lia. rewrite Hdep in Hst1, Hsr1. subst CS1 RA1.
  pose proof (same_layout_trans _ _ _ Hlay Hlay1) as Hlay01.
  exists l, sp1. split_and!; try done.
  - destruct Hl as [[-> ->]|[-> ->]]; auto.
  - split_and!; first [done|lia|nia].
  - split; [by eapply load_store_eq|].
    eexists. split; [by eapply load_store_eq|]. simpl.
    destruct Hlay1 as (_ & _ & _ & _ & _ & _ & _ & Htl1 & _). rewrite Htl1.
    unfold wrap32.
    pose proof (Z.mod_pos_bound (next_tape_loc sp) (2 ^ 32) ltac:(lia)).
    pose proof (Z.mod_le (next_tape_loc sp) (2 ^ 32) ltac:(lia) ltac:(lia)). lia.
Qed.

Lemma nested_sinks a c :
  s a = Some Ch.lbrace ∨ s a = Some Ch.lbracket →
  body_sinks s sp0 first n room a c → value_sinks s sp0 first n room a c.
Proof.
  intros Hch Hbody Ha [Han Hnc] kd sp Hready Hp.
  destruct (decide (a = n)) as [Hn|Hne].
  { rewrite Hn in Hready, Hp, Ha. by apply enter_sinks. }
  destruct (opening kd sp a Hch Ha ltac:(lia) Hready Hp)
    as (l & sp1 & Hl & Hs1 & Hc1 & Hp1 & Hopen1).
  eapply sunk_reaches; [by apply reaches_one|].
  eapply (Hbody ltac:(lia) ltac:(lia) kd sp1 l); done.
Qed.

(** A non-empty array or object before [n] is started. *)
Lemma array_started a ch0 sp r :
  s (a + 1) = Some ch0 → ch0 ≠ Ch.rbracket → a + 1 ≤ n →
  current_structural sp = a →
  poised sp0 first room sp (nesting s first a + 2) (a + 1) →
  open_scope sp (nesting s first a + 1) r →
  ∃ sp1, step L.array_begin sp = Some (goto L.main_array_switch, sp1)
         ∧ current_structural sp1 = a
         ∧ poised sp0 first room sp1 (nesting s first a + 2) (a + 1)
         ∧ open_scope sp1 (nesting s first a + 1) r.
Proof.
  intros Hch0 Hne Hn Hcur Hp Hopen'. pose proof Hp as Hp'. unpack Hp'.
  pose proof Hopen' as (Hr & sc & Hsc & Hti).
  pose proof (load_Some_range _ _ _ Hr) as Hd0.
  assert (wrap32 (depth sp - 1) = nesting s first a + 1) as Hw.
  { rewrite Hdep.
    replace (nesting s first a + 2 - 1) with (nesting s first a + 1) by lia.
    apply wrap32_depth. lia. }
  destruct (array_begin_more sp ch0 sc)
    as (sp1 & CS1 & Hs1 & Hst1 & Hlay1 & Hf1).
  { rewrite (text_same _ _ Hlay) by lia.
    by replace (current_structural sp + 1) with (a + 1) by lia. }
  { done. }
  { by rewrite Hw. }
  destruct Hf1 as (Hc1 & Hd1 & Hl1 & Hsl1 & Hcs1 & Hra1). rewrite Hw in Hst1. subst CS1.
  exists sp1. split_and!; try done.
  - lia.
  - split_and!; first [lia|nia|by eapply same_layout_trans].
  - eapply open_scope_count; [exact Hsc|exact Hst1|done|done|done].
Qed.

Lemma object_started a sp r :
  s (a + 1) = Some Ch.quote → first ≤ a → a + 1 < n →
  current_structural sp = a →
  poised sp0 first room sp (nesting s first a + 2) (a + 1) →
  open_scope sp (nesting s first a + 1) r →
  ∃ sp1, step L.object_begin sp = Some (goto L.object_key_state, sp1)
         ∧ current_structural sp1 = a + 1
         ∧ poised sp0 first room sp1 (nesting s first a + 2) (a + 1 + 1)
         ∧ open_scope sp1 (nesting s first a + 1) r.
Proof.
  intros Hq1 Ha Hn Hcur Hp Hopen'. pose proof Hp as Hp'. unpack Hp'.
  pose proof Hopen' as (Hr & sc & Hsc & Hti).
  pose proof (load_Some_range _ _ _ Hr) as Hd0.
  assert (wrap32 (depth sp - 1) = nesting s first a + 1) as Hw.
  { rewrite Hdep.
    replace (nesting s first a + 2 - 1) with (nesting s first a + 1) by lia.
    apply wrap32_depth. lia. }
  destruct (text_at sp (a + 1) _ Hlay ltac:(lia) Hq1) as (idx & Hidx & Hbyte).
  pose proof (Hscalars (a + 1) ltac:(lia)) as Hok.
  destruct (parses_string _ _ _ _ idx Hok) as (body & Hbody & Hfit);
    [by rewrite <- Hsi|by rewrite <- Hbuf|]. rewrite <- Hbuf in Hbody.
  pose proof (room_at (a + 1) ltac:(lia)) as Hrc.
  destruct (object_begin_key sp idx sc body)
    as (sp1 & CS1 & Hs1 & Hst1 & Hlay1 & Hf1).
  { by replace (current_structural sp + 1) with (a + 1) by lia. }
  { done. }
  { by rewrite Hw. }
  { done. }
  { lia. }
  { lia. }
  { lia. }
  destruct Hf1 as (Hc1 & Hd1 & Hl1 & Hsl1 & Hcs1 & Hra1). rewrite Hw in Hst1. subst CS1.
  exists sp1. split_and!; try done.
  - lia.
  - split_and!; first [lia|nia|by eapply same_layout_trans].
  - eapply open_scope_count; [exact Hsc|exact Hst1|done|done|done].
Qed.

(** The machine follows the grammar down to the bracket at [n]. *)
Lemma text_sinks :
  (∀ a c, value_in s a c →
          value_sinks s sp0 first n room a c ∧ body_sinks s sp0 first n room a c)
  ∧ (∀ a b, elements_in s a b → elements_sink s sp0 first n room a b)
  ∧ (∀ a b, members_in s a b → members_sink s sp0 first n room a b).
Proof.
  pose proof text_runs as (Hvr & Her & Hmr).
  pose proof (text_spans s) as (Hsv & Hse & Hsm).
  pose proof (text_balanced s first) as (Hbv & Hbe & Hbm).
  apply text_mutind.
  - intros a ch Hch Hsc. apply scalar_start_change in Hsc. split.
    + intros _ Han. replace a with n in Hch by lia.
      exfalso. apply (not_open ch Hch). lia.
    + intros _ Han. lia.
  - intros a Ho Hc.
    assert (body_sinks s sp0 first n room a (a + 2)) as Hb.
    { intros _ Han. replace (a + 1) with n in Hc by lia.
      exfalso. by apply (not_open _ Hc). }
    split; [apply nested_sinks; auto|done].
  - intros a b c Ho Hel IHe Hval [IHv _] Hc.
    assert (body_sinks s sp0 first n room a (c + 1)) as Hb.
    { intros Ha Han kd sp l Hl Hcur Hp Hopen'.
      assert (l = L.array_begin) as ->.
      { destruct Hl as [[Ho' _]|[_ ->]]; [rewrite Ho in Ho'; by vm_compute in Ho'|done]. }
      assert (n ≠ c) as Hnc by (intros Hn; rewrite <- Hn in Hc; by apply (not_open _ Hc)).
      pose proof (Hse _ _ Hel) as Hab. pose proof (Hsv _ _ Hval) as Hbc.
      pose proof (Hbe _ _ Hel ltac:(lia)) as Hnb.
      pose proof (nesting_step s first a _ Ha Ho) as Hna.
      change (bracket_change Ch.lbracket) with 1 in Hna.
      destruct (elements_in_first _ _ _ Hel _ Hval) as (ch0 & Hch0 & Hne).
      destruct (array_started a ch0 sp (address_of kd) Hch0 Hne ltac:(lia) Hcur Hp Hopen')
        as (sp1 & Hs1 & Hc1 & Hp1 & Hopen1).
      eapply sunk_reaches; [by apply reaches_one|].
      replace (nesting s first a + 2) with (nesting s first (a + 1) + 1) in Hp1 by lia.
      rewrite <- Hna in Hopen1.
      destruct (decide (n < b)) as [Hlt|Hge].
      - eapply (IHe ltac:(lia) ltac:(lia) sp1); [lia|done|done].
      - destruct (Her _ _ Hel ltac:(lia) ltac:(lia) sp1 (address_of kd))
          as (sp2 & Hr2 & Hc2 & Hp2 & _); [lia|done|done|].
        eapply sunk_reaches; [exact Hr2|].
        eapply (IHv ltac:(lia) ltac:(lia) of_array sp2); [simpl; lia|].
        by rewrite Hnb. }
    split; [apply nested_sinks; auto|done].
  - intros a Ho Hc.
    assert (body_sinks s sp0 first n room a (a + 2)) as Hb.
    { intros _ Han. replace (a + 1) with n in Hc by lia.
      exfalso. by apply (not_open _ Hc). }
    split; [apply nested_sinks; auto|done].
  - intros a b c Ho Hmem IHm Hq Hcol Hval [IHv _] Hc.
    assert (body_sinks s sp0 first n room a (c + 1)) as Hb.
    { intros Ha Han kd sp l Hl Hcur Hp Hopen'.
      assert (l = L.object_begin) as ->.
      { destruct Hl as [[_ ->]|[Ho' _]]; [done|rewrite Ho in Ho'; by vm_compute in Ho']. }
      assert (n ≠ c) as Hnc by (intros Hn; rewrite <- Hn in Hc; by apply (not_open _ Hc)).
      assert (n ≠ b) as Hnb' by (intros Hn; rewrite <- Hn in Hq; by apply (not_open _ Hq)).
      assert (n ≠ b + 1) as Hnb'' by (intros Hn; rewrite <- Hn in Hcol; by apply (not_open _ Hcol)).
      pose proof (Hsm _ _ Hmem) as Hab. pose proof (Hsv _ _ Hval) as Hbc.
      pose proof (Hbm _ _ Hmem ltac:(lia)) as Hnb.
      pose proof (nesting_key b ltac:(lia) Hq Hcol) as Hnk.
      pose proof (nesting_step s first a _ Ha Ho) as Hna.
      change (bracket_change Ch.lbrace) with 1 in Hna.
      pose proof (members_in_first _ _ _ Hmem Hq) as Hq1.
      assert (n ≠ a + 1) as Hna' by (intros Hn; rewrite <- Hn in Hq1; by apply (not_open _ Hq1)).
      destruct (object_started a sp (address_of kd) Hq1 Ha ltac:(lia) Hcur Hp Hopen')
        as (sp1 & Hs1 & Hc1 & Hp1 & Hopen1).
      eapply sunk_reaches; [by apply reaches_one|].
      replace (nesting s first a + 2) with (nesting s first (a + 1) + 1) in Hp1 by lia.
      rewrite <- Hna in Hopen1.
      destruct (decide (n < b)) as [Hlt|Hge].
      - eapply (IHm ltac:(lia) ltac:(lia) sp1); done.
      - destruct (Hmr _ _ Hmem ltac:(lia) ltac:(lia) sp1 (address_of kd))
          as (sp2 & Hr2 & Hc2 & Hp2 & _); [done..|].
        eapply sunk_reaches; [exact Hr2|].
        eapply (IHv ltac:(lia) ltac:(lia) of_object sp2).
        + simpl. split; [lia|]. rewrite (text_same _ _ (proj1 Hp2)) by lia.
          by replace (current_structural sp2 + 1) with (b + 1) by lia.
        + rewrite Hnk, Hnb. eapply poised_later; [|exact Hp2]. lia. }
    split; [apply nested_sinks; auto|done].
  - intros a _ Han. lia.
  - intros a b c Hel IHe Hval [IHv _] Hc Ha Han sp r Hcur Hp Hopen'.
    assert (n ≠ c) as Hnc by (intros Hn; rewrite <- Hn in Hc; by apply (not_open _ Hc)).
    pose proof (Hse _ _ Hel) as Hab. pose proof (Hsv _ _ Hval) as Hbc.
    pose proof (Hbe _ _ Hel ltac:(lia)) as Hnb.
    destruct (decide (n < b)) as [Hlt|Hge].
    + eapply (IHe ltac:(lia) ltac:(lia) sp r); done.
    + destruct (Her _ _ Hel ltac:(lia) ltac:(lia) sp r)
        as (sp2 & Hr2 & Hc2 & Hp2 & _); [done..|].
      eapply sunk_reaches; [exact Hr2|].
      eapply (IHv ltac:(lia) ltac:(lia) of_array sp2); [simpl; lia|].
      by rewrite Hnb.
  - intros a _ Han. lia.
  - intros a b c Hmem IHm Hq Hcol Hval [IHv _] Hc Ha Han sp r Hcur Hp Hopen'.
    assert (n ≠ c) as Hnc by (intros Hn; rewrite <- Hn in Hc; by apply (not_open _ Hc)).
    assert (n ≠ b) as Hnb' by (intros Hn; rewrite <- Hn in Hq; by apply (not_open _ Hq)).
    assert (n ≠ b + 1) as Hnb'' by (intros Hn; rewrite <- Hn in Hcol; by apply (not_open _ Hcol)).
    pose proof (Hsm _ _ Hmem) as Hab. pose proof (Hsv _ _ Hval) as Hbc.
    pose proof (Hbm _ _ Hmem ltac:(lia)) as Hnb.
    pose proof (nesting_key b ltac:(lia) Hq Hcol) as Hnk.
    destruct (decide (n < b)) as [Hlt|Hge].
    + eapply (IHm ltac:(lia) ltac:(lia) sp r); done.
    + destruct (Hmr _ _ Hmem ltac:(lia) ltac:(lia) sp r)
        as (sp2 & Hr2 & Hc2 & Hp2 & _); [done..|].
      eapply sunk_reaches; [exact Hr2|].
      eapply (IHv ltac:(lia) ltac:(lia) of_object sp2).
      * simpl. split; [lia|]. rewrite (text_same _ _ (proj1 Hp2)) by lia.
        by replace (current_structural sp2 + 1) with (b + 1) by lia.
      * rewrite Hnk, Hnb. eapply poised_later; [|exact Hp2]. lia.
Qed.

End accepted_runs.
Section accepted.
Context `{collaborators}.

Lemma char_loads sp0 sp a ch :
  same_layout sp0 sp → structural_char (parser sp0) a = Some ch →
  ∃ idx, load (structural_indexes (parser sp)) a = Some idx
         ∧ load (buf (parser sp)) idx = Some ch.
Proof.
  intros (Hbuf & _ & Hsi & _) Hch. unfold structural_char in Hch.
  rewrite Hbuf, Hsi.
  destruct (load (structural_indexes (parser sp0)) a) as [idx|]; [|done]. eauto.
Qed.

Lemma within_depth_spec p first n a :
  within_depth p first n = true → first ≤ a ≤ n →
  nesting (structural_char p) first a + 1 < max_depth p.
Proof.
  unfold within_depth, nesting. rewrite forallb_forall. intros Hall Ha.
  apply Z.ltb_lt, Hall, in_seq. lia.
Qed.

Lemma scalars_parse_spec p room first n a :
  scalars_parse p room first n = true → first ≤ a < n →
  scalar_parses p room (bool_decide (a = first)) a = true.
Proof.
  unfold scalars_parse. rewrite forallb_forall. intros Hall Ha.
  specialize (Hall (Z.to_nat (a - first))). rewrite in_seq in Hall.
  replace (first + Z.of_nat (Z.to_nat (a - first))) with a in Hall by lia.
  replace (bool_decide (a = first)) with (Z.to_nat (a - first) =? 0)%nat;
    [apply Hall; lia|].
  case_bool_decide; [apply Nat.eqb_eq|apply Nat.eqb_neq]; lia.
Qed.

Lemma accepted_run STREAMING dom_parser doc0 sp1 l sp2 sp3 sp' :
  start (addr_finish addresses) (initial_parser STREAMING dom_parser doc0)
    = Some (SUCCESS, sp1) →
  read_first_value STREAMING sp1 = Some (goto l, sp2) →
  reaches l sp2 L.finish sp3 →
  step L.finish sp3 = Some (return_ SUCCESS, sp') →
  parse_structurals STREAMING dom_parser doc0 = Returned SUCCESS sp'.
Proof.
  intros Hst Hrd Hr Hfin.
  pose proof (parse_structurals_terminates STREAMING dom_parser doc0) as Hne.
  unfold parse_structurals in *. rewrite Hst, Hrd in *.
  destruct (reaches_returns _ _ _ _ _ _ Hr Hfin) as [fuel Hrun].
  by eapply run_more.
Qed.

Lemma accepted_finish STREAMING dom_parser doc0 sp1 l sp2 sp3 sc n :
  start (addr_finish addresses) (initial_parser STREAMING dom_parser doc0)
    = Some (SUCCESS, sp1) →
  read_first_value STREAMING sp1 = Some (goto l, sp2) →
  reaches l sp2 L.finish sp3 →
  depth sp3 = 1 → current_structural sp3 = n - 1 → 0 < n < 2 ^ 32 →
  load (containing_scope (parser sp3)) 0 = Some sc →
  0 ≤ tape_index sc < Z.of_nat (length (tape (doc (parser sp3)))) →
  0 ≤ next_tape_loc sp3 < Z.of_nat (length (tape (doc (parser sp3)))) →
  ∃ sp', parse_structurals STREAMING dom_parser doc0 = Returned SUCCESS sp'
         ∧ next_structural_index (parser sp') = n.
Proof.
  intros Hst Hrd Hr Hd Hc Hn Hsc Hti Hloc.
  assert (wrap32 (depth sp3 - 1) = 0) as Hw by (by rewrite Hd).
  destruct (finish_accepts sp3 sc) as (sp' & Hfin & Hnext); try done.
  { by rewrite Hw. }
  exists sp'. split; [by eapply accepted_run|].
  rewrite Hnext, Hc. replace (n - 1 + 1) with n by lia. apply wrap32_small. lia.
Qed.

(** X12. Well-formed texts are accepted.  When the structural bytes from the
    first one ([next_structural_index] for a streaming call, 0 otherwise)
    up to, not including, [n] are one value of the JSON grammar, the call
    returns [SUCCESS] with [next_structural_index = n], provided that:
    the parser is not at the end of the structural indexes; [n] fits 32
    bits; a non-streaming call on an array finds a closing bracket at the
    last structural index; fewer than [max_depth - 1] brackets are ever
    open; the scope and return-address arrays hold [max_depth] entries
    (at most 2^32); the tape holds two words for each structural and two
    more; every string decodes, every atom is valid and every number
    parses; and the string buffer holds [room] bytes for each structural,
    [room] being enough for any one string with its length and its
    terminator. *)
Theorem well_formed_text_is_accepted (STREAMING : bool) dom_parser doc0 first n room :
  first = (if STREAMING then next_structural_index dom_parser else 0) →
  value_in (structural_char dom_parser) first n →
  first < n_structural_indexes dom_parser →
  n < 2 ^ 32 →
  (STREAMING = false →
   structural_char dom_parser first = Some Ch.lbracket →
   structural_char dom_parser (wrap32 (n_structural_indexes dom_parser - 1))
   = Some Ch.rbracket) →
  within_depth dom_parser first n = true →
  max_depth dom_parser ≤ Z.of_nat (length (containing_scope dom_parser)) →
  max_depth dom_parser ≤ Z.of_nat (length (ret_address dom_parser)) →
  max_depth dom_parser ≤ 2 ^ 32 →
  2 * (n - first) + 2 ≤ Z.of_nat (length (tape doc0)) →
  scalars_parse dom_parser room first n = true →
  0 ≤ room →
  room * (n - first) ≤ Z.of_nat (length (string_buf doc0)) →
  ∃ sp', parse_structurals STREAMING dom_parser doc0 = Returned SUCCESS sp'
         ∧ next_structural_index (parser sp') = n.
Proof.
  intros Hfirst Hval Hnot_end Hn32 Hlast Hwd Hcs Hra Hmax Htape Hsc Hroom Hsbuf.
  set (sp0 := initial_parser STREAMING dom_parser doc0).
  assert (current_structural sp0 = first) as Hc0 by (by subst first).
  pose proof (text_spans (structural_char dom_parser)) as (Hsv & _ & _).
  apply Hsv in Hval as Hlt.
  pose proof (within_depth_spec _ _ _ first Hwd ltac:(lia)) as Hd1.
  rewrite nesting_first in Hd1.
  destruct (value_in_first _ _ _ Hval) as (ch0 & Hch0 & _).
  pose proof (structural_char_range _ _ (ex_intro _ ch0 Hch0)) as Hfr.
  destruct (start_succeeds sp0) as (sp1 & CS1 & RA1 & Hst & Hst1 & Hsr1 & Hlay1 & Hf1).
  { rewrite Hc0. simpl. done. }
  { simpl. lia. }
  { simpl. lia. }
  { simpl. rewrite wrap32_small; lia. }
  destruct Hf1 as (Hc1 & Hdp1 & Hl1 & Hsl1 & Hcs1 & Hra1).
  simpl in Hdp1, Hl1, Hsl1, Hst1, Hsr1. rewrite wrap32_small in Hdp1 by lia.
  rewrite Hc0 in Hc1. subst CS1 RA1.
  pose proof Hlay1 as (Hbuf & Hlen & Hsi & Hnsi & Hmd & Hcsl & Hral & Htl & Hsbl).
  simpl in Hbuf, Hlen, Hsi, Hnsi, Hmd, Hcsl, Hral, Htl, Hsbl.
  pose proof (load_store_eq _ _ _ _ Hst1) as Hroot.
  destruct (char_loads sp0 sp1 first ch0 Hlay1 Hch0) as (idx & Hidx & Hbyte).
  assert (load (structural_indexes dom_parser) first = Some idx) as Hidx0
    by (by rewrite <- Hsi).
  assert (load (buf dom_parser) idx = Some ch0) as Hbyte0 by (by rewrite <- Hbuf).
  rewrite <- Hc1 in Hidx.
  assert ((ch0 = Ch.lbrace ∨ ch0 = Ch.lbracket) ∨ scalar_start ch0) as Hkind.
  { inversion Hval; subst; simplify_eq; auto. }
  destruct Hkind as [Hopen|Hscal].
  - assert (∃ l, (ch0 = Ch.lbrace ∧ l = L.object_begin)
                 ∨ (ch0 = Ch.lbracket ∧ l = L.array_begin)) as [l Hl]
      by (destruct Hopen; eauto).
    assert (bracket_change ch0 = 1) as Hbc by (by destruct Hopen as [-> | ->]).
    pose proof (nesting_step _ first first _ ltac:(lia) Hch0) as Hn1.
    rewrite nesting_first, Hbc in Hn1.
    pose proof (within_depth_spec _ _ _ (first + 1) Hwd ltac:(lia)) as Hd2.
    rewrite Hn1 in Hd2.
    destruct (root_open STREAMING sp1 idx ch0 l)
      as (sp2 & CS2 & RA2 & Hrd & Hst2 & Hsr2 & Hlay2 & Hf2);
      [|exact Hidx|exact Hbyte|lia|lia|rewrite Hdp1, Hmd, wrap32_small; lia|].
    { destruct Hl as [[-> ->]|[-> ->]]; [by left|right]. split_and!; [done..|].
      intros HS. rewrite (structural_char_same_layout _ _ Hlay1), Hnsi.
      exact (Hlast HS Hch0). }
    destruct Hf2 as (Hc2 & Hdp2 & Hl2 & Hsl2 & Hcs2 & Hra2).
    rewrite Hdp1 in Hst2, Hsr2, Hdp2. rewrite wrap32_small in Hdp2 by lia.
    subst CS2 RA2.
    pose proof (same_layout_trans _ _ _ Hlay1 Hlay2) as Hlay02.
    pose proof (text_runs (structural_char dom_parser) sp0 first n room) as Htr.
    destruct Htr as ((_ & Hbody)%(λ Hv, Hv first n Hval) & _ & _).
    { done. }
    { intros a Ha'. exact (within_depth_spec dom_parser first n a Hwd Ha'). }
    { exact Hcs. }
    { exact Hra. }
    { exact Hmax. }
    { exact Htape. }
    { exact Hroom. }
    { exact Hsbuf. }
    { intros a Ha'.
      pose proof (scalars_parse_spec _ _ _ _ a Hsc ltac:(lia)) as Hok.
      rewrite bool_decide_eq_false_2 in Hok by lia. exact Hok. }
    unfold body_runs in Hbody. cbv zeta in Hbody. rewrite nesting_first in Hbody.
    destruct (Hbody ltac:(lia) ltac:(lia) of_root sp2 l)
      as (sp3 & Hr3 & Hc3 & Hp3 & Hk3).
    { destruct Hl as [[-> ->]|[-> ->]]; [left|right]; done. }
    { lia. }
    { split_and!; first [done|simpl; lia|simpl; nia]. }
    { split; [by eapply load_store_eq|].
      eexists. split; [by eapply load_store_eq|]. simpl.
      destruct Hlay2 as (_ & _ & _ & _ & _ & _ & _ & Htl2 & _).
      rewrite Htl2, Htl, Hl1, wrap32_small; lia. }
    destruct Hp3 as (Hlay3 & Hdp3 & _ & Hl3 & _).
    destruct Hlay3 as (_ & _ & _ & _ & _ & _ & _ & Htl3 & _). simpl in Htl3.
    destruct (Hk3 0 ltac:(lia)) as [Hcs3 _].
    rewrite (load_store_ne _ _ _ _ _ Hst2), Hroot in Hcs3 by lia.
    eapply (accepted_finish _ _ _ _ _ _ sp3); eauto.
    + lia.
    + simpl. rewrite Htl3. change (wrap32 0) with 0. lia.
    + rewrite Htl3. lia.
  - assert (n = first + 1) as ->.
    { apply scalar_start_change in Hscal.
      inversion Hval; subst; simplify_eq; try done; by vm_compute in Hscal. }
    pose proof (scalars_parse_spec _ _ _ _ first Hsc ltac:(lia)) as Hok.
    rewrite bool_decide_eq_true_2 in Hok by done.
    assert (∃ sp2, read_first_value STREAMING sp1 = Some (goto L.finish, sp2)
                   ∧ same_layout sp1 sp2
                   ∧ depth sp2 = 1 ∧ current_structural sp2 = first
                   ∧ 0 ≤ next_tape_loc sp2 ≤ 3
                   ∧ containing_scope (parser sp2) = containing_scope (parser sp1))
      as (sp2 & Hrd & Hlay2 & Hdp2 & Hc2 & Hl2 & Hcs2).
    { assert (ch0 = Ch.quote ∨ (ch0 = Ch.t ∨ ch0 = Ch.f ∨ ch0 = Ch.n)
              ∨ is_minus_or_digit ch0 = true) as [->|[Hc|Hd]]
        by (unfold scalar_start in Hscal; tauto).
      - destruct (parses_string _ _ _ _ idx Hok) as (body & Hbody & Hfit);
          [done|done|]. rewrite <- Hbuf in Hbody.
        destruct (root_string STREAMING sp1 idx body Hidx Hbyte Hbody)
          as (sp2 & Hrd & Hlay2 & Hf2); [lia|lia|nia|].
        destruct Hf2 as (? & ? & ? & ? & ? & ?).
        exists sp2. split_and!; first [done|lia].
      - pose proof (parses_root_atom _ _ _ idx ch0 Hok Hidx0 Hbyte0 Hc) as Hv.
        rewrite <- Hbuf, <- Hlen in Hv.
        destruct (root_atom STREAMING sp1 idx ch0 Hv Hidx Hbyte)
          as (sp2 & Hrd & Hlay2 & Hf2); [lia|].
        destruct Hf2 as (? & ? & ? & ? & ? & ?).
        exists sp2. split_and!; first [done|lia].
      - destruct (parses_root_number _ _ _ idx ch0 Hok Hidx0 Hbyte0 Hd)
          as (Hm & Hlen' & x & Hdec).
        rewrite <- Hlen in Hm. rewrite <- Hbuf, <- Hlen in Hlen'.
        rewrite <- Hbuf, <- Hlen in Hdec.
        destruct (root_number STREAMING sp1 idx ch0 x Hd Hm Hlen' Hdec Hidx Hbyte)
          as (sp2 & Hrd & Hlay2 & Hf2); [lia|lia|].
        destruct Hf2 as (? & ? & ? & ? & ? & ?).
        exists sp2. split_and!; first [done|lia]. }
    destruct Hlay2 as (_ & _ & _ & _ & _ & _ & _ & Htl2 & _).
    eapply (accepted_finish _ _ _ _ _ _ sp2); eauto using reaches_here.
    + lia.
    + lia.
    + by rewrite Hcs2.
    + simpl. rewrite Htl2, Htl. change (wrap32 0) with 0. lia.
    + rewrite Htl2, Htl. lia.
Qed.

End accepted.

(** *** The depth limit on a text *)

Section depth_limit.
Context `{collaborators}.

Lemma open_brackets_agree s s' first k :
  (∀ j, (j < k)%nat → s' (first + Z.of_nat j) = s (first + Z.of_nat j)) →
  open_brackets s' first k = open_brackets s first k.
Proof.
  induction k as [|k IH]; intros Hs; [done|]. simpl.
  rewrite IH by (intros j Hj; apply Hs; lia). by rewrite Hs by lia.
Qed.

Lemma nesting_agree s s' first b :
  (∀ a, first ≤ a < b → s' a = s a) → nesting s' first b = nesting s first b.
Proof. intros Hs. apply open_brackets_agree. intros j Hj. apply Hs. lia. Qed.

Lemma bracket_change_open ch :
  0 < bracket_change ch → ch = Ch.lbrace ∨ ch = Ch.lbracket.
Proof.
  unfold bracket_change.
  destruct (Z.eqb_spec ch Ch.lbrace), (Z.eqb_spec ch Ch.lbracket); simpl; auto.
  destruct (_ || _); lia.
Qed.

(** The structural that brings the nesting to the limit is an opening
    bracket, at or after the first one. *)
Lemma deepest_is_open p first d :
  within_depth p first d = true →
  max_depth p ≤ nesting (structural_char p) first (d + 1) + 1 →
  first ≤ d
  ∧ (structural_char p d = Some Ch.lbrace ∨ structural_char p d = Some Ch.lbracket)
  ∧ nesting (structural_char p) first (d + 1) = nesting (structural_char p) first d + 1.
Proof.
  intros Hwd Hlim.
  assert (first ≤ d) as Hd.
  { destruct (decide (first ≤ d)) as [|Hlt]; [done|exfalso].
    pose proof (within_depth_spec p first d first Hwd) as Hf.
    unfold within_depth in Hwd. rewrite forallb_forall in Hwd.
    specialize (Hwd 0%nat). rewrite in_seq in Hwd.
    specialize (Hwd ltac:(lia)). apply Z.ltb_lt in Hwd. simpl in Hwd.
    unfold nesting in Hlim.
    replace (Z.to_nat (d + 1 - first)) with 0%nat in Hlim by lia.
    simpl in Hlim. lia. }
  pose proof (within_depth_spec p first d d Hwd ltac:(lia)) as Hbelow.
  destruct (structural_char p d) as [ch|] eqn:Hch.
  - pose proof (nesting_step _ first d ch Hd Hch) as Hst.
    assert (0 < bracket_change ch) as Hpos by lia.
    apply bracket_change_open in Hpos as Hopen.
    assert (bracket_change ch = 1) as Hbc by (by destruct Hopen as [-> | ->]).
    split_and!; [done| |lia]. destruct Hopen as [-> | ->]; auto.
  - exfalso. unfold nesting in Hlim, Hbelow.
    replace (Z.to_nat (d + 1 - first)) with (S (Z.to_nat (d - first))) in Hlim by lia.
    simpl in Hlim.
    replace (first + Z.of_nat (Z.to_nat (d - first))) with d in Hlim by lia.
    rewrite Hch in Hlim. lia.
Qed.

(** A machine that reaches the error block with the depth at the limit
    returns [DEPTH_ERROR]. *)
Lemma sunk_run STREAMING dom_parser doc0 sp1 l sp2 :
  start (addr_finish addresses) (initial_parser STREAMING dom_parser doc0)
    = Some (SUCCESS, sp1) →
  read_first_value STREAMING sp1 = Some (goto l, sp2) →
  sunk (initial_parser STREAMING dom_parser doc0) l sp2 →
  ∃ sp', parse_structurals STREAMING dom_parser doc0 = Returned DEPTH_ERROR sp'
         ∧ parser_error (parser sp') = DEPTH_ERROR.
Proof.
  intros Hst Hrd (sp3 & Hr & Hlay & Hd).
  assert (max_depth (parser sp3) ≤ depth sp3) as Hd3.
  { destruct Hlay as (_ & _ & _ & _ & Hmd & _). lia. }
  pose proof (error_at_max_depth sp3 Hd3) as Herr.
  assert (step L.error sp3
          = Some (return_ DEPTH_ERROR,
                  set_parser (set_parser_error DEPTH_ERROR (parser sp3)) sp3)) as Hfin.
  { simpl. unfold bind. by rewrite Herr. }
  pose proof (parse_structurals_terminates STREAMING dom_parser doc0) as Hne.
  unfold parse_structurals in *. rewrite Hst, Hrd in *.
  destruct (reaches_returns _ _ _ _ _ _ Hr Hfin) as [fuel Hrun].
  eexists. split; [by eapply run_more|done].
Qed.

(** C5. [start_scope] stores the index of the next tape word with a zero
    count in [containing_scope[depth]], reserves one tape word without
    writing, stores the continuation in [ret_address[depth]], increments
    [depth], and returns [true] exactly when the new depth is at least
    [max_depth].  Consequently [parse_structurals] returns [DEPTH_ERROR] on
    a text whose nesting reaches [max_depth], the document counting as one
    level, in these cases.  First, the structurals from the first one up to
    the opening bracket [d] are the beginning of a well-formed text, [d] is
    the first structural at which the nesting reaches [max_depth], the
    scalars before [d] parse, the parser is not at the end of the
    structural indexes, the work areas are large enough, and, for a
    non-streaming call on an array with [d] inside it, the last structural
    is a closing bracket.  Second, [max_depth] is at most 1 and the parser
    is not at the end of the structural indexes: the document itself
    reaches the limit. *)
Theorem start_scope_depth_limit :
  (∀ continue_state sp,
     0 ≤ depth sp < Z.of_nat (length (containing_scope (parser sp))) →
     depth sp < Z.of_nat (length (ret_address (parser sp))) →
     ∃ failed sp',
       start_scope continue_state sp = Some (failed, sp')
       ∧ load (containing_scope (parser sp')) (depth sp)
         = Some {| tape_index := next_tape_index sp; count := 0 |}
       ∧ next_tape_loc sp' = next_tape_loc sp + 1
       ∧ tape (doc (parser sp')) = tape (doc (parser sp))
       ∧ load (ret_address (parser sp')) (depth sp) = Some continue_state
       ∧ depth sp' = wrap32 (depth sp + 1)
       ∧ (failed = true ↔ max_depth (parser sp') ≤ depth sp'))
  ∧ (∀ (STREAMING : bool) dom_parser doc0 first d room,
       first = (if STREAMING then next_structural_index dom_parser else 0) →
       opens_well (structural_char dom_parser) first d →
       within_depth dom_parser first d = true →
       max_depth dom_parser ≤ nesting (structural_char dom_parser) first (d + 1) + 1 →
       first < n_structural_indexes dom_parser →
       (STREAMING = false → first < d →
        structural_char dom_parser first = Some Ch.lbracket →
        structural_char dom_parser (wrap32 (n_structural_indexes dom_parser - 1))
        = Some Ch.rbracket) →
       max_depth dom_parser ≤ Z.of_nat (length (containing_scope dom_parser)) →
       max_depth dom_parser ≤ Z.of_nat (length (ret_address dom_parser)) →
       max_depth dom_parser < 2 ^ 32 →
       2 * (d - first) + 2 ≤ Z.of_nat (length (tape doc0)) →
       scalars_parse dom_parser room first d = true →
       0 ≤ room →
       room * (d - first) ≤ Z.of_nat (length (string_buf doc0)) →
       ∃ sp', parse_structurals STREAMING dom_parser doc0 = Returned DEPTH_ERROR sp'
              ∧ parser_error (parser sp') = DEPTH_ERROR)
  ∧ (∀ (STREAMING : bool) dom_parser doc0,
       max_depth dom_parser ≤ 1 →
       (if STREAMING then next_structural_index dom_parser else 0)
       < n_structural_indexes dom_parser →
       0 < Z.of_nat (length (containing_scope dom_parser)) →
       0 < Z.of_nat (length (ret_address dom_parser)) →
       ∃ sp', parse_structurals STREAMING dom_parser doc0 = Returned DEPTH_ERROR sp'
              ∧ parser_error (parser sp') = DEPTH_ERROR).
Proof.
  split_and!.
  - intros continue_state sp Hcs Hra.
    destruct (start_scope_spec continue_state sp Hcs Hra)
      as (sp' & Hs & Hsc & Hloc & Htape & Hret & Hd).
    exists (max_depth (parser sp) <=? wrap32 (depth sp + 1)), sp'.
    split_and!; try done.
    assert (max_depth (parser sp') = max_depth (parser sp)) as ->.
    { unfold_methods. rewrite !store_defined in Hs by (simpl; lia).
      by simplify_eq/=. }
    rewrite Hd. apply Z.leb_le.
  - intros STREAMING dom_parser doc0 first d room Hfirst (s' & n & Hval & Hdn & Hsame)
      Hwd Hlim Hnot_end Hlast Hcs Hra Hmax Htape Hsc Hroom Hsbuf.
    destruct (deepest_is_open _ _ _ Hwd Hlim) as (Hfd & Hopen & Hnd).
    set (sp0 := initial_parser STREAMING dom_parser doc0).
    assert (current_structural sp0 = first) as Hc0 by (by subst first).
    pose proof (text_spans s') as (Hsv & _ & _).
    pose proof (within_depth_spec _ _ _ first Hwd ltac:(lia)) as Hd1.
    rewrite nesting_first in Hd1.
    destruct (value_in_first _ _ _ Hval) as (ch0 & Hch0 & _).
    rewrite Hsame in Hch0 by lia.
    destruct (start_succeeds sp0) as (sp1 & CS1 & RA1 & Hst & Hst1 & Hsr1 & Hlay1 & Hf1).
    { rewrite Hc0. simpl. done. }
    { simpl. lia. }
    { simpl. lia. }
    { simpl. rewrite wrap32_small; lia. }
    destruct Hf1 as (Hc1 & Hdp1 & Hl1 & Hsl1 & Hcs1 & Hra1).
    simpl in Hdp1, Hl1, Hsl1, Hst1, Hsr1. rewrite wrap32_small in Hdp1 by lia.
    rewrite Hc0 in Hc1. subst CS1 RA1.
    pose proof Hlay1 as (Hbuf & Hlen & Hsi & Hnsi & Hmd & Hcsl & Hral & Htl & Hsbl).
    simpl in Hbuf, Hlen, Hsi, Hnsi, Hmd, Hcsl, Hral, Htl, Hsbl.
    destruct (char_loads sp0 sp1 first ch0 Hlay1 Hch0) as (idx & Hidx & Hbyte).
    rewrite <- Hc1 in Hidx.
    destruct (decide (d = first)) as [Hdf|Hdf].
    + rewrite Hdf in Hopen, Hnd. rewrite nesting_first in Hnd.
      assert (ch0 = Ch.lbrace ∨ ch0 = Ch.lbracket) as Hch.
      { destruct Hopen as [Ho|Ho]; rewrite Ho in Hch0; injection Hch0 as <-; auto. }
      destruct (root_deep STREAMING sp1 idx ch0 Hch Hidx Hbyte)
        as (sp2 & Hrd & Hlay2 & Hdp2); [lia|lia| |].
      { rewrite Hdp1, Hmd, wrap32_small; [|lia]. rewrite Hdf in Hlim. lia. }
      eapply sunk_run; [exact Hst|exact Hrd|].
      exists sp2. split_and!; [apply reaches_here|by eapply same_layout_trans|].
      rewrite Hdp2, Hdp1, wrap32_small; [|lia]. simpl. rewrite Hdf in Hlim. lia.
    + assert (first < d) as Hlt by lia.
      assert (ch0 = Ch.lbrace ∨ ch0 = Ch.lbracket) as Hch.
      { pose proof (Hsame first ltac:(lia)) as Hs1. rewrite Hch0 in Hs1.
        inversion Hval as [a ch Hsa Hscal| | | |]; subst; simplify_eq; auto.
        lia. }
      assert (∃ l, (ch0 = Ch.lbrace ∧ l = L.object_begin)
                   ∨ (ch0 = Ch.lbracket ∧ l = L.array_begin)) as [l Hl]
        by (destruct Hch; eauto).
      assert (bracket_change ch0 = 1) as Hbc by (by destruct Hch as [-> | ->]).
      pose proof (nesting_step _ first first _ ltac:(lia) Hch0) as Hn1.
      rewrite nesting_first, Hbc in Hn1.
      pose proof (within_depth_spec _ _ _ (first + 1) Hwd ltac:(lia)) as Hd2.
      rewrite Hn1 in Hd2.
      destruct (root_open STREAMING sp1 idx ch0 l)
        as (sp2 & CS2 & RA2 & Hrd & Hst2 & Hsr2 & Hlay2 & Hf2);
        [|exact Hidx|exact Hbyte|lia|lia|rewrite Hdp1, Hmd, wrap32_small; lia|].
      { destruct Hl as [[-> ->]|[-> ->]]; [by left|right]. split_and!; [done..|].
        intros HS. rewrite (structural_char_same_layout _ _ Hlay1), Hnsi.
        exact (Hlast HS Hlt Hch0). }
      destruct Hf2 as (Hc2 & Hdp2 & Hl2 & Hsl2 & Hcs2 & Hra2).
      rewrite Hdp1 in Hst2, Hsr2, Hdp2. rewrite wrap32_small in Hdp2 by lia.
      subst CS2 RA2.
      pose proof (same_layout_trans _ _ _ Hlay1 Hlay2) as Hlay02.
      assert (∀ a, first ≤ a ≤ d + 1 →
                   nesting s' first a = nesting (structural_char dom_parser) first a)
        as Hnest.
      { intros a Ha. apply nesting_agree. intros b Hb. apply Hsame. lia. }
      pose proof (text_sinks s' sp0 first d room) as Hts.
      destruct Hts as ((_ & Hbody)%(λ Hv, Hv first n Hval) & _ & _).
      { intros a Ha'. by apply Hsame. }
      { intros a Ha'. rewrite Hnest by lia.
        exact (within_depth_spec dom_parser first d a Hwd Ha'). }
      { exact Hcs. }
      { exact Hra. }
      { simpl. lia. }
      { exact Htape. }
      { exact Hroom. }
      { exact Hsbuf. }
      { intros a Ha'.
        pose proof (scalars_parse_spec _ _ _ _ a Hsc ltac:(lia)) as Hok.
        rewrite bool_decide_eq_false_2 in Hok by lia. exact Hok. }
      { rewrite Hsame by lia. exact Hopen. }
      { rewrite Hnest by lia. simpl. lia. }
      { exact Hmax. }
      eapply sunk_run; [exact Hst|exact Hrd|].
      unfold body_sinks in Hbody. rewrite nesting_first in Hbody.
      apply (Hbody ltac:(lia) ltac:(lia) of_root sp2 l).
      { rewrite Hsame by lia. destruct Hl as [[-> ->]|[-> ->]]; [left|right]; done. }
      { lia. }
      { split_and!; first [done|simpl; lia|simpl; nia]. }
      { split; [by eapply load_store_eq|].
        eexists. split; [by eapply load_store_eq|]. simpl.
        destruct Hlay2 as (_ & _ & _ & _ & _ & _ & _ & Htl2 & _).
        rewrite Htl2, Htl, Hl1, wrap32_small; lia. }
  - intros STREAMING dom_parser doc0 Hmax Hnot_end Hcs Hra.
    destruct (start_deep (initial_parser STREAMING dom_parser doc0))
      as (sp' & Hst & Herr).
    { simpl. done. }
    { simpl. lia. }
    { simpl. lia. }
    { simpl. change (wrap32 (0 + 1)) with 1. done. }
    exists sp'. split; [|done]. unfold parse_structurals. by rewrite Hst.
Qed.

End depth_limit.

(** * The scalars of an accepted text *)

Lemma store_bytes_Some (a a' : list Z) (i : Z) (bs : list Z) :
  store_bytes a i bs = Some a' →
  0 ≤ i ∧ i + Z.of_nat (length bs) ≤ Z.of_nat (length a).
Proof. unfold store_bytes. case_decide; [done|discriminate]. Qed.

Lemma string_record_stores sb sb1 sb2 sb3 o body :
  store_bytes sb (o + 4) body = Some sb1 →
  store_bytes sb1 o (le32_bytes (wrap32 (o + 4 + Z.of_nat (length body) - (o + 4))))
    = Some sb2 →
  store sb2 (o + 4 + Z.of_nat (length body)) 0 = Some sb3 →
  0 ≤ o ∧ string_record sb3 o body.
Proof.
  intros Hsb1 Hsb2 Hsb3.
  pose proof (store_bytes_Some _ _ _ _ Hsb2) as [Ho _]. split; [done|].
  replace (o + 4 + Z.of_nat (length body) - (o + 4)) with (Z.of_nat (length body))
    in Hsb2 by lia.
  assert (0 ≤ wrap32 (Z.of_nat (length body)) < 2 ^ 32) as Hw
    by (unfold wrap32; apply Z.mod_pos_bound; lia).
  split_and!.
  - rewrite (bytes_at_store_ne _ _ _ _ _ _ Hsb3) by lia.
    change 4%nat with (length (le32_bytes (wrap32 (Z.of_nat (length body))))).
    rewrite (bytes_at_store_bytes_eq _ _ _ _ Hsb2).
    by apply le32_value_bytes.
  - rewrite (bytes_at_store_ne _ _ _ _ _ _ Hsb3) by lia.
    rewrite (bytes_at_store_bytes_ne _ _ _ _ _ _ Hsb2) by (simpl; lia).
    apply (bytes_at_store_bytes_eq _ _ _ _ Hsb1).
  - by eapply load_store_eq.
Qed.

Lemma bytes_at_agree sb sb' o n :
  0 ≤ o →
  (∀ i, o ≤ i < o + Z.of_nat n → load sb' i = load sb i) →
  bytes_at sb' o n = bytes_at sb o n.
Proof.
  intros Ho Hag. apply list_eq. intros k.
  rewrite !lookup_bytes_at by done. case_decide; [|done]. apply Hag. lia.
Qed.

Lemma string_record_agree sb sb' o body hi :
  0 ≤ o → o + 4 + Z.of_nat (length body) + 1 ≤ hi →
  (∀ i, i < hi → load sb' i = load sb i) →
  string_record sb o body → string_record sb' o body.
Proof.
  intros Ho Hhi Hag (Hlen & Hbody & Hnul). split_and!.
  - rewrite (bytes_at_agree sb sb'); [done|done|]. intros i Hi. apply Hag. simpl in Hi. lia.
  - rewrite (bytes_at_agree sb sb'); [done|lia|]. intros i Hi. apply Hag. lia.
  - rewrite Hag by lia. done.
Qed.

Section scalars.
Context `{collaborators}.

(** A block leaves the words below the tape cursor as they are, except for
    the slot of the innermost open scope. *)
Lemma step_tape_frame l sp nx sp' i :
  step l sp = Some (nx, sp') →
  i < next_tape_loc sp →
  (∀ sc, load (containing_scope (parser sp)) (wrap32 (depth sp - 1)) = Some sc →
         i ≠ tape_index sc) →
  load (tape (doc (parser sp'))) i = load (tape (doc (parser sp))) i.
Proof.
  intros Hs Hi Hslot. destruct l; run_methods.
  all: try done.
  all: try first
    [ specialize (Hslot _ eq_refl)
    | match goal with
      | Hsc : load (containing_scope _) _ = Some ?sc |- _ => specialize (Hslot sc Hsc)
      end ].
  all: repeat (erewrite load_store_ne by (eassumption || lia)).
  all: reflexivity.
Qed.
Ltac eqb_facts :=
  repeat match goal with
    | Hq : (_ =? _) = true |- _ => apply Z.eqb_eq in Hq
    | Hq : (_ =? _) = false |- _ => apply Z.eqb_neq in Hq
    | Hq : negb _ = true |- _ => apply negb_true_iff in Hq
    | Hq : negb _ = false |- _ => apply negb_false_iff in Hq
    end.

Ltac absurd_char :=
  exfalso; eqb_facts;
  repeat match goal with
    | Hd : is_minus_or_digit _ = true |- _ => apply is_minus_or_digit_spec in Hd
    end;
  unfold Ch.lbrace, Ch.rbrace, Ch.lbracket, Ch.rbracket, Ch.quote, Ch.comma,
    Ch.colon, Ch.t, Ch.f, Ch.n in *;
  first [congruence | lia].

(** What a block does for the scalar it reads. *)
Lemma step_scalar l sp l' sp' a idx ch :
  step l sp = Some (goto l', sp') → l' ≠ L.error →
  current_structural sp < a ≤ current_structural sp' →
  load (structural_indexes (parser sp)) a = Some idx →
  load (buf (parser sp)) idx = Some ch →
  (ch = Ch.quote →
   ∃ body, decode_string (buf (parser sp)) idx = Some body
           ∧ load (tape (doc (parser sp'))) (next_tape_loc sp)
             = Some (tape_word STRING (current_string_buf_loc sp))
           ∧ next_tape_loc sp' = next_tape_loc sp + 1
           ∧ 0 ≤ current_string_buf_loc sp
           ∧ string_record (string_buf (doc (parser sp')))
               (current_string_buf_loc sp) body
           ∧ current_string_buf_loc sp + 4 + Z.of_nat (length body) + 1
             = current_string_buf_loc sp')
  ∧ (is_minus_or_digit ch = true →
     ∃ x, decode_number (buf (parser sp)) idx = Some x
          ∧ load (tape (doc (parser sp'))) (next_tape_loc sp)
            = Some (tape_word (number_type x) 0)
          ∧ load (tape (doc (parser sp'))) (next_tape_loc sp + 1)
            = Some (wrap64 (number_bits x))
          ∧ next_tape_loc sp' = next_tape_loc sp + 2).
Proof.
  intros Hs Hne Ha Hidx Hch. destruct l; run_methods.
  all: try done.
  all: simpl in Ha; try lia.
  all: match goal with
       | Hr : ?c < ?x ≤ _ |- _ =>
           assert (x = c + 1 ∨ x = c + 1 + 1) as [-> | ->] by lia
       end; try lia; simplify_eq.
  all: split; intros Hk; try subst ch; try absurd_char.
  all: try match goal with
       | Hb1 : store_bytes _ (?o + 4) ?body = Some ?sb1,
         Hb2 : store_bytes ?sb1 ?o _ = Some ?sb2,
         Hb3 : store ?sb2 _ 0 = Some _ |- _ =>
           destruct (string_record_stores _ _ _ _ _ _ Hb1 Hb2 Hb3) as [Ho Hrec]
       end.
  all: eexists; split_and!;
    first [eassumption | lia
          | by eapply load_store_eq
          | erewrite load_store_ne by (eassumption || lia); by eapply load_store_eq].
Qed.

(** What the first [switch] does for a scalar at the root. *)
Lemma read_first_value_scalar STREAMING sp l' sp' idx ch :
  read_first_value STREAMING sp = Some (goto l', sp') → l' ≠ L.error →
  load (structural_indexes (parser sp)) (current_structural sp) = Some idx →
  load (buf (parser sp)) idx = Some ch →
  (ch = Ch.quote →
   ∃ body, decode_string (buf (parser sp)) idx = Some body
           ∧ load (tape (doc (parser sp'))) (next_tape_loc sp)
             = Some (tape_word STRING (current_string_buf_loc sp))
           ∧ next_tape_loc sp' = next_tape_loc sp + 1
           ∧ 0 ≤ current_string_buf_loc sp
           ∧ string_record (string_buf (doc (parser sp')))
               (current_string_buf_loc sp) body
           ∧ current_string_buf_loc sp + 4 + Z.of_nat (length body) + 1
             = current_string_buf_loc sp')
  ∧ (is_minus_or_digit ch = true →
     ∃ x, decode_number (padded_copy (parser sp)) idx = Some x
          ∧ load (tape (doc (parser sp'))) (next_tape_loc sp)
            = Some (tape_word (number_type x) 0)
          ∧ load (tape (doc (parser sp'))) (next_tape_loc sp + 1)
            = Some (wrap64 (number_bits x))
          ∧ next_tape_loc sp' = next_tape_loc sp + 2).
Proof.
  intros Hs Hne Hidx Hch. unfold padded_copy. run_methods.
  all: try done.
  all: split; intros Hk; try subst ch; try absurd_char.
  all: try match goal with
       | Hb1 : store_bytes _ (?o + 4) ?body = Some ?sb1,
         Hb2 : store_bytes ?sb1 ?o _ = Some ?sb2,
         Hb3 : store ?sb2 _ 0 = Some _ |- _ =>
           destruct (string_record_stores _ _ _ _ _ _ Hb1 Hb2 Hb3) as [Ho Hrec]
       end.
  all: eexists; split_and!;
    first [eassumption | lia
          | by eapply load_store_eq
          | erewrite load_store_ne by (eassumption || lia); by eapply load_store_eq].
Qed.

Lemma step_cursor l sp nx sp' :
  step l sp = Some (nx, sp') →
  current_structural sp ≤ current_structural sp' ≤ current_structural sp + 2.
Proof. intros Hs. destruct l; run_methods; simpl; lia. Qed.

Lemma read_first_value_cursor_same STREAMING sp nx sp' :
  read_first_value STREAMING sp = Some (nx, sp') →
  current_structural sp' = current_structural sp.
Proof. intros Hs. by run_methods. Qed.

(** *** The innermost open bracket *)

Lemma chain_top s RA first kd st p :
  chain s RA first kd st p →
  match st with
  | [] => True
  | o :: _ =>
      (s o = Some Ch.lbrace ∨ s o = Some Ch.lbracket)
      ∧ Z.of_nat (length st) < Z.of_nat (length RA)
  end.
Proof.
  destruct st as [|o os]; [done|]. simpl.
  intros [Htop (kd' & Hl & _)]. apply load_Some_range in Hl.
  split; [|lia]. destruct kd; [done|right|left]; by destruct Htop.
Qed.

Lemma reading_top first l K st :
  l ≠ L.error → reading first l K st →
  c_depth K = Z.of_nat (length st) + 1
  ∧ match st with
    | [] => True
    | o :: _ =>
        (c_chars K o = Some Ch.lbrace ∨ c_chars K o = Some Ch.lbracket)
        ∧ Z.of_nat (length st) < Z.of_nat (length (c_ret K))
    end.
Proof.
  intros Hl Hr. destruct l; simpl in Hr; try done.
  - destruct Hr as (os & -> & Hd & Hc & Henc%enclosed_bound).
    simpl. split; [lia|]. split; [auto|lia].
  - destruct Hr as (o & os & -> & Hd & Ho & Henc%enclosed_bound & _).
    simpl. split; [lia|]. split; [auto|lia].
  - destruct Hr as (o & os & b & -> & Hd & Ho & Henc%enclosed_bound & _).
    simpl. split; [lia|]. split; [auto|lia].
  - destruct Hr as (o & Hd & (kd & _ & Hch%chain_top) & _).
    split; [done|]. by destruct st.
  - destruct Hr as (os & -> & Hd & Hc & Henc%enclosed_bound).
    simpl. split; [lia|]. split; [auto|lia].
  - destruct Hr as (Hd & Hch%chain_top). split; [done|]. by destruct st.
  - destruct Hr as (o & os & b & -> & Hd & Ho & Henc%enclosed_bound & _).
    simpl. split; [lia|]. split; [auto|lia].
  - destruct Hr as (-> & Hd & _). done.
Qed.

(** *** The scalars stored so far stay stored *)

Lemma position_apart s first a o :
  first ≤ a → first ≤ o → a ≠ o →
  1 ≤ words_at s a → 1 ≤ words_at s o →
  ∀ i, tape_position s first a ≤ i < tape_position s first a + words_at s a →
       i ≠ tape_position s first o.
Proof.
  intros Ha Ho Hne Hwa Hwo i Hi.
  destruct (Z.lt_ge_cases a o).
  - pose proof (tape_position_next s first a o ltac:(lia)). lia.
  - pose proof (tape_position_next s first o a ltac:(lia)). lia.
Qed.

Lemma scalar_stored_layout p p' root T sb hi i idx ch :
  buf p' = buf p → len p' = len p →
  scalar_stored p root T sb hi i idx ch → scalar_stored p' root T sb hi i idx ch.
Proof. unfold scalar_stored, padded_copy. by intros -> ->. Qed.

Lemma top_slot first l sp st upto sc :
  l ≠ L.error →
  Z.of_nat (length (ret_address (parser sp))) < 2 ^ 32 →
  reading first l (control_of sp) st →
  tokens first st (structural_char (parser sp)) upto (core_of sp) →
  load (containing_scope (parser sp)) (wrap32 (depth sp - 1)) = Some sc →
  tape_index sc = 0
  ∨ ∃ o, first ≤ o < upto
         ∧ (structural_char (parser sp) o = Some Ch.lbrace
            ∨ structural_char (parser sp) o = Some Ch.lbracket)
         ∧ tape_index sc = tape_position (structural_char (parser sp)) first o.
Proof.
  intros Hl Hcap Hread (_ & _ & (sc0 & Hsc0 & Hti0) & Hall & Hslots & _) Hsc.
  destruct (reading_top _ _ _ _ Hl Hread) as [Hd Htop].
  change (c_depth (control_of sp)) with (depth sp) in Hd. simpl in Hsc0, Hslots.
  rewrite Hd in Hsc. replace (Z.of_nat (length st) + 1 - 1) with (Z.of_nat (length st))
    in Hsc by lia.
  destruct st as [|o st'].
  - left. change (wrap32 (Z.of_nat (length []))) with 0 in Hsc. congruence.
  - right. destruct Htop as [Hb Hlen]. simpl in Hlen.
    rewrite wrap32_small in Hsc by (simpl in *; lia).
    destruct Hslots as [(sc' & Hsc' & Hti') _].
    replace (Z.of_nat (length (o :: st'))) with (Z.of_nat (length st') + 1) in Hsc
      by (simpl; lia).
    exists o. apply Forall_cons in Hall as [Ho _].
    split; [done|]. split; [exact Hb|]. congruence.
Qed.

(** A scalar stored before a block is still stored after it. *)
Lemma stored_kept first l sp nx sp' st a idx ch root :
  Z.of_nat (length (ret_address (parser sp))) < 2 ^ 32 →
  reading first l (control_of sp) st → l ≠ L.error →
  tokens_read first st sp →
  step l sp = Some (nx, sp') →
  first ≤ a ≤ current_structural sp →
  structural_char (parser sp) a = Some ch →
  scalar_stored (parser sp) root (tape (doc (parser sp)))
    (string_buf (doc (parser sp))) (current_string_buf_loc sp)
    (tape_position (structural_char (parser sp)) first a) idx ch →
  scalar_stored (parser sp) root (tape (doc (parser sp')))
    (string_buf (doc (parser sp'))) (current_string_buf_loc sp')
    (tape_position (structural_char (parser sp)) first a) idx ch.
Proof.
  intros Hcap Hread Hl Htok Hs Ha Hsa [Hstr Hnum].
  set (s := structural_char (parser sp)) in *.
  pose proof (words_at_char _ _ _ Hsa) as Hwa.
  pose proof Htok as (_ & Hloc & _).
  change (k_loc (core_of sp)) with (next_tape_loc sp) in Hloc. fold s in Hloc.
  pose proof (step_string_buf _ _ _ _ Hs) as [Hmono Hsb].
  assert (∀ i, 1 ≤ words_at s a → bracket_change ch = 0 →
               tape_position s first a ≤ i < tape_position s first a + words_at s a →
               load (tape (doc (parser sp'))) i = load (tape (doc (parser sp))) i)
    as Hframe.
  { intros i Hw Hbc Hi. eapply step_tape_frame; [exact Hs| |].
    - pose proof (tape_position_next s first a (current_structural sp + 1)
                    ltac:(lia)). lia.
    - intros sc Hsc.
      destruct (top_slot _ _ _ _ _ _ Hl Hcap Hread Htok Hsc)
        as [H0|(o & Ho & Hb & Hpo)].
      + pose proof (tape_position_le s first first a ltac:(lia)) as Hp.
        rewrite tape_position_first in Hp. lia.
      + rewrite Hpo. fold s. fold s in Hb.
        apply (position_apart s first a o); try lia.
        * intros ->. rewrite Hsa in Hb.
          destruct Hb as [[= ->]|[= ->]]; by vm_compute in Hbc.
        * destruct Hb as [Hb|Hb]; rewrite (words_at_char _ _ _ Hb); by vm_compute. }
  split.
  - intros ->. destruct (Hstr eq_refl) as (body & o & Hdec & Hw & Ho & Hhi & Hrec).
    change (words_for Ch.quote) with 1 in Hwa.
    exists body, o. split_and!; try done.
    + rewrite Hframe; [done|lia|done|lia].
    + lia.
    + eapply string_record_agree; [done|exact Hhi| |done].
      intros i Hi. by apply Hsb.
  - intros Hd. destruct (Hnum Hd) as (x & Hdec & Hw1 & Hw2).
    rewrite (words_for_digit _ Hd) in Hwa.
    assert (bracket_change ch = 0) as Hbc
      by (apply scalar_start_change; unfold scalar_start; auto).
    exists x. split_and!; try done.
    + rewrite Hframe; [done|lia|done|lia].
    + rewrite Hframe; [done|lia|done|lia].
Qed.

Lemma step_values first l sp l' sp' st st' :
  Z.of_nat (length (ret_address (parser sp))) < 2 ^ 32 →
  first ≤ current_structural sp →
  reading first l (control_of sp) st →
  tokens_read first st sp → tokens_read first st' sp' →
  step l sp = Some (goto l', sp') → l' ≠ L.error →
  scalars_stored first sp (current_structural sp + 1) →
  scalars_stored first sp' (current_structural sp' + 1).
Proof.
  intros Hcap Hfirst Hread Htok Htok' Hs Hne Hold a idx ch Ha Hidx Hch.
  pose proof (step_same_layout _ _ _ _ Hs) as Hlay.
  pose proof (structural_char_same_layout _ _ Hlay) as Hchars.
  destruct Hlay as (Hbuf & Hlen & Hsi & _).
  pose proof (step_goto_frame _ _ _ _ Hs) as (_ & _ & _ & Hl).
  pose proof (step_cursor _ _ _ _ Hs) as Hcur.
  rewrite Hsi in Hidx. rewrite Hbuf in Hch. rewrite Hchars.
  apply (scalar_stored_layout (parser sp)); [done..|].
  assert (structural_char (parser sp) a = Some ch) as Hsa
    by (unfold structural_char; by rewrite Hidx).
  destruct (decide (a ≤ current_structural sp)) as [Hle|Hgt].
  { eapply (stored_kept first l sp _ sp' st a idx ch _ Hcap Hread Hl Htok Hs);
      [lia|done|]. apply Hold; [lia|done..]. }
  set (s := structural_char (parser sp)) in *.
  pose proof (words_at_char _ _ _ Hsa) as Hwa.
  pose proof Htok as (_ & Hloc & _).
  pose proof Htok' as (_ & Hloc' & _).
  change (k_loc (core_of sp)) with (next_tape_loc sp) in Hloc.
  change (k_loc (core_of sp')) with (next_tape_loc sp') in Hloc'.
  rewrite Hchars in Hloc'. fold s in Hloc, Hloc'.
  destruct (step_scalar _ _ _ _ a idx ch Hs Hne ltac:(lia) Hidx Hch) as [Hstr Hnum].
  rewrite bool_decide_eq_false_2 by lia.
  pose proof (tape_position_succ s first (current_structural sp + 1) ltac:(lia)) as Hp1.
  pose proof (tape_position_succ s first (current_structural sp + 1 + 1) ltac:(lia))
    as Hp2.
  pose proof (words_at_range s (current_structural sp + 1)) as Hw1.
  pose proof (words_at_range s (current_structural sp + 1 + 1)) as Hw2.
  assert (a = current_structural sp + 1 ∨ a = current_structural sp + 1 + 1)
    as Hcase by lia.
  assert (current_structural sp' = current_structural sp + 1
          ∨ current_structural sp' = current_structural sp + 1 + 1) as Hcase' by lia.
  split.
  - intros ->. destruct (Hstr eq_refl) as (body & Hdec & Hw & Hl1 & Ho & Hrec & Hsl).
    change (words_for Ch.quote) with 1 in Hwa.
    assert (tape_position s first a = next_tape_loc sp) as ->.
    { destruct Hcase as [-> | ->], Hcase' as [Hc'|Hc']; rewrite Hc' in Hloc'; lia. }
    exists body, (current_string_buf_loc sp). split_and!; try done. lia.
  - intros Hd. destruct (Hnum Hd) as (x & Hdec & Hw & Hw' & Hl1).
    rewrite (words_for_digit _ Hd) in Hwa.
    assert (tape_position s first a = next_tape_loc sp) as ->.
    { destruct Hcase as [-> | ->], Hcase' as [Hc'|Hc']; rewrite Hc' in Hloc'; lia. }
    exists x. split_and!; done.
Qed.

Lemma finish_values first sp sp' :
  Z.of_nat (length (ret_address (parser sp))) < 2 ^ 32 →
  reading first L.finish (control_of sp) [] →
  tokens_read first [] sp →
  finish sp = Some (SUCCESS, sp') →
  scalars_stored first sp (current_structural sp + 1) →
  scalars_stored first sp' (current_structural sp' + 1).
Proof.
  intros Hcap Hread Htok Hf Hold a idx ch Ha Hidx Hch.
  assert (step L.finish sp = Some (return_ SUCCESS, sp')) as Hs.
  { simpl. unfold bind. rewrite Hf. done. }
  pose proof (step_same_layout _ _ _ _ Hs) as Hlay.
  pose proof (structural_char_same_layout _ _ Hlay) as Hchars.
  destruct Hlay as (Hbuf & Hlen & Hsi & _).
  apply finish_spec in Hf as (_ & _ & _ & Hc & _). rewrite Hc in Ha.
  rewrite Hsi in Hidx. rewrite Hbuf in Hch. rewrite Hchars.
  apply (scalar_stored_layout (parser sp)); [done..|].
  assert (structural_char (parser sp) a = Some ch) as Hsa
    by (unfold structural_char; by rewrite Hidx).
  eapply (stored_kept first L.finish sp _ sp' [] a idx ch _ Hcap Hread ltac:(done)
            Htok Hs); [lia|done|]. apply Hold; [lia|done..].
Qed.

Lemma run_values first fuel l sp sp' st :
  Z.of_nat (length (ret_address (parser sp))) < 2 ^ 32 →
  short_text sp →
  first ≤ current_structural sp →
  reading first l (control_of sp) st →
  tokens_read first st sp →
  scalars_stored first sp (current_structural sp + 1) →
  run fuel l sp = Returned SUCCESS sp' →
  scalars_stored first sp' (current_structural sp' + 1).
Proof.
  revert l sp st. induction fuel as [|fuel IH];
    intros l sp st Hcap Hshort Hfirst Hinv Htok Hold Hr; [done|].
  simpl in Hr. destruct (step l sp) as [[[l'|e'] sp1]|] eqn:Hs; [| |done].
  - pose proof (step_same_layout _ _ _ _ Hs) as Hlay.
    destruct (step_reads _ _ _ _ _ _ Hcap Hinv Hs) as [->|(st' & Hinv' & Htok')].
    { by apply run_error_fails in Hr. }
    specialize (Htok' Hshort Htok).
    assert (l' ≠ L.error) as Hne.
    { intros ->. by apply run_error_fails in Hr. }
    pose proof (step_cursor _ _ _ _ Hs) as Hcur.
    eapply (IH l' sp1 st'); try done.
    + destruct Hlay as (_ & _ & _ & _ & _ & _ & Hra & _). by rewrite Hra.
    + by eapply short_text_same_layout.
    + lia.
    + by eapply step_values.
  - injection Hr as -> ->.
    destruct (step_return _ _ _ _ Hs) as [-> | ->]; simpl in Hs;
      apply bind_Some in Hs as (e & sp2 & Hf & Hs); apply ret_Some in Hs as [[= <-] <-].
    + pose proof Hinv as (-> & _). by eapply finish_values.
    + by apply error_frame in Hf as [? _].
Qed.

Lemma read_first_value_values STREAMING first sp l' sp' :
  current_structural sp = first →
  tokens_before first [] sp →
  read_first_value STREAMING sp = Some (goto l', sp') → l' ≠ L.error →
  scalars_stored first sp' (current_structural sp' + 1).
Proof.
  intros Hc Htok Hs Hne a idx ch Ha Hidx Hch.
  pose proof (read_first_value_same_layout _ _ _ _ Hs) as Hlay.
  pose proof (structural_char_same_layout _ _ Hlay) as Hchars.
  destruct Hlay as (Hbuf & Hlen & Hsi & _).
  rewrite (read_first_value_cursor_same _ _ _ _ Hs), Hc in Ha.
  assert (a = first) as -> by lia.
  rewrite Hsi in Hidx. rewrite Hbuf in Hch. rewrite Hchars.
  apply (scalar_stored_layout (parser sp)); [done..|].
  rewrite bool_decide_eq_true_2 by done.
  destruct Htok as (_ & Hloc & _).
  change (k_loc (core_of sp)) with (next_tape_loc sp) in Hloc. rewrite Hc in Hloc.
  rewrite <- Hloc. rewrite <- Hc in Hidx.
  destruct (read_first_value_scalar _ _ _ _ idx ch Hs Hne Hidx Hch) as [Hstr Hnum].
  split.
  - intros Hq. destruct (Hstr Hq) as (body & Hdec & Hw & Hl1 & Ho & Hrec & Hsl).
    exists body, (current_string_buf_loc sp). split_and!; try done. lia.
  - intros Hd. destruct (Hnum Hd) as (x & Hdec & Hw & Hw' & Hl1).
    exists x. split_and!; done.
Qed.

(** After an accepted parse every scalar read is stored on the tape. *)
Lemma accepted_values STREAMING dom_parser doc0 sp' :
  parse_structurals STREAMING dom_parser doc0 = Returned SUCCESS sp' →
  Z.of_nat (length (ret_address dom_parser)) < 2 ^ 32 →
  2 * Z.of_nat (length (structural_indexes dom_parser)) + 2 < 2 ^ 32 →
  scalars_stored (if STREAMING then next_structural_index dom_parser else 0)
    sp' (current_structural sp' + 1).
Proof.
  intros Hp Hcap Hshort.
  set (first := if STREAMING then next_structural_index dom_parser else 0).
  apply parse_structurals_inv in Hp as [(sp1 & l & sp2 & Hst & Hr & Hrun & _)|(_ & [?|?] & _)];
    [|done..].
  pose proof (proj1 (start_cases _ _ _ _ Hst)) as Hl1.
  pose proof (read_first_value_same_layout _ _ _ _ Hr) as Hl2.
  pose proof (start_control _ _ _ Hst eq_refl) as [Hd Hc].
  change (current_structural (initial_parser STREAMING dom_parser doc0)) with first in Hc.
  pose proof (read_first_value_tape_cursor _ _ _ _ Hr) as (_ & _ & Hfirst).
  rewrite Hc in Hfirst.
  pose proof (start_tokens _ _ _ Hst eq_refl eq_refl) as Htok0.
  change (current_structural (initial_parser STREAMING dom_parser doc0)) with first in Htok0.
  assert (Z.of_nat (length (ret_address (parser sp1))) < 2 ^ 32) as Hcap1.
  { destruct Hl1 as (_ & _ & _ & _ & _ & _ & Hra & _). by rewrite Hra. }
  assert (Z.of_nat (length (ret_address (parser sp2))) < 2 ^ 32) as Hcap2.
  { destruct Hl2 as (_ & _ & _ & _ & _ & _ & Hra & _). by rewrite Hra. }
  assert (short_text sp1) as Hshort1.
  { eapply short_text_same_layout; [exact Hl1|]. exact Hshort. }
  assert (short_text sp2) as Hshort2 by (by eapply short_text_same_layout).
  destruct (read_first_value_reads _ _ _ _ _ Hcap1 Hd Hc Hr) as [->|(st & Hinv & Htok1)].
  { by apply run_error_fails in Hrun. }
  assert (l ≠ L.error) as Hne.
  { intros ->. by apply run_error_fails in Hrun. }
  specialize (Htok0 ltac:(lia)). specialize (Htok1 Hshort1 Htok0).
  eapply (run_values first _ l sp2 sp' st); try done.
  - rewrite (read_first_value_cursor_same _ _ _ _ Hr). lia.
  - by eapply read_first_value_values.
Qed.

(** X13. The tape holds the strings and the numbers.  After [SUCCESS] (fewer
    than 2^32 return addresses, fewer than 2^31 - 1 structural indexes),
    for every structural [a] from the first one read up to
    [next_structural_index], starting at offset [idx] of the input: if it
    is a double quote, the input string decodes and the word at the tape
    position of [a] is a [STRING] word whose payload is an offset in the
    string buffer where, below the final string cursor, the length of the
    decoded string is stored in four little-endian bytes, followed by its
    bytes and a NUL; if it is a digit or a minus sign, the number parses
    (from the padded copy of the input when it is the whole document), the
    word at the tape position of [a] has the tag of its kind and a zero
    payload, and the next word holds its 64 bits. *)
Theorem tape_holds_the_scalars (STREAMING : bool) dom_parser doc0 sp' first a idx ch :
  first = (if STREAMING then next_structural_index dom_parser else 0) →
  parse_structurals STREAMING dom_parser doc0 = Returned SUCCESS sp' →
  Z.of_nat (length (ret_address dom_parser)) < 2 ^ 32 →
  2 * Z.of_nat (length (structural_indexes dom_parser)) + 2 < 2 ^ 32 →
  first ≤ a < next_structural_index (parser sp') →
  load (structural_indexes dom_parser) a = Some idx →
  load (buf dom_parser) idx = Some ch →
  scalar_stored dom_parser (bool_decide (a = first))
    (tape (doc (parser sp'))) (string_buf (doc (parser sp')))
    (current_string_buf_loc sp')
    (tape_position (structural_char dom_parser) first a) idx ch.
Proof.
  intros -> Hp Hcap Hshort Ha Hidx Hch.
  pose proof (accepted_values _ _ _ _ Hp Hcap Hshort) as Hall.
  pose proof (parse_structurals_same_layout _ _ _ _ _ Hp) as Hlay.
  pose proof (structural_char_same_layout _ _ Hlay) as Hchars.
  destruct Hlay as (Hbuf & Hlen & Hsi & _). simpl in Hbuf, Hlen, Hsi.
  rewrite (accepted_cursor _ _ _ _ Hp Hcap) in Ha by lia.
  change (structural_char dom_parser)
    with (structural_char (parser (initial_parser STREAMING dom_parser doc0))).
  rewrite <- Hchars.
  apply (scalar_stored_layout (parser sp')); [done..|].
  apply Hall; [done|by rewrite Hsi|by rewrite Hbuf].
Qed.

End scalars.

(** * The theorems at concrete documents *)

#[local] Existing Instance Sample.sample.

Lemma parse_string_layout_witness :
  ∃ sp' w,
    parse_string (H := Sample.sample) false (Examples.at_start Examples.root_string)
      = Some (false, sp')
    ∧ load (tape (doc (parser sp'))) 0 = Some w
    ∧ tag_of w = 34
    ∧ payload_of w = 0
    ∧ le32_value (bytes_at (string_buf (doc (parser sp'))) 0 4) = Some 2
    ∧ bytes_at (string_buf (doc (parser sp'))) (0 + 4) 2 = [97; 98]
    ∧ load (string_buf (doc (parser sp'))) (0 + 4 + 2) = Some 0
    ∧ current_string_buf_loc sp' = 0 + 4 + 2 + 1.
Proof.
  apply (parse_string_layout (H := Sample.sample) false
           (Examples.at_start Examples.root_string) 0 [97; 98]).
  - reflexivity.
  - reflexivity.
  - simpl. lia.
  - simpl. lia.
  - simpl. lia.
  - simpl. lia.
Defined.

Lemma finish_checks_depth_witness :
  (∃ sp', Examples.parse Examples.empty_object = Returned SUCCESS sp'
          ∧ depth sp' = 0
          ∧ L.finish ∈ (parse_trace (H := Sample.sample) false
                          Examples.empty_object Examples.blank).*1)
  ∧ (∃ sp', run (H := Sample.sample) 1 L.finish
              (Examples.after_first_value Examples.empty_object)
            = Returned TAPE_ERROR sp'
            ∧ parser_error (parser sp') = TAPE_ERROR
            ∧ depth sp' = 1).
Proof.
  destruct (finish_checks_depth (H := Sample.sample)) as [Hsuccess Hfinish].
  split.
  - eexists. split; [vm_compute; reflexivity|].
    apply Hsuccess. vm_compute. reflexivity.
  - destruct (end_document (H := Sample.sample)
                (Examples.after_first_value Examples.empty_object))
      as [[[] sp1]|] eqn:Hend; [|by vm_compute in Hend].
    assert (depth sp1 = 1) as Hd by (vm_compute in Hend; by simplify_eq).
    destruct (Hfinish 0%nat _ _ Hend) as [Hopen _].
    destruct Hopen as (sp' & Hrun & Herr & Hdepth); [lia|].
    exists sp'. split_and!; [done..|lia].
Defined.

Lemma error_classification_witness :
  (∃ sp', error (Examples.after_first_value Examples.shallow_array)
          = Some (DEPTH_ERROR, sp')
          ∧ parser_error (parser sp') = DEPTH_ERROR)
  ∧ (∃ e sp', error (Examples.after_first_value Examples.bad_atom) = Some (e, sp')
              ∧ parser_error (parser sp') = e
              ∧ e = T_ATOM_ERROR)
  ∧ run (H := Sample.sample) 1 L.error (Examples.after_first_value Examples.bad_atom)
    = match error (Examples.after_first_value Examples.bad_atom) with
      | Some (e, sp') => Returned e sp'
      | None => Undefined
      end.
Proof.
  split_and!.
  - apply (error_classification (H := Sample.sample)).
    vm_compute. discriminate.
  - destruct (error_classification (H := Sample.sample)
                (Examples.after_first_value Examples.bad_atom)) as (_ & Hbyte & _).
    destruct (Hbyte ltac:(vm_compute; reflexivity) 0 116 ltac:(reflexivity) ltac:(reflexivity))
      as (e & sp' & He & Hp & _ & _ & Ht & _).
    exists e, sp'. split_and!; [done..|]. by apply Ht.
  - apply (error_classification (H := Sample.sample)).
Defined.

Lemma root_array_tail_check_witness :
  (∃ sp', Examples.parse Examples.open_array = Returned TAPE_ERROR sp'
          ∧ current_structural sp' = 0
          ∧ tape (doc (parser sp')) = tape Examples.blank
          ∧ string_buf (doc (parser sp')) = string_buf Examples.blank)
  ∧ (∃ sp2, parse_structurals (H := Sample.sample) true Examples.open_array Examples.blank
            = run (fuel_for sp2) L.array_begin sp2
            ∧ current_structural sp2 = 0
            ∧ depth sp2 = 2
            ∧ tape (doc (parser sp2)) = tape Examples.blank).
Proof.
  destruct (root_array_tail_check (H := Sample.sample) Examples.open_array Examples.blank)
    as [Hcheck Hstreaming].
  split.
  - apply (Hcheck 0 1 49); try reflexivity; simpl; try lia.
    unfold Ch.rbracket. lia.
  - apply (Hstreaming 0); try reflexivity; simpl; lia.
Defined.

(** With [max_depth = 2] the root array already exhausts the depth: the
    parse of [[1] ends in [DEPTH_ERROR], not in [TAPE_ERROR]. *)
Lemma root_array_tail_check_counterexample :
  load (structural_indexes Examples.shallow_array) 0 = Some 0
  ∧ load (buf Examples.shallow_array) 0 = Some Ch.lbracket
  ∧ load (structural_indexes Examples.shallow_array)
      (wrap32 (n_structural_indexes Examples.shallow_array - 1)) = Some 1
  ∧ load (buf Examples.shallow_array) 1 = Some 49
  ∧ 49 ≠ Ch.rbracket
  ∧ ¬ (∃ sp', Examples.parse Examples.shallow_array = Returned TAPE_ERROR sp')
  ∧ ∃ sp', Examples.parse Examples.shallow_array = Returned DEPTH_ERROR sp'.
Proof.
  split_and!; try reflexivity.
  - unfold Ch.rbracket. lia.
  - intros [sp' Hp]. vm_compute in Hp. discriminate.
  - eexists. vm_compute. reflexivity.
Qed.

Lemma start_empty_or_root_witness :
  Examples.parse Examples.nothing
  = Returned EMPTY (set_parser (set_parser_error EMPTY (parser (Examples.at_start Examples.nothing)))
                      (Examples.at_start Examples.nothing))
  ∧ (∃ sp1,
       start (addr_finish addresses) (Examples.at_start Examples.empty_object)
       = Some (SUCCESS, sp1)
       ∧ load (containing_scope (parser sp1)) 0 = Some {| tape_index := 0; count := 0 |}
       ∧ load (ret_address (parser sp1)) 0 = Some (addr_finish addresses)
       ∧ depth sp1 = 1
       ∧ next_tape_loc sp1 = 1
       ∧ tape (doc (parser sp1)) = tape Examples.blank).
Proof.
  split.
  - apply (start_empty_or_root (H := Sample.sample) false Examples.nothing Examples.blank).
    simpl. lia.
  - destruct (start_empty_or_root (H := Sample.sample) false Examples.empty_object Examples.blank)
      as [_ Hroot].
    destruct Hroot as (sp1 & Hs & H1 & H2 & H3 & H4 & H5 & _); [simpl; lia..|].
    exists sp1. split_and!; done.
Defined.

Lemma next_structural_index_assigned_by_finish_witness :
  (∃ e sp', finish (H := Sample.sample) (Examples.after_first_value Examples.empty_object)
            = Some (e, sp')
            ∧ e = TAPE_ERROR
            ∧ (e = SUCCESS ∨ e = TAPE_ERROR)
            ∧ next_structural_index (parser sp')
              = wrap32 (current_structural
                          (Examples.after_first_value Examples.empty_object) + 1))
  ∧ (∃ sp', Examples.parse Examples.empty_object = Returned SUCCESS sp'
            ∧ next_structural_index (parser sp') = wrap32 (current_structural sp' + 1))
  ∧ (∃ sp', Examples.parse Examples.open_array = Returned TAPE_ERROR sp'
            ∧ next_structural_index (parser sp')
              = next_structural_index Examples.open_array).
Proof.
  destruct (next_structural_index_assigned_by_finish (H := Sample.sample)) as [Hfinish Hparse].
  split_and!.
  - eexists _, _. split; [vm_compute; reflexivity|]. split; [reflexivity|].
    eapply Hfinish. vm_compute. reflexivity.
  - eexists. split; [vm_compute; reflexivity|].
    apply (proj1 (Hparse false Examples.empty_object Examples.blank SUCCESS _
                    ltac:(vm_compute; reflexivity))).
    apply list_elem_of_lookup. exists 2%nat. vm_compute. reflexivity.
  - eexists. split; [vm_compute; reflexivity|].
    apply (proj2 (Hparse false Examples.open_array Examples.blank TAPE_ERROR _
                    ltac:(vm_compute; reflexivity))).
    vm_compute. intros Hin. apply list_elem_of_In in Hin. simpl in Hin.
    destruct Hin as [?|[]]. discriminate.
Defined.

Lemma parser_error_after_parse_witness :
  (∃ sp', Examples.parse Examples.empty_object = Returned SUCCESS sp'
          ∧ parser_error (parser sp') = UNINITIALIZED)
  ∧ (∃ sp', Examples.parse Examples.open_array = Returned TAPE_ERROR sp'
            ∧ parser_error (parser sp') = TAPE_ERROR).
Proof.
  destruct (parser_error_after_parse (H := Sample.sample)) as [_ Hparse].
  split.
  - eexists. split; [vm_compute; reflexivity|].
    apply (proj1 (Hparse false Examples.empty_object Examples.blank SUCCESS _
                    ltac:(vm_compute; reflexivity)) eq_refl).
  - eexists. split; [vm_compute; reflexivity|].
    apply (proj2 (Hparse false Examples.open_array Examples.blank TAPE_ERROR _
                    ltac:(vm_compute; reflexivity))).
    discriminate.
Defined.

Lemma scope_words_paired_witness :
  ∃ sp', Examples.parse Examples.nested = Returned SUCCESS sp'
         ∧ tape_document (closer_before_index (tape (doc (parser sp'))))
             (tape (doc (parser sp'))) (next_tape_loc sp').
Proof.
  eexists. split; [vm_compute; reflexivity|].
  apply (scope_words_paired false Examples.nested Examples.blank).
  - vm_compute. reflexivity.
  - simpl. lia.
Defined.

Lemma scope_counts_saturate_witness :
  ∃ sp', Examples.parse Examples.nested = Returned SUCCESS sp'
         ∧ tape_document (count_stored_below_root (tape (doc (parser sp'))))
             (tape (doc (parser sp'))) (next_tape_loc sp').
Proof.
  eexists. split; [vm_compute; reflexivity|].
  apply (scope_counts_saturate false Examples.nested Examples.blank).
  - vm_compute. reflexivity.
  - simpl. lia.
Defined.

(** The tape of [{}] is [ROOT(4), START_OBJECT(3), END_OBJECT(1), ROOT(0)]:
    the index stored in the opening word of the object is 3, where the
    closing word of the root is, and the index stored in the opening word of
    the root is 4, past the last word. *)
Lemma closer_at_index_counterexample :
  (∃ sp', Examples.parse Examples.empty_object = Returned SUCCESS sp')
  ∧ take 4 (Examples.final_tape (Examples.parse Examples.empty_object))
    = [tape_word ROOT 4; tape_word START_OBJECT 3; tape_word END_OBJECT 1; tape_word ROOT 0]
  ∧ Examples.final_cursor (Examples.parse Examples.empty_object) = 4
  ∧ ¬ tape_document
        (closer_at_index (Examples.final_tape (Examples.parse Examples.empty_object)))
        (Examples.final_tape (Examples.parse Examples.empty_object))
        (Examples.final_cursor (Examples.parse Examples.empty_object)).
Proof.
  split_and!.
  - eexists. vm_compute. reflexivity.
  - vm_compute. reflexivity.
  - vm_compute. reflexivity.
  - intros (k & Hc & _ & _ & _ & (w & w' & Hw & _ & Hw' & Htag & _)).
    vm_compute in Hw. injection Hw as <-.
    vm_compute in Hw'. injection Hw' as <-.
    vm_compute in Htag. discriminate.
Qed.

(** In the tape of [{}] the root scope has one child, the object, and its
    opening word stores the count 0. *)
Lemma count_stored_counterexample :
  (∃ sp', Examples.parse Examples.empty_object = Returned SUCCESS sp')
  ∧ take 4 (Examples.final_tape (Examples.parse Examples.empty_object))
    = [tape_word ROOT 4; tape_word START_OBJECT 3; tape_word END_OBJECT 1; tape_word ROOT 0]
  ∧ count_of (tape_word ROOT 4) = 0
  ∧ ¬ tape_document
        (count_stored (Examples.final_tape (Examples.parse Examples.empty_object)))
        (Examples.final_tape (Examples.parse Examples.empty_object))
        (Examples.final_cursor (Examples.parse Examples.empty_object)).
Proof.
  split_and!.
  - eexists. vm_compute. reflexivity.
  - vm_compute. reflexivity.
  - vm_compute. reflexivity.
  - intros (k & Hc & _ & _ & _ & (w & Hw & Hsmall & _)).
    vm_compute in Hw. injection Hw as <-.
    specialize (Hsmall ltac:(lia)). vm_compute in Hsmall. discriminate.
Qed.

(** ** The further properties at concrete documents *)

Lemma tape_words_per_structural_witness :
  ∃ sp', Examples.parse Examples.nested = Returned SUCCESS sp'
         ∧ next_tape_loc sp' ≤ 2 * (current_structural sp' - 0 + 1) + 2
         ∧ next_tape_loc sp'
           ≤ 2 * Z.of_nat (length (structural_indexes Examples.nested)) + 2.
Proof.
  eexists. split; [vm_compute; reflexivity|].
  apply (tape_words_per_structural false Examples.nested Examples.blank SUCCESS).
  vm_compute. reflexivity.
Defined.

Lemma depth_error_exactly_at_limit_witness :
  ∃ sp', Examples.parse Examples.shallow_array = Returned DEPTH_ERROR sp'
         ∧ (DEPTH_ERROR = DEPTH_ERROR ↔ max_depth Examples.shallow_array ≤ depth sp').
Proof.
  eexists. split; [vm_compute; reflexivity|].
  apply (depth_error_exactly_at_limit false Examples.shallow_array Examples.blank).
  - vm_compute. reflexivity.
  - simpl. lia.
  - discriminate.
  - discriminate.
Defined.

Lemma string_buf_append_only_witness :
  ∃ sp sp',
    parse_states false Examples.nested Examples.blank !! 2%nat = Some sp
    ∧ current_string_buf_loc sp = 6
    ∧ Examples.parse Examples.nested = Returned SUCCESS sp'
    ∧ string_buf_extends sp sp'.
Proof.
  eexists _, _. split; [vm_compute; reflexivity|].
  split; [reflexivity|]. split; [vm_compute; reflexivity|].
  apply (string_buf_append_only false Examples.nested Examples.blank SUCCESS).
  - vm_compute. reflexivity.
  - apply list_elem_of_lookup. exists 2%nat. vm_compute. reflexivity.
Defined.

Lemma finish_only_accepts_witness :
  ∃ sp', Examples.parse Examples.empty_object = Returned SUCCESS sp'
         ∧ (∀ sp, (L.finish, sp) ∈ parse_trace false Examples.empty_object Examples.blank →
                  depth sp = 1)
         ∧ (L.finish ∈ (parse_trace false Examples.empty_object Examples.blank).*1 →
            SUCCESS = SUCCESS).
Proof.
  eexists. split; [vm_compute; reflexivity|].
  eapply (finish_only_accepts false Examples.empty_object Examples.blank SUCCESS).
  - vm_compute. reflexivity.
  - simpl. lia.
Defined.

Lemma end_scope_words_witness :
  ∃ sp' w w',
    end_scope START_ARRAY END_ARRAY Cases.crowded_array = Some (tt, sp')
    ∧ depth sp' = 2 - 1
    ∧ next_tape_loc sp' = 2 + 1
    ∧ load (tape (doc (parser sp'))) 1 = Some w
    ∧ tag_of w = tape_type_code START_ARRAY
    ∧ index_of w = 2 + 1
    ∧ count_of w = Z.min 16777221 16777215
    ∧ load (tape (doc (parser sp'))) 2 = Some w'
    ∧ tag_of w' = tape_type_code END_ARRAY
    ∧ payload_of w' = 1
    ∧ ∀ i, i ≠ 1 → i ≠ 2 →
           load (tape (doc (parser sp'))) i
           = load (tape (doc (parser Cases.crowded_array))) i.
Proof.
  apply (end_scope_words START_ARRAY END_ARRAY Cases.crowded_array
           {| tape_index := 1; count := 16777221 |}).
  - vm_compute. split; discriminate || reflexivity.
  - vm_compute. reflexivity.
  - vm_compute. split; discriminate || reflexivity.
  - vm_compute. reflexivity.
  - vm_compute. reflexivity.
  - vm_compute. discriminate.
Defined.

Lemma root_number_without_memory_witness :
  ∃ sp', parse_structurals (H := Cases.without_memory) false Cases.root_number
           Examples.blank = Returned NUMBER_ERROR sp'
         ∧ parser_error (parser sp') = NUMBER_ERROR
         ∧ next_tape_loc sp' = 1
         ∧ tape (doc (parser sp')) = tape Examples.blank.
Proof.
  apply (root_number_without_memory (H := Cases.without_memory) false
           Cases.root_number Examples.blank 0 55).
  - vm_compute. reflexivity.
  - reflexivity.
  - reflexivity.
  - right. lia.
  - reflexivity.
  - vm_compute. reflexivity.
  - vm_compute. reflexivity.
  - vm_compute. reflexivity.
Defined.

Lemma accepted_text_is_one_value_witness :
  ∃ sp', Examples.parse Examples.nested = Returned SUCCESS sp'
         ∧ next_structural_index (parser sp') = current_structural sp' + 1
         ∧ value_in (structural_char Examples.nested) 0
             (next_structural_index (parser sp')).
Proof.
  eexists. split; [vm_compute; reflexivity|].
  apply (accepted_text_is_one_value false Examples.nested Examples.blank).
  - vm_compute. reflexivity.
  - vm_compute. reflexivity.
  - vm_compute. reflexivity.
Defined.

Lemma streaming_calls_parse_consecutive_values_witness :
  ∃ sp1 sp2,
    parse_structurals true Cases.two_documents Examples.blank = Returned SUCCESS sp1
    ∧ parse_structurals true (parser sp1) Examples.blank = Returned SUCCESS sp2
    ∧ next_structural_index (parser sp1) = 3
    ∧ next_structural_index (parser sp2) = 5
    ∧ value_in (structural_char Cases.two_documents)
        (next_structural_index Cases.two_documents) (next_structural_index (parser sp1))
    ∧ value_in (structural_char Cases.two_documents)
        (next_structural_index (parser sp1)) (next_structural_index (parser sp2)).
Proof.
  eexists _, _. split; [vm_compute; reflexivity|].
  split; [vm_compute; reflexivity|].
  split; [reflexivity|]. split; [reflexivity|].
  apply (streaming_calls_parse_consecutive_values Cases.two_documents
           Examples.blank Examples.blank).
  - vm_compute. reflexivity.
  - vm_compute. reflexivity.
  - vm_compute. reflexivity.
  - vm_compute. reflexivity.
Defined.

Lemma parse_leaves_input_untouched_witness :
  ∃ sp', Examples.parse Examples.nested = Returned SUCCESS sp'
         ∧ buf (parser sp') = buf Examples.nested
         ∧ len (parser sp') = len Examples.nested
         ∧ structural_indexes (parser sp') = structural_indexes Examples.nested
         ∧ n_structural_indexes (parser sp') = n_structural_indexes Examples.nested
         ∧ max_depth (parser sp') = max_depth Examples.nested
         ∧ length (containing_scope (parser sp'))
           = length (containing_scope Examples.nested)
         ∧ length (ret_address (parser sp')) = length (ret_address Examples.nested)
         ∧ length (tape (doc (parser sp'))) = length (tape Examples.blank)
         ∧ length (string_buf (doc (parser sp'))) = length (string_buf Examples.blank).
Proof.
  eexists. split; [vm_compute; reflexivity|].
  apply (parse_leaves_input_untouched false Examples.nested Examples.blank SUCCESS).
  vm_compute. reflexivity.
Defined.

Lemma tape_lists_the_tokens_witness :
  ∃ sp', Examples.parse Examples.nested = Returned SUCCESS sp'
         ∧ token_list 0 (structural_char Examples.nested)
             (next_structural_index (parser sp'))
             (tape (doc (parser sp'))) (next_tape_loc sp').
Proof.
  eexists. split; [vm_compute; reflexivity|].
  apply (tape_lists_the_tokens false Examples.nested Examples.blank).
  - vm_compute. reflexivity.
  - vm_compute. reflexivity.
  - vm_compute. reflexivity.
Defined.

Lemma well_formed_text_is_accepted_witness :
  ∃ sp', parse_structurals false Examples.nested (Sample.fresh_document 64)
         = Returned SUCCESS sp'
         ∧ next_structural_index (parser sp') = 9.
Proof.
  apply (well_formed_text_is_accepted false Examples.nested
           (Sample.fresh_document 64) 0 9 6).
  - reflexivity.
  - apply (value_in_object _ 0 1 8);
      [reflexivity|apply members_in_nil|reflexivity|reflexivity| |reflexivity].
    apply (value_in_array _ 3 6 7); [reflexivity| | |reflexivity].
    + apply (elements_in_snoc _ 4 4 5); [apply elements_in_nil| |reflexivity].
      apply (value_in_scalar _ 4 49); [reflexivity|].
      right; right; right; right; reflexivity.
    + apply (value_in_scalar _ 6 50); [reflexivity|].
      right; right; right; right; reflexivity.
  - reflexivity.
  - reflexivity.
  - intros _ Hbracket. vm_compute in Hbracket. discriminate.
  - vm_compute. reflexivity.
  - by vm_compute.
  - by vm_compute.
  - by vm_compute.
  - by vm_compute.
  - vm_compute. reflexivity.
  - lia.
  - by vm_compute.
Defined.

Lemma tape_holds_the_scalars_witness :
  ∃ sp', Examples.parse Examples.nested = Returned SUCCESS sp'
         ∧ scalar_stored Examples.nested (bool_decide (1 = 0))
             (tape (doc (parser sp'))) (string_buf (doc (parser sp')))
             (current_string_buf_loc sp')
             (tape_position (structural_char Examples.nested) 0 1) 1 34.
Proof.
  eexists. split; [vm_compute; reflexivity|].
  apply (tape_holds_the_scalars false Examples.nested Examples.blank _ 0 1 1 34).
  - reflexivity.
  - vm_compute. reflexivity.
  - vm_compute. reflexivity.
  - vm_compute. reflexivity.
  - by vm_compute.
  - reflexivity.
  - reflexivity.
Defined.

Lemma start_scope_depth_limit_witness :
  (∃ failed sp',
     start_scope (addr_finish addresses) (Examples.at_start Examples.shallow_array)
       = Some (failed, sp')
     ∧ load (containing_scope (parser sp')) 0 = Some {| tape_index := 0; count := 0 |}
     ∧ next_tape_loc sp' = 1
     ∧ tape (doc (parser sp')) = tape Examples.blank
     ∧ load (ret_address (parser sp')) 0 = Some 1
     ∧ depth sp' = 1
     ∧ (failed = true ↔ max_depth (parser sp') ≤ depth sp'))
  ∧ (∃ sp', parse_structurals true Cases.two_deep Examples.blank
            = Returned DEPTH_ERROR sp'
            ∧ parser_error (parser sp') = DEPTH_ERROR)
  ∧ (∃ sp', Examples.parse Examples.shallow_array = Returned DEPTH_ERROR sp'
            ∧ parser_error (parser sp') = DEPTH_ERROR)
  ∧ (∃ sp', Examples.parse (Sample.dom_parser [91; 93] [0; 1] 1)
            = Returned DEPTH_ERROR sp'
            ∧ parser_error (parser sp') = DEPTH_ERROR).
Proof.
  destruct (start_scope_depth_limit (H := Sample.sample)) as (Hscope & Htext & Hdocument).
  split_and!.
  - apply (Hscope (addr_finish addresses) (Examples.at_start Examples.shallow_array)).
    + simpl. lia.
    + simpl. lia.
  - apply (Htext true Cases.two_deep Examples.blank 0 1 0).
    + reflexivity.
    + exists (structural_char Cases.two_deep_closed), 5. split_and!.
      * apply (value_in_array _ 0 1 4); [reflexivity|apply elements_in_nil| |reflexivity].
        apply (value_in_array _ 1 2 3); [reflexivity|apply elements_in_nil| |reflexivity].
        apply (value_in_scalar _ 2 49); [reflexivity|].
        right; right; right; right; reflexivity.
      * lia.
      * intros a Ha. assert (a = 0 ∨ a = 1) as [-> | ->] by lia; reflexivity.
    + vm_compute. reflexivity.
    + vm_compute. discriminate.
    + by vm_compute.
    + intros HS. discriminate HS.
    + by vm_compute.
    + by vm_compute.
    + by vm_compute.
    + by vm_compute.
    + vm_compute. reflexivity.
    + lia.
    + by vm_compute.
  - apply (Htext false Examples.shallow_array Examples.blank 0 0 0).
    + reflexivity.
    + exists (structural_char Cases.two_deep_closed), 5. split_and!.
      * apply (value_in_array _ 0 1 4); [reflexivity|apply elements_in_nil| |reflexivity].
        apply (value_in_array _ 1 2 3); [reflexivity|apply elements_in_nil| |reflexivity].
        apply (value_in_scalar _ 2 49); [reflexivity|].
        right; right; right; right; reflexivity.
      * lia.
      * intros a Ha. assert (a = 0) as -> by lia. reflexivity.
    + vm_compute. reflexivity.
    + vm_compute. discriminate.
    + by vm_compute.
    + intros _ Hlt. lia.
    + by vm_compute.
    + by vm_compute.
    + by vm_compute.
    + by vm_compute.
    + vm_compute. reflexivity.
    + lia.
    + by vm_compute.
  - apply (Hdocument false (Sample.dom_parser [91; 93] [0; 1] 1) Examples.blank).
    + simpl. lia.
    + by vm_compute.
    + by vm_compute.
    + by vm_compute.
Defined.

(** The text [[[1] with [max_depth = 3].  Its second bracket brings the
    nesting, the document included, to [max_depth]; but a non-streaming
    call finds that the last structural is not a closing bracket when it
    opens the root array, and returns [TAPE_ERROR].  And in [[x,[[] the
    byte [x] is rejected with [TAPE_ERROR] before the two brackets that
    would reach the limit are read. *)
Lemma start_scope_depth_limit_counterexample :
  (max_depth Cases.two_deep = 3
   ∧ nesting (structural_char Cases.two_deep) 0 2 + 1 = max_depth Cases.two_deep
   ∧ ¬ (∃ sp', parse_structurals false Cases.two_deep Examples.blank
               = Returned DEPTH_ERROR sp')
   ∧ ∃ sp', parse_structurals false Cases.two_deep Examples.blank
            = Returned TAPE_ERROR sp')
  ∧ (nesting (structural_char (Sample.dom_parser [91; 120; 44; 91; 91] [0; 1; 2; 3; 4] 3))
       0 5 + 1 = 4
     ∧ ¬ (∃ sp', parse_structurals true
                   (Sample.dom_parser [91; 120; 44; 91; 91] [0; 1; 2; 3; 4] 3)
                   Examples.blank
                 = Returned DEPTH_ERROR sp')
     ∧ ∃ sp', parse_structurals true
                (Sample.dom_parser [91; 120; 44; 91; 91] [0; 1; 2; 3; 4] 3)
                Examples.blank
              = Returned TAPE_ERROR sp').
Proof.
  split_and!; try reflexivity.
  - intros [sp' Hp]. vm_compute in Hp. discriminate.
  - eexists. vm_compute. reflexivity.
  - intros [sp' Hp]. vm_compute in Hp. discriminate.
  - eexists. vm_compute. reflexivity.
Qed.
